(** * Worm-algorithm move engine (move.cpp) and classical Monte Carlo
      (cmc.cpp): a shallow embedding and its verified properties.

    The C++ sources are embedded as Rocq functions.  Stateful code is written
    in a small state monad over a record holding the [Path], the time-step
    shift of the action, the random source and the fields of the move object.
    Loops that follow the bead links ([do ... while] over [path.next]) take a
    fuel argument; a run that exhausts it has no result.

    The C++ type [double] is an interface ([Double]) with two instances: the
    IEEE-754 binary64 numbers of the kernel ([PrimFloat]) and the real
    numbers (the usual idealisation, used where a claim is a statement of
    real arithmetic).  The collaborators whose sources are not part of this
    development (MTRand, Container, Action, LookupTable, Worm, Potential,
    constants) are the fields of an environment record. *)

From Stdlib Require Import ZArith Reals Lra Lia Floats.
From stdpp Require Import base option gmap list strings.

#[local] Open Scope Z_scope.

(* ===================================================================== *)
(** * Arithmetic on [double]                                              *)
(* ===================================================================== *)

(** The operations move.cpp and cmc.cpp use on [double]; [of_int] is the
    conversion from [int] (as in [1.0*stageLength]). *)
Class Double (D : Type) := {
  of_int : Z -> D;
  dadd : D -> D -> D;
  dsub : D -> D -> D;
  dmul : D -> D -> D;
  ddiv : D -> D -> D;
  dopp : D -> D;
  dexp : D -> D;
  dlog : D -> D;
  dsqrt : D -> D;
  dpow : D -> Z -> D;
  dltb : D -> D -> bool;
  dleb : D -> D -> bool
}.

Declare Scope double_scope.
Delimit Scope double_scope with D.
Infix "+" := dadd : double_scope.
Infix "-" := dsub : double_scope.
Infix "*" := dmul : double_scope.
Infix "/" := ddiv : double_scope.
Notation "- x" := (dopp x) : double_scope.
Infix "<?" := dltb : double_scope.
Infix "<=?" := dleb : double_scope.

Section DoubleOps.
  Context {D : Type} `{Double D}.

  (** The literals [0.0], [1.0], [2.0] and [0.5] of the sources. *)
Definition d0 : D := of_int 0.
Definition d1 : D := of_int 1.
Definition d2 : D := of_int 2.
Definition dhalf : D := (d1 / d2)%D.

  (** [x >= y] on double. *)
Definition dgeb (x y : D) : bool := (y <=? x)%D.

  (** [std::min(x, y)], i.e. [(y < x) ? y : x]. *)
Definition dmin (x y : D) : D := if (y <? x)%D then y else x.

  (** [dVec], a [TinyVector<double,NDIM>]. *)
Definition dVec : Type := list D.

Definition vadd (u v : dVec) : dVec := zip_with dadd u v.
Definition vsub (u v : dVec) : dVec := zip_with dsub u v.
Definition vscale (c : D) (u : dVec) : dVec := map (fun x => (x * c)%D) u.
End DoubleOps.

Arguments dVec D : clear implicits.

(** [int -> double] on binary64. *)
Definition float_of_Z (z : Z) : float :=
  match z with
  | Zneg p => PrimFloat.opp (PrimFloat.of_uint63 (Uint63.of_Z (Zpos p)))
  | _ => PrimFloat.of_uint63 (Uint63.of_Z z)
  end.

(** [pow(x, n)] for an integer exponent, by repeated multiplication. *)
Definition float_pow (x : float) (n : Z) : float :=
  Z.iter n (PrimFloat.mul x) (float_of_Z 1).

(** IEEE-754 binary64: the arithmetic is the kernel's; [exp] and [log] come
    from the C library and are arguments of the instance. *)
Definition Double_float (fexp flog : float -> float) : Double float := {|
  of_int := float_of_Z;
  dadd := PrimFloat.add;
  dsub := PrimFloat.sub;
  dmul := PrimFloat.mul;
  ddiv := PrimFloat.div;
  dopp := PrimFloat.opp;
  dexp := fexp;
  dlog := flog;
  dsqrt := PrimFloat.sqrt;
  dpow := float_pow;
  dltb := PrimFloat.ltb;
  dleb := PrimFloat.leb
|}.

Definition Rltb (x y : R) : bool := if Rlt_dec x y then true else false.
Definition Rleb (x y : R) : bool := if Rle_dec x y then true else false.

(** The real numbers: [double] without rounding. *)
#[export] Instance Double_R : Double R := {|
  of_int := IZR;
  dadd := Rplus;
  dsub := Rminus;
  dmul := Rmult;
  ddiv := Rdiv;
  dopp := Ropp;
  dexp := exp;
  dlog := ln;
  dsqrt := R_sqrt.sqrt;
  dpow := powerRZ;
  dltb := Rltb;
  dleb := Rleb
|}.


(** [ipow] of common.h, [floor(pow(1.0*base,1.0*power) + EPS)]: the integer
    power, for the non-negative exponents it is called with. *)
Definition ipow (base power : Z) : Z := base ^ power.

(* ===================================================================== *)
(** * The path: beads, links, per-slice counts and the worm              *)
(* ===================================================================== *)

(** [beadLocator], a [TinyVector<int,2>]: (time slice, bead number). *)
Definition beadLocator : Type := (Z * Z)%type.

(** [XXX] of common.h ([#define XXX -1]): the locator with both components
    [-1]. *)
Definition XXX : beadLocator := (-1, -1).

Definition beq (a b : beadLocator) : bool := bool_decide (a = b).

(** The worm record of the data model. *)
Record Worm : Type := mkWorm {
  worm_head : beadLocator;
  worm_tail : beadLocator;
  worm_length : Z;
  worm_gap : Z;
  special1 : beadLocator;
  special2 : beadLocator;
  isConfigDiagonal : bool
}.

(** Modelled from the spec: the Path store (path.h and path.cpp are not part
    of the sources).  For each live bead a position, a forward link and a
    backward link, each a locator or [XXX]; per slice the count of live
    beads; and the worm.  The live beads are the keys of [beads]. *)
Record Path (D : Type) : Type := mkPath {
  beads : gmap beadLocator (dVec D);
  nextLink : gmap beadLocator beadLocator;
  prevLink : gmap beadLocator beadLocator;
  numBeadsAtSlice : gmap Z Z;
  worm : Worm
}.
Arguments mkPath {D}.
Arguments beads {D}.
Arguments nextLink {D}.
Arguments prevLink {D}.
Arguments numBeadsAtSlice {D}.
Arguments worm {D}.

Section PathOps.
  Context {D : Type}.
  Implicit Types (p : Path D) (b c : beadLocator) (w : Worm).

Definition set_beads (f : gmap beadLocator (dVec D) -> gmap beadLocator (dVec D)) p : Path D :=
    mkPath (f (beads p)) (nextLink p) (prevLink p) (numBeadsAtSlice p) (worm p).
Definition set_nextLink (f : gmap beadLocator beadLocator -> gmap beadLocator beadLocator) p : Path D :=
    mkPath (beads p) (f (nextLink p)) (prevLink p) (numBeadsAtSlice p) (worm p).
Definition set_prevLink (f : gmap beadLocator beadLocator -> gmap beadLocator beadLocator) p : Path D :=
    mkPath (beads p) (nextLink p) (f (prevLink p)) (numBeadsAtSlice p) (worm p).
Definition set_numBeadsAtSlice (f : gmap Z Z -> gmap Z Z) p : Path D :=
    mkPath (beads p) (nextLink p) (prevLink p) (f (numBeadsAtSlice p)) (worm p).
Definition set_worm (f : Worm -> Worm) p : Path D :=
    mkPath (beads p) (nextLink p) (prevLink p) (numBeadsAtSlice p) (f (worm p)).

Definition set_head b w : Worm :=
    mkWorm b (worm_tail w) (worm_length w) (worm_gap w) (special1 w) (special2 w) (isConfigDiagonal w).
Definition set_tail b w : Worm :=
    mkWorm (worm_head w) b (worm_length w) (worm_gap w) (special1 w) (special2 w) (isConfigDiagonal w).
Definition set_special1 b w : Worm :=
    mkWorm (worm_head w) (worm_tail w) (worm_length w) (worm_gap w) b (special2 w) (isConfigDiagonal w).
Definition set_special2 b w : Worm :=
    mkWorm (worm_head w) (worm_tail w) (worm_length w) (worm_gap w) (special1 w) b (isConfigDiagonal w).
Definition set_isConfigDiagonal (d : bool) w : Worm :=
    mkWorm (worm_head w) (worm_tail w) (worm_length w) (worm_gap w) (special1 w) (special2 w) d.

  (** Modelled from the spec: [Worm::reset] (worm.cpp is not part of the
      sources) returns the worm to the values of a configuration without a
      worm: head, tail and both special markers [XXX], length and gap 0.  The
      diagonality flag is assigned by the moves themselves. *)
Definition worm_reset w : Worm :=
    mkWorm XXX XXX 0 0 XXX XXX (isConfigDiagonal w).

  (** [worm.beadOn(b)]: the bead-on bit. *)
Definition beadOn p b : bool := bool_decide (is_Some (beads p !! b)).

  (** [path(b)], the position of a bead. *)
Definition pathPos p b : dVec D := default [] (beads p !! b).

  (** [path.next(b)] and [path.prev(b)], read. *)
Definition next p b : beadLocator := default XXX (nextLink p !! b).
Definition prev p b : beadLocator := default XXX (prevLink p !! b).

  (** [path.next(b,k)] and [path.prev(b,k)]: [k] links forward, backward. *)
Definition nextN p b (k : Z) : beadLocator := Nat.iter (Z.to_nat k) (next p) b.
Definition prevN p b (k : Z) : beadLocator := Nat.iter (Z.to_nat k) (prev p) b.

  (** [path.numBeadsAtSlice(s)]. *)
Definition numBeads p (s : Z) : Z := default 0 (numBeadsAtSlice p !! s).

  (** [path.updateBead(b,x)]: a new position for a live bead. *)
Definition updateBead p b (x : dVec D) : Path D := set_beads (alter (fun _ => x) b) p.

  (** [path.next(b) = c] and [path.prev(b) = c], written through the
      reference the accessors return. *)
Definition setNext p b c : Path D := set_nextLink (alter (fun _ => c) b) p.
Definition setPrev p b c : Path D := set_prevLink (alter (fun _ => c) b) p.

  (** [path.addBead(slice,x)]: the new bead takes the first free offset of
      its slice and has no links. *)
Definition addBead p (slice : Z) (x : dVec D) : Path D * beadLocator :=
    let b := (slice, numBeads p slice) in
    (mkPath (<[b := x]> (beads p)) (<[b := XXX]> (nextLink p)) (<[b := XXX]> (prevLink p))
            (<[slice := numBeads p slice + 1]> (numBeadsAtSlice p)) (worm p), b).

  (** [path.addNextBead(b,x)]: a bead on the following slice (periodic in
      imaginary time over [M] slices), linked after [b]. *)
Definition addNextBead (M : Z) p b (x : dVec D) : Path D * beadLocator :=
    let slice := if bool_decide (M <= b.1 + 1) then b.1 + 1 - M else b.1 + 1 in
    let '(p1, c) := addBead p slice x in
    (setPrev (setNext p1 b c) c b, c).

  (** [path.addPrevBead(b,x)]: a bead on the preceding slice, linked before
      [b]. *)
Definition addPrevBead (M : Z) p b (x : dVec D) : Path D * beadLocator :=
    let slice := if bool_decide (b.1 - 1 < 0) then b.1 - 1 + M else b.1 - 1 in
    let '(p1, c) := addBead p slice x in
    (setNext (setPrev p1 b c) c b, c).

Definition rename (last b c : beadLocator) : beadLocator :=
    if beq c last then b else c.

Definition worm_rename (last b : beadLocator) w : Worm :=
    mkWorm (rename last b (worm_head w)) (rename last b (worm_tail w)) (worm_length w) (worm_gap w)
           (rename last b (special1 w)) (rename last b (special2 w)) (isConfigDiagonal w).

  (** [path.delBead(b)]: the bead is unlinked from its neighbours and the
      slice is compacted, the last bead of the slice moving into the freed
      slot together with its links and the worm markers that name it. *)
Definition delBead p b : Path D :=
    let n := numBeads p b.1 - 1 in
    let last : beadLocator := (b.1, n) in
    let p1 := set_numBeadsAtSlice (<[b.1 := n]>) p in
    let p2 := if beq (next p1 b) XXX then p1 else setPrev p1 (next p1 b) XXX in
    let p3 := if beq (prev p2 b) XXX then p2 else setNext p2 (prev p2 b) XXX in
    let p4 :=
      if bool_decide (b.2 < n) then
        let q1 := setNext (setPrev (updateBead p3 b (pathPos p3 last)) b (prev p3 last)) b (next p3 last) in
        let q2 := if beq (next q1 last) XXX then q1 else setPrev q1 (next q1 last) b in
        let q3 := if beq (prev q2 last) XXX then q2 else setNext q2 (prev q2 last) b in
        set_worm (worm_rename last b) q3
      else p3 in
    mkPath (delete last (beads p4)) (delete last (nextLink p4)) (delete last (prevLink p4))
           (numBeadsAtSlice p4) (worm p4).

  (** [path.delBeadGetNext(b)] and [path.delBeadGetPrev(b)]: delete and
      return the neighbour the bead had. *)
Definition delBeadGetNext p b : Path D * beadLocator := (delBead p b, next p b).
Definition delBeadGetPrev p b : Path D * beadLocator := (delBead p b, prev p b).
End PathOps.

(* ===================================================================== *)
(** * The collaborators of the move engine                                *)
(* ===================================================================== *)

(** The classes move.cpp and cmc.cpp call and whose sources are not part
    of this development.  [R] is the state of the random source. *)
Record Env (D R : Type) : Type := mkEnv {
  (* constants() *)
  Mbar : Z;
  c_b : Z;
  numTimeSlices : Z;
  NDIM : nat;
  lambda : D;
  tau : D;
  mu : D;
  Delta : D;
  c_C : D;
  c_T : D;
  dBWavelength : D;
  attemptProb : string -> D;
  (* MTRand: rand() in [0,1), randInt(n) in [0,n], randNorm(mean,stddev) *)
  rand : R -> D * R;
  randInt : Z -> R -> Z * R;
  randNorm : D -> D -> R -> D * R;
  (* Container *)
  putInBC : dVec D -> dVec D;
  putInside : dVec D -> dVec D;
  side : dVec D;
  periodic : list Z;
  volume : D;
  randPosition : R -> dVec D * R;
  randUpdate : R -> dVec D -> dVec D * R;
  (* ActionBase; the Z argument is the current shift of the time step *)
  local : bool;
  potentialAction : Path D -> Z -> beadLocator -> beadLocator -> D;
  potentialAction1 : Path D -> Z -> beadLocator -> D;
  barePotentialAction : Path D -> Z -> beadLocator -> D;
  potentialActionCorrection : Path D -> Z -> beadLocator -> beadLocator -> D;
  rho0 : Path D -> beadLocator -> beadLocator -> Z -> D;
  ensembleWeight : Z -> D;
  (* Path and Worm queries *)
  getSeparation : Path D -> beadLocator -> beadLocator -> dVec D;
  getTrueNumParticles : Path D -> Z;
  getNumBeadsOn : Path D -> Z;
  foundBead : Path D -> beadLocator -> bool;
  tooCostly : Path D -> bool;
  tooCostly2 : Path D -> dVec D -> Z -> bool;
  worm_update : Path D -> beadLocator -> beadLocator -> Worm;
  (* LookupTable *)
  fullInteractionList : Path D -> beadLocator -> Z -> list beadLocator;
  gridNeighbors : Path D -> beadLocator -> beadLocator -> bool;
  gridShare : Path D -> beadLocator -> beadLocator -> bool;
  (* PotentialBase, for cmc.cpp *)
  externalV : dVec D -> D;
  interactionV : dVec D -> D
}.
Arguments mkEnv {D R}.
Arguments Mbar {D R}.
Arguments c_b {D R}.
Arguments numTimeSlices {D R}.
Arguments NDIM {D R}.
Arguments lambda {D R}.
Arguments tau {D R}.
Arguments mu {D R}.
Arguments Delta {D R}.
Arguments c_C {D R}.
Arguments c_T {D R}.
Arguments dBWavelength {D R}.
Arguments attemptProb {D R}.
Arguments rand {D R}.
Arguments randInt {D R}.
Arguments randNorm {D R}.
Arguments putInBC {D R}.
Arguments putInside {D R}.
Arguments side {D R}.
Arguments periodic {D R}.
Arguments volume {D R}.
Arguments randPosition {D R}.
Arguments randUpdate {D R}.
Arguments local {D R}.
Arguments potentialAction {D R}.
Arguments potentialAction1 {D R}.
Arguments barePotentialAction {D R}.
Arguments potentialActionCorrection {D R}.
Arguments rho0 {D R}.
Arguments ensembleWeight {D R}.
Arguments getSeparation {D R}.
Arguments getTrueNumParticles {D R}.
Arguments getNumBeadsOn {D R}.
Arguments foundBead {D R}.
Arguments tooCostly {D R}.
Arguments tooCostly2 {D R}.
Arguments worm_update {D R}.
Arguments fullInteractionList {D R}.
Arguments gridNeighbors {D R}.
Arguments gridShare {D R}.
Arguments externalV {D R}.
Arguments interactionV {D R}.

(* ===================================================================== *)
(** * The state of a run                                                  *)
(* ===================================================================== *)

(** The member fields of a move object ([MoveBase] and its subclasses) that
    outlive a statement.  The scratch arrays ([Array<dVec,1>],
    [Array<bool,1>], [Array<unsigned int,1>]) are indexed by [int] and not
    bounds-checked; they are functions of the index here. *)
Record MoveObj (D : Type) : Type := mkMoveObj {
  success : bool;
  numAccepted : Z;
  numAttempted : Z;
  numAcceptedLevel : Z -> Z;
  numAttemptedLevel : Z -> Z;
  numLevels : Z;
  numActiveBeads : Z;
  originalPos : Z -> dVec D;
  newPos : Z -> dVec D;
  include : Z -> bool;
  startBead : beadLocator;
  endBead : beadLocator;
  headBead : beadLocator;
  tailBead : beadLocator;
  swap : beadLocator;
  pivot : beadLocator;
  nextSwap : beadLocator;
  prevSwap : beadLocator;
  cumulant : list D
}.
Arguments mkMoveObj {D}.
Arguments success {D}.
Arguments numAccepted {D}.
Arguments numAttempted {D}.
Arguments numAcceptedLevel {D}.
Arguments numAttemptedLevel {D}.
Arguments numLevels {D}.
Arguments numActiveBeads {D}.
Arguments originalPos {D}.
Arguments newPos {D}.
Arguments include {D}.
Arguments startBead {D}.
Arguments endBead {D}.
Arguments headBead {D}.
Arguments tailBead {D}.
Arguments swap {D}.
Arguments pivot {D}.
Arguments nextSwap {D}.
Arguments prevSwap {D}.
Arguments cumulant {D}.

(** What an [attemptMove] reads and writes: the path, the shift of the time
    step held by the action ([setShift]), the random source, the static
    counters of [MoveBase], the bead list of the lookup table and the move
    object.  [keepCalls] and [undoCalls] are instrumentation: they count the
    calls of [keepMove] and [undoMove]. *)
Record Sim (D R : Type) : Type := mkSim {
  path : Path D;
  actionShift : Z;
  random : R;
  totAttempted : Z;
  totAccepted : Z;
  fullBeadList : list beadLocator;
  mv : MoveObj D;
  keepCalls : nat;
  undoCalls : nat
}.
Arguments mkSim {D R}.
Arguments path {D R}.
Arguments actionShift {D R}.
Arguments random {D R}.
Arguments totAttempted {D R}.
Arguments totAccepted {D R}.
Arguments fullBeadList {D R}.
Arguments mv {D R}.
Arguments keepCalls {D R}.
Arguments undoCalls {D R}.

Section Setters.
  Context {D R : Type}.

Definition set_success (v : bool) (s : MoveObj D) : MoveObj D :=
    mkMoveObj v (numAccepted s) (numAttempted s) (numAcceptedLevel s) (numAttemptedLevel s) (numLevels s) (numActiveBeads s) (originalPos s) (newPos s) (include s) (startBead s) (endBead s) (headBead s) (tailBead s) (swap s) (pivot s) (nextSwap s) (prevSwap s) (cumulant s).
Definition set_numAccepted (v : Z) (s : MoveObj D) : MoveObj D :=
    mkMoveObj (success s) v (numAttempted s) (numAcceptedLevel s) (numAttemptedLevel s) (numLevels s) (numActiveBeads s) (originalPos s) (newPos s) (include s) (startBead s) (endBead s) (headBead s) (tailBead s) (swap s) (pivot s) (nextSwap s) (prevSwap s) (cumulant s).
Definition set_numAttempted (v : Z) (s : MoveObj D) : MoveObj D :=
    mkMoveObj (success s) (numAccepted s) v (numAcceptedLevel s) (numAttemptedLevel s) (numLevels s) (numActiveBeads s) (originalPos s) (newPos s) (include s) (startBead s) (endBead s) (headBead s) (tailBead s) (swap s) (pivot s) (nextSwap s) (prevSwap s) (cumulant s).
Definition set_numAcceptedLevel (v : Z -> Z) (s : MoveObj D) : MoveObj D :=
    mkMoveObj (success s) (numAccepted s) (numAttempted s) v (numAttemptedLevel s) (numLevels s) (numActiveBeads s) (originalPos s) (newPos s) (include s) (startBead s) (endBead s) (headBead s) (tailBead s) (swap s) (pivot s) (nextSwap s) (prevSwap s) (cumulant s).
Definition set_numAttemptedLevel (v : Z -> Z) (s : MoveObj D) : MoveObj D :=
    mkMoveObj (success s) (numAccepted s) (numAttempted s) (numAcceptedLevel s) v (numLevels s) (numActiveBeads s) (originalPos s) (newPos s) (include s) (startBead s) (endBead s) (headBead s) (tailBead s) (swap s) (pivot s) (nextSwap s) (prevSwap s) (cumulant s).
Definition set_numLevels (v : Z) (s : MoveObj D) : MoveObj D :=
    mkMoveObj (success s) (numAccepted s) (numAttempted s) (numAcceptedLevel s) (numAttemptedLevel s) v (numActiveBeads s) (originalPos s) (newPos s) (include s) (startBead s) (endBead s) (headBead s) (tailBead s) (swap s) (pivot s) (nextSwap s) (prevSwap s) (cumulant s).
Definition set_numActiveBeads (v : Z) (s : MoveObj D) : MoveObj D :=
    mkMoveObj (success s) (numAccepted s) (numAttempted s) (numAcceptedLevel s) (numAttemptedLevel s) (numLevels s) v (originalPos s) (newPos s) (include s) (startBead s) (endBead s) (headBead s) (tailBead s) (swap s) (pivot s) (nextSwap s) (prevSwap s) (cumulant s).
Definition set_originalPos (v : Z -> dVec D) (s : MoveObj D) : MoveObj D :=
    mkMoveObj (success s) (numAccepted s) (numAttempted s) (numAcceptedLevel s) (numAttemptedLevel s) (numLevels s) (numActiveBeads s) v (newPos s) (include s) (startBead s) (endBead s) (headBead s) (tailBead s) (swap s) (pivot s) (nextSwap s) (prevSwap s) (cumulant s).
Definition set_newPos (v : Z -> dVec D) (s : MoveObj D) : MoveObj D :=
    mkMoveObj (success s) (numAccepted s) (numAttempted s) (numAcceptedLevel s) (numAttemptedLevel s) (numLevels s) (numActiveBeads s) (originalPos s) v (include s) (startBead s) (endBead s) (headBead s) (tailBead s) (swap s) (pivot s) (nextSwap s) (prevSwap s) (cumulant s).
Definition set_include (v : Z -> bool) (s : MoveObj D) : MoveObj D :=
    mkMoveObj (success s) (numAccepted s) (numAttempted s) (numAcceptedLevel s) (numAttemptedLevel s) (numLevels s) (numActiveBeads s) (originalPos s) (newPos s) v (startBead s) (endBead s) (headBead s) (tailBead s) (swap s) (pivot s) (nextSwap s) (prevSwap s) (cumulant s).
Definition set_startBead (v : beadLocator) (s : MoveObj D) : MoveObj D :=
    mkMoveObj (success s) (numAccepted s) (numAttempted s) (numAcceptedLevel s) (numAttemptedLevel s) (numLevels s) (numActiveBeads s) (originalPos s) (newPos s) (include s) v (endBead s) (headBead s) (tailBead s) (swap s) (pivot s) (nextSwap s) (prevSwap s) (cumulant s).
Definition set_endBead (v : beadLocator) (s : MoveObj D) : MoveObj D :=
    mkMoveObj (success s) (numAccepted s) (numAttempted s) (numAcceptedLevel s) (numAttemptedLevel s) (numLevels s) (numActiveBeads s) (originalPos s) (newPos s) (include s) (startBead s) v (headBead s) (tailBead s) (swap s) (pivot s) (nextSwap s) (prevSwap s) (cumulant s).
Definition set_headBead (v : beadLocator) (s : MoveObj D) : MoveObj D :=
    mkMoveObj (success s) (numAccepted s) (numAttempted s) (numAcceptedLevel s) (numAttemptedLevel s) (numLevels s) (numActiveBeads s) (originalPos s) (newPos s) (include s) (startBead s) (endBead s) v (tailBead s) (swap s) (pivot s) (nextSwap s) (prevSwap s) (cumulant s).
Definition set_tailBead (v : beadLocator) (s : MoveObj D) : MoveObj D :=
    mkMoveObj (success s) (numAccepted s) (numAttempted s) (numAcceptedLevel s) (numAttemptedLevel s) (numLevels s) (numActiveBeads s) (originalPos s) (newPos s) (include s) (startBead s) (endBead s) (headBead s) v (swap s) (pivot s) (nextSwap s) (prevSwap s) (cumulant s).
Definition set_swap (v : beadLocator) (s : MoveObj D) : MoveObj D :=
    mkMoveObj (success s) (numAccepted s) (numAttempted s) (numAcceptedLevel s) (numAttemptedLevel s) (numLevels s) (numActiveBeads s) (originalPos s) (newPos s) (include s) (startBead s) (endBead s) (headBead s) (tailBead s) v (pivot s) (nextSwap s) (prevSwap s) (cumulant s).
Definition set_pivot (v : beadLocator) (s : MoveObj D) : MoveObj D :=
    mkMoveObj (success s) (numAccepted s) (numAttempted s) (numAcceptedLevel s) (numAttemptedLevel s) (numLevels s) (numActiveBeads s) (originalPos s) (newPos s) (include s) (startBead s) (endBead s) (headBead s) (tailBead s) (swap s) v (nextSwap s) (prevSwap s) (cumulant s).
Definition set_nextSwap (v : beadLocator) (s : MoveObj D) : MoveObj D :=
    mkMoveObj (success s) (numAccepted s) (numAttempted s) (numAcceptedLevel s) (numAttemptedLevel s) (numLevels s) (numActiveBeads s) (originalPos s) (newPos s) (include s) (startBead s) (endBead s) (headBead s) (tailBead s) (swap s) (pivot s) v (prevSwap s) (cumulant s).
Definition set_prevSwap (v : beadLocator) (s : MoveObj D) : MoveObj D :=
    mkMoveObj (success s) (numAccepted s) (numAttempted s) (numAcceptedLevel s) (numAttemptedLevel s) (numLevels s) (numActiveBeads s) (originalPos s) (newPos s) (include s) (startBead s) (endBead s) (headBead s) (tailBead s) (swap s) (pivot s) (nextSwap s) v (cumulant s).
Definition set_cumulant (v : list D) (s : MoveObj D) : MoveObj D :=
    mkMoveObj (success s) (numAccepted s) (numAttempted s) (numAcceptedLevel s) (numAttemptedLevel s) (numLevels s) (numActiveBeads s) (originalPos s) (newPos s) (include s) (startBead s) (endBead s) (headBead s) (tailBead s) (swap s) (pivot s) (nextSwap s) (prevSwap s) v.

Definition set_path (v : Path D) (s : Sim D R) : Sim D R :=
    mkSim v (actionShift s) (random s) (totAttempted s) (totAccepted s) (fullBeadList s) (mv s) (keepCalls s) (undoCalls s).
Definition set_actionShift (v : Z) (s : Sim D R) : Sim D R :=
    mkSim (path s) v (random s) (totAttempted s) (totAccepted s) (fullBeadList s) (mv s) (keepCalls s) (undoCalls s).
Definition set_random (v : R) (s : Sim D R) : Sim D R :=
    mkSim (path s) (actionShift s) v (totAttempted s) (totAccepted s) (fullBeadList s) (mv s) (keepCalls s) (undoCalls s).
Definition set_totAttempted (v : Z) (s : Sim D R) : Sim D R :=
    mkSim (path s) (actionShift s) (random s) v (totAccepted s) (fullBeadList s) (mv s) (keepCalls s) (undoCalls s).
Definition set_totAccepted (v : Z) (s : Sim D R) : Sim D R :=
    mkSim (path s) (actionShift s) (random s) (totAttempted s) v (fullBeadList s) (mv s) (keepCalls s) (undoCalls s).
Definition set_fullBeadList (v : list beadLocator) (s : Sim D R) : Sim D R :=
    mkSim (path s) (actionShift s) (random s) (totAttempted s) (totAccepted s) v (mv s) (keepCalls s) (undoCalls s).
Definition set_mv (v : MoveObj D) (s : Sim D R) : Sim D R :=
    mkSim (path s) (actionShift s) (random s) (totAttempted s) (totAccepted s) (fullBeadList s) v (keepCalls s) (undoCalls s).
Definition set_keepCalls (v : nat) (s : Sim D R) : Sim D R :=
    mkSim (path s) (actionShift s) (random s) (totAttempted s) (totAccepted s) (fullBeadList s) (mv s) v (undoCalls s).
Definition set_undoCalls (v : nat) (s : Sim D R) : Sim D R :=
    mkSim (path s) (actionShift s) (random s) (totAttempted s) (totAccepted s) (fullBeadList s) (mv s) (keepCalls s) v.
End Setters.

(** Assignment to one slot of a scratch array. *)
Definition fupd {A : Type} (f : Z -> A) (k : Z) (v : A) : Z -> A :=
  fun j => if j =? k then v else f j.

(* ===================================================================== *)
(** * The monad of the move engine                                        *)
(* ===================================================================== *)

(** A computation on the state that may have no result: a loop over the
    links that does not finish within its fuel, or [std::vector::at] out
    of range. *)
Definition M (D R A : Type) : Type := Sim D R -> option (A * Sim D R).

Definition ret {D R A} (a : A) : M D R A := fun s => Some (a, s).
Definition bind {D R A B} (m : M D R A) (k : A -> M D R B) : M D R B :=
  fun s => match m s with Some (a, s') => k a s' | None => None end.
Definition abort {D R A} : M D R A := fun _ => None.

Declare Scope sim_scope.
Delimit Scope sim_scope with sim.
Notation "'let*' x ':=' m 'in' k" := (bind m (fun x => k))
  (at level 10, x pattern, m at level 100, k at level 200) : sim_scope.
Notation "m ';;' k" := (bind m (fun _ => k))
  (at level 100, k at level 200, right associativity) : sim_scope.
#[local] Open Scope sim_scope.

Section Monad.
  Context {D R : Type}.

Definition get : M D R (Sim D R) := fun s => Some (s, s).
Definition gets {A} (f : Sim D R -> A) : M D R A := fun s => Some (f s, s).
Definition modify (f : Sim D R -> Sim D R) : M D R unit := fun s => Some (tt, f s).

Definition get_path : M D R (Path D) := gets path.
Definition get_mv : M D R (MoveObj D) := gets mv.
Definition mod_path (f : Path D -> Path D) : M D R unit :=
    modify (fun s => set_path (f (path s)) s).
Definition mod_mv (f : MoveObj D -> MoveObj D) : M D R unit :=
    modify (fun s => set_mv (f (mv s)) s).
Definition mod_worm (f : Worm -> Worm) : M D R unit := mod_path (set_worm f).

  (** A path operation that returns a locator. *)
Definition path_op (f : Path D -> Path D * beadLocator) : M D R beadLocator :=
    fun s => let '(p, b) := f (path s) in Some (b, set_path p s).

  (** [actionPtr->setShift(k)]. *)
Definition setShift (k : Z) : M D R unit := modify (set_actionShift k).

  (** [do body while (...)]: [body] answers [inl a] to go round again and
      [inr b] to leave the loop. *)
Fixpoint doWhile {A B} (fuel : nat) (body : A -> M D R (A + B)) (a : A) : M D R B :=
    match fuel with
    | O => abort
    | S fuel' =>
        let* r := body a in
        match r with
        | inl a' => doWhile fuel' body a'
        | inr b => ret b
        end
    end.

  (** [for (k = lo; k < lo + n; k++) body]: [body] answers [inr b] to leave
      the loop early and [inl a] to go on. *)
Fixpoint forUp {A B} (n : nat) (lo : Z) (body : Z -> A -> M D R (A + B)) (a : A) : M D R (A + B) :=
    match n with
    | O => ret (inl a)
    | S n' =>
        let* r := body lo a in
        match r with
        | inl a' => forUp n' (lo + 1) body a'
        | inr b => ret (inr b)
        end
    end.
End Monad.

(* ===================================================================== *)
(** * move.cpp                                                            *)
(* ===================================================================== *)

(** The move families of move.cpp. *)
Inductive Move : Type :=
  | CenterOfMass | Staging | Bisection
  | Open | Close | Insert | Remove
  | AdvanceHead | AdvanceTail | RecedeHead | RecedeTail
  | SwapHead | SwapTail.

Section Moves.
  Context {D : Type} `{Double D} {R : Type} (E : Env D R).

  #[local] Abbreviation M := (M D R).

  (** Reads of the collaborators at the current state. *)
Definition do_rand : M D :=
    fun s => let '(x, r) := rand E (random s) in Some (x, set_random r s).
Definition do_randInt (n : Z) : M Z :=
    fun s => let '(x, r) := randInt E n (random s) in Some (x, set_random r s).
Definition do_randNorm (mean stddev : D) : M D :=
    fun s => let '(x, r) := randNorm E mean stddev (random s) in Some (x, set_random r s).
Definition do_randPosition : M (dVec D) :=
    fun s => let '(x, r) := randPosition E (random s) in Some (x, set_random r s).
Definition action2 (f : Path D -> Z -> beadLocator -> beadLocator -> D)
      (a b : beadLocator) : M D :=
    gets (fun s => f (path s) (actionShift s) a b).
Definition action1 (f : Path D -> Z -> beadLocator -> D) (a : beadLocator) : M D :=
    gets (fun s => f (path s) (actionShift s) a).

  (** [checkMove] and [printMoveState] have an empty body unless DEBUG_MOVE
      or DEBUG_WORM is defined. *)
Definition checkMove : M unit := ret tt.
Definition printMoveState : M unit := ret tt.

  (** [sqrtLambdaTau] and [sqrt2LambdaTau], set by the constructor of
      [MoveBase]. *)
Definition sqrtLambdaTau : D := dsqrt (lambda E * tau E)%D.
Definition sqrt2LambdaTau : D := (dsqrt d2 * sqrtLambdaTau)%D.

  (** [numLevels = int(ceil(log(1.0*len) / log(2.0) - EPS))], the number of
      bisection levels that cover [len] slices. *)
Definition levelsFor (len : Z) : Z := Z.log2_up len.

  (** [numAttempted++], [totAttempted++], [numAttemptedLevel(numLevels)++],
      [numAccepted++], [totAccepted++], [numAcceptedLevel(numLevels)++]. *)
Definition incNumAttempted : M unit :=
    mod_mv (fun m => set_numAttempted (numAttempted m + 1) m).
Definition incTotAttempted : M unit :=
    modify (fun s => set_totAttempted (totAttempted s + 1) s).
Definition incNumAttemptedLevel : M unit :=
    mod_mv (fun m => set_numAttemptedLevel
      (fupd (numAttemptedLevel m) (numLevels m) (numAttemptedLevel m (numLevels m) + 1)) m).
Definition incNumAccepted : M unit :=
    mod_mv (fun m => set_numAccepted (numAccepted m + 1) m).
Definition incTotAccepted : M unit :=
    modify (fun s => set_totAccepted (totAccepted s + 1) s).
Definition incNumAcceptedLevel : M unit :=
    mod_mv (fun m => set_numAcceptedLevel
      (fupd (numAcceptedLevel m) (numLevels m) (numAcceptedLevel m (numLevels m) + 1)) m).

  (** Instrumentation: entering [keepMove], entering [undoMove]. *)
Definition enterKeep : M unit := modify (fun s => set_keepCalls (S (keepCalls s)) s).
Definition enterUndo : M unit := modify (fun s => set_undoCalls (S (undoCalls s)) s).

  (** [MoveBase::keepMove]. *)
Definition MoveBase_keepMove : M unit :=
    enterKeep ;;
    incNumAccepted ;;
    incTotAccepted ;;
    setShift 1 ;;
    mod_mv (set_success true).

  (** [for (i = 0; i < NDIM; i++) v[i] = random.randNorm(v[i],stddev);] *)
Fixpoint randNormVec (v : dVec D) (stddev : D) : M (dVec D) :=
    match v with
    | [] => ret []
    | x :: v' =>
        let* y := do_randNorm x stddev in
        let* ys := randNormVec v' stddev in
        ret (y :: ys)
    end.

  (** The standard deviation of the kick in [newStagingPosition]:
      [f1 = 1.0*(stageLength-k-1)], [f2 = 1.0/(1.0*(stageLength-k))],
      [sqrtLambdaKTau = sqrt2LambdaTau*sqrt(f1*f2)]. *)
Definition staging_f1 (stageLength k : Z) : D := (d1 * of_int (stageLength - k - 1))%D.
Definition staging_f2 (stageLength k : Z) : D := (d1 / (d1 * of_int (stageLength - k)))%D.
Definition sqrtLambdaKTau (stageLength k : Z) : D :=
    (sqrt2LambdaTau * dsqrt (staging_f1 stageLength k * staging_f2 stageLength k))%D.

  (** The 'midpoint' of [newStagingPosition], before the kick. *)
Definition staging_midpoint (p : Path D) (neighborIndex endIndex : beadLocator)
      (stageLength k : Z) : dVec D :=
    let neighborPos := pathPos p neighborIndex in
    let newRanPos := vsub (pathPos p endIndex) neighborPos in
    let newRanPos := putInBC E newRanPos in
    let newRanPos := vscale (staging_f2 stageLength k) newRanPos in
    vadd newRanPos neighborPos.

  (** [MoveBase::newStagingPosition]. *)
Definition newStagingPosition (neighborIndex endIndex : beadLocator)
      (stageLength k : Z) : M (dVec D) :=
    let* p := get_path in
    let newRanPos := staging_midpoint p neighborIndex endIndex stageLength k in
    let* newRanPos := randNormVec newRanPos (sqrtLambdaKTau stageLength k) in
    ret (putInside E newRanPos).

  (** [MoveBase::newFreeParticlePosition]. *)
Definition newFreeParticlePosition (neighborIndex : beadLocator) : M (dVec D) :=
    let* p := get_path in
    let* newRanPos := randNormVec (pathPos p neighborIndex) sqrt2LambdaTau in
    ret (putInside E newRanPos).

  (** [MoveBase::newBisectionPosition]. *)
Definition newBisectionPosition (beadIndex : beadLocator) (lshift : Z) : M (dVec D) :=
    let delta := (sqrtLambdaTau * dsqrt (d1 * of_int lshift))%D in
    let* p := get_path in
    let nBeadIndex := prevN p beadIndex lshift in
    let newRanPos := getSeparation E p (nextN p beadIndex lshift) nBeadIndex in
    let newRanPos := vscale dhalf newRanPos in
    let newRanPos := vadd newRanPos (pathPos p nBeadIndex) in
    let* newRanPos := randNormVec newRanPos delta in
    ret (putInside E newRanPos).

  (** The test [u < exp(-(newAction - oldAction))] of the centre-of-mass,
      staging and swap moves: its right-hand side. *)
Definition metropolisThreshold (oldAction newAction : D) : D :=
    dexp (- (newAction - oldAction))%D.

  (** The single-slice test value [P = min(exp(-deltaAction)/PNorm,1.0)] of
      the worm moves, and the right-hand side [exp(-deltaAction)/PNorm] of
      their final test. *)
Definition sliceP (deltaAction PNorm : D) : D := dmin (dexp (- deltaAction) / PNorm)%D d1.
Definition finalThreshold (deltaAction PNorm : D) : D := (dexp (- deltaAction) / PNorm)%D.

  (** The final test of a move, [if (u < threshold) { keepMove(); ... }
      else { undoMove(); ... } return success;]. *)
Definition finalTest (threshold : D) (keepMove undoMove : M unit) : M bool :=
    let* u := do_rand in
    (if (u <? threshold)%D then keepMove ;; checkMove else undoMove ;; checkMove) ;;
    gets (fun s => success (mv s)).

  (** [return success;] *)
Definition returnSuccess : M bool := gets (fun s => success (mv s)).

  (* ------------------------------------------------------------------- *)
  (** ** CenterOfMassMove                                                 *)
  (* ------------------------------------------------------------------- *)

  (** [do { ++wlLength; beadIndex = path.next(beadIndex); }
       while (!all(beadIndex==path.next(endBead)));] *)
Definition worldlineLength (fuel : nat) (startB endB : beadLocator) : M Z :=
    doWhile fuel (fun '(beadIndex, wlLength) =>
      let* p := get_path in
      let wlLength := wlLength + 1 in
      let beadIndex := next p beadIndex in
      if beq beadIndex (next p endB) then ret (inr wlLength)
      else ret (inl (beadIndex, wlLength))) (startB, 0).

  (** [(pos[i] < -0.5*side[i]) || (pos[i] >= 0.5*side[i])] for some [i]. *)
Fixpoint outsideBox (pos sd : dVec D) : bool :=
    match pos, sd with
    | x :: pos', l :: sd' =>
        ((x <? (- dhalf) * l)%D || dgeb x (dhalf * l)%D) || outsideBox pos' sd'
    | _, _ => false
    end.

  (** The walk over the worldline that looks for a shifted bead outside a
      non-periodic box; [true] when one is found. *)
Definition leavesBox (fuel : nat) (startB endB : beadLocator) (shiftVec : dVec D) : M bool :=
    doWhile fuel (fun beadIndex =>
      let* p := get_path in
      let pos := putInBC E (vadd (pathPos p beadIndex) shiftVec) in
      if outsideBox pos (side E) then ret (inr true)
      else
        let beadIndex := next p beadIndex in
        if beq beadIndex (next p endB) then ret (inr false) else ret (inl beadIndex)) startB.

  (** The walk that moves every bead of the worldline by [shiftVec]
      ([vadd]) or back ([vsub]). *)
Definition shiftWorldline (fuel : nat) (op : dVec D -> dVec D -> dVec D)
      (startB endB : beadLocator) (shiftVec : dVec D) : M unit :=
    doWhile fuel (fun beadIndex =>
      let* p := get_path in
      let pos := putInBC E (op (pathPos p beadIndex) shiftVec) in
      mod_path (fun p => updateBead p beadIndex pos) ;;
      let* p := get_path in
      let beadIndex := next p beadIndex in
      if beq beadIndex (next p endB) then ret (inr tt) else ret (inl beadIndex)) startB.

  (** [CenterOfMassMove::undoMove]. *)
Definition CenterOfMassMove_undoMove (fuel : nat) : M unit :=
    enterUndo ;;
    let* m := get_mv in
    shiftWorldline fuel vsub (startBead m) (endBead m) (originalPos m 0) ;;
    mod_mv (set_success false).

  (** [for (i = 0; i < NDIM; i++)
         originalPos(0)[i] = constants()->Delta()*(-0.5 + random.rand());] *)
Fixpoint randomShift (n : nat) : M (dVec D) :=
    match n with
    | O => ret []
    | S n' =>
        let* u := do_rand in
        let* v := randomShift n' in
        ret ((Delta E * (- dhalf + u))%D :: v)
    end.

  (** [CenterOfMassMove::attemptMove]. *)
Definition CenterOfMassMove_attemptMove (fuel : nat) : M bool :=
    mod_mv (set_success false) ;;
    let* p := get_path in
    if bool_decide (numBeads p 0 = 0) then ret false
    else
      let* r := do_randInt (numBeads p 0 - 1) in
      mod_mv (set_startBead (0, r)) ;;
      checkMove ;;
      let* m := get_mv in
      let* early :=
        (if foundBead E p (startBead m) then
           if bool_decide (numTimeSlices E <= worm_length (worm p)) then ret true
           else
             mod_mv (set_startBead (worm_tail (worm p))) ;;
             mod_mv (set_endBead (worm_head (worm p))) ;;
             ret false
         else
           mod_mv (set_endBead (prev p (startBead m))) ;;
           let* wlLength := worldlineLength fuel (startBead m) (prev p (startBead m)) in
           ret (bool_decide (numTimeSlices E < wlLength))) in
      if early : bool then ret false
      else
        incNumAttempted ;;
        incTotAttempted ;;
        let* shiftVec := randomShift (NDIM E) in
        mod_mv (fun m => set_originalPos (fupd (originalPos m) 0 shiftVec) m) ;;
        let* m := get_mv in
        let* out :=
          (if bool_decide (foldr Z.add 0 (periodic E) <> Z.of_nat (NDIM E))
           then leavesBox fuel (startBead m) (endBead m) (originalPos m 0)
           else ret false) in
        if out : bool then ret false
        else
          let* oldAction := action2 (potentialAction E) (startBead m) (endBead m) in
          shiftWorldline fuel vadd (startBead m) (endBead m) (originalPos m 0) ;;
          let* newAction := action2 (potentialAction E) (startBead m) (endBead m) in
          finalTest (metropolisThreshold oldAction newAction) MoveBase_keepMove
                    (CenterOfMassMove_undoMove fuel).

  (* ------------------------------------------------------------------- *)
  (** ** StagingMove                                                      *)
  (* ------------------------------------------------------------------- *)

  (** [for (k = 0; k < n; k++) {
         if (!path.worm.beadOn(beadIndex) || all(beadIndex==path.worm.head))
           return false;
         beadIndex = path.next(beadIndex); }]
      of the staging and bisection moves: the bead reached, or nothing when
      the move returns. *)
Fixpoint activeTrajectory (n : nat) (p : Path D) (beadIndex : beadLocator) : option beadLocator :=
    match n with
    | O => Some beadIndex
    | S n' =>
        if negb (beadOn p beadIndex) || beq beadIndex (worm_head (worm p)) then None
        else activeTrajectory n' p (next p beadIndex)
    end.

  (** [StagingMove::undoMove]. *)
Definition StagingMove_undoMove (fuel : nat) : M unit :=
    enterUndo ;;
    let* m := get_mv in
    doWhile fuel (fun '(beadIndex, k) =>
      let* p := get_path in
      let beadIndex := next p beadIndex in
      mod_path (fun p => updateBead p beadIndex (originalPos m k)) ;;
      let k := k + 1 in
      let* p := get_path in
      if beq beadIndex (prev p (endBead m)) then ret (inr tt)
      else ret (inl (beadIndex, k))) (startBead m, 0) ;;
    mod_mv (set_success false).

  (** [StagingMove::attemptMove]. *)
Definition StagingMove_attemptMove (fuel : nat) : M bool :=
    mod_mv (set_success false) ;;
    checkMove ;;
    let* p := get_path in
    if bool_decide (getTrueNumParticles E p = 0) then ret false
    else
      let* r0 := do_randInt (numTimeSlices E - 1) in
      mod_mv (fun m => set_startBead (r0, (startBead m).2) m) ;;
      if bool_decide (numBeads p r0 = 0) then ret false
      else
        let* r1 := do_randInt (numBeads p r0 - 1) in
        mod_mv (set_startBead (r0, r1)) ;;
        match activeTrajectory (Z.to_nat (Mbar E)) p (r0, r1) with
        | None => ret false
        | Some endB =>
            mod_mv (set_endBead endB) ;;
            incNumAttempted ;;
            incTotAttempted ;;
            let* oldAction := action2 (potentialAction E) (r0, r1) (prev p endB) in
            doWhile fuel (fun '(beadIndex, k) =>
              let* p := get_path in
              let beadIndex := next p beadIndex in
              mod_mv (fun m => set_originalPos (fupd (originalPos m) k (pathPos p beadIndex)) m) ;;
              let* x := newStagingPosition (prev p beadIndex) endB (Mbar E) k in
              mod_path (fun p => updateBead p beadIndex x) ;;
              let k := k + 1 in
              let* p := get_path in
              if beq beadIndex (prev p endB) then ret (inr tt)
              else ret (inl (beadIndex, k))) ((r0, r1), 0) ;;
            let* p := get_path in
            let* newAction := action2 (potentialAction E) (r0, r1) (prev p endB) in
            finalTest (metropolisThreshold oldAction newAction) MoveBase_keepMove
                      (StagingMove_undoMove fuel)
        end.

  (* ------------------------------------------------------------------- *)
  (** ** BisectionMove                                                    *)
  (* ------------------------------------------------------------------- *)

  (** [BisectionMove::keepMove]. *)
Definition BisectionMove_keepMove : M unit :=
    enterKeep ;;
    incNumAccepted ;;
    incNumAcceptedLevel ;;
    incTotAccepted ;;
    setShift 1 ;;
    mod_mv (set_success true).

  (** [BisectionMove::undoMove]. *)
Definition BisectionMove_undoMove (fuel : nat) : M unit :=
    enterUndo ;;
    let* m := get_mv in
    doWhile fuel (fun '(beadIndex, k) =>
      let* p := get_path in
      let beadIndex := next p beadIndex in
      (if negb (include m k) then mod_path (fun p => updateBead p beadIndex (originalPos m k))
       else ret tt) ;;
      let k := k + 1 in
      let* p := get_path in
      if beq beadIndex (prev p (endBead m)) then ret (inr tt)
      else ret (inl (beadIndex, k))) (startBead m, 0) ;;
    setShift 1 ;;
    mod_mv (set_success false).

  (** One level of the bisection: the [do ... while] over the beads that
      are [shift] slices apart; the result is [(oldAction, newAction)]. *)
Definition bisectLevel (fuel : nat) (level shift : Z) (startB endB : beadLocator) : M (D * D) :=
    let* p := get_path in
    doWhile fuel (fun '(beadIndex, k, oldAction, newAction) =>
      let n := k * shift - 1 in
      let* m := get_mv in
      let* (oldAction, newAction) :=
        (if include m n then
           let* p := get_path in
           mod_mv (fun m => set_originalPos (fupd (originalPos m) n (pathPos p beadIndex)) m) ;;
           let* a := action1 (potentialAction1 E) beadIndex in
           let oldAction := (oldAction + a)%D in
           let* x := newBisectionPosition beadIndex shift in
           mod_mv (fun m => set_newPos (fupd (newPos m) n x) m) ;;
           mod_path (fun p => updateBead p beadIndex x) ;;
           let* a := action1 (potentialAction1 E) beadIndex in
           let newAction := (newAction + a)%D in
           mod_mv (fun m => set_include (fupd (include m) n false) m) ;;
           ret (oldAction, newAction)
         else if bool_decide (level = 1) then
           let* a := action1 (potentialAction1 E) beadIndex in
           let newAction := (newAction + a)%D in
           mod_path (fun p => updateBead p beadIndex (originalPos m n)) ;;
           let* a := action1 (potentialAction1 E) beadIndex in
           let oldAction := (oldAction + a)%D in
           mod_path (fun p => updateBead p beadIndex (newPos m n)) ;;
           ret (oldAction, newAction)
         else ret (oldAction, newAction)) in
      let k := k + 1 in
      let* p := get_path in
      let beadIndex := nextN p beadIndex shift in
      if beq beadIndex endB then ret (inr (oldAction, newAction))
      else ret (inl (beadIndex, k, oldAction, newAction)))
      (nextN p startB shift, 1, d0, d0).

  (** [for (level = numLevels; level > 0; level--) { ... }]; [l] is the
      current level. *)
Fixpoint bisectLevels (fuel : nat) (l : nat) (oldDeltaAction : D) : M unit :=
    match l with
    | O => ret tt
    | S l' =>
        let level := Z.of_nat l in
        let shift := ipow 2 (level - 1) in
        setShift shift ;;
        let* m := get_mv in
        let* (oldAction, newAction) := bisectLevel fuel level shift (startBead m) (endBead m) in
        let deltaAction := (newAction - oldAction)%D in
        let* u := do_rand in
        if (u <? dexp (- deltaAction + oldDeltaAction))%D then
          (if bool_decide (level = 1) then BisectionMove_keepMove ;; checkMove else ret tt) ;;
          bisectLevels fuel l' deltaAction
        else
          BisectionMove_undoMove fuel ;; checkMove
    end.

  (** [BisectionMove::attemptMove]. *)
Definition BisectionMove_attemptMove (fuel : nat) : M bool :=
    mod_mv (set_success false) ;;
    if negb (local E) then ret false
    else
      let* p := get_path in
      let* r0 := do_randInt (numTimeSlices E - 1) in
      mod_mv (fun m => set_startBead (r0, (startBead m).2) m) ;;
      if bool_decide (numBeads p r0 = 0) then ret false
      else
        let* r1 := do_randInt (numBeads p r0 - 1) in
        mod_mv (set_startBead (r0, r1)) ;;
        let* m := get_mv in
        match activeTrajectory (Z.to_nat (numActiveBeads m + 1)) p (r0, r1) with
        | None => ret false
        | Some endB =>
            mod_mv (set_endBead endB) ;;
            checkMove ;;
            incNumAttempted ;;
            incTotAttempted ;;
            incNumAttemptedLevel ;;
            mod_mv (set_include (fun _ => true)) ;;
            bisectLevels fuel (Z.to_nat (numLevels m)) d0 ;;
            returnSuccess
        end.

  (* ------------------------------------------------------------------- *)
  (** ** The single-slice rejection loops of the worm moves               *)
  (* ------------------------------------------------------------------- *)

  (** The single-slice test of the worm moves:
      [P = min(exp(-deltaAction)/PNorm,1.0);
       if (random.rand() >= P) { undoMove(); return success; }
       PNorm *= P;]
      The result is the new [PNorm], or nothing when the move has
      returned. *)
Definition sliceTest (deltaAction PNorm : D) (undoMove : M unit) : M (option D) :=
    let P := sliceP deltaAction PNorm in
    let* u := do_rand in
    if dgeb u P then undoMove ;; ret None
    else ret (Some (PNorm * P)%D).

  (** The loop of Open, Remove, AdvanceTail and RecedeHead over the beads
      that would be removed:
      [do { deltaAction -= barePotentialAction(beadIndex) - factor*actionShift;
            (the single-slice test)
            factor = 1.0; beadIndex = step(beadIndex); }
       while (!all(beadIndex==stopBead));]
      The result is [(deltaAction, PNorm)], or nothing when the move has
      returned. *)
Definition removeSlices (fuel : nat) (step : Path D -> beadLocator -> beadLocator)
      (startB stopB : beadLocator) (actionShift_ : D) (undoMove : M unit) : M (option (D * D)) :=
    doWhile fuel (fun '(beadIndex, deltaAction, PNorm, factor) =>
      let* a := action1 (barePotentialAction E) beadIndex in
      let deltaAction := (deltaAction - (a - factor * actionShift_))%D in
      let* t := sliceTest deltaAction PNorm undoMove in
      match t with
      | None => ret (inr None)
      | Some PNorm =>
          let* p := get_path in
          let beadIndex := step p beadIndex in
          if beq beadIndex stopB then ret (inr (Some (deltaAction, PNorm)))
          else ret (inl (beadIndex, deltaAction, PNorm, d1))
      end)
      (startB, d0, d1, dhalf).

  (** The loop of Close, Insert, AdvanceHead and RecedeTail over the beads
      that are added:
      [for (k = lo; k < lo + n; k++) {
         beadIndex = grow(beadIndex,k);
         deltaAction += barePotentialAction(beadIndex) - actionShift;
         (the single-slice test) }]
      The result is [(beadIndex, deltaAction, PNorm)], or nothing when the
      move has returned. *)
Definition growSlices (n : nat) (lo : Z) (grow : beadLocator -> Z -> M beadLocator)
      (startB : beadLocator) (deltaAction PNorm actionShift_ : D) (undoMove : M unit)
      : M (option (beadLocator * D * D)) :=
    let* r := forUp n lo (fun k '(beadIndex, deltaAction, PNorm) =>
      let* beadIndex := grow beadIndex k in
      let* a := action1 (barePotentialAction E) beadIndex in
      let deltaAction := (deltaAction + (a - actionShift_))%D in
      let* t := sliceTest deltaAction PNorm undoMove in
      match t with
      | None => ret (inr tt)
      | Some PNorm => ret (inl (beadIndex, deltaAction, PNorm))
      end)
      (startB, deltaAction, PNorm) in
    match r with
    | inl x => ret (Some x)
    | inr _ => ret None
    end.

  (** [for (k = 0; k < n; k++) beadIndex = grow(beadIndex,k);] of the full
      trajectory updates. *)
Fixpoint growAll (n : nat) (lo : Z) (grow : beadLocator -> Z -> M beadLocator)
      (beadIndex : beadLocator) : M beadLocator :=
    match n with
    | O => ret beadIndex
    | S n' =>
        let* beadIndex := grow beadIndex lo in
        growAll n' (lo + 1) grow beadIndex
    end.

  (** [beadIndex = path.addNextBead(beadIndex,newFreeParticlePosition(beadIndex))]
      and the same with [addPrevBead]. *)
Definition growNextFree (beadIndex : beadLocator) (k : Z) : M beadLocator :=
    let* x := newFreeParticlePosition beadIndex in
    path_op (fun p => addNextBead (numTimeSlices E) p beadIndex x).
Definition growPrevFree (beadIndex : beadLocator) (k : Z) : M beadLocator :=
    let* x := newFreeParticlePosition beadIndex in
    path_op (fun p => addPrevBead (numTimeSlices E) p beadIndex x).

  (** [while (cond(beadIndex)) beadIndex = del(beadIndex);] *)
Definition deleteWhile (fuel : nat) (cond : Path D -> beadLocator -> bool)
      (del : Path D -> beadLocator -> Path D * beadLocator) (startB : beadLocator) : M unit :=
    doWhile fuel (fun beadIndex =>
      let* p := get_path in
      if cond p beadIndex then
        let* beadIndex := path_op (fun p => del p beadIndex) in ret (inl beadIndex)
      else ret (inr tt)) startB.

  (** [do { beadIndex = del(beadIndex); } while (!all(beadIndex==XXX));] *)
Definition deleteUntilXXX (fuel : nat)
      (del : Path D -> beadLocator -> Path D * beadLocator) (startB : beadLocator) : M unit :=
    doWhile fuel (fun beadIndex =>
      let* beadIndex := path_op (fun p => del p beadIndex) in
      if beq beadIndex XXX then ret (inr tt) else ret (inl beadIndex)) startB.

  (** [2*(1 + random.randInt(constants()->Mbar()/2-1))]: the even length
      drawn by the worm moves. *)
Definition evenLength : M Z :=
    let* r := do_randInt (Mbar E ÷ 2 - 1) in
    ret (2 * (1 + r)).

  (* ------------------------------------------------------------------- *)
  (** ** OpenMove                                                         *)
  (* ------------------------------------------------------------------- *)

  (** [OpenMove::keepMove]. *)
Definition OpenMove_keepMove (fuel : nat) : M unit :=
    enterKeep ;;
    incNumAccepted ;;
    incTotAccepted ;;
    incNumAcceptedLevel ;;
    let* m := get_mv in
    let* p := get_path in
    deleteWhile fuel (fun _ b => negb (beq b (tailBead m))) delBeadGetNext (next p (headBead m)) ;;
    let* p := get_path in
    mod_worm (fun _ => worm_update E p (headBead m) (tailBead m)) ;;
    mod_worm (set_isConfigDiagonal false) ;;
    printMoveState ;;
    mod_mv (set_success true).

  (** [OpenMove::undoMove]. *)
Definition OpenMove_undoMove : M unit :=
    enterUndo ;;
    mod_worm worm_reset ;;
    mod_worm (set_isConfigDiagonal true) ;;
    printMoveState ;;
    mod_mv (set_success false).

  (** The proposal of [OpenMove::attemptMove]:
      [gapLength = 2*(1 + random.randInt(constants()->Mbar()/2-1));
       numLevels = int (ceil(log(1.0*gapLength) / log(2.0)-EPS));
       headBead[0] = 2*random.randInt(path.numTimeSlices/2-1);
       headBead[1] = random.randInt(path.numBeadsAtSlice(headBead[0])-1);
       tailBead = path.next(headBead,gapLength);]
      The result is [(gapLength, headBead, tailBead)]. *)
Definition OpenMove_propose : M (Z * beadLocator * beadLocator) :=
    let* gapLength := evenLength in
    mod_mv (set_numLevels (levelsFor gapLength)) ;;
    let* r0 := do_randInt (numTimeSlices E ÷ 2 - 1) in
    mod_mv (fun m => set_headBead (2 * r0, (headBead m).2) m) ;;
    let* p := get_path in
    let* r1 := do_randInt (numBeads p (2 * r0) - 1) in
    let headB : beadLocator := (2 * r0, r1) in
    mod_mv (set_headBead headB) ;;
    let tailB := nextN p headB gapLength in
    mod_mv (set_tailBead tailB) ;;
    ret (gapLength, headB, tailB).

  (** [OpenMove::attemptMove]. *)
Definition OpenMove_attemptMove (fuel : nat) : M bool :=
    mod_mv (set_success false) ;;
    let* (gapLength, headB, tailB) := OpenMove_propose in
    let* p := get_path in
    let sep := getSeparation E p headB tailB in
    if negb (tooCostly2 E p sep gapLength) then
      checkMove ;;
      let norm := ((c_C E * of_int (Mbar E) * of_int (getNumBeadsOn E p))
                   / rho0 E p headB tailB gapLength)%D in
      let norm := (norm * (attemptProb E "close" / attemptProb E "open"))%D in
      let norm := (norm * ensembleWeight E (- gapLength + 1))%D in
      let muShift := (of_int gapLength * mu E * tau E)%D in
      incNumAttempted ;;
      incTotAttempted ;;
      incNumAttemptedLevel ;;
      mod_worm (set_special1 headB) ;;
      mod_worm (set_special2 tailB) ;;
      if local E then
        let actionShift_ := ((- dlog norm + muShift) / of_int gapLength)%D in
        let* r := removeSlices fuel next headB tailB actionShift_ OpenMove_undoMove in
        match r with
        | None => returnSuccess
        | Some (deltaAction, PNorm) =>
            let* a := action1 (barePotentialAction E) tailB in
            let deltaAction := (deltaAction - (a - dhalf * actionShift_))%D in
            let* c := action2 (potentialActionCorrection E) headB tailB in
            let deltaAction := (deltaAction - c)%D in
            finalTest (finalThreshold deltaAction PNorm) (OpenMove_keepMove fuel) OpenMove_undoMove
        end
      else
        let* oldAction := action2 (potentialAction E) headB tailB in
        finalTest (norm * dexp (oldAction - muShift))%D (OpenMove_keepMove fuel) OpenMove_undoMove
    else returnSuccess.

  (* ------------------------------------------------------------------- *)
  (** ** CloseMove                                                        *)
  (* ------------------------------------------------------------------- *)

  (** [CloseMove::keepMove]. *)
Definition CloseMove_keepMove : M unit :=
    enterKeep ;;
    incNumAccepted ;;
    incNumAcceptedLevel ;;
    incTotAccepted ;;
    mod_worm worm_reset ;;
    mod_worm (set_isConfigDiagonal true) ;;
    printMoveState ;;
    mod_mv (set_success true).

  (** [CloseMove::undoMove]. *)
Definition CloseMove_undoMove (fuel : nat) : M unit :=
    enterUndo ;;
    let* p := get_path in
    deleteWhile fuel
      (fun p b => negb (beq b (worm_tail (worm p))) && negb (beq b XXX))
      delBeadGetNext (next p (worm_head (worm p))) ;;
    mod_path (fun p => setNext p (worm_head (worm p)) XXX) ;;
    mod_path (fun p => setPrev p (worm_tail (worm p)) XXX) ;;
    mod_worm (set_isConfigDiagonal false) ;;
    printMoveState ;;
    mod_mv (set_success false).

  (** [beadIndex = path.addNextBead(beadIndex,
         newStagingPosition(beadIndex,path.worm.tail,path.worm.gap,k));] *)
Definition growNextStaging (beadIndex : beadLocator) (k : Z) : M beadLocator :=
    let* p := get_path in
    let* x := newStagingPosition beadIndex (worm_tail (worm p)) (worm_gap (worm p)) k in
    path_op (fun p => addNextBead (numTimeSlices E) p beadIndex x).

  (** [path.next(beadIndex) = path.worm.tail;
       path.prev(path.worm.tail) = beadIndex;] *)
Definition linkToTail (beadIndex : beadLocator) : M unit :=
    mod_path (fun p => setNext p beadIndex (worm_tail (worm p))) ;;
    mod_path (fun p => setPrev p (worm_tail (worm p)) beadIndex).

  (** [CloseMove::attemptMove]. *)
Definition CloseMove_attemptMove (fuel : nat) : M bool :=
    mod_mv (set_success false) ;;
    let* p := get_path in
    let w := worm p in
    if bool_decide (Mbar E < worm_gap w) || bool_decide (worm_gap w = 0) || tooCostly E p
    then ret false
    else
      checkMove ;;
      mod_mv (set_numLevels (levelsFor (worm_gap w))) ;;
      incNumAttempted ;;
      incNumAttemptedLevel ;;
      incTotAttempted ;;
      mod_mv (set_headBead (worm_head w)) ;;
      mod_mv (set_tailBead (worm_tail w)) ;;
      let norm := (rho0 E p (worm_head w) (worm_tail w) (worm_gap w)
                   / (c_C E * of_int (Mbar E) * of_int (getNumBeadsOn E p + worm_gap w - 1)))%D in
      let norm := (norm * (attemptProb E "open" / attemptProb E "close"))%D in
      let norm := (norm * ensembleWeight E (worm_gap w - 1))%D in
      let muShift := (of_int (worm_gap w) * mu E * tau E)%D in
      if local E then
        let actionShift_ := ((dlog norm + muShift) / of_int (worm_gap w))%D in
        let* a := action1 (barePotentialAction E) (worm_head w) in
        let deltaAction := (d0 + (a - dhalf * actionShift_))%D in
        let* t := sliceTest deltaAction d1 (CloseMove_undoMove fuel) in
        match t with
        | None => returnSuccess
        | Some PNorm =>
            let* r := growSlices (Z.to_nat (worm_gap w - 1)) 0 growNextStaging
                        (worm_head w) deltaAction PNorm actionShift_ (CloseMove_undoMove fuel) in
            match r with
            | None => returnSuccess
            | Some (beadIndex, deltaAction, PNorm) =>
                linkToTail beadIndex ;;
                let* a := action1 (barePotentialAction E) (worm_tail w) in
                let deltaAction := (deltaAction + (a - dhalf * actionShift_))%D in
                let* c := action2 (potentialActionCorrection E) (worm_head w) (worm_tail w) in
                let deltaAction := (deltaAction + c)%D in
                finalTest (finalThreshold deltaAction PNorm) CloseMove_keepMove
                          (CloseMove_undoMove fuel)
            end
        end
      else
        let* beadIndex := growAll (Z.to_nat (worm_gap w - 1)) 0 growNextStaging (worm_head w) in
        linkToTail beadIndex ;;
        let* newAction := action2 (potentialAction E) (worm_head w) (worm_tail w) in
        finalTest (norm * dexp (- newAction + muShift))%D CloseMove_keepMove
                  (CloseMove_undoMove fuel).

  (* ------------------------------------------------------------------- *)
  (** ** InsertMove                                                       *)
  (* ------------------------------------------------------------------- *)

  (** [InsertMove::keepMove]. *)
Definition InsertMove_keepMove : M unit :=
    enterKeep ;;
    incNumAccepted ;;
    incTotAccepted ;;
    incNumAcceptedLevel ;;
    let* m := get_mv in
    let* p := get_path in
    mod_worm (fun _ => worm_update E p (headBead m) (tailBead m)) ;;
    mod_worm (set_isConfigDiagonal false) ;;
    printMoveState ;;
    mod_mv (set_success true).

  (** [InsertMove::undoMove]. *)
Definition InsertMove_undoMove (fuel : nat) : M unit :=
    enterUndo ;;
    let* m := get_mv in
    deleteUntilXXX fuel delBeadGetNext (tailBead m) ;;
    mod_worm worm_reset ;;
    mod_worm (set_isConfigDiagonal true) ;;
    printMoveState ;;
    mod_mv (set_success false).

  (** [InsertMove::attemptMove]. *)
Definition InsertMove_attemptMove (fuel : nat) : M bool :=
    let* wormLength := evenLength in
    mod_mv (set_numLevels (levelsFor wormLength)) ;;
    checkMove ;;
    incNumAttempted ;;
    incTotAttempted ;;
    incNumAttemptedLevel ;;
    let norm := (c_C E * of_int (Mbar E) * of_int (numTimeSlices E) * volume E)%D in
    let muShift := (of_int wormLength * tau E * mu E)%D in
    let norm := (norm * (attemptProb E "remove" / attemptProb E "insert"))%D in
    let norm := (norm * ensembleWeight E wormLength)%D in
    let* r := do_randInt (numTimeSlices E ÷ 2 - 1) in
    let slice := 2 * r in
    let* x := do_randPosition in
    let* tailB := path_op (fun p => addBead p slice x) in
    mod_mv (set_tailBead tailB) ;;
    mod_worm (set_special2 tailB) ;;
    if local E then
      let actionShift_ := ((dlog norm + muShift) / of_int wormLength)%D in
      let* a := action1 (barePotentialAction E) tailB in
      let deltaAction := (d0 + (a - dhalf * actionShift_))%D in
      let* t := sliceTest deltaAction d1 (InsertMove_undoMove fuel) in
      match t with
      | None => returnSuccess
      | Some PNorm =>
          let* r := growSlices (Z.to_nat (wormLength - 1)) 1 growNextFree
                      tailB deltaAction PNorm actionShift_ (InsertMove_undoMove fuel) in
          match r with
          | None => returnSuccess
          | Some (beadIndex, deltaAction, PNorm) =>
              let* headB := growNextFree beadIndex wormLength in
              mod_mv (set_headBead headB) ;;
              mod_worm (set_special1 headB) ;;
              let* a := action1 (barePotentialAction E) headB in
              let deltaAction := (deltaAction + (a - dhalf * actionShift_))%D in
              let* c := action2 (potentialActionCorrection E) tailB headB in
              let deltaAction := (deltaAction + c)%D in
              finalTest (finalThreshold deltaAction PNorm) InsertMove_keepMove
                        (InsertMove_undoMove fuel)
          end
      end
    else
      let* headB := growAll (Z.to_nat wormLength) 0 growNextFree tailB in
      mod_mv (set_headBead headB) ;;
      mod_worm (set_special1 headB) ;;
      let* newAction := action2 (potentialAction E) tailB headB in
      finalTest (norm * dexp (- newAction + muShift))%D InsertMove_keepMove
                (InsertMove_undoMove fuel).

  (* ------------------------------------------------------------------- *)
  (** ** RemoveMove                                                       *)
  (* ------------------------------------------------------------------- *)

  (** [RemoveMove::keepMove]. *)
Definition RemoveMove_keepMove (fuel : nat) : M unit :=
    enterKeep ;;
    incNumAccepted ;;
    incNumAcceptedLevel ;;
    incTotAccepted ;;
    printMoveState ;;
    let* p := get_path in
    deleteUntilXXX fuel delBeadGetPrev (worm_head (worm p)) ;;
    mod_worm worm_reset ;;
    mod_worm (set_isConfigDiagonal true) ;;
    printMoveState ;;
    mod_mv (set_success true).

  (** [RemoveMove::undoMove]. *)
Definition RemoveMove_undoMove : M unit :=
    enterUndo ;;
    mod_worm (set_isConfigDiagonal false) ;;
    printMoveState ;;
    mod_mv (set_success false).

  (** [RemoveMove::attemptMove]. *)
Definition RemoveMove_attemptMove (fuel : nat) : M bool :=
    let* p := get_path in
    let w := worm p in
    if bool_decide (Mbar E < worm_length w) || bool_decide (worm_length w < 1)
       || bool_decide (getTrueNumParticles E p < 1)
    then ret false
    else
      mod_mv (set_numLevels (levelsFor (worm_length w))) ;;
      checkMove ;;
      incNumAttempted ;;
      incNumAttemptedLevel ;;
      incTotAttempted ;;
      let norm := (d1 / (c_C E * of_int (Mbar E) * of_int (numTimeSlices E) * volume E))%D in
      let muShift := (of_int (worm_length w) * mu E * tau E)%D in
      let norm := (norm * (attemptProb E "insert" / attemptProb E "remove"))%D in
      let norm := (norm * ensembleWeight E (- worm_length w))%D in
      if local E then
        let actionShift_ := ((- dlog norm + muShift) / of_int (worm_length w))%D in
        let* r := removeSlices fuel prev (worm_head w) (worm_tail w) actionShift_
                    RemoveMove_undoMove in
        match r with
        | None => returnSuccess
        | Some (deltaAction, PNorm) =>
            let* a := action1 (barePotentialAction E) (worm_tail w) in
            let deltaAction := (deltaAction - (a - dhalf * actionShift_))%D in
            let* c := action2 (potentialActionCorrection E) (worm_tail w) (worm_head w) in
            let deltaAction := (deltaAction - c)%D in
            finalTest (finalThreshold deltaAction PNorm) (RemoveMove_keepMove fuel)
                      RemoveMove_undoMove
        end
      else
        let* oldAction := action2 (potentialAction E) (worm_tail w) (worm_head w) in
        finalTest (norm * dexp (oldAction - muShift))%D (RemoveMove_keepMove fuel)
                  RemoveMove_undoMove.

  (* ------------------------------------------------------------------- *)
  (** ** AdvanceHeadMove                                                  *)
  (* ------------------------------------------------------------------- *)

  (** [AdvanceHeadMove::keepMove]. *)
Definition AdvanceHeadMove_keepMove : M unit :=
    enterKeep ;;
    incNumAccepted ;;
    incTotAccepted ;;
    incNumAcceptedLevel ;;
    let* m := get_mv in
    let* p := get_path in
    mod_worm (fun _ => worm_update E p (headBead m) (worm_tail (worm p))) ;;
    mod_worm (set_isConfigDiagonal false) ;;
    printMoveState ;;
    mod_mv (set_success true).

  (** [AdvanceHeadMove::undoMove]. *)
Definition AdvanceHeadMove_undoMove (fuel : nat) : M unit :=
    enterUndo ;;
    mod_worm (fun w => set_head (special1 w) w) ;;
    let* p := get_path in
    deleteWhile fuel (fun _ b => negb (beq b XXX)) delBeadGetNext (next p (worm_head (worm p))) ;;
    mod_path (fun p => setNext p (worm_head (worm p)) XXX) ;;
    mod_worm (set_isConfigDiagonal false) ;;
    mod_worm (set_special1 XXX) ;;
    printMoveState ;;
    mod_mv (set_success false).

  (** [AdvanceHeadMove::attemptMove]. *)
Definition AdvanceHeadMove_attemptMove (fuel : nat) : M bool :=
    mod_mv (set_success false) ;;
    let* advanceLength := evenLength in
    mod_mv (set_numLevels (levelsFor advanceLength)) ;;
    checkMove ;;
    incNumAttempted ;;
    incNumAttemptedLevel ;;
    incTotAttempted ;;
    let muShift := (of_int advanceLength * tau E * mu E)%D in
    let norm := (attemptProb E "recede head" / attemptProb E "advance head")%D in
    let norm := (norm * ensembleWeight E advanceLength)%D in
    mod_worm (fun w => set_special1 (worm_head w) w) ;;
    mod_worm (set_head XXX) ;;
    let* p := get_path in
    let special := special1 (worm p) in
    if local E then
      let actionShift_ := ((dlog norm + muShift) / of_int advanceLength)%D in
      let* a := action1 (barePotentialAction E) special in
      let deltaAction := (a - dhalf * actionShift_)%D in
      let* t := sliceTest deltaAction d1 (AdvanceHeadMove_undoMove fuel) in
      match t with
      | None => returnSuccess
      | Some PNorm =>
          let* r := growSlices (Z.to_nat (advanceLength - 1)) 0 growNextFree
                      special deltaAction PNorm actionShift_ (AdvanceHeadMove_undoMove fuel) in
          match r with
          | None => returnSuccess
          | Some (beadIndex, deltaAction, PNorm) =>
              let* headB := growNextFree beadIndex advanceLength in
              mod_mv (set_headBead headB) ;;
              mod_worm (set_head headB) ;;
              let* a := action1 (potentialAction1 E) headB in
              let deltaAction := (deltaAction + (a - dhalf * actionShift_))%D in
              let* p := get_path in
              let* c := action2 (potentialActionCorrection E)
                          (special1 (worm p)) (worm_head (worm p)) in
              let deltaAction := (deltaAction + c)%D in
              finalTest (finalThreshold deltaAction PNorm) AdvanceHeadMove_keepMove
                        (AdvanceHeadMove_undoMove fuel)
          end
      end
    else
      let* headB := growAll (Z.to_nat advanceLength) 0 growNextFree special in
      mod_mv (set_headBead headB) ;;
      mod_worm (set_head headB) ;;
      let* p := get_path in
      let* newAction := action2 (potentialAction E) (special1 (worm p)) headB in
      finalTest (norm * dexp (- newAction + muShift))%D AdvanceHeadMove_keepMove
                (AdvanceHeadMove_undoMove fuel).

  (* ------------------------------------------------------------------- *)
  (** ** AdvanceTailMove                                                  *)
  (* ------------------------------------------------------------------- *)

  (** [AdvanceTailMove::keepMove]. *)
Definition AdvanceTailMove_keepMove (fuel : nat) : M unit :=
    enterKeep ;;
    incNumAccepted ;;
    incTotAccepted ;;
    incNumAcceptedLevel ;;
    let* m := get_mv in
    let* p := get_path in
    deleteUntilXXX fuel delBeadGetPrev (prev p (tailBead m)) ;;
    let* p := get_path in
    mod_worm (fun _ => worm_update E p (worm_head (worm p)) (tailBead m)) ;;
    mod_worm (set_isConfigDiagonal false) ;;
    printMoveState ;;
    mod_mv (set_success true).

  (** [AdvanceTailMove::undoMove]. *)
Definition AdvanceTailMove_undoMove : M unit :=
    enterUndo ;;
    mod_worm (set_isConfigDiagonal false) ;;
    mod_worm (set_special1 XXX) ;;
    printMoveState ;;
    mod_mv (set_success false).

  (** [AdvanceTailMove::attemptMove]. *)
Definition AdvanceTailMove_attemptMove (fuel : nat) : M bool :=
    mod_mv (set_success false) ;;
    let* advanceLength := evenLength in
    mod_mv (set_numLevels (levelsFor advanceLength)) ;;
    let* p := get_path in
    let w := worm p in
    if bool_decide (advanceLength < worm_length w) then
      let tailB := nextN p (worm_tail w) advanceLength in
      mod_mv (set_tailBead tailB) ;;
      let muShift := (of_int advanceLength * tau E * mu E)%D in
      let norm := (attemptProb E "recede tail" / attemptProb E "advance tail")%D in
      let norm := (norm * ensembleWeight E (- advanceLength))%D in
      checkMove ;;
      incNumAttempted ;;
      incNumAttemptedLevel ;;
      incTotAttempted ;;
      mod_worm (set_special1 tailB) ;;
      if local E then
        let actionShift_ := ((- dlog norm + muShift) / of_int advanceLength)%D in
        let* r := removeSlices fuel next (worm_tail w) tailB actionShift_
                    AdvanceTailMove_undoMove in
        match r with
        | None => returnSuccess
        | Some (deltaAction, PNorm) =>
            let* a := action1 (barePotentialAction E) tailB in
            let deltaAction := (deltaAction - (a - dhalf * actionShift_))%D in
            let* c := action2 (potentialActionCorrection E) (worm_tail w) tailB in
            let deltaAction := (deltaAction - c)%D in
            finalTest (finalThreshold deltaAction PNorm) (AdvanceTailMove_keepMove fuel)
                      AdvanceTailMove_undoMove
        end
      else
        let* oldAction := action2 (potentialAction E) (worm_tail w) tailB in
        finalTest (norm * dexp (oldAction - muShift))%D (AdvanceTailMove_keepMove fuel)
                  AdvanceTailMove_undoMove
    else returnSuccess.

  (* ------------------------------------------------------------------- *)
  (** ** RecedeHeadMove                                                   *)
  (* ------------------------------------------------------------------- *)

  (** [RecedeHeadMove::keepMove]. *)
Definition RecedeHeadMove_keepMove (fuel : nat) : M unit :=
    enterKeep ;;
    incNumAccepted ;;
    incTotAccepted ;;
    incNumAcceptedLevel ;;
    let* m := get_mv in
    let* p := get_path in
    deleteUntilXXX fuel delBeadGetNext (next p (headBead m)) ;;
    let* p := get_path in
    mod_worm (fun _ => worm_update E p (headBead m) (worm_tail (worm p))) ;;
    mod_worm (set_isConfigDiagonal false) ;;
    printMoveState ;;
    mod_mv (set_success true).

  (** [RecedeHeadMove::undoMove]. *)
Definition RecedeHeadMove_undoMove : M unit :=
    enterUndo ;;
    mod_worm (set_isConfigDiagonal false) ;;
    mod_worm (set_special1 XXX) ;;
    printMoveState ;;
    mod_mv (set_success false).

  (** [RecedeHeadMove::attemptMove]. *)
Definition RecedeHeadMove_attemptMove (fuel : nat) : M bool :=
    mod_mv (set_success false) ;;
    let* recedeLength := evenLength in
    mod_mv (set_numLevels (levelsFor recedeLength)) ;;
    let* p := get_path in
    let w := worm p in
    if bool_decide (recedeLength < worm_length w) then
      let headB := prevN p (worm_head w) recedeLength in
      mod_mv (set_headBead headB) ;;
      let muShift := (of_int recedeLength * tau E * mu E)%D in
      let norm := (attemptProb E "advance head" / attemptProb E "recede head")%D in
      let norm := (norm * ensembleWeight E (- recedeLength))%D in
      checkMove ;;
      incNumAttempted ;;
      incNumAttemptedLevel ;;
      incTotAttempted ;;
      mod_worm (set_special1 headB) ;;
      if local E then
        let actionShift_ := ((- dlog norm + muShift) / of_int recedeLength)%D in
        let* r := removeSlices fuel prev (worm_head w) headB actionShift_
                    RecedeHeadMove_undoMove in
        match r with
        | None => returnSuccess
        | Some (deltaAction, PNorm) =>
            let* a := action1 (barePotentialAction E) headB in
            let deltaAction := (deltaAction - (a - dhalf * actionShift_))%D in
            let* c := action2 (potentialActionCorrection E) headB (worm_head w) in
            let deltaAction := (deltaAction - c)%D in
            finalTest (finalThreshold deltaAction PNorm) (RecedeHeadMove_keepMove fuel)
                      RecedeHeadMove_undoMove
        end
      else
        let* oldAction := action2 (potentialAction E) headB (worm_head w) in
        finalTest (norm * dexp (oldAction - muShift))%D (RecedeHeadMove_keepMove fuel)
                  RecedeHeadMove_undoMove
    else returnSuccess.

  (* ------------------------------------------------------------------- *)
  (** ** RecedeTailMove                                                   *)
  (* ------------------------------------------------------------------- *)

  (** [RecedeTailMove::keepMove]. *)
Definition RecedeTailMove_keepMove : M unit :=
    enterKeep ;;
    incNumAccepted ;;
    incTotAccepted ;;
    incNumAcceptedLevel ;;
    let* m := get_mv in
    let* p := get_path in
    mod_worm (fun _ => worm_update E p (worm_head (worm p)) (tailBead m)) ;;
    mod_worm (set_isConfigDiagonal false) ;;
    printMoveState ;;
    mod_mv (set_success true).

  (** [RecedeTailMove::undoMove]. *)
Definition RecedeTailMove_undoMove (fuel : nat) : M unit :=
    enterUndo ;;
    mod_worm (fun w => set_tail (special1 w) w) ;;
    let* p := get_path in
    deleteWhile fuel (fun _ b => negb (beq b XXX)) delBeadGetPrev (prev p (worm_tail (worm p))) ;;
    mod_path (fun p => setPrev p (worm_tail (worm p)) XXX) ;;
    mod_worm (set_isConfigDiagonal false) ;;
    mod_worm (set_special1 XXX) ;;
    printMoveState ;;
    mod_mv (set_success false).

  (** [RecedeTailMove::attemptMove]. *)
Definition RecedeTailMove_attemptMove (fuel : nat) : M bool :=
    mod_mv (set_success false) ;;
    let* recedeLength := evenLength in
    mod_mv (set_numLevels (levelsFor recedeLength)) ;;
    checkMove ;;
    incNumAttempted ;;
    incNumAttemptedLevel ;;
    incTotAttempted ;;
    let muShift := (of_int recedeLength * tau E * mu E)%D in
    let norm := (attemptProb E "advance tail" / attemptProb E "recede tail")%D in
    let norm := (norm * ensembleWeight E recedeLength)%D in
    mod_worm (fun w => set_special1 (worm_tail w) w) ;;
    mod_worm (set_tail XXX) ;;
    let* p := get_path in
    let special := special1 (worm p) in
    if local E then
      let actionShift_ := ((dlog norm + muShift) / of_int recedeLength)%D in
      let* a := action1 (barePotentialAction E) special in
      let deltaAction := (d0 + (a - dhalf * actionShift_))%D in
      let* t := sliceTest deltaAction d1 (RecedeTailMove_undoMove fuel) in
      match t with
      | None => returnSuccess
      | Some PNorm =>
          let* r := growSlices (Z.to_nat (recedeLength - 1)) 0 growPrevFree
                      special deltaAction PNorm actionShift_ (RecedeTailMove_undoMove fuel) in
          match r with
          | None => returnSuccess
          | Some (beadIndex, deltaAction, PNorm) =>
              let* tailB := growPrevFree beadIndex recedeLength in
              mod_mv (set_tailBead tailB) ;;
              mod_worm (set_tail tailB) ;;
              let* a := action1 (barePotentialAction E) tailB in
              let deltaAction := (deltaAction + (a - dhalf * actionShift_))%D in
              let* p := get_path in
              let* c := action2 (potentialActionCorrection E) tailB (special1 (worm p)) in
              let deltaAction := (deltaAction + c)%D in
              finalTest (finalThreshold deltaAction PNorm) RecedeTailMove_keepMove
                        (RecedeTailMove_undoMove fuel)
          end
      end
    else
      let* tailB := growAll (Z.to_nat recedeLength) 0 growPrevFree special in
      mod_mv (set_tailBead tailB) ;;
      mod_worm (set_tail tailB) ;;
      let* p := get_path in
      let* newAction := action2 (potentialAction E) tailB (special1 (worm p)) in
      finalTest (norm * dexp (- newAction + muShift))%D RecedeTailMove_keepMove
                (RecedeTailMove_undoMove fuel).

  (* ------------------------------------------------------------------- *)
  (** ** SwapMoveBase                                                     *)
  (* ------------------------------------------------------------------- *)

  (** The running sums [cumulant.at(n) = cumulant.at(n-1) + crho0]. *)
Fixpoint runningSums (acc : D) (l : list D) : list D :=
    match l with
    | [] => []
    | x :: l' => (acc + x)%D :: runningSums (acc + x)%D l'
    end.

  (** [path.lookup.updateFullInteractionList(b,slice)]. *)
Definition updateFullInteractionList (b : beadLocator) (slice : Z) : M unit :=
    modify (fun s => set_fullBeadList (fullInteractionList E (path s) b slice) s).

  (** [SwapMoveBase::getNorm]: fills [cumulant] with the normalised running
      sums of [rho0] over the bead list and returns their total [Sigma].
      [cumulant.at(0)] throws when the list is empty. *)
Definition getNorm (beadIndex : beadLocator) (swapLength : Z) : M D :=
    let* s := get in
    match map (fun b => rho0 E (path s) beadIndex b swapLength) (fullBeadList s) with
    | [] => abort
    | r0 :: rs =>
        let sums := r0 :: runningSums r0 rs in
        let Sigma := List.last sums r0 in
        mod_mv (set_cumulant (map (fun c => (c / Sigma)%D) sums)) ;;
        ret Sigma
    end.

  (** [std::lower_bound(cumulant.begin(),cumulant.end(),u) - cumulant.begin()]
      on the non-decreasing [cumulant]: the first index whose entry is not
      below [u]. *)
Fixpoint lower_bound (l : list D) (u : D) : Z :=
    match l with
    | [] => 0
    | c :: l' => if (c <? u)%D then 1 + lower_bound l' u else 0
    end.

  (** [SwapMoveBase::selectPivotBead]. *)
Definition selectPivotBead : M beadLocator :=
    let* u := do_rand in
    let* s := get in
    let index := lower_bound (cumulant (mv s)) u in
    ret (default XXX (fullBeadList s !! Z.to_nat index)).

  (** [for (k = 0; k < swapLength; k++) {
         if (all(beadIndex==stop)) return false;
         beadIndex = step(beadIndex); }]:
      the bead reached, or nothing when the move returns. *)
Fixpoint findSwap (n : nat) (step : beadLocator -> beadLocator) (stop beadIndex : beadLocator)
      : option beadLocator :=
    match n with
    | O => Some beadIndex
    | S n' => if beq beadIndex stop then None else findSwap n' step stop (step beadIndex)
    end.

  (** [do { if (!all(beadIndex==swap) && !all(beadIndex==pivot)) {
              originalPos(k) = path(beadIndex); ++k; }
            beadIndex = step(beadIndex); }
       while (!all(beadIndex==step(pivot)));] *)
Definition storeOriginal (fuel : nat) (step : Path D -> beadLocator -> beadLocator)
      (swapB pivotB : beadLocator) : M unit :=
    doWhile fuel (fun '(beadIndex, k) =>
      let* p := get_path in
      let* k :=
        (if negb (beq beadIndex swapB) && negb (beq beadIndex pivotB) then
           mod_mv (fun m => set_originalPos (fupd (originalPos m) k (pathPos p beadIndex)) m) ;;
           ret (k + 1)
         else ret k) in
      let beadIndex := step p beadIndex in
      if beq beadIndex (step p pivotB) then ret (inr tt) else ret (inl (beadIndex, k)))
      (swapB, 0).

  (** [do { if (!all(beadIndex==path.worm.special1) && !all(beadIndex==pivot)) {
              path.updateBead(beadIndex,
                newStagingPosition(back(beadIndex),pivot,swapLength,k)); ++k; }
            beadIndex = step(beadIndex); }
       while (!all(beadIndex==step(pivot)));] *)
Definition proposeSwap (fuel : nat) (step back : Path D -> beadLocator -> beadLocator)
      (pivotB : beadLocator) (swapLength : Z) : M unit :=
    let* p := get_path in
    doWhile fuel (fun '(beadIndex, k) =>
      let* p := get_path in
      let* k :=
        (if negb (beq beadIndex (special1 (worm p))) && negb (beq beadIndex pivotB) then
           let* x := newStagingPosition (back p beadIndex) pivotB swapLength k in
           mod_path (fun p => updateBead p beadIndex x) ;;
           ret (k + 1)
         else ret k) in
      let* p := get_path in
      let beadIndex := step p beadIndex in
      if beq beadIndex (step p pivotB) then ret (inr tt) else ret (inl (beadIndex, k)))
      (special1 (worm p), 0).

  (** [do { path.updateBead(beadIndex,originalPos(k)); ++k;
            beadIndex = step(beadIndex); }
       while (!all(beadIndex==pivot));] *)
Definition restoreOriginal (fuel : nat) (step : Path D -> beadLocator -> beadLocator)
      (startB pivotB : beadLocator) : M unit :=
    let* m := get_mv in
    doWhile fuel (fun '(beadIndex, k) =>
      mod_path (fun p => updateBead p beadIndex (originalPos m k)) ;;
      let* p := get_path in
      let beadIndex := step p beadIndex in
      if beq beadIndex pivotB then ret (inr tt) else ret (inl (beadIndex, k + 1)))
      (startB, 0).

  (* ------------------------------------------------------------------- *)
  (** ** SwapHeadMove                                                     *)
  (* ------------------------------------------------------------------- *)

  (** [SwapHeadMove::keepMove]. *)
Definition SwapHeadMove_keepMove : M unit :=
    enterKeep ;;
    incNumAccepted ;;
    incTotAccepted ;;
    incNumAcceptedLevel ;;
    let* m := get_mv in
    let* p := get_path in
    mod_worm (fun _ => worm_update E p (swap m) (worm_tail (worm p))) ;;
    printMoveState ;;
    mod_mv (set_success true).

  (** [SwapHeadMove::undoMove]. *)
Definition SwapHeadMove_undoMove (fuel : nat) : M unit :=
    enterUndo ;;
    mod_worm (fun w => set_head (special1 w) w) ;;
    let* m := get_mv in
    mod_path (fun p => setNext p (worm_head (worm p)) XXX) ;;
    mod_path (fun p => setNext p (swap m) (nextSwap m)) ;;
    mod_path (fun p => setPrev p (nextSwap m) (swap m)) ;;
    let* p := get_path in
    restoreOriginal fuel next (next p (swap m)) (pivot m) ;;
    mod_worm (set_isConfigDiagonal false) ;;
    mod_worm (set_special1 XXX) ;;
    mod_worm (set_special2 XXX) ;;
    printMoveState ;;
    mod_mv (set_success false).

  (** [SwapHeadMove::attemptMove]. *)
Definition SwapHeadMove_attemptMove (fuel : nat) : M bool :=
    mod_mv (set_success false) ;;
    let* p := get_path in
    if negb (isConfigDiagonal (worm p)) then
      mod_mv (set_pivot XXX) ;;
      mod_mv (set_swap XXX) ;;
      let swapLength := Mbar E in
      mod_mv (set_numLevels (levelsFor swapLength)) ;;
      let pivotSlice := (worm_head (worm p)).1 + swapLength in
      let pivotSlice :=
        if bool_decide (numTimeSlices E <= pivotSlice) then pivotSlice - numTimeSlices E
        else pivotSlice in
      updateFullInteractionList (worm_head (worm p)) pivotSlice ;;
      let* l := gets fullBeadList in
      if bool_decide (0 < Z.of_nat (length l)) then
        let* SigmaHead := getNorm (worm_head (worm p)) swapLength in
        let* pivotB := selectPivotBead in
        mod_mv (set_pivot pivotB) ;;
        match findSwap (Z.to_nat swapLength) (prev p) (worm_tail (worm p)) pivotB with
        | None => ret false
        | Some swapB =>
            mod_mv (set_swap swapB) ;;
            if negb (beq (worm_tail (worm p)) swapB) && gridNeighbors E p pivotB swapB then
              checkMove ;;
              incNumAttempted ;;
              incTotAttempted ;;
              incNumAttemptedLevel ;;
              (if negb (gridShare E p (worm_head (worm p)) swapB)
               then updateFullInteractionList swapB pivotSlice else ret tt) ;;
              let* SigmaSwap := getNorm swapB swapLength in
              let PNorm := dmin (SigmaHead / SigmaSwap)%D d1 in
              let* u := do_rand in
              if (u <? PNorm)%D then
                mod_worm (set_special1 swapB) ;;
                mod_worm (set_special2 pivotB) ;;
                storeOriginal fuel next swapB pivotB ;;
                let* oldAction := action2 (potentialAction E) swapB pivotB in
                let nextSwapB := next p swapB in
                mod_mv (set_nextSwap nextSwapB) ;;
                mod_path (fun p => setNext p (worm_head (worm p)) nextSwapB) ;;
                mod_path (fun p => setNext p swapB XXX) ;;
                mod_path (fun p => setPrev p nextSwapB (worm_head (worm p))) ;;
                mod_worm (fun w => set_special1 (worm_head w) w) ;;
                mod_worm (set_head swapB) ;;
                proposeSwap fuel next prev pivotB swapLength ;;
                let* p := get_path in
                let* newAction := action2 (potentialAction E) (special1 (worm p)) pivotB in
                finalTest (metropolisThreshold oldAction newAction) SwapHeadMove_keepMove
                          (SwapHeadMove_undoMove fuel)
              else returnSuccess
            else returnSuccess
        end
      else returnSuccess
    else returnSuccess.

  (* ------------------------------------------------------------------- *)
  (** ** SwapTailMove                                                     *)
  (* ------------------------------------------------------------------- *)

  (** [SwapTailMove::keepMove]. *)
Definition SwapTailMove_keepMove : M unit :=
    enterKeep ;;
    incNumAccepted ;;
    incTotAccepted ;;
    incNumAcceptedLevel ;;
    let* m := get_mv in
    let* p := get_path in
    mod_worm (fun _ => worm_update E p (worm_head (worm p)) (swap m)) ;;
    setShift 1 ;;
    printMoveState ;;
    mod_mv (set_success true).

  (** [SwapTailMove::undoMove]. *)
Definition SwapTailMove_undoMove (fuel : nat) : M unit :=
    enterUndo ;;
    mod_worm (fun w => set_tail (special1 w) w) ;;
    let* m := get_mv in
    mod_path (fun p => setPrev p (worm_tail (worm p)) XXX) ;;
    mod_path (fun p => setPrev p (swap m) (prevSwap m)) ;;
    mod_path (fun p => setNext p (prevSwap m) (swap m)) ;;
    let* p := get_path in
    restoreOriginal fuel prev (prev p (swap m)) (pivot m) ;;
    mod_worm (set_special1 XXX) ;;
    mod_worm (set_special2 XXX) ;;
    mod_worm (set_isConfigDiagonal false) ;;
    printMoveState ;;
    mod_mv (set_success false).

  (** [SwapTailMove::attemptMove]. *)
Definition SwapTailMove_attemptMove (fuel : nat) : M bool :=
    mod_mv (set_success false) ;;
    let* p := get_path in
    if negb (isConfigDiagonal (worm p)) then
      mod_mv (set_pivot XXX) ;;
      mod_mv (set_swap XXX) ;;
      let swapLength := Mbar E in
      mod_mv (set_numLevels (levelsFor swapLength)) ;;
      let pivotSlice := (worm_tail (worm p)).1 - swapLength in
      let pivotSlice :=
        if bool_decide (pivotSlice < 0) then pivotSlice + numTimeSlices E else pivotSlice in
      updateFullInteractionList (worm_tail (worm p)) pivotSlice ;;
      let* l := gets fullBeadList in
      if bool_decide (0 < Z.of_nat (length l)) then
        let* SigmaTail := getNorm (worm_tail (worm p)) swapLength in
        let* pivotB := selectPivotBead in
        mod_mv (set_pivot pivotB) ;;
        match findSwap (Z.to_nat swapLength) (next p) (worm_head (worm p)) pivotB with
        | None => ret false
        | Some swapB =>
            mod_mv (set_swap swapB) ;;
            if negb (beq (worm_head (worm p)) swapB) && gridNeighbors E p pivotB swapB then
              checkMove ;;
              incNumAttempted ;;
              incTotAttempted ;;
              incNumAttemptedLevel ;;
              (if negb (gridShare E p (worm_tail (worm p)) swapB)
               then updateFullInteractionList swapB pivotSlice else ret tt) ;;
              let* SigmaSwap := getNorm swapB swapLength in
              let PNorm := dmin (SigmaTail / SigmaSwap)%D d1 in
              let* u := do_rand in
              if (u <? PNorm)%D then
                mod_worm (set_special1 swapB) ;;
                mod_worm (set_special2 pivotB) ;;
                storeOriginal fuel prev swapB pivotB ;;
                let* oldAction := action2 (potentialAction E) pivotB swapB in
                let prevSwapB := prev p swapB in
                mod_mv (set_prevSwap prevSwapB) ;;
                mod_path (fun p => setPrev p (worm_tail (worm p)) prevSwapB) ;;
                mod_path (fun p => setPrev p swapB XXX) ;;
                mod_path (fun p => setNext p prevSwapB (worm_tail (worm p))) ;;
                mod_worm (fun w => set_special1 (worm_tail w) w) ;;
                mod_worm (set_tail swapB) ;;
                proposeSwap fuel prev next pivotB swapLength ;;
                let* p := get_path in
                let* newAction := action2 (potentialAction E) pivotB (special1 (worm p)) in
                finalTest (metropolisThreshold oldAction newAction) SwapTailMove_keepMove
                          (SwapTailMove_undoMove fuel)
              else returnSuccess
            else returnSuccess
        end
      else returnSuccess
    else returnSuccess.

  (* ------------------------------------------------------------------- *)
  (** ** The interface of [MoveBase]                                      *)
  (* ------------------------------------------------------------------- *)

  (** The virtual [attemptMove]. *)
Definition attemptMove (m : Move) (fuel : nat) : M bool :=
    match m with
    | CenterOfMass => CenterOfMassMove_attemptMove fuel
    | Staging => StagingMove_attemptMove fuel
    | Bisection => BisectionMove_attemptMove fuel
    | Open => OpenMove_attemptMove fuel
    | Close => CloseMove_attemptMove fuel
    | Insert => InsertMove_attemptMove fuel
    | Remove => RemoveMove_attemptMove fuel
    | AdvanceHead => AdvanceHeadMove_attemptMove fuel
    | AdvanceTail => AdvanceTailMove_attemptMove fuel
    | RecedeHead => RecedeHeadMove_attemptMove fuel
    | RecedeTail => RecedeTailMove_attemptMove fuel
    | SwapHead => SwapHeadMove_attemptMove fuel
    | SwapTail => SwapTailMove_attemptMove fuel
    end.
End Moves.

(* ===================================================================== *)
(** * cmc.cpp                                                             *)
(* ===================================================================== *)

(** The fields of [ClassicalMonteCarlo].  [config] is the array of
    positions, whose extent may exceed [numParticles].  [randIntArgs] is
    instrumentation: the arguments [random.randInt] has been called with,
    latest first. *)
Record CMC (D R : Type) : Type := mkCMC {
  config : list (dVec D);
  numParticles : Z;
  z : D;
  energy : D;
  numUpdateTotal : Z;
  numUpdateAccept : Z;
  numInsertTotal : Z;
  numInsertAccept : Z;
  numDeleteTotal : Z;
  numDeleteAccept : Z;
  cmc_random : R;
  randIntArgs : list Z
}.
Arguments mkCMC {D R}.
Arguments config {D R}.
Arguments numParticles {D R}.
Arguments z {D R}.
Arguments energy {D R}.
Arguments numUpdateTotal {D R}.
Arguments numUpdateAccept {D R}.
Arguments numInsertTotal {D R}.
Arguments numInsertAccept {D R}.
Arguments numDeleteTotal {D R}.
Arguments numDeleteAccept {D R}.
Arguments cmc_random {D R}.
Arguments randIntArgs {D R}.

(** A computation of cmc.cpp: a result, or nothing when an element of
    [config] outside the extent of the array is read or written; the state
    reached is returned in both cases. *)
Definition MC (D R A : Type) : Type := CMC D R -> option A * CMC D R.

Definition mc_ret {D R A} (a : A) : MC D R A := fun s => (Some a, s).
Definition mc_bind {D R A B} (m : MC D R A) (k : A -> MC D R B) : MC D R B :=
  fun s => match m s with (Some a, s') => k a s' | (None, s') => (None, s') end.

Declare Scope mc_scope.
Delimit Scope mc_scope with mc.
Notation "'let*' x ':=' m 'in' k" := (mc_bind m (fun x => k))
  (at level 10, x pattern, m at level 100, k at level 200) : mc_scope.
Notation "m ';;' k" := (mc_bind m (fun _ => k))
  (at level 100, k at level 200, right associativity) : mc_scope.

Section ClassicalMonteCarlo.
  Context {D : Type} `{Double D} {R : Type} (E : Env D R).

  #[local] Open Scope mc_scope.
  #[local] Abbreviation MC := (MC D R).

Definition mc_gets {A} (f : CMC D R -> A) : MC A := fun s => (Some (f s), s).
Definition mc_modify (f : CMC D R -> CMC D R) : MC unit := fun s => (Some tt, f s).

Definition set_config (v : list (dVec D)) (s : CMC D R) : CMC D R :=
    mkCMC v (numParticles s) (z s) (energy s) (numUpdateTotal s) (numUpdateAccept s)
      (numInsertTotal s) (numInsertAccept s) (numDeleteTotal s) (numDeleteAccept s)
      (cmc_random s) (randIntArgs s).
Definition set_numParticles (v : Z) (s : CMC D R) : CMC D R :=
    mkCMC (config s) v (z s) (energy s) (numUpdateTotal s) (numUpdateAccept s)
      (numInsertTotal s) (numInsertAccept s) (numDeleteTotal s) (numDeleteAccept s)
      (cmc_random s) (randIntArgs s).
Definition set_energy (v : D) (s : CMC D R) : CMC D R :=
    mkCMC (config s) (numParticles s) (z s) v (numUpdateTotal s) (numUpdateAccept s)
      (numInsertTotal s) (numInsertAccept s) (numDeleteTotal s) (numDeleteAccept s)
      (cmc_random s) (randIntArgs s).
Definition set_updateCounters (t a : Z) (s : CMC D R) : CMC D R :=
    mkCMC (config s) (numParticles s) (z s) (energy s) t a
      (numInsertTotal s) (numInsertAccept s) (numDeleteTotal s) (numDeleteAccept s)
      (cmc_random s) (randIntArgs s).
Definition set_insertCounters (t a : Z) (s : CMC D R) : CMC D R :=
    mkCMC (config s) (numParticles s) (z s) (energy s) (numUpdateTotal s) (numUpdateAccept s)
      t a (numDeleteTotal s) (numDeleteAccept s) (cmc_random s) (randIntArgs s).
Definition set_deleteCounters (t a : Z) (s : CMC D R) : CMC D R :=
    mkCMC (config s) (numParticles s) (z s) (energy s) (numUpdateTotal s) (numUpdateAccept s)
      (numInsertTotal s) (numInsertAccept s) t a (cmc_random s) (randIntArgs s).
Definition set_cmc_random (v : R) (l : list Z) (s : CMC D R) : CMC D R :=
    mkCMC (config s) (numParticles s) (z s) (energy s) (numUpdateTotal s) (numUpdateAccept s)
      (numInsertTotal s) (numInsertAccept s) (numDeleteTotal s) (numDeleteAccept s) v l.

Definition cmc_rand : MC D :=
    fun s => let '(x, r) := rand E (cmc_random s) in (Some x, set_cmc_random r (randIntArgs s) s).
Definition cmc_randInt (n : Z) : MC Z :=
    fun s => let '(x, r) := randInt E n (cmc_random s) in
             (Some x, set_cmc_random r (n :: randIntArgs s) s).
Definition cmc_randPosition : MC (dVec D) :=
    fun s => let '(x, r) := randPosition E (cmc_random s) in
             (Some x, set_cmc_random r (randIntArgs s) s).
Definition cmc_randUpdate (x : dVec D) : MC (dVec D) :=
    fun s => let '(y, r) := randUpdate E (cmc_random s) x in
             (Some y, set_cmc_random r (randIntArgs s) s).

  (** [config(p)], read: defined inside the extent of the array. *)
Definition readConfig (p : Z) : MC (dVec D) :=
    fun s => if bool_decide (0 <= p) then (config s !! Z.to_nat p, s) else (None, s).

  (** [config(p) = x]: defined inside the extent of the array. *)
Definition writeConfig (p : Z) (x : dVec D) : MC unit :=
    fun s =>
      if bool_decide (0 <= p < Z.of_nat (length (config s)))
      then (Some tt, set_config (<[Z.to_nat p := x]> (config s)) s)
      else (None, s).

  (** [config.resizeAndPreserve(n)]: the first elements are kept, the new
      ones are not initialised. *)
Definition resizeAndPreserve (n : Z) (l : list (dVec D)) : list (dVec D) :=
    take (Z.to_nat n) l ++ replicate (Z.to_nat n - length l) [].

  (** [for (p2 = lo; p2 < lo + n; p2++) {
         if (p != p2) { sep = x - config(p2); boxPtr->putInside(sep);
                        e += interactionPtr->V(sep); } }]
      with [skip] the particle [p], if one is excluded. *)
Fixpoint interactionLoop (n : nat) (p2 : Z) (skip : option Z) (x : dVec D) (e : D) : MC D :=
    match n with
    | O => mc_ret e
    | S n' =>
        if bool_decide (skip = Some p2) then interactionLoop n' (p2 + 1) skip x e
        else
          let* y := readConfig p2 in
          let sep := putInside E (vsub x y) in
          interactionLoop n' (p2 + 1) skip x (e + interactionV E sep)%D
    end.

  (** The energy of a particle at [x] with the particles of the
      configuration other than [skip]:
      [e = externalPtr->V(x); for (p2 = 0; p2 < numParticles; p2++) ...]. *)
Definition particleEnergy (skip : option Z) (x : dVec D) : MC D :=
    let* n := mc_gets numParticles in
    interactionLoop (Z.to_nat n) 0 skip x (externalV E x).

  (** [ClassicalMonteCarlo::getTotalEnergy]. *)
Fixpoint totalEnergyLoop (n : nat) (part1 : Z) (locEnergy : D) : MC D :=
    match n with
    | O => mc_ret locEnergy
    | S n' =>
        let* x := readConfig part1 in
        let locEnergy := (locEnergy + externalV E x)%D in
        let* locEnergy := interactionLoop n' (part1 + 1) None x locEnergy in
        totalEnergyLoop n' (part1 + 1) locEnergy
    end.
Definition getTotalEnergy : MC D :=
    let* n := mc_gets numParticles in
    totalEnergyLoop (Z.to_nat n) 0 d0.

  (** The fugacity set by the constructor:
      [z = exp(constants()->mu()/constants()->T())/pow(constants()->dBWavelength(),NDIM)]. *)
Definition fugacity : D := (dexp (mu E / c_T E) / dpow (dBWavelength E) (Z.of_nat (NDIM E)))%D.

  (** The constructor [ClassicalMonteCarlo::ClassicalMonteCarlo]; [s0] gives
      the members it leaves unassigned. *)
Definition ClassicalMonteCarlo_new (initialPos : list (dVec D)) (r : R) (s0 : CMC D R)
      : option D * CMC D R :=
    let s := mkCMC initialPos (Z.of_nat (length initialPos)) fugacity (energy s0)
               0 0 (numInsertTotal s0) (numInsertAccept s0)
               (numDeleteTotal s0) (numDeleteAccept s0) r [] in
    (let* e := getTotalEnergy in
     mc_modify (set_energy e) ;;
     mc_ret e) s.

  (** The right-hand sides of the three Metropolis tests. *)
Definition updateThreshold (deltaE : D) : D := dexp (- deltaE / c_T E)%D.
Definition insertFactor (s : CMC D R) : D := (z s * volume E / of_int (numParticles s + 1))%D.
Definition insertThreshold (s : CMC D R) (newE : D) : D :=
    (insertFactor s * dexp (- newE / c_T E))%D.
Definition deleteFactor (s : CMC D R) : D := (of_int (numParticles s) / (z s * volume E))%D.
Definition deleteThreshold (s : CMC D R) (oldE : D) : D :=
    (deleteFactor s * dexp (oldE / c_T E))%D.

  (** [ClassicalMonteCarlo::updateMove]. *)
Definition updateMove : MC unit :=
    mc_modify (fun s => set_updateCounters (numUpdateTotal s + 1) (numUpdateAccept s) s) ;;
    let* n := mc_gets numParticles in
    let* p := cmc_randInt (n - 1) in
    let* x := readConfig p in
    let* oldE := particleEnergy (Some p) x in
    let* oldPos := readConfig p in
    let* y := cmc_randUpdate oldPos in
    writeConfig p y ;;
    let* y := readConfig p in
    let* newE := particleEnergy (Some p) y in
    let deltaE := (newE - oldE)%D in
    let* u := cmc_rand in
    if (u <? updateThreshold deltaE)%D then
      mc_modify (fun s => set_energy (energy s + deltaE)%D s) ;;
      mc_modify (fun s => set_updateCounters (numUpdateTotal s) (numUpdateAccept s + 1) s)
    else writeConfig p oldPos.

  (** [ClassicalMonteCarlo::insertMove]. *)
Definition insertMove : MC unit :=
    mc_modify (fun s => set_insertCounters (numInsertTotal s + 1) (numInsertAccept s) s) ;;
    let* newPos := cmc_randPosition in
    let* newE := particleEnergy None newPos in
    let* s := mc_gets (fun s => s) in
    let* u := cmc_rand in
    if (u <? insertThreshold s newE)%D then
      mc_modify (fun s => set_energy (energy s + newE)%D s) ;;
      mc_modify (fun s =>
        if bool_decide (Z.of_nat (length (config s)) < numParticles s + 1)
        then set_config (resizeAndPreserve (numParticles s + 1) (config s)) s else s) ;;
      let* n := mc_gets numParticles in
      writeConfig n newPos ;;
      mc_modify (fun s => set_numParticles (numParticles s + 1) s) ;;
      mc_modify (fun s => set_insertCounters (numInsertTotal s) (numInsertAccept s + 1) s)
    else mc_ret tt.

  (** [ClassicalMonteCarlo::deleteMove]. *)
Definition deleteMove : MC unit :=
    mc_modify (fun s => set_deleteCounters (numDeleteTotal s + 1) (numDeleteAccept s) s) ;;
    let* n := mc_gets numParticles in
    let* p := cmc_randInt (n - 1) in
    let* oldPos := readConfig p in
    let* oldE := particleEnergy (Some p) oldPos in
    let* s := mc_gets (fun s => s) in
    let* u := cmc_rand in
    if (u <? deleteThreshold s oldE)%D then
      mc_modify (fun s => set_energy (energy s - oldE)%D s) ;;
      let* last := readConfig (n - 1) in
      writeConfig p last ;;
      mc_modify (fun s => set_numParticles (numParticles s - 1) s) ;;
      mc_modify (fun s => set_deleteCounters (numDeleteTotal s) (numDeleteAccept s + 1) s)
    else mc_ret tt.
End ClassicalMonteCarlo.

(* ===================================================================== *)
(** * Specifications of computations                                      *)
(* ===================================================================== *)

Section Specifications.
  Context {D R : Type}.

  (** [m] relates every state to the states it can end in by [Rel]. *)
Definition respects {A} (Rel : Sim D R -> Sim D R -> Prop) (m : M D R A) : Prop :=
    forall s a s', m s = Some (a, s') -> Rel s s'.

  (** A Hoare triple: from a state in [P], a result of [m] is in [Q]. *)
Definition hoare {A} (P : Sim D R -> Prop) (m : M D R A) (Q : A -> Sim D R -> Prop) : Prop :=
    forall s a s', P s -> m s = Some (a, s') -> Q a s'.

  (** The shift of the time step is left as it was or set to 1. *)
Definition shiftKept (s s' : Sim D R) : Prop :=
    actionShift s' = actionShift s \/ actionShift s' = 1.

  (** Neither [keepMove] nor [undoMove] has been called, and [success] is as
      it was. *)
Definition noCall (s s' : Sim D R) : Prop :=
    keepCalls s' = keepCalls s /\ undoCalls s' = undoCalls s /\
    success (mv s') = success (mv s).

  (** [keepMove] has been called once, [undoMove] not, and [success] is
      set. *)
Definition keptOnce (s s' : Sim D R) : Prop :=
    keepCalls s' = S (keepCalls s) /\ undoCalls s' = undoCalls s /\ success (mv s') = true.

  (** [undoMove] has been called once, [keepMove] not, and [success] is
      cleared. *)
Definition undoneOnce (s s' : Sim D R) : Prop :=
    keepCalls s' = keepCalls s /\ undoCalls s' = S (undoCalls s) /\ success (mv s') = false.

  (** Neither has been called and [success] is cleared. *)
Definition notCalled (s s' : Sim D R) : Prop :=
    keepCalls s' = keepCalls s /\ undoCalls s' = undoCalls s.

  (** What an [attemptMove] that returned [r] has done with its two
      helpers. *)
Definition callOutcome (s : Sim D R) (r : bool) (s' : Sim D R) : Prop :=
    (r = true /\ keptOnce s s') \/ (r = false /\ undoneOnce s s') \/
    (r = false /\ notCalled s s').

  (** The path is the one of [s]. *)
Definition samePath (s s' : Sim D R) : Prop := path s' = path s.

  (** The path of [s'] has the beads, links and per-slice counts of [s]. *)
Definition sameWorldlines (p p' : Path D) : Prop :=
    beads p' = beads p /\ nextLink p' = nextLink p /\ prevLink p' = prevLink p /\
    numBeadsAtSlice p' = numBeadsAtSlice p.

  (** The worm [w'] is [w], or [w] with the diagonality flag cleared. *)
Definition flagCleared (w w' : Worm) : Prop :=
    w' = w \/ w' = set_isConfigDiagonal false w.

  (** The worldlines are kept and the worm too, but for a diagonality flag
      that may have been cleared. *)
Definition worldlinesKept (p p' : Path D) : Prop :=
    sameWorldlines p p' /\ flagCleared (worm p) (worm p').

  (** From [start], the links lead to [target] after [n] steps and not
      before: the length [n] of the walk
      [do { ++n; b = next(b); } while (b != target)]. *)
Definition firstReturn (p : Path D) (start target : beadLocator) (n : nat) : Prop :=
    (0 < n)%nat /\ Nat.iter n (next p) start = target /\
    forall k, (0 < k < n)%nat -> Nat.iter k (next p) start <> target.

  (** Unless [keepMove] has been called, the paths are related by [Q]. *)
Definition unlessKept (Q : Path D -> Path D -> Prop) (s s' : Sim D R) : Prop :=
    (keepCalls s <= keepCalls s')%nat /\
    (keepCalls s' = keepCalls s -> Q (path s) (path s')).
End Specifications.

(* ===================================================================== *)
(** * A concrete system, to run the moves on                              *)
(* ===================================================================== *)

(** A stand-in for the C library's [exp] on binary64: the Taylor polynomial
    of degree 14 at [x/2^11], squared eleven times. *)
Definition float_exp (x : float) : float :=
  let y := (x / float_of_Z 2048)%float in
  let term (n : Z) (acc : float) : float := (float_of_Z 1 + y / float_of_Z n * acc)%float in
  let t := fold_right term (float_of_Z 1) [1; 2; 3; 4; 5; 6; 7; 8; 9; 10; 11; 12; 13; 14] in
  Nat.iter 11 (fun t => (t * t)%float) t.

(** A stand-in for the C library's [log]: [x = m * 2^e] with [m] in
    [[0.5,1)], and [log m = 2 atanh ((m-1)/(m+1))] by its series. *)
Definition float_log (x : float) : float :=
  if (x <=? float_of_Z 0)%float then
    (if (x =? float_of_Z 0)%float then PrimFloat.neg_infinity else PrimFloat.nan)
  else
    let '(m, e) := PrimFloat.frshiftexp x in
    let t := ((m - float_of_Z 1) / (m + float_of_Z 1))%float in
    let t2 := (t * t)%float in
    let term (n : Z) (acc : float) : float := (float_of_Z 1 / float_of_Z n + t2 * acc)%float in
    let series := fold_right term (float_of_Z 0)
                    [1; 3; 5; 7; 9; 11; 13; 15; 17; 19; 21; 23; 25; 27; 29; 31; 33] in
    let ln2 := 0x1.62e42fefa39efp-1%float in
    (float_of_Z 2 * t * series + float_of_Z (Uint63.to_Z e - 2101) * ln2)%float.

#[export] Instance Double_binary64 : Double float := Double_float float_exp float_log.

(** A random source that replays a tape: [rand] and [randNorm] read the
    next real, [randInt(n)] the next integer, clipped to [[0,n]]. *)
Record Tape : Type := mkTape { ints : list Z; reals : list float }.

Definition tape_rand (t : Tape) : float * Tape :=
  (hd (float_of_Z 0) (reals t), mkTape (ints t) (tl (reals t))).
Definition tape_randInt (n : Z) (t : Tape) : Z * Tape :=
  (Z.max 0 (Z.min (hd 0 (ints t)) n), mkTape (tl (ints t)) (reals t)).
Definition tape_randNorm (mean stddev : float) (t : Tape) : float * Tape :=
  ((mean + stddev * hd (float_of_Z 0) (reals t))%float, mkTape (ints t) (tl (reals t))).

(** A periodic box of side 10 in one dimension. *)
Definition bench_side : float := float_of_Z 10.
Definition bench_wrap (x : float) : float :=
  let h := (float_of_Z 5)%float in
  let x := if (h <=? x)%float then (x - bench_side)%float else x in
  if (x <? - h)%float then (x + bench_side)%float else x.
Definition bench_randPosition (t : Tape) : dVec float * Tape :=
  let '(u, t') := tape_rand t in ([(bench_side * (u - 0x1p-1))%float], t').
Definition bench_randUpdate (t : Tape) (x : dVec float) : dVec float * Tape :=
  let '(u, t') := tape_rand t in (map (fun c => bench_wrap (c + (u - 0x1p-1))%float) x, t').

(** A harmonic potential, [V(x) = x^2/2] summed over the coordinates. *)
Definition bench_V (x : dVec float) : float :=
  fold_right (fun c acc => (0x1p-1 * c * c + acc)%float) (float_of_Z 0) x.

Definition bench_tau : float := 0x1p-2.
Definition bench_lambda : float := 0x1p-1.

(** The potential action of one bead and of the beads from [a] to [b]. *)
Definition bench_action1 (p : Path float) (shift : Z) (a : beadLocator) : float :=
  (bench_tau * float_of_Z shift * bench_V (pathPos p a))%float.
Fixpoint bench_actionFrom (fuel : nat) (p : Path float) (shift : Z) (a b : beadLocator) : float :=
  match fuel with
  | O => float_of_Z 0
  | S fuel' =>
      if beq a b then bench_action1 p shift a
      else (bench_action1 p shift a + bench_actionFrom fuel' p shift (next p a) b)%float
  end.
Definition bench_action (p : Path float) (shift : Z) (a b : beadLocator) : float :=
  bench_actionFrom (S (size (beads p))) p shift a b.

Definition bench_getSeparation (p : Path float) (a b : beadLocator) : dVec float :=
  map bench_wrap (vsub (pathPos p a) (pathPos p b)).

(** The free-particle density matrix between two beads, up to its
    normalisation. *)
Definition bench_rho0 (p : Path float) (a b : beadLocator) (len : Z) : float :=
  let d := bench_getSeparation p a b in
  let r2 := fold_right (fun c acc => (c * c + acc)%float) (float_of_Z 0) d in
  float_exp (- r2 / (float_of_Z 4 * bench_lambda * bench_tau * float_of_Z len))%float.

(** The number of links from [a] on until [b] is met. *)
Fixpoint bench_steps (fuel : nat) (p : Path float) (a b : beadLocator) : Z :=
  match fuel with
  | O => 0
  | S fuel' => if beq a b then 0 else 1 + bench_steps fuel' p (next p a) b
  end.

Fixpoint bench_onChain (fuel : nat) (p : Path float) (a b : beadLocator) : bool :=
  match fuel with
  | O => false
  | S fuel' => beq a b || (negb (beq a XXX) && bench_onChain fuel' p (next p a) b)
  end.

Definition bench_M : Z := 4.

Definition bench_worm_update (p : Path float) (h t : beadLocator) : Worm :=
  mkWorm h t (bench_steps (size (beads p)) p t h) ((t.1 - h.1) `mod` bench_M) XXX XXX
         (isConfigDiagonal (worm p)).

Definition bench_env (isLocal : bool) : Env float Tape := {|
  Mbar := 2; c_b := 1; numTimeSlices := bench_M; NDIM := 1;
  lambda := bench_lambda; tau := bench_tau; mu := float_of_Z 0;
  Delta := float_of_Z 1; c_C := float_of_Z 1; c_T := float_of_Z 1;
  dBWavelength := float_of_Z 1;
  attemptProb := fun _ => float_of_Z 1;
  rand := tape_rand; randInt := tape_randInt; randNorm := tape_randNorm;
  putInBC := map bench_wrap; putInside := map bench_wrap;
  side := [bench_side]; periodic := [1]; volume := bench_side;
  randPosition := bench_randPosition; randUpdate := bench_randUpdate;
  local := isLocal;
  potentialAction := bench_action;
  potentialAction1 := bench_action1;
  barePotentialAction := bench_action1;
  potentialActionCorrection := fun _ _ _ _ => float_of_Z 0;
  rho0 := bench_rho0;
  ensembleWeight := fun _ => float_of_Z 1;
  getSeparation := bench_getSeparation;
  getTrueNumParticles := fun p => Z.of_nat (size (beads p)) ÷ bench_M;
  getNumBeadsOn := fun p => Z.of_nat (size (beads p));
  foundBead := fun p b =>
    negb (isConfigDiagonal (worm p)) &&
    bench_onChain (S (size (beads p))) p (worm_tail (worm p)) b;
  tooCostly := fun _ => false;
  tooCostly2 := fun _ _ _ => false;
  worm_update := bench_worm_update;
  fullInteractionList := fun p _ slice =>
    filter (fun c : beadLocator => c.1 = slice) (map fst (map_to_list (beads p)));
  gridNeighbors := fun _ _ _ => true;
  gridShare := fun _ _ _ => true;
  externalV := bench_V;
  interactionV := fun _ => float_of_Z 0
|}.

(** Two closed worldlines over four slices: bead [(s,i)] is followed by
    [((s+1) mod 4, i)]. *)
Definition bench_locs : list beadLocator :=
  [(0,0); (1,0); (2,0); (3,0); (0,1); (1,1); (2,1); (3,1)].
Definition bench_pos (b : beadLocator) : dVec float :=
  [(float_of_Z (b.1 + 4 * b.2) / float_of_Z 10)%float].
Definition bench_path : Path float := {|
  beads := list_to_map (map (fun b => (b, bench_pos b)) bench_locs);
  nextLink := list_to_map (map (fun b : beadLocator => (b, ((b.1 + 1) `mod` 4, b.2))) bench_locs);
  prevLink := list_to_map (map (fun b : beadLocator => (b, ((b.1 - 1) `mod` 4, b.2))) bench_locs);
  numBeadsAtSlice := list_to_map [(0, 2); (1, 2); (2, 2); (3, 2)];
  worm := mkWorm XXX XXX 0 0 XXX XXX true
|}.

(** One closed worldline and a worm from its tail [(0,1)] over [(1,1)] to
    its head [(2,1)]. *)
Definition bench_wormLocs : list beadLocator :=
  [(0,0); (1,0); (2,0); (3,0); (0,1); (1,1); (2,1)].
Definition bench_wormPath : Path float := {|
  beads := list_to_map (map (fun b => (b, bench_pos b)) bench_wormLocs);
  nextLink := list_to_map (map (fun b : beadLocator =>
      (b, if beq b (2,1) then XXX else ((b.1 + 1) `mod` 4, b.2))) bench_wormLocs);
  prevLink := list_to_map (map (fun b : beadLocator =>
      (b, if beq b (0,1) then XXX else ((b.1 - 1) `mod` 4, b.2))) bench_wormLocs);
  numBeadsAtSlice := list_to_map [(0, 2); (1, 2); (2, 2); (3, 1)];
  worm := mkWorm (2,1) (0,1) 2 2 XXX XXX false
|}.

(** One closed worldline and a worm of four links, as many as there are
    time slices: from its tail [(0,1)] over [(1,1)], [(2,1)] and [(3,1)] to
    its head [(0,2)]. *)
Definition bench_longWormLocs : list beadLocator :=
  [(0,0); (1,0); (2,0); (3,0); (0,1); (1,1); (2,1); (3,1); (0,2)].
Definition bench_longWormPath : Path float := {|
  beads := list_to_map (map (fun b => (b, bench_pos b)) bench_longWormLocs);
  nextLink := list_to_map (map (fun b : beadLocator =>
      (b, if beq b (0,2) then XXX
          else if beq b (3,1) then (0,2)
          else ((b.1 + 1) `mod` 4, b.2))) bench_longWormLocs);
  prevLink := list_to_map (map (fun b : beadLocator =>
      (b, if beq b (0,1) then XXX
          else if beq b (0,2) then (3,1)
          else ((b.1 - 1) `mod` 4, b.2))) bench_longWormLocs);
  numBeadsAtSlice := list_to_map [(0, 3); (1, 2); (2, 2); (3, 2)];
  worm := mkWorm (0,2) (0,1) 4 0 XXX XXX false
|}.

(** One closed worldline that winds twice through the four slices: the
    beads of [bench_path], with [(3,0)] followed by [(0,1)] and [(3,1)] by
    [(0,0)]. *)
Definition bench_cyclePath : Path float := {|
  beads := beads bench_path;
  nextLink := list_to_map (map (fun b : beadLocator =>
      (b, if beq b (3,0) then (0,1) else if beq b (3,1) then (0,0)
          else (b.1 + 1, b.2))) bench_locs);
  prevLink := list_to_map (map (fun b : beadLocator =>
      (b, if beq b (0,1) then (3,0) else if beq b (0,0) then (3,1)
          else (b.1 - 1, b.2))) bench_locs);
  numBeadsAtSlice := numBeadsAtSlice bench_path;
  worm := mkWorm XXX XXX 0 0 XXX XXX true
|}.

(** A move object as its constructor leaves it, for [b = 1] levels. *)
Definition bench_mv : MoveObj float := {|
  success := false; numAccepted := 0; numAttempted := 0;
  numAcceptedLevel := fun _ => 0; numAttemptedLevel := fun _ => 0;
  numLevels := 1; numActiveBeads := 1;
  originalPos := fun _ => []; newPos := fun _ => []; include := fun _ => true;
  startBead := XXX; endBead := XXX; headBead := XXX; tailBead := XXX;
  swap := XXX; pivot := XXX; nextSwap := XXX; prevSwap := XXX;
  cumulant := []
|}.

Definition bench_sim (p : Path float) (t : Tape) : Sim float Tape := {|
  path := p; actionShift := 1; random := t; totAttempted := 0; totAccepted := 0;
  fullBeadList := []; mv := bench_mv; keepCalls := 0; undoCalls := 0
|}.

Section CallAssertions.
  Context {D R : Type}.

  (** Since [s0], neither helper has been called. *)
Definition callsPre (s0 s : Sim D R) : Prop :=
    keepCalls s = keepCalls s0 /\ undoCalls s = undoCalls s0.

  (** Since [s0], neither helper has been called, and [success] is
      cleared. *)
Definition callsClr (s0 s : Sim D R) : Prop :=
    callsPre s0 s /\ success (mv s) = false.

  (** Since [s0], [keepMove] has been entered once, [undoMove] not; and the
      other way round. *)
Definition keepEntered (s0 s : Sim D R) : Prop :=
    keepCalls s = S (keepCalls s0) /\ undoCalls s = undoCalls s0.
Definition undoEntered (s0 s : Sim D R) : Prop :=
    keepCalls s = keepCalls s0 /\ undoCalls s = S (undoCalls s0).

  (** [P] still holds after a step related by [Rel]. *)
Definition stable (P : Sim D R -> Prop) (Rel : Sim D R -> Sim D R -> Prop) : Prop :=
    forall s s', P s -> Rel s s' -> P s'.
End CallAssertions.


(** The tapes of the runs below. *)
Definition bench_tape_accept : Tape := mkTape [0; 1; 0] [0x1p-2; 0x1p-1]%float.
Definition bench_tape_reject : Tape := mkTape [1; 1] [0x1p+2; 0x1.fp-1]%float.

(** The tape of a centre-of-mass move of the second worldline by
    [Delta*(-0.5 + 0.9)] that is rejected. *)
Definition bench_tape_shift : Tape := mkTape [1] [0x1.ccccccccccccdp-1; 0x1.fffffp-1]%float.

(** A run of a move on the concrete system. *)
Abbreviation bench_run m isLocal p t :=
  (attemptMove (bench_env isLocal) m 20 (bench_sim p t)) (only parsing).

(* ===================================================================== *)
(** * The kernels and the classical moves, as the specification words    *)
(**   them (in real arithmetic)                                           *)
(* ===================================================================== *)

Section RealSpecifications.
  Context {Rng : Type} (E : Env R Rng).
  #[local] Open Scope R_scope.

  (** The standard deviation [sqrt(2 lambda tau (L-k-1)/(L-k))] of the
      staging kick. *)
Definition spec_stagingSigma (L k : Z) : R :=
    R_sqrt.sqrt (2 * lambda E * tau E * (IZR (L - k - 1) / IZR (L - k))).

  (** The midpoint [p_n + (p_e - p_n)/(L-k)], the separation reduced by the
      minimum-image convention. *)
Definition spec_stagingMidpoint (p : Path R) (neighbor endB : beadLocator) (L k : Z)
      : dVec R :=
    zip_with (fun pn d => pn + d / IZR (L - k))
      (pathPos p neighbor)
      (putInBC E (zip_with Rminus (pathPos p endB) (pathPos p neighbor))).

  (** [n] Gaussian deviates of mean 0 and standard deviation [sigma], drawn
      one after the other. *)
Fixpoint gaussianKicks (n : nat) (sigma : R) (r : Rng) : list R * Rng :=
    match n with
    | O => ([], r)
    | S n' =>
        let '(g, r1) := randNorm E 0 sigma r in
        let '(gs, r2) := gaussianKicks n' sigma r1 in
        (g :: gs, r2)
    end.

  (** The staging position: the kicks added to the midpoint, the sum
      wrapped into the cell. *)
Definition spec_newStagingPosition (p : Path R) (neighbor endB : beadLocator) (L k : Z)
      (r : Rng) : dVec R * Rng :=
    let m := spec_stagingMidpoint p neighbor endB L k in
    let '(g, r') := gaussianKicks (length m) (spec_stagingSigma L k) r in
    (putInside E (zip_with Rplus m g), r').

  (** The free-particle position: a Gaussian deviate of mean 0 and variance
      [2 lambda tau] added to each coordinate of the neighbour, the sum
      wrapped into the cell. *)
Definition spec_newFreeParticlePosition (p : Path R) (neighbor : beadLocator) (r : Rng)
      : dVec R * Rng :=
    let x := pathPos p neighbor in
    let '(g, r') := gaussianKicks (length x) (R_sqrt.sqrt (2 * lambda E * tau E)) r in
    (putInside E (zip_with Rplus x g), r').

  (** The bisection position of a bead between the beads [lshift] links
      before and after it: the earlier one plus half the separation to the
      later one, a Gaussian deviate of mean 0 and variance
      [lambda tau lshift] added to each coordinate, the sum wrapped into
      the cell. *)
Definition spec_newBisectionPosition (p : Path R) (b : beadLocator) (lshift : Z) (r : Rng)
      : dVec R * Rng :=
    let before := prevN p b lshift in
    let after := nextN p b lshift in
    let m := zip_with (fun d pn => d / 2 + pn) (getSeparation E p after before)
               (pathPos p before) in
    let '(g, r') := gaussianKicks (length m) (R_sqrt.sqrt (lambda E * tau E * IZR lshift)) r in
    (putInside E (zip_with Rplus m g), r').

  (** The position [config(j)]. *)
Definition cfg_at (cfg : list (dVec R)) (j : Z) : dVec R := default [] (cfg !! Z.to_nat j).

  (** The energy of a particle at [x]: the external potential at [x] plus
      the pair potential with each of the [n] particles of the
      configuration, the particle [skip] left out. *)
Definition spec_particleEnergy (cfg : list (dVec R)) (n : Z) (skip : option Z) (x : dVec R)
      : R :=
    externalV E x +
    fold_right Rplus 0
      (map (fun j => interactionV E (putInside E (zip_with Rminus x (cfg_at cfg j))))
           (filter (fun j => skip <> Some j) (seqZ 0 n))).

  (** The fugacity [z = exp(mu/T)/Lambda^D]. *)
Definition spec_fugacity : R := exp (mu E / c_T E) / dBWavelength E ^ NDIM E.

  (** The acceptance factors [z V/(N+1) exp(-E/T)] of an insertion and
      [N/(z V) exp(+E/T)] of a deletion. *)
Definition spec_insertAcceptance (n : Z) (e : R) : R :=
    spec_fugacity * volume E / IZR (n + 1) * exp (- e / c_T E).
Definition spec_deleteAcceptance (n : Z) (e : R) : R :=
    IZR n / (spec_fugacity * volume E) * exp (e / c_T E).

  (** What an accepted insertion of a particle at [x] of energy [e] does:
      the particle is stored after the others, which stay. *)
Definition inserted (s : CMC R Rng) (x : dVec R) (e : R) (s' : CMC R Rng) : Prop :=
    numParticles s' = (numParticles s + 1)%Z /\
    config s' !! Z.to_nat (numParticles s) = Some x /\
    take (Z.to_nat (numParticles s)) (config s') = take (Z.to_nat (numParticles s)) (config s) /\
    energy s' = energy s + e /\
    numInsertAccept s' = (numInsertAccept s + 1)%Z.

  (** What an accepted deletion of the particle [p] of energy [e] does: the
      last particle takes its place. *)
Definition deleted (s : CMC R Rng) (p : Z) (e : R) (s' : CMC R Rng) : Prop :=
    numParticles s' = (numParticles s - 1)%Z /\
    config s' = <[Z.to_nat p := cfg_at (config s) (numParticles s - 1)]> (config s) /\
    energy s' = energy s - e /\
    numDeleteAccept s' = (numDeleteAccept s + 1)%Z.

  (** What a rejection leaves as it was. *)
Definition sameParticles (s s' : CMC R Rng) : Prop :=
    numParticles s' = numParticles s /\ config s' = config s /\ energy s' = energy s /\
    numInsertAccept s' = numInsertAccept s /\ numDeleteAccept s' = numDeleteAccept s.
End RealSpecifications.

(** A concrete system over the reals: a free box in one dimension, a
    random source that replays a list of reals and always draws the
    integer 0. *)
Definition real_env : Env R (list R) := {|
  Mbar := 2; c_b := 1; numTimeSlices := 4; NDIM := 1;
  lambda := (1 / 2)%R; tau := (1 / 4)%R; mu := 0%R; Delta := 1%R; c_C := 1%R; c_T := 1%R;
  dBWavelength := 1%R;
  attemptProb := fun _ => 1%R;
  rand := fun t => (hd 0%R t, tl t);
  randInt := fun _ t => (0, t);
  randNorm := fun mean stddev t => ((mean + stddev * hd 0%R t)%R, tl t);
  putInBC := fun v => v; putInside := fun v => v;
  side := [10%R]; periodic := [1]; volume := 10%R;
  randPosition := fun t => ([hd 0%R t], tl t);
  randUpdate := fun t x => (x, t);
  local := true;
  potentialAction := fun _ _ _ _ => 0%R;
  potentialAction1 := fun _ _ _ => 0%R;
  barePotentialAction := fun _ _ _ => 0%R;
  potentialActionCorrection := fun _ _ _ _ => 0%R;
  rho0 := fun _ _ _ _ => 1%R;
  ensembleWeight := fun _ => 1%R;
  getSeparation := fun p a b => zip_with Rminus (pathPos p a) (pathPos p b);
  getTrueNumParticles := fun _ => 1;
  getNumBeadsOn := fun p => Z.of_nat (size (beads p));
  foundBead := fun _ _ => false;
  tooCostly := fun _ => false;
  tooCostly2 := fun _ _ _ => false;
  worm_update := fun p h t => mkWorm h t 0 0 XXX XXX (isConfigDiagonal (worm p));
  fullInteractionList := fun _ _ _ => [];
  gridNeighbors := fun _ _ _ => true;
  gridShare := fun _ _ _ => true;
  externalV := fun v => hd 0%R v;
  interactionV := fun v => (hd 0 v * hd 0 v)%R
|}.

(** Two beads of one worldline, for the staging kernel. *)
Definition real_path : Path R := {|
  beads := <[(0,0) := [0%R]]> (<[(2,0) := [1%R]]> ∅);
  nextLink := ∅; prevLink := ∅; numBeadsAtSlice := ∅;
  worm := mkWorm XXX XXX 0 0 XXX XXX true
|}.

Definition real_mv : MoveObj R := {|
  success := false; numAccepted := 0; numAttempted := 0;
  numAcceptedLevel := fun _ => 0; numAttemptedLevel := fun _ => 0;
  numLevels := 1; numActiveBeads := 1;
  originalPos := fun _ => []; newPos := fun _ => []; include := fun _ => true;
  startBead := XXX; endBead := XXX; headBead := XXX; tailBead := XXX;
  swap := XXX; pivot := XXX; nextSwap := XXX; prevSwap := XXX;
  cumulant := []
|}.

Definition real_sim : Sim R (list R) := {|
  path := real_path; actionShift := 1; random := [1%R]; totAttempted := 0; totAccepted := 0;
  fullBeadList := []; mv := real_mv; keepCalls := 0; undoCalls := 0
|}.

(** Three beads of one worldline, linked. *)
Definition real_linkedPath : Path R := {|
  beads := <[(0,0) := [0%R]]> (<[(1,0) := [(1 / 2)%R]]> (<[(2,0) := [1%R]]> ∅));
  nextLink := <[(0,0) := (1,0)]> (<[(1,0) := (2,0)]> (<[(2,0) := XXX]> ∅));
  prevLink := <[(0,0) := XXX]> (<[(1,0) := (0,0)]> (<[(2,0) := (1,0)]> ∅));
  numBeadsAtSlice := <[0 := 1]> (<[1 := 1]> (<[2 := 1]> (<[3 := 0]> ∅)));
  worm := mkWorm (2,0) (0,0) 2 2 XXX XXX false
|}.

Definition real_linkedSim : Sim R (list R) := {|
  path := real_linkedPath; actionShift := 1; random := [(1 / 4)%R; (1 / 2)%R];
  totAttempted := 0; totAccepted := 0;
  fullBeadList := []; mv := real_mv; keepCalls := 0; undoCalls := 0
|}.

(** Two classical particles. *)
Definition real_cmc : CMC R (list R) := {|
  config := [[0%R]; [1%R]]; numParticles := 2; z := fugacity real_env; energy := 0%R;
  numUpdateTotal := 0; numUpdateAccept := 0; numInsertTotal := 0; numInsertAccept := 0;
  numDeleteTotal := 0; numDeleteAccept := 0; cmc_random := [1 / 2; 1 / 2]%R; randIntArgs := []
|}.

(** Two classical particles in an array of three elements, in binary64. *)
Definition bench_cmc : CMC float Tape := {|
  config := [[0x1p-2%float]; [0x1p-1%float]; []]; numParticles := 2;
  z := fugacity (bench_env true); energy := float_of_Z 0;
  numUpdateTotal := 0; numUpdateAccept := 0; numInsertTotal := 0; numInsertAccept := 0;
  numDeleteTotal := 0; numDeleteAccept := 0; cmc_random := bench_tape_accept; randIntArgs := []
|}.

(** No classical particle, in an array without elements. *)
Definition bench_cmc_empty : CMC float Tape := {|
  config := []; numParticles := 0; z := fugacity (bench_env true); energy := float_of_Z 0;
  numUpdateTotal := 0; numUpdateAccept := 0; numInsertTotal := 0; numInsertAccept := 0;
  numDeleteTotal := 0; numDeleteAccept := 0; cmc_random := bench_tape_accept; randIntArgs := []
|}.

(** [m] relates every state to the state it ends in, with or without a
    result, by [Rel]. *)
Definition mc_respects {D R A : Type} (Rel : CMC D R -> CMC D R -> Prop) (m : MC D R A) : Prop :=
  forall s o s', m s = (o, s') -> Rel s s'.

(** [randInt] has not been called. *)
Definition sameRandIntArgs {D R : Type} (s s' : CMC D R) : Prop :=
  randIntArgs s' = randIntArgs s.

(* ===================================================================== *)
(** * Further specifications                                              *)
(* ===================================================================== *)

Section EnergySpecification.
  Context {Rng : Type} (E : Env R Rng).
  #[local] Open Scope R_scope.

  (** The pair potential of two positions, the separation wrapped into the
      cell. *)
Definition pairV (x y : dVec R) : R :=
    interactionV E (putInside E (zip_with Rminus x y)).

  (** The sum of a list of reals. *)
Definition sumR (l : list R) : R := fold_right Rplus 0 l.

  (** The total energy of a list of positions: the external potential of
      each, and the pair potential of each with each later one. *)
Fixpoint spec_totalEnergy (l : list (dVec R)) : R :=
    match l with
    | [] => 0
    | x :: l' => externalV E x + sumR (map (pairV x) l') + spec_totalEnergy l'
    end.

  (** The particles of a state: the first [numParticles] elements of
      [config]. *)
Definition particles (s : CMC R Rng) : list (dVec R) :=
    take (Z.to_nat (numParticles s)) (config s).

  (** The member [energy] is the total energy of the particles. *)
Definition energyTracked (s : CMC R Rng) : Prop :=
    energy s = spec_totalEnergy (particles s).
End EnergySpecification.

(** The cumulative distribution of the weights [ws] at index [i]: the sum
    of the weights up to and including [i], over the sum of all. *)
Definition cdf (ws : list R) (i : nat) : R := (sumR (take (S i) ws) / sumR ws)%R.

(** Two classical particles with their total energy stored: the external
    potentials 0 and 1 and the pair potential 1. *)
Definition real_cmc_tracked : CMC R (list R) := {|
  config := [[0%R]; [1%R]]; numParticles := 2; z := fugacity real_env; energy := 2%R;
  numUpdateTotal := 0; numUpdateAccept := 0; numInsertTotal := 0; numInsertAccept := 0;
  numDeleteTotal := 0; numDeleteAccept := 0; cmc_random := [1 / 2; 1 / 2]%R; randIntArgs := []
|}.

(** The counters of attempted and accepted moves, read as integers (the
    source declares them unsigned and only ever increments them). *)
Section Statistics.
  Context {D R : Type}.

  (** The two attempt counters are as they were. *)
Definition attemptsKept (s s' : Sim D R) : Prop :=
    numAttempted (mv s') = numAttempted (mv s) /\ totAttempted s' = totAttempted s.

  (** The two attempt counters are as they were and [keepMove] has not been
      called. *)
Definition notCounted (s s' : Sim D R) : Prop :=
    attemptsKept s s' /\ keepCalls s' = keepCalls s.

  (** Since [s0], [numAttempted] has grown by [a] and [totAttempted] by [t]. *)
Definition attempted (s0 : Sim D R) (a t : Z) (s : Sim D R) : Prop :=
    numAttempted (mv s) = numAttempted (mv s0) + a /\ totAttempted s = totAttempted s0 + t.

  (** The same, and [keepMove] has not been called since [s0]. *)
Definition attempting (s0 : Sim D R) (a t : Z) (s : Sim D R) : Prop :=
    attempted s0 a t s /\ keepCalls s = keepCalls s0.

  (** What an [attemptMove] has done with the attempt counters: nothing,
      and then it has not called [keepMove]; or it has added one to each. *)
Definition attemptOutcome (s0 s : Sim D R) : Prop :=
    attempting s0 0 0 s \/ attempted s0 1 1 s.

  (** The two acceptance counters have grown by the number of calls of
      [keepMove]. *)
Definition acceptedCounted (s s' : Sim D R) : Prop :=
    numAccepted (mv s') - Z.of_nat (keepCalls s') = numAccepted (mv s) - Z.of_nat (keepCalls s) /\
    totAccepted s' - Z.of_nat (keepCalls s') = totAccepted s - Z.of_nat (keepCalls s).

  (** The acceptance counters and the number of calls of [keepMove] are as
      they were. *)
Definition acceptsKept (s s' : Sim D R) : Prop :=
    numAccepted (mv s') = numAccepted (mv s) /\ totAccepted s' = totAccepted s /\
    keepCalls s' = keepCalls s.

  (** Since [s0], [keepMove] has been entered [k] times, [numAccepted] has
      grown by [a] and [totAccepted] by [t]. *)
Definition accepting (s0 : Sim D R) (k a t : Z) (s : Sim D R) : Prop :=
    Z.of_nat (keepCalls s) = Z.of_nat (keepCalls s0) + k /\
    numAccepted (mv s) = numAccepted (mv s0) + a /\ totAccepted s = totAccepted s0 + t.
End Statistics.

(** What a move may change in the worldlines. *)
Section Worldlines.
  Context {D R : Type}.

  (** The path [p'] has the live beads, the links, the per-slice counts and
      the worm of [p]: only positions may differ. *)
Definition onlyPositions (p p' : Path D) : Prop :=
    dom (beads p') =@{gset beadLocator} dom (beads p) /\
    nextLink p' = nextLink p /\ prevLink p' = prevLink p /\
    numBeadsAtSlice p' = numBeadsAtSlice p /\ worm p' = worm p.

Definition positionsMoved (s s' : Sim D R) : Prop := onlyPositions (path s) (path s').

  (** No bead has been created or deleted: the live beads and the number
      of beads of every slice are as they were. *)
Definition beadsConserved (s s' : Sim D R) : Prop :=
    dom (beads (path s')) =@{gset beadLocator} dom (beads (path s)) /\
    numBeadsAtSlice (path s') = numBeadsAtSlice (path s).

  (** The path is [p], and [keepMove] has not been called since [s0]. *)
Definition pathIs (s0 : Sim D R) (p : Path D) (s : Sim D R) : Prop :=
    path s = p /\ keepCalls s = keepCalls s0.

  (** The path is as it was and [keepMove] has not been called. *)
Definition pathKept (s s' : Sim D R) : Prop :=
    path s' = path s /\ keepCalls s' = keepCalls s.

  (** The worm that [OpenMove::undoMove] leaves: reset, the configuration
      diagonal. *)
Definition undoneOpen (w : Worm) : Worm := set_isConfigDiagonal true (worm_reset w).

  (** The worm that the [undoMove] of AdvanceTail and RecedeHead leaves:
      [special1] cleared, the configuration off-diagonal. *)
Definition undoneShrink (w : Worm) : Worm := set_special1 XXX (set_isConfigDiagonal false w).

  (** The beads that [n] steps along the forward links reach from [b]:
      [next(b)], [next(next(b))], ... *)
Definition trail (p : Path D) (b : beadLocator) (n : nat) : list beadLocator :=
    map (fun i => Nat.iter i (next p) b) (seq 1 n).

  (** The path [p'] is [p] with the position [x] of every live bead of [T]
      replaced by [f x]; nothing else differs. *)
Definition displaced (f : dVec D -> dVec D) (T : list beadLocator) (p p' : Path D) : Prop :=
    onlyPositions p p' /\
    forall c, beads p' !! c = if decide (c ∈ T) then f <$> beads p !! c else beads p !! c.

  (** A bisection of the [N-1] beads after [b0] is under way, [p0] being
      the path it started from: a bead of the stage that has not been moved
      yet ([include] set) is where it was, the original position of one
      that has been moved is on record in [originalPos], and nothing else
      differs from [p0]. *)
Definition bisecting (p0 : Path D) (b0 : beadLocator) (N : nat) (s : Sim D R) : Prop :=
    onlyPositions p0 (path s) /\
    (forall i, (1 <= i < N)%nat ->
       if include (mv s) (Z.of_nat i - 1)
       then beads (path s) !! Nat.iter i (next p0) b0 = beads p0 !! Nat.iter i (next p0) b0
       else originalPos (mv s) (Z.of_nat i - 1) = pathPos p0 (Nat.iter i (next p0) b0)) /\
    (forall c, (forall i, (1 <= i < N)%nat -> Nat.iter i (next p0) b0 <> c) ->
               beads (path s) !! c = beads p0 !! c) /\
    startBead (mv s) = b0 /\ endBead (mv s) = Nat.iter N (next p0) b0.

  (** The paths an [attemptMove] that has not called [keepMove] may leave:
      the one it started from, or that one with the worm [undo] makes. *)
Definition rejectedPath (undo : Worm -> Worm) (p p' : Path D) : Prop :=
    p' = p \/ p' = set_worm undo p.
End Worldlines.

(** A list of two candidate pivots of equal weight, and a uniform deviate
    of 3/4. *)
Definition real_swapSim : Sim R (list R) := {|
  path := real_linkedPath; actionShift := 1; random := [(3 / 4)%R];
  totAttempted := 0; totAccepted := 0;
  fullBeadList := [(1, 0); (2, 0)]; mv := real_mv; keepCalls := 0; undoCalls := 0
|}.

(* ===================================================================== *)
(** * Rules for [respects] and [hoare]                                    *)
(* ===================================================================== *)

Section Rules.
  Context {D R : Type}.
  Implicit Types (Rel : Sim D R -> Sim D R -> Prop).

Lemma bind_Some {A B} (m : M D R A) (k : A -> M D R B) s b s'' :
    bind m k s = Some (b, s'') ->
    exists a s', m s = Some (a, s') /\ k a s' = Some (b, s'').
  Proof.
    unfold bind. destruct (m s) as [[a s']|] eqn:Hm; [|discriminate].
    intros Hk. exists a, s'. split; [reflexivity | exact Hk].
  Qed.

Lemma respects_ret {A} Rel `{!Reflexive Rel} (a : A) : respects Rel (ret a).
  Proof. intros s a' s' Heq. inversion Heq; subst. reflexivity. Qed.

Lemma respects_abort {A} Rel : respects Rel (@abort D R A).
  Proof. intros s a s' Heq. discriminate. Qed.

Lemma respects_bind {A B} Rel `{!Transitive Rel} (m : M D R A) (k : A -> M D R B) :
    respects Rel m -> (forall a, respects Rel (k a)) -> respects Rel (bind m k).
  Proof.
    intros Hm Hk s b s'' Heq.
    apply bind_Some in Heq as (a & s' & H1 & H2).
    etransitivity; [eapply Hm, H1 | eapply Hk, H2].
  Qed.

Lemma respects_gets {A} Rel `{!Reflexive Rel} (f : Sim D R -> A) : respects Rel (gets f).
  Proof. intros s a s' Heq. inversion Heq; subst. reflexivity. Qed.

Lemma respects_get Rel `{!Reflexive Rel} : respects Rel get.
  Proof. intros s a s' Heq. inversion Heq; subst. reflexivity. Qed.

Lemma respects_modify Rel (f : Sim D R -> Sim D R) :
    (forall s, Rel s (f s)) -> respects Rel (modify f).
  Proof. intros Hf s a s' Heq. inversion Heq; subst. apply Hf. Qed.

Lemma respects_path_op Rel (f : Path D -> Path D * beadLocator) :
    (forall s, Rel s (set_path (f (path s)).1 s)) -> respects Rel (path_op f).
  Proof.
    intros Hf s a s' Heq. unfold path_op in Heq. specialize (Hf s).
    destruct (f (path s)) as [p b]. inversion Heq; subst. exact Hf.
  Qed.

Lemma respects_doWhile {A B} Rel `{!PreOrder Rel} (fuel : nat)
      (body : A -> M D R (A + B)) (a : A) :
    (forall a, respects Rel (body a)) -> respects Rel (doWhile fuel body a).
  Proof.
    intros Hb. revert a. induction fuel as [|fuel IH]; intros a; simpl.
    - apply respects_abort.
    - apply respects_bind; [apply _ | apply Hb |].
      intros [a'|b]; [apply IH | apply respects_ret, _].
  Qed.

Lemma respects_forUp {A B} Rel `{!PreOrder Rel} (n : nat) (lo : Z)
      (body : Z -> A -> M D R (A + B)) (a : A) :
    (forall k a, respects Rel (body k a)) -> respects Rel (forUp n lo body a).
  Proof.
    intros Hb. revert lo a. induction n as [|n IH]; intros lo a; simpl.
    - apply respects_ret, _.
    - apply respects_bind; [apply _ | apply Hb |].
      intros [a'|b]; [apply IH | apply respects_ret, _].
  Qed.

Lemma respects_weaken {A} Rel Rel' (m : M D R A) :
    (forall s s', Rel s s' -> Rel' s s') -> respects Rel m -> respects Rel' m.
  Proof. intros Hw Hm s a s' Heq. apply Hw. eapply Hm, Heq. Qed.

  (** Hoare triples. *)
Lemma hoare_ret {A} (P : Sim D R -> Prop) (Q : A -> Sim D R -> Prop) (a : A) :
    (forall s, P s -> Q a s) -> hoare P (ret a) Q.
  Proof. intros HPQ s a' s' HP Heq. inversion Heq; subst. auto. Qed.

Lemma hoare_bind {A B} (P : Sim D R -> Prop) (Q1 : A -> Sim D R -> Prop)
      (Q : B -> Sim D R -> Prop) (m : M D R A) (k : A -> M D R B) :
    hoare P m Q1 -> (forall a, hoare (Q1 a) (k a) Q) -> hoare P (bind m k) Q.
  Proof.
    intros Hm Hk s b s'' HP Heq.
    apply bind_Some in Heq as (a & s' & H1 & H2).
    eapply Hk; [eapply Hm; eassumption | exact H2].
  Qed.

Lemma hoare_conseq {A} (P P' : Sim D R -> Prop) (Q Q' : A -> Sim D R -> Prop) (m : M D R A) :
    hoare P' m Q' -> (forall s, P s -> P' s) -> (forall a s, Q' a s -> Q a s) -> hoare P m Q.
  Proof. intros Hm HP HQ s a s' Hs Heq. apply HQ. eapply Hm; [apply HP, Hs | exact Heq]. Qed.

Lemma hoare_abort {A} (P : Sim D R -> Prop) (Q : A -> Sim D R -> Prop) : hoare P abort Q.
  Proof. intros s a s' _ Heq. discriminate. Qed.

Lemma hoare_gets {A} (P : Sim D R -> Prop) (Q : A -> Sim D R -> Prop) (f : Sim D R -> A) :
    (forall s, P s -> Q (f s) s) -> hoare P (gets f) Q.
  Proof. intros HPQ s a s' HP Heq. inversion Heq; subst. auto. Qed.

Lemma hoare_modify (P : Sim D R -> Prop) (Q : unit -> Sim D R -> Prop) (f : Sim D R -> Sim D R) :
    (forall s, P s -> Q tt (f s)) -> hoare P (modify f) Q.
  Proof. intros HPQ s a s' HP Heq. inversion Heq; subst. auto. Qed.

  (** A computation that respects [Rel] takes [Rel s0] to [Rel s0] when
      [Rel] is transitive. *)
Lemma hoare_respects {A} Rel `{!Transitive Rel} (s0 : Sim D R) (m : M D R A) :
    respects Rel m -> hoare (Rel s0) m (fun _ => Rel s0).
  Proof. intros Hm s a s' HP Heq. etransitivity; [exact HP | eapply Hm, Heq]. Qed.

Lemma hoare_doWhile {A B} (I : A -> Sim D R -> Prop) (Q : B -> Sim D R -> Prop)
      (fuel : nat) (body : A -> M D R (A + B)) (a : A) :
    (forall a, hoare (I a) (body a)
                 (fun r s => match r with inl a' => I a' s | inr b => Q b s end)) ->
    hoare (I a) (doWhile fuel body a) Q.
  Proof.
    intros Hb. revert a. induction fuel as [|fuel IH]; intros a; simpl.
    - apply hoare_abort.
    - eapply hoare_bind; [apply Hb |].
      intros [a'|b]; [apply IH | apply hoare_ret; auto].
  Qed.

Lemma hoare_forUp {A B} (I : A -> Sim D R -> Prop) (Q : B -> Sim D R -> Prop)
      (n : nat) (lo : Z) (body : Z -> A -> M D R (A + B)) (a : A) :
    (forall k a, hoare (I a) (body k a)
                   (fun r s => match r with inl a' => I a' s | inr b => Q b s end)) ->
    hoare (I a) (forUp n lo body a)
          (fun r s => match r with inl a' => I a' s | inr b => Q b s end).
  Proof.
    intros Hb. revert lo a. induction n as [|n IH]; intros lo a; simpl.
    - apply hoare_ret; auto.
    - eapply hoare_bind; [apply Hb |].
      intros [a'|b]; [apply IH | apply hoare_ret; auto].
  Qed.
End Rules.

Section PrimitiveRules.
  Context {D : Type} `{Double D} {R : Type} (E : Env D R).
  Implicit Types (Rel : Sim D R -> Sim D R -> Prop).

Lemma respects_do_rand Rel :
    (forall s r, Rel s (set_random r s)) -> respects Rel (do_rand E).
  Proof.
    intros Hf s a s' Heq. unfold do_rand in Heq.
    destruct (rand E (random s)) as [x r]. inversion Heq; subst. apply Hf.
  Qed.

Lemma respects_do_randInt Rel n :
    (forall s r, Rel s (set_random r s)) -> respects Rel (do_randInt E n).
  Proof.
    intros Hf s a s' Heq. unfold do_randInt in Heq.
    destruct (randInt E n (random s)) as [x r]. inversion Heq; subst. apply Hf.
  Qed.

Lemma respects_do_randNorm Rel mean stddev :
    (forall s r, Rel s (set_random r s)) -> respects Rel (do_randNorm E mean stddev).
  Proof.
    intros Hf s a s' Heq. unfold do_randNorm in Heq.
    destruct (randNorm E mean stddev (random s)) as [x r]. inversion Heq; subst. apply Hf.
  Qed.

Lemma respects_do_randPosition Rel :
    (forall s r, Rel s (set_random r s)) -> respects Rel (do_randPosition E).
  Proof.
    intros Hf s a s' Heq. unfold do_randPosition in Heq.
    destruct (randPosition E (random s)) as [x r]. inversion Heq; subst. apply Hf.
  Qed.

Lemma respects_randNormVec Rel `{!PreOrder Rel} v stddev :
    (forall s r, Rel s (set_random r s)) -> respects Rel (randNormVec E v stddev).
  Proof.
    intros Hf. induction v as [|x v IH]; simpl.
    - apply respects_ret, _.
    - apply respects_bind; [apply _ | apply respects_do_randNorm, Hf |].
      intros y. apply respects_bind; [apply _ | apply IH |].
      intros ys. apply respects_ret, _.
  Qed.

Lemma respects_randomShift Rel `{!PreOrder Rel} n :
    (forall s r, Rel s (set_random r s)) -> respects Rel (randomShift E n).
  Proof.
    intros Hf. induction n as [|n IH]; simpl.
    - apply respects_ret, _.
    - apply respects_bind; [apply _ | apply respects_do_rand, Hf |].
      intros y. apply respects_bind; [apply _ | apply IH |].
      intros ys. apply respects_ret, _.
  Qed.

Lemma respects_growAll Rel `{!PreOrder Rel} n lo grow b :
    (forall b k, respects Rel (grow b k)) -> respects Rel (growAll (D:=D) (R:=R) n lo grow b).
  Proof.
    intros Hg. revert lo b. induction n as [|n IH]; intros lo b; simpl.
    - apply respects_ret, _.
    - apply respects_bind; [apply _ | apply Hg | intros; apply IH].
  Qed.
End PrimitiveRules.

(** The head constant of an application. *)
Ltac head_of t :=
  lazymatch t with
  | ?f _ => head_of f
  | _ => t
  end.

(** Syntax-directed proof of [respects Rel m]: [side] proves [Rel s (f s)]
    for the state updates [f] that [m] makes, [known] closes the goals on
    computations that have a lemma of their own. *)
Ltac respects_with side known :=
  lazymatch goal with
  | |- respects _ (ret _) => apply respects_ret; typeclasses eauto
  | |- respects _ abort => apply respects_abort
  | |- respects _ (bind _ _) =>
      apply respects_bind;
      [ typeclasses eauto | respects_with side known | intros; respects_with side known ]
  | |- respects _ (gets _) => apply respects_gets; typeclasses eauto
  | |- respects _ get => apply respects_get; typeclasses eauto
  | |- respects _ (modify _) => apply respects_modify; intros; side
  | |- respects _ (path_op _) => apply respects_path_op; intros; side
  | |- respects _ (do_rand _) => apply respects_do_rand; intros; side
  | |- respects _ (do_randInt _ _) => apply respects_do_randInt; intros; side
  | |- respects _ (do_randNorm _ _ _) => apply respects_do_randNorm; intros; side
  | |- respects _ (do_randPosition _) => apply respects_do_randPosition; intros; side
  | |- respects _ (randNormVec _ _ _) =>
      apply respects_randNormVec; [ typeclasses eauto | intros; side ]
  | |- respects _ (randomShift _ _) =>
      apply respects_randomShift; [ typeclasses eauto | intros; side ]
  | |- respects _ (doWhile _ _ _) =>
      apply respects_doWhile; [ typeclasses eauto | intros; respects_with side known ]
  | |- respects _ (forUp _ _ _ _) =>
      apply respects_forUp; [ typeclasses eauto | intros; respects_with side known ]
  | |- respects _ (growAll _ _ _ _) =>
      apply respects_growAll; [ typeclasses eauto | intros; respects_with side known ]
  | |- respects _ (if ?c then _ else _) => destruct c; respects_with side known
  | |- respects _ (match ?x with _ => _ end) => destruct x; respects_with side known
  | |- respects _ ?m =>
      tryif solve [known] then idtac
      else tryif progress cbv beta zeta then respects_with side known
      else (let h := head_of m in unfold h; respects_with side known)
  end.

Section Unfolding.
  Context {D : Type} `{Double D} {R : Type} (E : Env D R).

Lemma bisectLevels_S fuel l oldDeltaAction :
    bisectLevels E fuel (S l) oldDeltaAction =
    (let level := Z.of_nat (S l) in
     let shift := ipow 2 (level - 1) in
     setShift shift ;;
     let* m := get_mv in
     let* (oldAction, newAction) := bisectLevel E fuel level shift (startBead m) (endBead m) in
     let deltaAction := (newAction - oldAction)%D in
     let* u := do_rand E in
     if (u <? dexp (- deltaAction + oldDeltaAction))%D then
       (if bool_decide (level = 1) then BisectionMove_keepMove ;; checkMove else ret tt) ;;
       bisectLevels E fuel l deltaAction
     else
       BisectionMove_undoMove fuel ;; checkMove).
  Proof. reflexivity. Qed.
End Unfolding.

(* ===================================================================== *)
(** * The shift of the time step                                          *)
(* ===================================================================== *)

Section Shift.
  Context {D : Type} `{Double D} {R : Type} (E : Env D R).

#[local] Instance shiftKept_preorder : PreOrder (@shiftKept D R).
  Proof.
    split.
    - intros s. left. reflexivity.
    - intros s1 s2 s3 [H12|H12] [H23|H23]; unfold shiftKept in *.
      + left. congruence.
      + right. exact H23.
      + right. congruence.
      + right. exact H23.
  Qed.

Ltac shift_side := first [ left; reflexivity | right; reflexivity ].
Ltac shift_auto := respects_with shift_side fail.

  (** Taking a run of [bind]s apart. *)
Ltac inv_bind H :=
    repeat lazymatch type of H with
    | bind _ _ _ = Some _ =>
        let a := fresh "a" in let s := fresh "s" in
        let H1 := fresh "Hstep" in
        apply bind_Some in H as (a & s & H1 & H)
    end.

Lemma BisectionMove_keepMove_shift (s : Sim D R) a s' :
    BisectionMove_keepMove s = Some (a, s') -> actionShift s' = 1.
  Proof.
    unfold BisectionMove_keepMove. intros Heq. inv_bind Heq.
    inversion Heq; subst. inversion Hstep3; subst. reflexivity.
  Qed.

Lemma BisectionMove_undoMove_shift fuel (s : Sim D R) a s' :
    BisectionMove_undoMove fuel s = Some (a, s') -> actionShift s' = 1.
  Proof.
    unfold BisectionMove_undoMove. intros Heq. inv_bind Heq.
    inversion Heq; subst. inversion Hstep2; subst. reflexivity.
  Qed.

Lemma shiftKept_bisectLevel fuel level shift startB endB :
    respects shiftKept (bisectLevel E fuel level shift startB endB).
  Proof. shift_auto. Qed.

  (** Once the level loop is entered it ends with the shift at 1: each
      level stores [2^(level-1)], and the loop is left through [undoMove]
      or, after level 1, through [keepMove]. *)
Lemma bisectLevels_shift fuel l oldDeltaAction s a s' :
    bisectLevels E fuel (S l) oldDeltaAction s = Some (a, s') -> actionShift s' = 1.
  Proof.
    revert oldDeltaAction s a s'.
    induction l as [|l IH]; intros oldDeltaAction s a s' Heq;
      rewrite bisectLevels_S in Heq; cbv zeta in Heq; inv_bind Heq;
      destruct a2 as [oldAction newAction]; inv_bind Heq;
      destruct (_ <? _)%D.
    - inv_bind Heq. inversion Heq; subst; clear Heq.
      rewrite bool_decide_eq_true_2 in Hstep3 by reflexivity.
      inv_bind Hstep3. inversion Hstep3; subst.
      eapply BisectionMove_keepMove_shift, Hstep4.
    - inv_bind Heq. inversion Heq; subst.
      eapply BisectionMove_undoMove_shift, Hstep3.
    - inv_bind Heq. eapply IH, Heq.
    - inv_bind Heq. inversion Heq; subst.
      eapply BisectionMove_undoMove_shift, Hstep3.
  Qed.

Lemma shiftKept_bisectLevels fuel l oldDeltaAction :
    respects shiftKept (bisectLevels E fuel l oldDeltaAction).
  Proof.
    destruct l as [|l].
    - apply respects_ret, _.
    - intros s a s' Heq. right. eapply bisectLevels_shift, Heq.
  Qed.

Ltac shift_known := apply shiftKept_bisectLevels.
Ltac shift_auto' := respects_with shift_side shift_known.

Lemma shiftKept_attemptMove (m : Move) fuel : respects shiftKept (attemptMove E m fuel).
  Proof. destruct m; unfold attemptMove; shift_auto'. Qed.
End Shift.

(* ===================================================================== *)
(** * The calls of [keepMove] and [undoMove]                              *)
(* ===================================================================== *)

Section Calls.
  Context {D : Type} `{Double D} {R : Type} (E : Env D R).

#[local] Instance noCall_preorder : PreOrder (@noCall D R).
  Proof.
    split.
    - intros s. repeat split.
    - intros s1 s2 s3 (a1 & b1 & c1) (a2 & b2 & c2). repeat split; congruence.
  Qed.

#[local] Instance notCalled_preorder : PreOrder (@notCalled D R).
  Proof.
    split.
    - intros s. repeat split.
    - intros s1 s2 s3 (a1 & b1) (a2 & b2). repeat split; congruence.
  Qed.

Lemma stable_callsPre (s0 : Sim D R) : stable (callsPre s0) noCall.
  Proof. intros s s' (a & b) (a' & b' & c'). split; congruence. Qed.
Lemma stable_callsClr (s0 : Sim D R) : stable (callsClr s0) noCall.
  Proof. intros s s' ((a & b) & c) (a' & b' & c'). repeat split; congruence. Qed.
Lemma stable_undoneOnce (s0 : Sim D R) : stable (undoneOnce s0) noCall.
  Proof. intros s s' (a & b & c) (a' & b' & c'). repeat split; congruence. Qed.
Lemma stable_keptOnce (s0 : Sim D R) : stable (keptOnce s0) noCall.
  Proof. intros s s' (a & b & c) (a' & b' & c'). repeat split; congruence. Qed.
Lemma stable_keepEntered (s0 : Sim D R) : stable (keepEntered s0) notCalled.
  Proof. intros s s' (a & b) (a' & b'). split; congruence. Qed.
Lemma stable_undoEntered (s0 : Sim D R) : stable (undoEntered s0) notCalled.
  Proof. intros s s' (a & b) (a' & b'). split; congruence. Qed.

Lemma hoare_stable {A} (P : Sim D R -> Prop) Rel (m : M D R A) :
    stable P Rel -> respects Rel m -> hoare P m (fun _ => P).
  Proof. intros HP Hm s a s' Hs Heq. eapply HP; [exact Hs | eapply Hm, Heq]. Qed.

Ltac calls_side := repeat split; reflexivity.
Ltac noCall_auto := respects_with calls_side fail.

Ltac stability :=
    first [ apply stable_callsPre | apply stable_callsClr | apply stable_undoneOnce
          | apply stable_keptOnce ].

  (** The statements of a [keepMove] or [undoMove] after its entry: they
      leave the counters alone, and the last one assigns [success]. *)
Ltac helper_body :=
    lazymatch goal with
    | |- hoare _ (bind _ _) _ =>
        eapply hoare_bind;
        [ eapply hoare_stable;
          [ first [ apply stable_keepEntered | apply stable_undoEntered ]
          | respects_with calls_side fail ]
        | intros; helper_body ]
    | |- hoare _ (mod_mv _) _ =>
        apply hoare_modify; intros ? [? ?]; repeat split; assumption
    end.

Lemma enterKeep_calls (s0 : Sim D R) :
    hoare (callsPre s0) enterKeep (fun _ => keepEntered s0).
  Proof.
    apply hoare_modify. intros s [Hk Hu]. split; cbn; [f_equal; exact Hk | exact Hu].
  Qed.

Lemma enterUndo_calls (s0 : Sim D R) :
    hoare (callsPre s0) enterUndo (fun _ => undoEntered s0).
  Proof.
    apply hoare_modify. intros s [Hk Hu]. split; cbn; [exact Hk | f_equal; exact Hu].
  Qed.

Ltac keep_spec :=
    eapply hoare_bind; [ apply enterKeep_calls | intros; helper_body ].

Ltac undo_spec :=
    eapply hoare_bind; [ apply enterUndo_calls | intros; helper_body ].

Lemma MoveBase_keepMove_calls (s0 : Sim D R) :
    hoare (callsPre s0) MoveBase_keepMove (fun _ => keptOnce s0).
  Proof. unfold MoveBase_keepMove. keep_spec. Qed.

Lemma BisectionMove_keepMove_calls (s0 : Sim D R) :
    hoare (callsPre s0) BisectionMove_keepMove (fun _ => keptOnce s0).
  Proof. unfold BisectionMove_keepMove. keep_spec. Qed.

Lemma OpenMove_keepMove_calls fuel (s0 : Sim D R) :
    hoare (callsPre s0) (OpenMove_keepMove E fuel) (fun _ => keptOnce s0).
  Proof. unfold OpenMove_keepMove. keep_spec. Qed.

Lemma CloseMove_keepMove_calls (s0 : Sim D R) :
    hoare (callsPre s0) CloseMove_keepMove (fun _ => keptOnce s0).
  Proof. unfold CloseMove_keepMove. keep_spec. Qed.

Lemma InsertMove_keepMove_calls (s0 : Sim D R) :
    hoare (callsPre s0) (InsertMove_keepMove E) (fun _ => keptOnce s0).
  Proof. unfold InsertMove_keepMove. keep_spec. Qed.

Lemma RemoveMove_keepMove_calls fuel (s0 : Sim D R) :
    hoare (callsPre s0) (RemoveMove_keepMove fuel) (fun _ => keptOnce s0).
  Proof. unfold RemoveMove_keepMove. keep_spec. Qed.

Lemma AdvanceHeadMove_keepMove_calls (s0 : Sim D R) :
    hoare (callsPre s0) (AdvanceHeadMove_keepMove E) (fun _ => keptOnce s0).
  Proof. unfold AdvanceHeadMove_keepMove. keep_spec. Qed.

Lemma AdvanceTailMove_keepMove_calls fuel (s0 : Sim D R) :
    hoare (callsPre s0) (AdvanceTailMove_keepMove E fuel) (fun _ => keptOnce s0).
  Proof. unfold AdvanceTailMove_keepMove. keep_spec. Qed.

Lemma RecedeHeadMove_keepMove_calls fuel (s0 : Sim D R) :
    hoare (callsPre s0) (RecedeHeadMove_keepMove E fuel) (fun _ => keptOnce s0).
  Proof. unfold RecedeHeadMove_keepMove. keep_spec. Qed.

Lemma RecedeTailMove_keepMove_calls (s0 : Sim D R) :
    hoare (callsPre s0) (RecedeTailMove_keepMove E) (fun _ => keptOnce s0).
  Proof. unfold RecedeTailMove_keepMove. keep_spec. Qed.

Lemma SwapHeadMove_keepMove_calls (s0 : Sim D R) :
    hoare (callsPre s0) (SwapHeadMove_keepMove E) (fun _ => keptOnce s0).
  Proof. unfold SwapHeadMove_keepMove. keep_spec. Qed.

Lemma SwapTailMove_keepMove_calls (s0 : Sim D R) :
    hoare (callsPre s0) (SwapTailMove_keepMove E) (fun _ => keptOnce s0).
  Proof. unfold SwapTailMove_keepMove. keep_spec. Qed.

Lemma CenterOfMassMove_undoMove_calls fuel (s0 : Sim D R) :
    hoare (callsPre s0) (CenterOfMassMove_undoMove E fuel) (fun _ => undoneOnce s0).
  Proof. unfold CenterOfMassMove_undoMove. undo_spec. Qed.

Lemma StagingMove_undoMove_calls fuel (s0 : Sim D R) :
    hoare (callsPre s0) (StagingMove_undoMove fuel) (fun _ => undoneOnce s0).
  Proof. unfold StagingMove_undoMove. undo_spec. Qed.

Lemma BisectionMove_undoMove_calls fuel (s0 : Sim D R) :
    hoare (callsPre s0) (BisectionMove_undoMove fuel) (fun _ => undoneOnce s0).
  Proof. unfold BisectionMove_undoMove. undo_spec. Qed.

Lemma OpenMove_undoMove_calls (s0 : Sim D R) :
    hoare (callsPre s0) OpenMove_undoMove (fun _ => undoneOnce s0).
  Proof. unfold OpenMove_undoMove. undo_spec. Qed.

Lemma CloseMove_undoMove_calls fuel (s0 : Sim D R) :
    hoare (callsPre s0) (CloseMove_undoMove fuel) (fun _ => undoneOnce s0).
  Proof. unfold CloseMove_undoMove. undo_spec. Qed.

Lemma InsertMove_undoMove_calls fuel (s0 : Sim D R) :
    hoare (callsPre s0) (InsertMove_undoMove fuel) (fun _ => undoneOnce s0).
  Proof. unfold InsertMove_undoMove. undo_spec. Qed.

Lemma RemoveMove_undoMove_calls (s0 : Sim D R) :
    hoare (callsPre s0) RemoveMove_undoMove (fun _ => undoneOnce s0).
  Proof. unfold RemoveMove_undoMove. undo_spec. Qed.

Lemma AdvanceHeadMove_undoMove_calls fuel (s0 : Sim D R) :
    hoare (callsPre s0) (AdvanceHeadMove_undoMove fuel) (fun _ => undoneOnce s0).
  Proof. unfold AdvanceHeadMove_undoMove. undo_spec. Qed.

Lemma AdvanceTailMove_undoMove_calls (s0 : Sim D R) :
    hoare (callsPre s0) AdvanceTailMove_undoMove (fun _ => undoneOnce s0).
  Proof. unfold AdvanceTailMove_undoMove. undo_spec. Qed.

Lemma RecedeHeadMove_undoMove_calls (s0 : Sim D R) :
    hoare (callsPre s0) RecedeHeadMove_undoMove (fun _ => undoneOnce s0).
  Proof. unfold RecedeHeadMove_undoMove. undo_spec. Qed.

Lemma RecedeTailMove_undoMove_calls fuel (s0 : Sim D R) :
    hoare (callsPre s0) (RecedeTailMove_undoMove fuel) (fun _ => undoneOnce s0).
  Proof. unfold RecedeTailMove_undoMove. undo_spec. Qed.

Lemma SwapHeadMove_undoMove_calls fuel (s0 : Sim D R) :
    hoare (callsPre s0) (SwapHeadMove_undoMove fuel) (fun _ => undoneOnce s0).
  Proof. unfold SwapHeadMove_undoMove. undo_spec. Qed.

Lemma SwapTailMove_undoMove_calls fuel (s0 : Sim D R) :
    hoare (callsPre s0) (SwapTailMove_undoMove fuel) (fun _ => undoneOnce s0).
  Proof. unfold SwapTailMove_undoMove. undo_spec. Qed.

Lemma callsClr_callsPre (s0 s : Sim D R) : callsClr s0 s -> callsPre s0 s.
  Proof. intros [Hp _]. exact Hp. Qed.

  (** The final test calls one of the two helpers, once, and returns
      [success]. *)
Lemma finalTest_calls (s0 : Sim D R) (P : Sim D R -> Prop) thr
      (keepMove undoMove : M D R unit) :
    (forall s, P s -> callsPre s0 s) -> stable P noCall ->
    hoare (callsPre s0) keepMove (fun _ => keptOnce s0) ->
    hoare (callsPre s0) undoMove (fun _ => undoneOnce s0) ->
    hoare P (finalTest E thr keepMove undoMove) (callOutcome s0).
  Proof.
    intros HP Hst Hk Hu. unfold finalTest.
    eapply hoare_bind.
    { eapply hoare_stable; [exact Hst | noCall_auto]. }
    intros u. eapply hoare_bind with
      (Q1 := fun _ s => keptOnce s0 s \/ undoneOnce s0 s).
    - destruct (_ <? _)%D.
      + eapply hoare_bind with (Q1 := fun _ => keptOnce s0).
        * eapply hoare_conseq; [exact Hk | exact HP | auto].
        * intros ?. apply hoare_ret. auto.
      + eapply hoare_bind with (Q1 := fun _ => undoneOnce s0).
        * eapply hoare_conseq; [exact Hu | exact HP | auto].
        * intros ?. apply hoare_ret. auto.
    - intros ?. apply hoare_gets. intros s [Hs|Hs].
      + left. split; [apply Hs | exact Hs].
      + right. left. split; [apply Hs | exact Hs].
  Qed.

  (** A single-slice test either goes on without a call or has called
      [undoMove] once. *)
Lemma sliceTest_calls (s0 : Sim D R) (P : Sim D R -> Prop) deltaAction PNorm
      (undoMove : M D R unit) :
    (forall s, P s -> callsPre s0 s) -> stable P noCall ->
    hoare (callsPre s0) undoMove (fun _ => undoneOnce s0) ->
    hoare P (sliceTest E deltaAction PNorm undoMove)
      (fun t s => match t with Some _ => P s | None => undoneOnce s0 s end).
  Proof.
    intros HP Hst Hu. unfold sliceTest.
    eapply hoare_bind.
    { eapply hoare_stable; [exact Hst | noCall_auto]. }
    intros u. destruct (dgeb _ _).
    - eapply hoare_bind with (Q1 := fun _ => undoneOnce s0).
      + eapply hoare_conseq; [exact Hu | exact HP | auto].
      + intros ?. apply hoare_ret. auto.
    - apply hoare_ret. auto.
  Qed.

Lemma removeSlices_calls (s0 : Sim D R) (P : Sim D R -> Prop) fuel step startB stopB
      actionShift_ (undoMove : M D R unit) :
    (forall s, P s -> callsPre s0 s) -> stable P noCall ->
    hoare (callsPre s0) undoMove (fun _ => undoneOnce s0) ->
    hoare P (removeSlices E fuel step startB stopB actionShift_ undoMove)
      (fun t s => match t with Some _ => P s | None => undoneOnce s0 s end).
  Proof.
    intros HP Hst Hu. unfold removeSlices.
    apply hoare_doWhile with (I := fun _ => P).
    intros [[[beadIndex deltaAction] PNorm] factor].
    eapply hoare_bind.
    { eapply hoare_stable; [exact Hst | noCall_auto]. }
    intros a. eapply hoare_bind.
    { apply sliceTest_calls; eassumption. }
    intros [PNorm'|].
    - eapply hoare_bind.
      { eapply hoare_stable; [exact Hst | noCall_auto]. }
      intros p. destruct (beq _ _); apply hoare_ret; auto.
    - apply hoare_ret. auto.
  Qed.

Lemma growSlices_calls (s0 : Sim D R) (P : Sim D R -> Prop) n lo grow startB
      deltaAction PNorm actionShift_ (undoMove : M D R unit) :
    (forall s, P s -> callsPre s0 s) -> stable P noCall ->
    (forall b k, respects noCall (grow b k)) ->
    hoare (callsPre s0) undoMove (fun _ => undoneOnce s0) ->
    hoare P (growSlices E n lo grow startB deltaAction PNorm actionShift_ undoMove)
      (fun t s => match t with Some _ => P s | None => undoneOnce s0 s end).
  Proof.
    intros HP Hst Hg Hu. unfold growSlices.
    eapply hoare_bind.
    { apply hoare_forUp with (I := fun _ => P) (Q := fun _ => undoneOnce s0).
      intros k [[beadIndex dA] PN].
      eapply hoare_bind.
      { eapply hoare_stable; [exact Hst | apply Hg]. }
      intros b. eapply hoare_bind.
      { eapply hoare_stable; [exact Hst | noCall_auto]. }
      intros a. eapply hoare_bind.
      { apply sliceTest_calls; eassumption. }
      intros [PNorm'|]; apply hoare_ret; auto. }
    intros [x|u]; apply hoare_ret; auto.
  Qed.

Lemma noCall_bisectLevel fuel level shift startB endB :
    respects noCall (bisectLevel E fuel level shift startB endB).
  Proof. noCall_auto. Qed.

  (** The level loop of the bisection calls a helper at most once:
      [undoMove] at the first level that rejects, [keepMove] after
      level 1. *)
Lemma bisectLevels_calls (s0 : Sim D R) fuel l oldDeltaAction :
    hoare (callsClr s0) (bisectLevels E fuel l oldDeltaAction)
      (fun _ s => (l = O /\ callsClr s0 s) \/ keptOnce s0 s \/ undoneOnce s0 s).
  Proof.
    revert oldDeltaAction. induction l as [|l IH]; intros oldDeltaAction.
    - apply hoare_ret. auto.
    - rewrite bisectLevels_S. cbv zeta.
      eapply hoare_bind.
      { eapply hoare_stable; [apply stable_callsClr | noCall_auto]. }
      intros ?. eapply hoare_bind.
      { eapply hoare_stable; [apply stable_callsClr | noCall_auto]. }
      intros m. eapply hoare_bind.
      { eapply hoare_stable; [apply stable_callsClr | apply noCall_bisectLevel]. }
      intros [oldAction newAction]. eapply hoare_bind.
      { eapply hoare_stable; [apply stable_callsClr | noCall_auto]. }
      intros u. destruct (_ <? _)%D.
      + destruct l as [|l'].
        * rewrite bool_decide_eq_true_2 by reflexivity.
          eapply hoare_bind with (Q1 := fun _ => keptOnce s0).
          { eapply hoare_bind with (Q1 := fun _ => keptOnce s0).
            - eapply hoare_conseq;
                [apply BisectionMove_keepMove_calls | apply callsClr_callsPre | auto].
            - intros ?. apply hoare_ret. auto. }
          intros ?. apply hoare_ret. auto.
        * rewrite bool_decide_eq_false_2 by lia.
          eapply hoare_bind with (Q1 := fun _ => callsClr s0).
          { apply hoare_ret. auto. }
          intros ?. eapply hoare_conseq; [apply IH | auto |].
          intros _ s [[Hl _]|Hs]; [discriminate | auto].
      + eapply hoare_bind with (Q1 := fun _ => undoneOnce s0).
        * eapply hoare_conseq;
            [apply BisectionMove_undoMove_calls | apply callsClr_callsPre | auto].
        * intros ?. apply hoare_ret. auto.
  Qed.

Ltac keep_lemma :=
    lazymatch goal with
    | |- hoare _ MoveBase_keepMove _ => apply MoveBase_keepMove_calls
    | |- hoare _ BisectionMove_keepMove _ => apply BisectionMove_keepMove_calls
    | |- hoare _ (OpenMove_keepMove _ _) _ => apply OpenMove_keepMove_calls
    | |- hoare _ CloseMove_keepMove _ => apply CloseMove_keepMove_calls
    | |- hoare _ (InsertMove_keepMove _) _ => apply InsertMove_keepMove_calls
    | |- hoare _ (RemoveMove_keepMove _) _ => apply RemoveMove_keepMove_calls
    | |- hoare _ (AdvanceHeadMove_keepMove _) _ => apply AdvanceHeadMove_keepMove_calls
    | |- hoare _ (AdvanceTailMove_keepMove _ _) _ => apply AdvanceTailMove_keepMove_calls
    | |- hoare _ (RecedeHeadMove_keepMove _ _) _ => apply RecedeHeadMove_keepMove_calls
    | |- hoare _ (RecedeTailMove_keepMove _) _ => apply RecedeTailMove_keepMove_calls
    | |- hoare _ (SwapHeadMove_keepMove _) _ => apply SwapHeadMove_keepMove_calls
    | |- hoare _ (SwapTailMove_keepMove _) _ => apply SwapTailMove_keepMove_calls
    end.

Ltac undo_lemma :=
    lazymatch goal with
    | |- hoare _ (CenterOfMassMove_undoMove _ _) _ => apply CenterOfMassMove_undoMove_calls
    | |- hoare _ (StagingMove_undoMove _) _ => apply StagingMove_undoMove_calls
    | |- hoare _ (BisectionMove_undoMove _) _ => apply BisectionMove_undoMove_calls
    | |- hoare _ OpenMove_undoMove _ => apply OpenMove_undoMove_calls
    | |- hoare _ (CloseMove_undoMove _) _ => apply CloseMove_undoMove_calls
    | |- hoare _ (InsertMove_undoMove _) _ => apply InsertMove_undoMove_calls
    | |- hoare _ RemoveMove_undoMove _ => apply RemoveMove_undoMove_calls
    | |- hoare _ (AdvanceHeadMove_undoMove _) _ => apply AdvanceHeadMove_undoMove_calls
    | |- hoare _ AdvanceTailMove_undoMove _ => apply AdvanceTailMove_undoMove_calls
    | |- hoare _ RecedeHeadMove_undoMove _ => apply RecedeHeadMove_undoMove_calls
    | |- hoare _ (RecedeTailMove_undoMove _) _ => apply RecedeTailMove_undoMove_calls
    | |- hoare _ (SwapHeadMove_undoMove _) _ => apply SwapHeadMove_undoMove_calls
    | |- hoare _ (SwapTailMove_undoMove _) _ => apply SwapTailMove_undoMove_calls
    end.

Ltac pre_of := first [ intros ? Hpre; exact Hpre | intros ?; apply callsClr_callsPre ].

Lemma leaf_false_pre (s0 s : Sim D R) : callsPre s0 s -> callOutcome s0 false s.
  Proof. intros Hs. right. right. split; [reflexivity | exact Hs]. Qed.

Lemma leaf_success_clr (s0 s : Sim D R) : callsClr s0 s -> callOutcome s0 (success (mv s)) s.
  Proof. intros [Hs Hc]. right. right. split; [exact Hc | exact Hs]. Qed.

Lemma leaf_success_undone (s0 s : Sim D R) :
    undoneOnce s0 s -> callOutcome s0 (success (mv s)) s.
  Proof. intros Hs. right. left. split; [apply Hs | exact Hs]. Qed.

Ltac calls_auto :=
    cbv beta iota;
    lazymatch goal with
    | |- hoare _ (ret false) _ =>
        apply hoare_ret; intros ? ?;
        first [ apply leaf_false_pre; assumption
              | apply leaf_false_pre, callsClr_callsPre; assumption ]
    | |- hoare _ returnSuccess _ =>
        apply hoare_gets; intros ? ?;
        first [ apply leaf_success_clr; assumption | apply leaf_success_undone; assumption ]
    | |- hoare _ (finalTest _ _ _ _) _ =>
        apply finalTest_calls; [ pre_of | stability | keep_lemma | undo_lemma ]
    | |- hoare (callsPre ?s0) (bind (mod_mv (set_success false)) _) _ =>
        apply hoare_bind with (Q1 := fun _ => callsClr s0);
        [ apply hoare_modify; intros ? ?; split; [assumption | reflexivity]
        | intros ?; calls_auto ]
    | |- hoare _ (bind (sliceTest _ _ _ _) _) _ =>
        eapply hoare_bind;
        [ apply sliceTest_calls; [ pre_of | stability | undo_lemma ]
        | intros [?|]; calls_auto ]
    | |- hoare _ (bind (removeSlices _ _ _ _ _ _ _) _) _ =>
        eapply hoare_bind;
        [ apply removeSlices_calls; [ pre_of | stability | undo_lemma ]
        | intros [[? ?]|]; calls_auto ]
    | |- hoare _ (bind (growSlices _ _ _ _ _ _ _ _ _) _) _ =>
        eapply hoare_bind;
        [ apply growSlices_calls;
          [ pre_of | stability | intros; noCall_auto | undo_lemma ]
        | intros [[[? ?] ?]|]; calls_auto ]
    | |- hoare _ (bind _ _) _ =>
        eapply hoare_bind;
        [ eapply hoare_stable; [ stability | noCall_auto ]
        | intros ?; calls_auto ]
    | |- hoare _ (if ?c then _ else _) _ => destruct c; calls_auto
    | |- hoare _ (match ?x with _ => _ end) _ => destruct x; calls_auto
    | |- hoare _ ?m _ =>
        tryif progress cbv beta zeta then calls_auto
        else (let h := head_of m in unfold h; calls_auto)
    end.

Lemma BisectionMove_attemptMove_calls fuel (s0 : Sim D R) :
    hoare (callsPre s0) (BisectionMove_attemptMove E fuel) (callOutcome s0).
  Proof.
    unfold BisectionMove_attemptMove.
    apply hoare_bind with (Q1 := fun _ => callsClr s0).
    { apply hoare_modify. intros s Hs. split; [assumption | reflexivity]. }
    intros ?. destruct (negb _); [calls_auto|].
    eapply hoare_bind; [eapply hoare_stable; [stability | noCall_auto]|]. intros p.
    eapply hoare_bind; [eapply hoare_stable; [stability | noCall_auto]|]. intros r0.
    eapply hoare_bind; [eapply hoare_stable; [stability | noCall_auto]|]. intros ?.
    destruct (bool_decide _); [calls_auto|].
    eapply hoare_bind; [eapply hoare_stable; [stability | noCall_auto]|]. intros r1.
    eapply hoare_bind; [eapply hoare_stable; [stability | noCall_auto]|]. intros ?.
    eapply hoare_bind; [eapply hoare_stable; [stability | noCall_auto]|]. intros m.
    destruct (activeTrajectory _ _ _) as [endB|]; [|calls_auto].
    do 6 (eapply hoare_bind; [eapply hoare_stable; [stability | noCall_auto]|]; intros ?).
    eapply hoare_bind; [apply bisectLevels_calls|]. intros ?.
    apply hoare_gets. intros s [[_ Hs]|[Hs|Hs]].
    - apply leaf_success_clr, Hs.
    - left. split; [apply Hs | exact Hs].
    - apply leaf_success_undone, Hs.
  Qed.

Lemma attemptMove_calls (m : Move) fuel (s0 : Sim D R) :
    hoare (callsPre s0) (attemptMove E m fuel) (callOutcome s0).
  Proof.
    destruct m; unfold attemptMove;
      [ calls_auto | calls_auto | apply BisectionMove_attemptMove_calls | calls_auto .. ].
  Qed.
End Calls.

(* ===================================================================== *)
(** * C2: the shift of the time step after a move                         *)
(* ===================================================================== *)

(** C2.  For every move, on the accept path and on the reject path: when
    [attemptMove] is entered with the shift of the action's time step at 1
    and returns, the shift is 1.  This covers the bisection, whose level
    loop stores [2^(level-1)], and the accept path of the swap-head move,
    whose [keepMove] does not call [setShift]. *)
Theorem C2_shift_is_one_after_attemptMove
    {D : Type} `{Double D} {R : Type} (E : Env D R)
    (m : Move) (fuel : nat) (s : Sim D R) (r : bool) (s' : Sim D R) :
  actionShift s = 1 ->
  attemptMove E m fuel s = Some (r, s') ->
  actionShift s' = 1.
Proof.
  intros Hs Hrun.
  destruct (shiftKept_attemptMove E m fuel s r s' Hrun) as [Hk|Hk].
  - rewrite Hk. exact Hs.
  - exact Hk.
Qed.

(** A bisection that is rejected at its only level, after the shift has
    been stored by the level loop. *)
Lemma C2_shift_is_one_witness :
  exists r s',
    bench_run Bisection true bench_path bench_tape_reject = Some (r, s')
    /\ undoCalls s' = 1%nat /\ actionShift s' = 1.
Proof.
  assert (Hfacts : match bench_run Bisection true bench_path bench_tape_reject with
                   | Some (_, s') => undoCalls s' = 1%nat
                   | None => False
                   end) by (vm_compute; reflexivity).
  revert Hfacts.
  destruct (bench_run Bisection true bench_path bench_tape_reject) as [[r s']|] eqn:Hrun;
    intros Hfacts; [|destruct Hfacts].
  exists r, s'. split; [reflexivity|]. split; [exact Hfacts|].
  apply (C2_shift_is_one_after_attemptMove (bench_env true) Bisection 20
           (bench_sim bench_path bench_tape_reject) r s'); [reflexivity | exact Hrun].
Defined.

(* ===================================================================== *)
(** * C4: the calls of [keepMove] and [undoMove]                          *)
(* ===================================================================== *)




(* ===================================================================== *)
(** * The sampling kernels and the acceptance tests in real arithmetic    *)
(* ===================================================================== *)

Section RealKernels.
  Context {Rng : Type} (E : Env R Rng).

Lemma Rltb_true (x y : R) : Rltb x y = true <-> (x < y)%R.
  Proof. unfold Rltb. destruct (Rlt_dec x y); split; intros; try lra; try discriminate; auto. Qed.

Lemma set_random_eta (s : Sim R Rng) : set_random (random s) s = s.
  Proof. destruct s. reflexivity. Qed.

  (** The deviate the code draws around the midpoint is the midpoint plus
      a deviate of mean 0, for a source whose normal deviates are a
      location family. *)
Lemma randNormVec_kicks (v : dVec R) (sigma : R) (s : Sim R Rng) :
    (forall m sd r, randNorm E m sd r
                    = ((m + (randNorm E 0%R sd r).1)%R, (randNorm E 0%R sd r).2)) ->
    randNormVec E v sigma s
    = Some (zip_with Rplus v (gaussianKicks E (length v) sigma (random s)).1,
            set_random (gaussianKicks E (length v) sigma (random s)).2 s).
  Proof.
    intros Hloc. revert s. induction v as [|x v IH]; intros s.
    - cbn. rewrite set_random_eta. reflexivity.
    - cbn [randNormVec length gaussianKicks]. unfold bind at 1. unfold do_randNorm.
      rewrite (Hloc x sigma (random s)).
      destruct (randNorm E 0%R sigma (random s)) as [g r1] eqn:Hg. cbn [fst snd].
      unfold bind at 1. rewrite IH. cbn [random set_random].
      destruct (gaussianKicks E (length v) sigma r1) as [gs r2]. cbn. reflexivity.
  Qed.

Lemma sqrtLambdaKTau_spec (L k : Z) :
    (0 <= lambda E * tau E)%R -> 0 <= k < L ->
    sqrtLambdaKTau E L k = spec_stagingSigma E L k.
  Proof.
    intros Hlt Hk. unfold sqrtLambdaKTau, spec_stagingSigma, sqrt2LambdaTau, sqrtLambdaTau,
      staging_f1, staging_f2, d1, d2. cbn [of_int dmul ddiv dsqrt Double_R].
    assert (Hpos : (0 < IZR (L - k))%R) by (apply IZR_lt; lia).
    assert (Hnn : (0 <= IZR (L - k - 1))%R) by (apply IZR_le; lia).
    assert (Hq : (0 <= IZR (L - k - 1) / IZR (L - k))%R).
    { apply Rmult_le_pos; [exact Hnn | left; apply Rinv_0_lt_compat, Hpos]. }
    replace (1 * IZR (L - k - 1) * (1 / (1 * IZR (L - k))))%R
      with (IZR (L - k - 1) / IZR (L - k))%R by (field; lra).
    rewrite <- sqrt_mult by lra.
    rewrite <- sqrt_mult; [f_equal; ring | nra | exact Hq].
  Qed.

Lemma staging_midpoint_spec (p : Path R) (neighbor endB : beadLocator) (L k : Z) :
    staging_midpoint E p neighbor endB L k = spec_stagingMidpoint E p neighbor endB L k.
  Proof.
    unfold staging_midpoint, spec_stagingMidpoint, vadd, vscale, vsub, staging_f2, d1.
    cbn [of_int dmul ddiv dadd dsub Double_R].
    generalize (putInBC E (zip_with Rminus (pathPos p endB) (pathPos p neighbor))).
    generalize (pathPos p neighbor).
    intros pn d. revert pn. induction d as [|x d IH]; intros [|a pn]; cbn; try reflexivity.
    f_equal; [|apply IH].
    unfold Rdiv. rewrite !Rmult_1_l. ring.
  Qed.

Lemma newStagingPosition_spec (neighbor endB : beadLocator) (L k : Z) (s : Sim R Rng) :
    (0 <= lambda E * tau E)%R -> 0 <= k < L ->
    (forall m sd r, randNorm E m sd r
                    = ((m + (randNorm E 0%R sd r).1)%R, (randNorm E 0%R sd r).2)) ->
    newStagingPosition E neighbor endB L k s
    = Some ((spec_newStagingPosition E (path s) neighbor endB L k (random s)).1,
            set_random (spec_newStagingPosition E (path s) neighbor endB L k (random s)).2 s).
  Proof.
    intros Hlt Hk Hloc. unfold newStagingPosition, spec_newStagingPosition.
    unfold bind at 1, get_path, gets. unfold bind at 1.
    rewrite randNormVec_kicks by exact Hloc.
    rewrite sqrtLambdaKTau_spec by assumption.
    rewrite staging_midpoint_spec.
    destruct (gaussianKicks E _ _ _) as [g r']. reflexivity.
  Qed.


End RealKernels.

(* ===================================================================== *)
(** * The classical Monte Carlo moves                                     *)
(* ===================================================================== *)

Section ClassicalGeneric.
  Context {D : Type} `{Double D} {R : Type} (E : Env D R).
  #[local] Open Scope mc_scope.

Lemma readConfig_inside (p : Z) (s : CMC D R) :
    0 <= p < Z.of_nat (length (config s)) ->
    exists x, config s !! Z.to_nat p = Some x /\ readConfig p s = (Some x, s).
  Proof.
    intros Hp. unfold readConfig. rewrite bool_decide_eq_true_2 by lia.
    destruct (config s !! Z.to_nat p) as [x|] eqn:Hx.
    - exists x. split; reflexivity.
    - apply lookup_ge_None in Hx. lia.
  Qed.

Lemma readConfig_outside (p : Z) (s : CMC D R) :
    ~ (0 <= p < Z.of_nat (length (config s))) -> readConfig p s = (None, s).
  Proof.
    intros Hp. unfold readConfig. destruct (bool_decide (0 <= p)) eqn:Hb; [|reflexivity].
    apply bool_decide_eq_true_1 in Hb.
    rewrite (proj2 (lookup_ge_None (config s) (Z.to_nat p))) by lia. reflexivity.
  Qed.

  (** The loop over the other particles reads inside the array when the
      particles are. *)
Lemma interactionLoop_defined (n : nat) (p2 : Z) skip x e (s : CMC D R) :
    0 <= p2 -> p2 + Z.of_nat n <= Z.of_nat (length (config s)) ->
    exists e', interactionLoop E n p2 skip x e s = (Some e', s).
  Proof.
    revert p2 e. induction n as [|n IH]; intros p2 e Hlo Hhi; cbn [interactionLoop].
    - exists e. reflexivity.
    - destruct (bool_decide (skip = Some p2)).
      + apply IH; lia.
      + unfold mc_bind at 1.
        destruct (readConfig_inside p2 s) as (y & _ & ->); [lia|].
        apply IH; lia.
  Qed.

Lemma particleEnergy_defined skip x (s : CMC D R) :
    0 <= numParticles s <= Z.of_nat (length (config s)) ->
    exists e, particleEnergy E skip x s = (Some e, s).
  Proof.
    intros Hn. unfold particleEnergy, mc_bind, mc_gets.
    apply interactionLoop_defined; lia.
  Qed.

Lemma mc_bind_Some {A B} (m : MC D R A) (k : A -> MC D R B) s a s' :
    m s = (Some a, s') -> mc_bind m k s = k a s'.
  Proof. unfold mc_bind. intros ->. reflexivity. Qed.

Lemma mc_bind_None {A B} (m : MC D R A) (k : A -> MC D R B) s s' :
    m s = (None, s') -> mc_bind m k s = (None, s').
  Proof. unfold mc_bind. intros ->. reflexivity. Qed.

Lemma cmc_randInt_eq n (s : CMC D R) :
    cmc_randInt E n s
    = (Some (randInt E n (cmc_random s)).1,
       set_cmc_random (randInt E n (cmc_random s)).2 (n :: randIntArgs s) s).
  Proof. unfold cmc_randInt. destruct (randInt E n (cmc_random s)). reflexivity. Qed.

Lemma cmc_rand_eq (s : CMC D R) :
    cmc_rand E s
    = (Some (rand E (cmc_random s)).1,
       set_cmc_random (rand E (cmc_random s)).2 (randIntArgs s) s).
  Proof. unfold cmc_rand. destruct (rand E (cmc_random s)). reflexivity. Qed.

Lemma cmc_randPosition_eq (s : CMC D R) :
    cmc_randPosition E s
    = (Some (randPosition E (cmc_random s)).1,
       set_cmc_random (randPosition E (cmc_random s)).2 (randIntArgs s) s).
  Proof. unfold cmc_randPosition. destruct (randPosition E (cmc_random s)). reflexivity. Qed.

Lemma cmc_randUpdate_eq x (s : CMC D R) :
    cmc_randUpdate E x s
    = (Some (randUpdate E (cmc_random s) x).1,
       set_cmc_random (randUpdate E (cmc_random s) x).2 (randIntArgs s) s).
  Proof. unfold cmc_randUpdate. destruct (randUpdate E (cmc_random s) x). reflexivity. Qed.

End ClassicalGeneric.

(** One statement of a classical move, run. *)
Ltac mc_run :=
  first
    [ erewrite mc_bind_Some by
        first [ reflexivity | apply cmc_randInt_eq | apply cmc_rand_eq
              | apply cmc_randPosition_eq | apply cmc_randUpdate_eq | eassumption ]
    | erewrite mc_bind_None by first [ reflexivity | eassumption ] ].

Section ClassicalIndices.
  Context {D : Type} `{Double D} {R : Type} (E : Env D R).
  #[local] Open Scope mc_scope.

Lemma particleEnergy_zero skip x (s : CMC D R) :
    numParticles s = 0 -> particleEnergy E skip x s = (Some (externalV E x), s).
  Proof. intros Hn. unfold particleEnergy, mc_bind, mc_gets. rewrite Hn. reflexivity. Qed.

  (** Only [cmc_randInt] extends the record of the arguments of
      [randInt]. *)
Lemma sameArgs_ret {A} (a : A) : mc_respects sameRandIntArgs (@mc_ret D R A a).
  Proof. intros s o s' Heq. inversion Heq; subst. reflexivity. Qed.

Lemma sameArgs_bind {A B} (m : MC D R A) (k : A -> MC D R B) :
    mc_respects sameRandIntArgs m -> (forall a, mc_respects sameRandIntArgs (k a)) ->
    mc_respects sameRandIntArgs (mc_bind m k).
  Proof.
    intros Hm Hk s o s'' Heq. unfold mc_bind in Heq.
    destruct (m s) as [[a|] s'] eqn:Hms.
    - unfold sameRandIntArgs. rewrite (Hk a s' o s'' Heq). apply (Hm s _ s' Hms).
    - inversion Heq; subst. apply (Hm s _ s'' Hms).
  Qed.

Lemma sameArgs_gets {A} (f : CMC D R -> A) : mc_respects sameRandIntArgs (mc_gets f).
  Proof. intros s o s' Heq. inversion Heq; subst. reflexivity. Qed.

Lemma sameArgs_modify (f : CMC D R -> CMC D R) :
    (forall s, randIntArgs (f s) = randIntArgs s) -> mc_respects sameRandIntArgs (mc_modify f).
  Proof. intros Hf s o s' Heq. inversion Heq; subst. apply Hf. Qed.

Lemma sameArgs_readConfig p : mc_respects sameRandIntArgs (@readConfig D R p).
  Proof.
    intros s o s' Heq. unfold readConfig in Heq.
    destruct (bool_decide _); inversion Heq; subst; reflexivity.
  Qed.

Lemma sameArgs_writeConfig p x : mc_respects sameRandIntArgs (@writeConfig D R p x).
  Proof.
    intros s o s' Heq. unfold writeConfig in Heq.
    destruct (bool_decide _); inversion Heq; subst; reflexivity.
  Qed.

Lemma sameArgs_rand : mc_respects sameRandIntArgs (cmc_rand E).
  Proof. intros s o s' Heq. rewrite cmc_rand_eq in Heq. inversion Heq; subst. reflexivity. Qed.

Lemma sameArgs_randUpdate x : mc_respects sameRandIntArgs (cmc_randUpdate E x).
  Proof.
    intros s o s' Heq. rewrite cmc_randUpdate_eq in Heq. inversion Heq; subst. reflexivity.
  Qed.

Lemma sameArgs_interactionLoop n p2 skip x e :
    mc_respects sameRandIntArgs (interactionLoop E n p2 skip x e).
  Proof.
    revert p2 e. induction n as [|n IH]; intros p2 e; cbn [interactionLoop].
    - apply sameArgs_ret.
    - destruct (bool_decide _); [apply IH|].
      apply sameArgs_bind; [apply sameArgs_readConfig | intros; apply IH].
  Qed.

Lemma sameArgs_particleEnergy skip x : mc_respects sameRandIntArgs (particleEnergy E skip x).
  Proof.
    unfold particleEnergy. apply sameArgs_bind; [apply sameArgs_gets|].
    intros n. apply sameArgs_interactionLoop.
  Qed.

Ltac sameArgs :=
    repeat first
      [ apply sameArgs_ret | apply sameArgs_gets | apply sameArgs_readConfig
      | apply sameArgs_writeConfig | apply sameArgs_rand | apply sameArgs_randUpdate
      | apply sameArgs_particleEnergy
      | apply sameArgs_modify; intros; reflexivity
      | apply sameArgs_bind; [|intros]
      | match goal with |- mc_respects _ (if ?c then _ else _) => destruct c end ].

  (** With no particle, [deleteMove] calls [randInt(-1)] and reads [config]
      at the index drawn. *)
Lemma deleteMove_empty (s : CMC D R) :
    numParticles s = 0 ->
    exists o s', deleteMove E s = (o, s') /\
      randIntArgs s' = -1 :: randIntArgs s /\
      (~ (0 <= (randInt E (-1) (cmc_random s)).1 < Z.of_nat (length (config s))) -> o = None).
  Proof.
    intros Hn. unfold deleteMove.
    mc_run. mc_run. cbn [numParticles set_deleteCounters]. rewrite Hn. change (0 - 1) with (-1).
    mc_run. cbn [cmc_random set_deleteCounters randIntArgs].
    set (p := (randInt E (-1) (cmc_random s)).1).
    set (s1 := set_cmc_random _ _ _).
    match goal with |- exists o s', ?m s1 = _ /\ _ => destruct (m s1) as [o s'] eqn:Hrest end.
    exists o, s'. split; [reflexivity|]. split.
    - assert (Hs : sameRandIntArgs s1 s'); [|exact Hs].
      revert Hrest. match goal with |- ?m s1 = _ -> _ => generalize s1 o s'; change (mc_respects sameRandIntArgs m) end.
      sameArgs.
    - intros Hout. rewrite mc_bind_None with (s' := s1) in Hrest
        by (apply readConfig_outside; exact Hout).
      congruence.
  Qed.

  (** With no particle, [updateMove] calls [randInt(-1)] and reads and
      writes [config] at the index drawn. *)
Lemma updateMove_empty (s : CMC D R) :
    numParticles s = 0 ->
    exists o s', updateMove E s = (o, s') /\
      randIntArgs s' = -1 :: randIntArgs s /\
      (~ (0 <= (randInt E (-1) (cmc_random s)).1 < Z.of_nat (length (config s))) -> o = None).
  Proof.
    intros Hn. unfold updateMove.
    mc_run. mc_run. cbn [numParticles set_updateCounters]. rewrite Hn. change (0 - 1) with (-1).
    mc_run. cbn [cmc_random set_updateCounters randIntArgs].
    set (p := (randInt E (-1) (cmc_random s)).1).
    set (s1 := set_cmc_random _ _ _).
    match goal with |- exists o s', ?m s1 = _ /\ _ => destruct (m s1) as [o s'] eqn:Hrest end.
    exists o, s'. split; [reflexivity|]. split.
    - assert (Hs : sameRandIntArgs s1 s'); [|exact Hs].
      revert Hrest. match goal with |- ?m s1 = _ -> _ => generalize s1 o s'; change (mc_respects sameRandIntArgs m) end.
      sameArgs.
    - intros Hout. rewrite mc_bind_None with (s' := s1) in Hrest
        by (apply readConfig_outside; exact Hout).
      congruence.
  Qed.

  (** Computing an energy leaves the state as it is. *)
Lemma readConfig_state (p : Z) (s : CMC D R) : (readConfig p s).2 = s.
  Proof. unfold readConfig. destruct (bool_decide _); reflexivity. Qed.

Lemma interactionLoop_state (n : nat) (p2 : Z) skip x e (s : CMC D R) :
    (interactionLoop E n p2 skip x e s).2 = s.
  Proof.
    revert p2 e. induction n as [|n IH]; intros p2 e; cbn [interactionLoop]; [reflexivity|].
    destruct (bool_decide _); [apply IH|].
    unfold mc_bind. pose proof (readConfig_state p2 s) as Hr.
    destruct (readConfig p2 s) as [[y|] s1]; cbn [snd] in Hr; subst s1; [apply IH | reflexivity].
  Qed.

Lemma totalEnergyLoop_state (n : nat) (part1 : Z) e (s : CMC D R) :
    (totalEnergyLoop E n part1 e s).2 = s.
  Proof.
    revert part1 e. induction n as [|n IH]; intros part1 e; cbn [totalEnergyLoop]; [reflexivity|].
    unfold mc_bind. pose proof (readConfig_state part1 s) as Hr.
    destruct (readConfig part1 s) as [[y|] s1]; cbn [snd] in Hr; subst s1; [|reflexivity].
    pose proof (interactionLoop_state n (part1 + 1) None y (e + externalV E y)%D s) as Hi.
    destruct (interactionLoop E n (part1 + 1) None y _ s) as [[e'|] s1]; cbn [snd] in Hi; subst s1;
      [apply IH | reflexivity].
  Qed.

  (** The constructor stores the fugacity in [z]. *)
Lemma ClassicalMonteCarlo_new_z initialPos r (s0 : CMC D R) :
    z (ClassicalMonteCarlo_new E initialPos r s0).2 = fugacity E.
  Proof.
    unfold ClassicalMonteCarlo_new, getTotalEnergy. unfold mc_bind at 1.
    match goal with |- context [mc_bind (mc_gets numParticles) ?k ?s] =>
      change (mc_bind (mc_gets numParticles) k s) with (k (numParticles s) s);
      cbv beta; pose proof (totalEnergyLoop_state (Z.to_nat (numParticles s)) 0 d0 s) as Ht;
      destruct (totalEnergyLoop E (Z.to_nat (numParticles s)) 0 d0 s) as [[e|] s1]
    end; cbn [snd] in Ht; subst s1; reflexivity.
  Qed.

Lemma writeConfig_inside (p : Z) (x : dVec D) (s : CMC D R) :
    0 <= p < Z.of_nat (length (config s)) ->
    writeConfig p x s = (Some tt, set_config (<[Z.to_nat p := x]> (config s)) s).
  Proof. intros Hp. unfold writeConfig. rewrite bool_decide_eq_true_2 by exact Hp. reflexivity. Qed.

  (** With at least one particle, all of them inside the array, and an
      index drawn among them, [updateMove] and [deleteMove] end with a
      result. *)
Lemma updateMove_defined (s : CMC D R) :
    1 <= numParticles s <= Z.of_nat (length (config s)) ->
    0 <= (randInt E (numParticles s - 1) (cmc_random s)).1 <= numParticles s - 1 ->
    exists s', updateMove E s = (Some tt, s').
  Proof.
    intros Hn Hp. unfold updateMove.
    mc_run. mc_run. cbn [numParticles set_updateCounters].
    mc_run. cbn [cmc_random set_updateCounters randIntArgs].
    set (p := (randInt E (numParticles s - 1) (cmc_random s)).1) in *.
    set (s1 := set_cmc_random _ _ _).
    assert (Hin : 0 <= p < Z.of_nat (length (config s1))) by (cbn; lia).
    destruct (readConfig_inside p s1 Hin) as (x & _ & Hx).
    mc_run.
    destruct (particleEnergy_defined E (Some p) x s1) as (oldE & HoldE); [cbn; lia|].
    mc_run. mc_run. mc_run.
    erewrite mc_bind_Some by (apply writeConfig_inside; exact Hin).
    set (s2 := set_config _ _).
    assert (Hin2 : 0 <= p < Z.of_nat (length (config s2))).
    { unfold s2. cbn [config set_config set_cmc_random]. rewrite length_insert. cbn. lia. }
    destruct (readConfig_inside p s2 Hin2) as (y & _ & Hy).
    mc_run.
    destruct (particleEnergy_defined E (Some p) y s2) as (newE & HnewE).
    { unfold s2. cbn [config numParticles set_config set_cmc_random].
      rewrite length_insert. cbn. lia. }
    mc_run. mc_run.
    match goal with |- context [dltb ?a ?b] => destruct (dltb a b) end.
    - mc_run. eexists. reflexivity.
    - rewrite writeConfig_inside.
      + eexists. reflexivity.
      + cbn [config set_cmc_random]. exact Hin2.
  Qed.

Lemma deleteMove_defined (s : CMC D R) :
    1 <= numParticles s <= Z.of_nat (length (config s)) ->
    0 <= (randInt E (numParticles s - 1) (cmc_random s)).1 <= numParticles s - 1 ->
    exists s', deleteMove E s = (Some tt, s').
  Proof.
    intros Hn Hp. unfold deleteMove.
    mc_run. mc_run. cbn [numParticles set_deleteCounters].
    mc_run. cbn [cmc_random set_deleteCounters randIntArgs].
    set (p := (randInt E (numParticles s - 1) (cmc_random s)).1) in *.
    set (s1 := set_cmc_random _ _ _).
    assert (Hin : 0 <= p < Z.of_nat (length (config s1))) by (cbn; lia).
    destruct (readConfig_inside p s1 Hin) as (x & _ & Hx).
    mc_run.
    destruct (particleEnergy_defined E (Some p) x s1) as (oldE & HoldE); [cbn; lia|].
    mc_run. mc_run. mc_run.
    match goal with |- context [dltb ?a ?b] => destruct (dltb a b) end.
    - mc_run.
      match goal with |- context [mc_bind (readConfig ?q) _ ?t] =>
        destruct (readConfig_inside q t) as (l & _ & Hl); [cbn; lia|] end.
      mc_run.
      erewrite mc_bind_Some by (apply writeConfig_inside; exact Hin).
      mc_run. eexists. reflexivity.
    - eexists. reflexivity.
  Qed.
End ClassicalIndices.

Section ClassicalReal.
  Context {Rng : Type} (E : Env R Rng).
  #[local] Open Scope mc_scope.

Lemma fugacity_spec : fugacity E = spec_fugacity E.
  Proof.
    unfold fugacity, spec_fugacity. cbn [dexp ddiv dpow Double_R].
    rewrite <- pow_powerRZ. reflexivity.
  Qed.

  (** The loop adds the pair potentials one particle after the other. *)
Lemma interactionLoop_value (n : nat) (p2 : Z) skip x e (s : CMC R Rng) :
    0 <= p2 -> p2 + Z.of_nat n <= Z.of_nat (length (config s)) ->
    interactionLoop E n p2 skip x e s
    = (Some (e + fold_right Rplus 0
                   (map (fun j => interactionV E (putInside E (zip_with Rminus x (cfg_at (config s) j))))
                        (filter (fun j => skip <> Some j) (seqZ p2 (Z.of_nat n)))))%R, s).
  Proof.
    revert p2 e. induction n as [|n IH]; intros p2 e Hlo Hhi.
    - cbn [interactionLoop]. unfold mc_ret. change (seqZ p2 (Z.of_nat 0)) with (@nil Z).
      rewrite filter_nil. cbn [map fold_right]. rewrite Rplus_0_r. reflexivity.
    - cbn [interactionLoop]. rewrite seqZ_cons by lia.
      replace (Z.pred (Z.of_nat (S n))) with (Z.of_nat n) by lia.
      change (Z.succ p2) with (p2 + 1).
      destruct (bool_decide (skip = Some p2)) eqn:Hskip.
      + apply bool_decide_eq_true_1 in Hskip.
        rewrite filter_cons_False by (intros Hne; apply Hne; exact Hskip).
        apply IH; lia.
      + apply bool_decide_eq_false_1 in Hskip.
        rewrite filter_cons_True by exact Hskip.
        destruct (readConfig_inside p2 s) as (y & Hy & Hread); [lia|].
        rewrite (mc_bind_Some _ _ _ _ _ Hread).
        rewrite IH by lia. do 2 f_equal. cbn [map fold_right].
        assert (cfg_at (config s) p2 = y) as ->
          by (unfold cfg_at, dVec in *; rewrite Hy; reflexivity).
        unfold vsub. cbn [dadd dsub Double_R]. lra.
  Qed.

Lemma particleEnergy_value skip x (s : CMC R Rng) :
    0 <= numParticles s <= Z.of_nat (length (config s)) ->
    particleEnergy E skip x s = (Some (spec_particleEnergy E (config s) (numParticles s) skip x), s).
  Proof.
    intros Hn. unfold particleEnergy, mc_bind, mc_gets.
    rewrite interactionLoop_value by lia. rewrite Z2Nat.id by lia. reflexivity.
  Qed.

Lemma Rltb_false (a b : R) : Rltb a b = false <-> ~ (a < b)%R.
  Proof. unfold Rltb. destruct (Rlt_dec a b); split; intros; try discriminate; tauto. Qed.

  (** [insertMove]: a position is drawn, its energy with all the particles
      computed, and the uniform deviate compared with
      [z V/(N+1) exp(-E/T)]. *)
Lemma insertMove_spec (s : CMC R Rng) :
    0 <= numParticles s <= Z.of_nat (length (config s)) ->
    let x := (randPosition E (cmc_random s)).1 in
    let e := spec_particleEnergy E (config s) (numParticles s) None x in
    let u := (rand E (randPosition E (cmc_random s)).2).1 in
    exists s', insertMove E s = (Some tt, s') /\
      ((u < z s * volume E / IZR (numParticles s + 1) * exp (- e / c_T E))%R ->
       inserted s x e s') /\
      (~ (u < z s * volume E / IZR (numParticles s + 1) * exp (- e / c_T E))%R ->
       sameParticles s s').
  Proof.
    intros Hn x e u. unfold insertMove.
    mc_run. mc_run. cbn [cmc_random set_insertCounters].
    fold x. set (s1 := set_cmc_random _ _ _).
    rewrite (mc_bind_Some _ _ _ _ _ (particleEnergy_value None x s1 Hn)).
    change (spec_particleEnergy E (config s1) (numParticles s1) None x) with e.
    mc_run. mc_run.
    change (rand E (cmc_random s1)).1 with u.
    change (insertThreshold E s1 e)
      with (z s * volume E / IZR (numParticles s + 1) * exp (- e / c_T E))%R.
    cbn [dltb Double_R].
    destruct (Rltb u _) eqn:Hu.
    - apply Rltb_true in Hu. mc_run. mc_run.
      cbn [config numParticles set_energy set_cmc_random set_insertCounters].
      set (s2 := if bool_decide _ then _ else _).
      assert (Hs2 : numParticles s2 = numParticles s /\
                    energy s2 = (energy s + e)%R /\
                    numInsertAccept s2 = numInsertAccept s /\
                    (Z.to_nat (numParticles s) < length (config s2))%nat /\
                    take (Z.to_nat (numParticles s)) (config s2)
                    = take (Z.to_nat (numParticles s)) (config s)).
      { unfold s2, s1. cbn [config numParticles set_cmc_random set_insertCounters].
        destruct (bool_decide _) eqn:Hb.
        - apply bool_decide_eq_true_1 in Hb.
          cbn [config numParticles energy numInsertAccept set_config set_energy
               set_cmc_random set_insertCounters].
          repeat split; try reflexivity.
          + unfold resizeAndPreserve. rewrite length_app, length_take, length_replicate. lia.
          + unfold resizeAndPreserve. rewrite take_app_le by (rewrite length_take; lia).
            rewrite take_take. f_equal. lia.
        - apply bool_decide_eq_false_1 in Hb.
          cbn [config numParticles energy numInsertAccept set_config set_energy
               set_cmc_random set_insertCounters].
          change (config s1) with (config s) in Hb.
          change (numParticles s1) with (numParticles s) in Hb.
          repeat split; try reflexivity. lia. }
      destruct Hs2 as (HN & HE & HA & Hlen & Htake).
      mc_run. rewrite HN.
      erewrite mc_bind_Some by (apply writeConfig_inside; lia).
      mc_run. eexists. split; [reflexivity|]. split; [|intros Hno; contradiction].
      intros _. unfold inserted.
      cbn [config numParticles energy numInsertAccept set_config set_numParticles
           set_insertCounters].
      rewrite HN, HE, HA. repeat split; try reflexivity.
      + apply list_lookup_insert_eq. exact Hlen.
      + rewrite take_insert_ge by lia. exact Htake.
    - apply Rltb_false in Hu. eexists. split; [reflexivity|].
      split; [intros Hyes; contradiction|]. intros _. repeat split.
  Qed.

  (** [deleteMove]: a particle is drawn with [randInt(N-1)], its energy with
      the others computed, and the uniform deviate compared with
      [N/(z V) exp(E/T)]. *)
Lemma deleteMove_spec (s : CMC R Rng) :
    1 <= numParticles s <= Z.of_nat (length (config s)) ->
    let p := (randInt E (numParticles s - 1) (cmc_random s)).1 in
    let e := spec_particleEnergy E (config s) (numParticles s) (Some p)
               (cfg_at (config s) p) in
    let u := (rand E (randInt E (numParticles s - 1) (cmc_random s)).2).1 in
    0 <= p <= numParticles s - 1 ->
    exists s', deleteMove E s = (Some tt, s') /\
      randIntArgs s' = (numParticles s - 1) :: randIntArgs s /\
      ((u < IZR (numParticles s) / (z s * volume E) * exp (e / c_T E))%R ->
       deleted s p e s') /\
      (~ (u < IZR (numParticles s) / (z s * volume E) * exp (e / c_T E))%R ->
       sameParticles s s').
  Proof.
    intros Hn p e u Hp. unfold deleteMove.
    mc_run. mc_run. cbn [numParticles set_deleteCounters].
    mc_run. cbn [cmc_random set_deleteCounters randIntArgs]. fold p.
    set (s1 := set_cmc_random _ _ _).
    assert (Hin : 0 <= p < Z.of_nat (length (config s1))) by (cbn; lia).
    destruct (readConfig_inside p s1 Hin) as (x & Hx & Hread).
    assert (Hxp : cfg_at (config s) p = x).
    { unfold cfg_at. unfold s1 in Hx. cbn [config set_cmc_random set_deleteCounters] in Hx.
      unfold dVec in *. rewrite Hx. reflexivity. }
    mc_run.
    rewrite (mc_bind_Some _ _ _ _ _ (particleEnergy_value (Some p) x s1 ltac:(cbn; lia))).
    change (spec_particleEnergy E (config s1) (numParticles s1) (Some p) x)
      with (spec_particleEnergy E (config s) (numParticles s) (Some p) x).
    rewrite <- Hxp. fold e.
    mc_run. mc_run.
    change (rand E (cmc_random s1)).1 with u.
    change (deleteThreshold E s1 e)
      with (IZR (numParticles s) / (z s * volume E) * exp (e / c_T E))%R.
    cbn [dltb Double_R].
    destruct (Rltb u _) eqn:Hu.
    - apply Rltb_true in Hu. mc_run.
      match goal with |- context [mc_bind (readConfig ?q) _ ?t] =>
        destruct (readConfig_inside q t) as (l & Hl & Hlread); [cbn; lia|] end.
      assert (Hlast : cfg_at (config s) (numParticles s - 1) = l).
      { unfold cfg_at. unfold s1 in Hl.
        cbn [config set_energy set_cmc_random set_deleteCounters] in Hl.
        unfold dVec in *. rewrite Hl. reflexivity. }
      mc_run.
      erewrite mc_bind_Some by (apply writeConfig_inside; exact Hin).
      mc_run. eexists. split; [reflexivity|]. split; [reflexivity|].
      split; [|intros Hno; contradiction].
      intros _. unfold deleted. rewrite Hlast. repeat split.
    - apply Rltb_false in Hu. eexists. split; [reflexivity|]. split; [reflexivity|].
      split; [intros Hyes; contradiction|]. intros _. repeat split.
  Qed.
End ClassicalReal.

(* ===================================================================== *)
(** * C3: the acceptance tests and [LBIG]                                 *)
(* ===================================================================== *)




(* ===================================================================== *)
(** * C7: the staging position                                            *)
(* ===================================================================== *)

(** C7.  In real arithmetic, for a stage of length [L] and a position [k]
    along it with [0 <= k < L], [newStagingPosition(neighbor, end, L, k)]
    returns the position [spec_newStagingPosition] describes: to the
    midpoint [p_n + (p_e - p_n)/(L-k)], whose separation [p_e - p_n] is
    first reduced by [putInBC], a Gaussian deviate of mean 0 and standard
    deviation [sqrt(2 lambda tau (L-k-1)/(L-k))] is added in each
    coordinate, and the sum is wrapped by [putInside].  The deviates are
    drawn by [randNorm] with the coordinate of the midpoint as its mean,
    which is the midpoint plus a deviate of mean 0 for a source whose
    normal deviates are a location family. *)
Theorem C7_newStagingPosition_samples_around_midpoint
    {Rng : Type} (E : Env R Rng) (neighbor endB : beadLocator) (L k : Z) (s : Sim R Rng) :
  (0 <= lambda E * tau E)%R ->
  0 <= k < L ->
  (forall m sd r, randNorm E m sd r
                  = ((m + (randNorm E 0%R sd r).1)%R, (randNorm E 0%R sd r).2)) ->
  newStagingPosition E neighbor endB L k s
  = Some ((spec_newStagingPosition E (path s) neighbor endB L k (random s)).1,
          set_random (spec_newStagingPosition E (path s) neighbor endB L k (random s)).2 s).
Proof. apply newStagingPosition_spec. Qed.

(** The stage from the bead (0,0) to the bead (2,0), at its first
    position. *)
Lemma C7_newStagingPosition_witness :
  newStagingPosition real_env (0, 0) (2, 0) 2 0 real_sim
  = Some ((spec_newStagingPosition real_env real_path (0, 0) (2, 0) 2 0 [1%R]).1,
          set_random (spec_newStagingPosition real_env real_path (0, 0) (2, 0) 2 0 [1%R]).2
            real_sim).
Proof.
  apply (C7_newStagingPosition_samples_around_midpoint real_env (0, 0) (2, 0) 2 0 real_sim).
  - cbn. lra.
  - lia.
  - intros m sd r. cbn. f_equal. lra.
Defined.

(* ===================================================================== *)
(** * C9: the grand canonical moves of the classical simulation           *)
(* ===================================================================== *)

(** C9.  In real arithmetic: the constructor sets the fugacity
    [z = exp(mu/T)/Lambda^NDIM]; for a state holding it, whose particles
    are inside the array, [insertMove] draws a position with
    [randPosition] and inserts it exactly when the uniform deviate is
    below [z V/(N+1) exp(-E/T)], and [deleteMove] draws a particle with
    [randInt(N-1)] and deletes it exactly when the uniform deviate is below
    [N/(z V) exp(+E/T)], where [E] is the external potential at the
    position plus the pair potential with each other particle. *)
Theorem C9_insert_delete_acceptance {Rng : Type} (E : Env R Rng) (s : CMC R Rng) :
  z s = fugacity E ->
  0 <= numParticles s <= Z.of_nat (length (config s)) ->
  (forall initialPos r s0,
     z (ClassicalMonteCarlo_new E initialPos r s0).2 = spec_fugacity E) /\
  (let x := (randPosition E (cmc_random s)).1 in
   let e := spec_particleEnergy E (config s) (numParticles s) None x in
   let u := (rand E (randPosition E (cmc_random s)).2).1 in
   exists s', insertMove E s = (Some tt, s') /\
     ((u < spec_insertAcceptance E (numParticles s) e)%R -> inserted s x e s') /\
     (~ (u < spec_insertAcceptance E (numParticles s) e)%R -> sameParticles s s')) /\
  (let p := (randInt E (numParticles s - 1) (cmc_random s)).1 in
   let e := spec_particleEnergy E (config s) (numParticles s) (Some p)
              (cfg_at (config s) p) in
   let u := (rand E (randInt E (numParticles s - 1) (cmc_random s)).2).1 in
   1 <= numParticles s -> 0 <= p <= numParticles s - 1 ->
   exists s', deleteMove E s = (Some tt, s') /\
     randIntArgs s' = (numParticles s - 1) :: randIntArgs s /\
     ((u < spec_deleteAcceptance E (numParticles s) e)%R -> deleted s p e s') /\
     (~ (u < spec_deleteAcceptance E (numParticles s) e)%R -> sameParticles s s')).
Proof.
  intros Hz Hn. split; [|split].
  - intros initialPos r s0. rewrite ClassicalMonteCarlo_new_z. apply fugacity_spec.
  - unfold spec_insertAcceptance. rewrite <- fugacity_spec, <- Hz.
    apply insertMove_spec. exact Hn.
  - intros p e u Hn1 Hp. unfold spec_deleteAcceptance. rewrite <- fugacity_spec, <- Hz.
    apply deleteMove_spec; [lia | exact Hp].
Qed.

(** Two particles, of which the first is drawn for deletion. *)
Lemma C9_insert_delete_acceptance_witness :
  (exists s', insertMove real_env real_cmc = (Some tt, s')) /\
  (exists s', deleteMove real_env real_cmc = (Some tt, s') /\ randIntArgs s' = [1]).
Proof.
  destruct (C9_insert_delete_acceptance real_env real_cmc) as (_ & Hins & Hdel).
  - reflexivity.
  - cbn. lia.
  - split.
    + destruct Hins as (s' & Hrun & _). exists s'. exact Hrun.
    + destruct Hdel as (s' & Hrun & Hargs & _); [cbn; lia | cbn; lia |].
      exists s'. split; [exact Hrun | exact Hargs].
Defined.

(* ===================================================================== *)
(** * C10: the classical moves without particles                          *)
(* ===================================================================== *)

(** C10.  [deleteMove] and [updateMove] have no guard for
    [numParticles = 0]: called with no particle, each passes -1 to
    [randInt] and reads [config] at the index drawn, which has no result
    when that index is outside the array.  With at least one particle, the
    particles inside the array and the index drawn among them, both end
    with a result. *)
Theorem C10_delete_update_need_a_particle
    {D : Type} `{Double D} {R : Type} (E : Env D R) (s : CMC D R) :
  numParticles s = 0 ->
  let p := (randInt E (-1) (cmc_random s)).1 in
  (exists o s', deleteMove E s = (o, s') /\ randIntArgs s' = -1 :: randIntArgs s /\
     (~ (0 <= p < Z.of_nat (length (config s))) -> o = None)) /\
  (exists o s', updateMove E s = (o, s') /\ randIntArgs s' = -1 :: randIntArgs s /\
     (~ (0 <= p < Z.of_nat (length (config s))) -> o = None)) /\
  (forall t : CMC D R,
     1 <= numParticles t <= Z.of_nat (length (config t)) ->
     0 <= (randInt E (numParticles t - 1) (cmc_random t)).1 <= numParticles t - 1 ->
     (exists t', deleteMove E t = (Some tt, t')) /\ (exists t', updateMove E t = (Some tt, t'))).
Proof.
  intros Hn p. split; [apply deleteMove_empty; exact Hn|].
  split; [apply updateMove_empty; exact Hn|].
  intros t Ht Hp. split; [apply deleteMove_defined | apply updateMove_defined]; assumption.
Qed.

(** No particle, in an array without elements: both moves read outside
    it. *)
Lemma C10_delete_update_need_a_particle_witness :
  (exists s', deleteMove (bench_env true) bench_cmc_empty = (None, s') /\ randIntArgs s' = [-1]) /\
  (exists s', updateMove (bench_env true) bench_cmc_empty = (None, s') /\ randIntArgs s' = [-1]).
Proof.
  destruct (C10_delete_update_need_a_particle (bench_env true) bench_cmc_empty eq_refl)
    as ((o1 & s1 & Hrun1 & Hargs1 & Hout1) & (o2 & s2 & Hrun2 & Hargs2 & Hout2) & _).
  split.
  - exists s1. rewrite Hrun1, Hout1 by (cbn [config bench_cmc_empty length]; lia).
    split; [reflexivity | exact Hargs1].
  - exists s2. rewrite Hrun2, Hout2 by (cbn [config bench_cmc_empty length]; lia).
    split; [reflexivity | exact Hargs2].
Defined.

(* ===================================================================== *)
(** * C6: the proposal of the open move                                   *)
(* ===================================================================== *)

Section OpenProposal.
  Context {D : Type} `{Double D} {R : Type} (E : Env D R).


End OpenProposal.



(* ===================================================================== *)
(** * C8: the rejections of the remove move                               *)
(* ===================================================================== *)

Section RemoveRejections.
  Context {D : Type} `{Double D} {R : Type} (E : Env D R).

#[local] Instance flagCleared_preorder : PreOrder flagCleared.
  Proof.
    split.
    - intros w. left. reflexivity.
    - intros w1 w2 w3 [->| ->] [->| ->]; unfold flagCleared; auto.
  Qed.

#[local] Instance sameWorldlines_preorder : PreOrder (@sameWorldlines D).
  Proof.
    split.
    - intros p. repeat split.
    - intros p1 p2 p3 (Hb & Hn & Hp & Hc) (Hb' & Hn' & Hp' & Hc').
      repeat split; congruence.
  Qed.

#[local] Instance worldlinesKept_preorder : PreOrder (@worldlinesKept D).
  Proof.
    split.
    - intros p. split; reflexivity.
    - intros p1 p2 p3 [Hw Hf] [Hw' Hf']. split; etransitivity; eassumption.
  Qed.

#[local] Instance unlessKept_preorder (Q : Path D -> Path D -> Prop) `{!PreOrder Q} :
    PreOrder (@unlessKept D R Q).
  Proof.
    split.
    - intros s. split; [lia | intros _; reflexivity].
    - intros s1 s2 s3 [Hle HQ] [Hle' HQ']. split; [lia|].
      intros Heq. transitivity (path s2); [apply HQ | apply HQ']; lia.
  Qed.

  (** A call of [keepMove] is outside what [unlessKept] speaks of. *)
Lemma unlessKept_keepMove {A} Q (m : M D R A) :
    (forall s0, hoare (callsPre s0) m (fun _ => keptOnce s0)) -> respects (unlessKept Q) m.
  Proof.
    intros Hm s a s' Hrun.
    destruct (Hm s s a s' (conj eq_refl eq_refl) Hrun) as (Hk & _).
    split; [lia | intros Heq; lia].
  Qed.

Ltac kept_side :=
    split; [ cbn; lia | intros _; cbn; split; [ repeat split | first [ left; reflexivity | right; reflexivity ] ] ].
Ltac kept_known :=
    apply unlessKept_keepMove; intros; apply RemoveMove_keepMove_calls.

Lemma RemoveMove_attemptMove_kept fuel :
    respects (unlessKept worldlinesKept) (RemoveMove_attemptMove E fuel).
  Proof. unfold RemoveMove_attemptMove. respects_with kept_side kept_known. Qed.

Lemma RemoveMove_attemptMove_early fuel (s : Sim D R) :
    Mbar E < worm_length (worm (path s)) \/ worm_length (worm (path s)) < 1
      \/ getTrueNumParticles E (path s) < 1 ->
    RemoveMove_attemptMove E fuel s = Some (false, s).
  Proof.
    intros Hpre. unfold RemoveMove_attemptMove. unfold bind at 1. unfold get_path, gets.
    assert (Hcond : bool_decide (Mbar E < worm_length (worm (path s)))
                    || bool_decide (worm_length (worm (path s)) < 1)
                    || bool_decide (getTrueNumParticles E (path s) < 1) = true).
    { destruct Hpre as [Hp|[Hp|Hp]]; rewrite (bool_decide_eq_true_2 _ Hp);
        rewrite ?orb_true_r; reflexivity. }
    rewrite Hcond. reflexivity.
  Qed.

Lemma path_eq_of_kept (p p' : Path D) :
    sameWorldlines p p' -> worm p' = worm p -> p' = p.
  Proof.
    intros (Hb & Hn & Hp & Hc) Hw. destruct p, p'; cbn in *. congruence.
  Qed.
End RemoveRejections.

(** C8.  [RemoveMove::attemptMove] returns [false] and leaves the whole
    state as it was when the worm is longer than [Mbar], shorter than 1, or
    there is no particle.  Whenever it returns [false], the beads, the
    links and the per-slice counts are the ones it started from, and so is
    the worm, but for the diagonality flag that [undoMove] clears: from an
    off-diagonal configuration the path is unchanged on every rejection. *)
Theorem C8_remove_rejects_without_touching_worldlines
    {D : Type} `{Double D} {R : Type} (E : Env D R) (fuel : nat) (s : Sim D R) :
  (Mbar E < worm_length (worm (path s)) \/ worm_length (worm (path s)) < 1
     \/ getTrueNumParticles E (path s) < 1 ->
   attemptMove E Remove fuel s = Some (false, s)) /\
  (forall s', attemptMove E Remove fuel s = Some (false, s') ->
     sameWorldlines (path s) (path s') /\
     flagCleared (worm (path s)) (worm (path s')) /\
     (isConfigDiagonal (worm (path s)) = false -> path s' = path s)).
Proof.
  split; [apply RemoveMove_attemptMove_early|].
  intros s' Hrun.
  assert (Hkeep : keepCalls s' = keepCalls s).
  { destruct (attemptMove_calls E Remove fuel s s false s' (conj eq_refl eq_refl) Hrun)
      as [[Hr _]|[[_ (Hk & _)]|[_ (Hk & _)]]]; [discriminate Hr | exact Hk | exact Hk]. }
  destruct (RemoveMove_attemptMove_kept E fuel s false s' Hrun) as [_ HQ].
  destruct (HQ Hkeep) as [Hw Hf].
  split; [exact Hw|]. split; [exact Hf|].
  intros Hoff. apply path_eq_of_kept; [exact Hw|].
  destruct Hf as [->| ->]; [reflexivity|].
  destruct (worm (path s)); cbn in *. subst. reflexivity.
Qed.

(** A worm of length 2 whose removal is rejected at the first slice. *)
Lemma C8_remove_rejects_witness :
  exists s',
    bench_run Remove true bench_wormPath bench_tape_reject = Some (false, s')
    /\ undoCalls s' = 1%nat /\ path s' = bench_wormPath.
Proof.
  assert (Hfacts : match bench_run Remove true bench_wormPath bench_tape_reject with
                   | Some (r, s') => r = false /\ undoCalls s' = 1%nat
                   | None => False
                   end) by (vm_compute; repeat split).
  revert Hfacts.
  destruct (bench_run Remove true bench_wormPath bench_tape_reject) as [[r s']|] eqn:Hrun;
    intros Hfacts; [|destruct Hfacts].
  destruct Hfacts as [-> Hu]. exists s'. split; [reflexivity|]. split; [exact Hu|].
  destruct (C8_remove_rejects_without_touching_worldlines (bench_env true) 20
              (bench_sim bench_wormPath bench_tape_reject)) as [_ Hrej].
  destruct (Hrej s' Hrun) as (_ & _ & Hsame). apply Hsame. reflexivity.
Defined.

(* ===================================================================== *)
(** * C5: the early exits of the centre-of-mass move                      *)
(* ===================================================================== *)

Section CenterOfMassExits.
  Context {D : Type} `{Double D} {R : Type} (E : Env D R).

  (** The walk that measures a closed worldline counts the links to the
      first return. *)
Lemma worldlineLength_loop (endB : beadLocator) (n : nat) :
    let body : beadLocator * Z -> M D R (beadLocator * Z + Z) :=
      fun '(beadIndex, wlLength) =>
        let* p := get_path in
        let wlLength := wlLength + 1 in
        let beadIndex := next p beadIndex in
        if beq beadIndex (next p endB) then ret (inr wlLength)
        else ret (inl (beadIndex, wlLength)) in
    forall (fuel : nat) (b : beadLocator) (wl : Z) (s : Sim D R),
      (n <= fuel)%nat -> firstReturn (path s) b (next (path s) endB) n ->
      doWhile fuel body (b, wl) s = Some (wl + Z.of_nat n, s).
  Proof.
    intros body.
    induction n as [|n IH]; intros fuel b wl s Hfuel (Hpos & Hiter & Hfirst); [lia|].
    destruct fuel as [|fuel]; [lia|].
    cbn [doWhile]. unfold bind at 1. unfold body at 1. unfold bind at 1.
    unfold get_path at 1, gets at 1.
    destruct (beq (next (path s) b) (next (path s) endB)) eqn:Hb.
    - apply bool_decide_eq_true_1 in Hb.
      destruct n as [|n].
      + reflexivity.
      + exfalso. apply (Hfirst 1%nat); [lia | exact Hb].
    - apply bool_decide_eq_false_1 in Hb. unfold ret at 1.
      destruct n as [|n]; [exfalso; apply Hb; exact Hiter|].
      rewrite (IH fuel (next (path s) b) (wl + 1) s ltac:(lia)).
      + do 2 f_equal. lia.
      + split; [lia|]. split.
        * rewrite <- Hiter. symmetry. apply (Nat.iter_succ_r (S n) (next (path s)) b).
        * intros k Hk. rewrite <- (Nat.iter_succ_r k (next (path s)) b). apply Hfirst. lia.
  Qed.

Lemma worldlineLength_firstReturn (fuel : nat) (startB endB : beadLocator) (n : nat)
      (s : Sim D R) :
    (n <= fuel)%nat -> firstReturn (path s) startB (next (path s) endB) n ->
    worldlineLength fuel startB endB s = Some (Z.of_nat n, s).
  Proof.
    intros Hfuel Hret. exact (worldlineLength_loop endB n fuel startB 0 s Hfuel Hret).
  Qed.

Lemma bind_step {A B} (m : M D R A) (k : A -> M D R B) s a s' :
    m s = Some (a, s') -> bind m k s = k a s'.
  Proof. unfold bind. intros ->. reflexivity. Qed.

Lemma do_randInt_eq n (s : Sim D R) :
    do_randInt E n s = Some ((randInt E n (random s)).1, set_random (randInt E n (random s)).2 s).
  Proof. unfold do_randInt. destruct (randInt E n (random s)). reflexivity. Qed.

Ltac m_run :=
    erewrite bind_step by first [ reflexivity | apply do_randInt_eq | eassumption ].

  (** The three exits of [CenterOfMassMove::attemptMove] that precede the
      count of the attempt. *)
Lemma CenterOfMassMove_attemptMove_early (fuel : nat) (s : Sim D R) :
    let p := path s in
    let start : beadLocator := (0, (randInt E (numBeads p 0 - 1) (random s)).1) in
    numBeads p 0 = 0 \/
    (foundBead E p start = true /\ numTimeSlices E <= worm_length (worm p)) \/
    (foundBead E p start = false /\
     exists n, (n <= fuel)%nat /\ firstReturn p start (next p (prev p start)) n /\
               numTimeSlices E < Z.of_nat n) ->
    exists s', CenterOfMassMove_attemptMove E fuel s = Some (false, s') /\
      path s' = path s /\
      numAttempted (mv s') = numAttempted (mv s) /\
      keepCalls s' = keepCalls s /\ undoCalls s' = undoCalls s /\
      (numBeads p 0 <> 0 -> startBead (mv s') = start).
  Proof.
    intros p start Hexit. unfold CenterOfMassMove_attemptMove.
    m_run. m_run. cbn [path set_mv]. fold p.
    destruct (decide (numBeads p 0 = 0)) as [Hzero|Hsome].
    { rewrite (bool_decide_eq_true_2 _ Hzero). eexists. split; [reflexivity|].
      repeat split. intros Hne. contradiction. }
    rewrite (bool_decide_eq_false_2 _ Hsome).
    destruct Hexit as [Hzero|Hexit]; [contradiction|].
    m_run. cbn [random set_mv]. fold start. m_run. m_run. m_run.
    cbn [mv set_mv set_random startBead set_startBead].
    destruct Hexit as [[Hfound Hlen]|[Hfound (n & Hfuel & Hret & Hlong)]]; rewrite Hfound.
    - rewrite (bool_decide_eq_true_2 _ Hlen).
      eexists. split; [m_run; reflexivity|]. repeat split.
    - eexists. split.
      + erewrite bind_step.
        2:{ m_run.
            erewrite bind_step
              by (apply worldlineLength_firstReturn; [exact Hfuel | exact Hret]).
            reflexivity. }
        rewrite (bool_decide_eq_true_2 _ Hlong). reflexivity.
      + repeat split.
  Qed.
End CenterOfMassExits.

(** C5, as stated, fails: a worm whose length is exactly the number of
    time slices is rejected by the check.  The start bead drawn is the tail
    of such a worm; the move returns [false] and has neither counted an
    attempt nor called [undoMove]. *)
Lemma C5_worm_of_length_M_rejected_counterexample :
  worm_length (worm bench_longWormPath) = numTimeSlices (bench_env true) /\
  foundBead (bench_env true) bench_longWormPath (0, 1) = true /\
  match bench_run CenterOfMass true bench_longWormPath bench_tape_reject with
  | Some (r, s') =>
      r = false /\ startBead (mv s') = (0, 1) /\ numAttempted (mv s') = 0 /\
      undoCalls s' = 0%nat
  | None => False
  end.
Proof. vm_compute. repeat split. Qed.

(** C5, amended.  [CenterOfMassMove::attemptMove] returns [false], with
    the path as it was and no attempt counted, when slice 0 is empty, when
    the start bead drawn lies on a worm whose length is at least the number
    [M] of time slices, or when it lies on a closed worldline longer than
    [M] slices (which the walk over its links finds within its fuel).  The
    start bead drawn is [(0, randInt(numBeadsAtSlice(0)-1))], on slice 0. *)
Theorem C5_center_of_mass_rejects_before_attempt
    {D : Type} `{Double D} {R : Type} (E : Env D R) (fuel : nat) (s : Sim D R) :
  let p := path s in
  let start : beadLocator := (0, (randInt E (numBeads p 0 - 1) (random s)).1) in
  numBeads p 0 = 0 \/
  (foundBead E p start = true /\ numTimeSlices E <= worm_length (worm p)) \/
  (foundBead E p start = false /\
   exists n, (n <= fuel)%nat /\ firstReturn p start (next p (prev p start)) n /\
             numTimeSlices E < Z.of_nat n) ->
  exists s', attemptMove E CenterOfMass fuel s = Some (false, s') /\
    path s' = path s /\
    numAttempted (mv s') = numAttempted (mv s) /\
    keepCalls s' = keepCalls s /\ undoCalls s' = undoCalls s /\
    (numBeads p 0 <> 0 -> startBead (mv s') = start /\ start.1 = 0).
Proof.
  intros p start Hexit.
  destruct (CenterOfMassMove_attemptMove_early E fuel s Hexit)
    as (s' & Hrun & Hpath & Hatt & Hk & Hu & Hstart).
  exists s'. split; [exact Hrun|]. repeat split; try assumption.
  apply Hstart. assumption.
Qed.

(** A closed worldline of eight links over four slices. *)
Lemma C5_center_of_mass_rejects_witness :
  exists s',
    bench_run CenterOfMass true bench_cyclePath bench_tape_accept = Some (false, s')
    /\ path s' = bench_cyclePath /\ startBead (mv s') = (0, 0).
Proof.
  destruct (C5_center_of_mass_rejects_before_attempt (bench_env true) 20
              (bench_sim bench_cyclePath bench_tape_accept))
    as (s' & Hrun & Hpath & _ & _ & _ & Hstart).
  - right. right. split; [vm_compute; reflexivity|].
    exists 8%nat. split; [lia|]. split; [|vm_compute; reflexivity].
    split; [lia|]. split; [vm_compute; reflexivity|].
    intros k Hk.
    do 8 (destruct k as [|k]; [try lia; vm_compute; intros Heq; discriminate Heq|]).
    lia.
  - exists s'. split; [exact Hrun|]. split; [exact Hpath|].
    apply Hstart. vm_compute. intros Heq. discriminate Heq.
Defined.

(* ===================================================================== *)
(** * C1: the configuration after a rejection                             *)
(* ===================================================================== *)

(** C1, as stated, fails for the centre-of-mass move in binary64
    arithmetic: [undoMove] subtracts the shift from the shifted positions,
    and [(0.7 + 0.4) - 0.4] is not [0.7].  The move is rejected by its
    Metropolis test, [undoMove] is called once, and the bead (3,1) is not
    where it was; the links, the counts and the worm are. *)
Lemma C1_center_of_mass_not_restored_counterexample :
  match bench_run CenterOfMass true bench_path bench_tape_shift with
  | Some (r, s') =>
      r = false /\ undoCalls s' = 1%nat /\
      pathPos bench_path (3, 1) = [0x1.6666666666666p-1%float] /\
      pathPos (path s') (3, 1) = [0x1.6666666666667p-1%float] /\
      path s' <> bench_path /\
      nextLink (path s') = nextLink bench_path /\
      prevLink (path s') = prevLink bench_path /\
      numBeadsAtSlice (path s') = numBeadsAtSlice bench_path /\
      worm (path s') = worm bench_path
  | None => False
  end.
Proof.
  assert (Hfacts : match bench_run CenterOfMass true bench_path bench_tape_shift with
                   | Some (r, s') =>
                       r = false /\ undoCalls s' = 1%nat /\
                       pathPos bench_path (3, 1) = [0x1.6666666666666p-1%float] /\
                       pathPos (path s') (3, 1) = [0x1.6666666666667p-1%float] /\
                       nextLink (path s') = nextLink bench_path /\
                       prevLink (path s') = prevLink bench_path /\
                       numBeadsAtSlice (path s') = numBeadsAtSlice bench_path /\
                       worm (path s') = worm bench_path
                   | None => False
                   end) by (vm_compute; repeat split).
  revert Hfacts.
  destruct (bench_run CenterOfMass true bench_path bench_tape_shift) as [[r s']|];
    intros Hfacts; [|exact Hfacts].
  destruct Hfacts as (Hr & Hu & Hold & Hnew & Hn & Hp & Hc & Hw).
  repeat split; try assumption.
  intros Heq. rewrite Heq, Hold in Hnew.
  pose proof (f_equal (fun l => (hd 0 l =? 0x1.6666666666667p-1)%float) Hnew) as Hb.
  vm_compute in Hb. discriminate Hb.
Qed.

(* ===================================================================== *)
(** * Further properties of the sampling kernels and the slice tests      *)
(* ===================================================================== *)

Section MoreRealKernels.
  Context {Rng : Type} (E : Env R Rng).

Lemma sqrt2LambdaTau_spec :
    (0 <= lambda E * tau E)%R ->
    sqrt2LambdaTau E = R_sqrt.sqrt (2 * lambda E * tau E).
  Proof.
    intros Hlt. unfold sqrt2LambdaTau, sqrtLambdaTau, d2. cbn [of_int dmul dsqrt Double_R].
    rewrite <- sqrt_mult by lra. f_equal. ring.
  Qed.

Lemma newFreeParticlePosition_spec (neighbor : beadLocator) (s : Sim R Rng) :
    (0 <= lambda E * tau E)%R ->
    (forall m sd r, randNorm E m sd r
                    = ((m + (randNorm E 0%R sd r).1)%R, (randNorm E 0%R sd r).2)) ->
    newFreeParticlePosition E neighbor s
    = Some ((spec_newFreeParticlePosition E (path s) neighbor (random s)).1,
            set_random (spec_newFreeParticlePosition E (path s) neighbor (random s)).2 s).
  Proof.
    intros Hlt Hloc. unfold newFreeParticlePosition, spec_newFreeParticlePosition.
    unfold bind at 1, get_path, gets. unfold bind at 1.
    rewrite randNormVec_kicks by exact Hloc.
    rewrite sqrt2LambdaTau_spec by exact Hlt.
    destruct (gaussianKicks E _ _ _) as [g r']. reflexivity.
  Qed.

Lemma bisection_midpoint (sep pos : dVec R) :
    vadd (vscale dhalf sep) pos = zip_with (fun d pn => (d / 2 + pn)%R) sep pos.
  Proof.
    unfold vadd, vscale, dhalf, d1, d2. cbn [of_int dmul ddiv dadd Double_R].
    revert pos. induction sep as [|d sep IH]; intros [|a pos]; cbn; try reflexivity.
    f_equal; [lra | apply IH].
  Qed.

Lemma newBisectionPosition_spec (b : beadLocator) (lshift : Z) (s : Sim R Rng) :
    (0 <= lambda E * tau E)%R -> 0 <= lshift ->
    (forall m sd r, randNorm E m sd r
                    = ((m + (randNorm E 0%R sd r).1)%R, (randNorm E 0%R sd r).2)) ->
    newBisectionPosition E b lshift s
    = Some ((spec_newBisectionPosition E (path s) b lshift (random s)).1,
            set_random (spec_newBisectionPosition E (path s) b lshift (random s)).2 s).
  Proof.
    intros Hlt Hl Hloc. unfold newBisectionPosition, spec_newBisectionPosition.
    unfold bind at 1, get_path, gets. unfold bind at 1.
    rewrite randNormVec_kicks by exact Hloc.
    rewrite bisection_midpoint.
    replace (sqrtLambdaTau E * dsqrt (d1 * of_int lshift))%D
      with (R_sqrt.sqrt (lambda E * tau E * IZR lshift)).
    - destruct (gaussianKicks E _ _ _) as [g r']. reflexivity.
    - unfold sqrtLambdaTau, d1. cbn [of_int dmul dsqrt Double_R].
      rewrite <- sqrt_mult; [f_equal; ring | exact Hlt |].
      rewrite Rmult_1_l. apply IZR_le. exact Hl.
  Qed.

Lemma Rleb_true (x y : R) : Rleb x y = true <-> (x <= y)%R.
  Proof. unfold Rleb. destruct (Rle_dec x y); split; intros; try lra; try discriminate; auto. Qed.

  (** The value [PNorm*P] a passed slice test stores. *)
Lemma slice_product (deltaAction PNorm : R) :
    (0 < PNorm)%R ->
    (PNorm * sliceP deltaAction PNorm)%R = Rmin (exp (- deltaAction)) PNorm.
  Proof.
    intros Hpos. unfold sliceP, dmin, d1. cbn [of_int dltb dexp ddiv dopp Double_R].
    unfold Rltb, Rmin.
    destruct (Rlt_dec 1 (exp (- deltaAction) / PNorm)) as [Hlt|Hge];
      destruct (Rle_dec (exp (- deltaAction)) PNorm) as [Hle|Hgt].
    - exfalso. apply (Rmult_lt_compat_r PNorm) in Hlt; [|exact Hpos].
      unfold Rdiv in Hlt. rewrite Rmult_assoc, Rinv_l in Hlt by lra. lra.
    - lra.
    - field. lra.
    - exfalso. apply Hge. apply (Rmult_lt_reg_r PNorm); [exact Hpos|].
      unfold Rdiv. rewrite Rmult_assoc, Rinv_l by lra. lra.
  Qed.

Lemma sliceTest_eq (deltaAction PNorm : R) (undoMove : M R Rng unit) (s : Sim R Rng) :
    sliceTest E deltaAction PNorm undoMove s
    = (if dgeb (rand E (random s)).1 (sliceP deltaAction PNorm)
       then undoMove ;; ret None
       else ret (Some (PNorm * sliceP deltaAction PNorm)%D))
        (set_random (rand E (random s)).2 s).
  Proof.
    unfold sliceTest. unfold bind at 1. unfold do_rand.
    destruct (rand E (random s)) as [u r]. reflexivity.
  Qed.
End MoreRealKernels.

(** X1.  In real arithmetic, [newFreeParticlePosition(neighbor)] returns
    the position [spec_newFreeParticlePosition] describes: a Gaussian
    deviate of mean 0 and variance [2 lambda tau] (the standard deviation
    the constructor stores as [sqrt(2) sqrt(lambda tau)]) is added to each
    coordinate of the neighbour, and the sum is wrapped by [putInside]. *)
Theorem X1_newFreeParticlePosition_variance
    {Rng : Type} (E : Env R Rng) (neighbor : beadLocator) (s : Sim R Rng) :
  (0 <= lambda E * tau E)%R ->
  (forall m sd r, randNorm E m sd r
                  = ((m + (randNorm E 0%R sd r).1)%R, (randNorm E 0%R sd r).2)) ->
  newFreeParticlePosition E neighbor s
  = Some ((spec_newFreeParticlePosition E (path s) neighbor (random s)).1,
          set_random (spec_newFreeParticlePosition E (path s) neighbor (random s)).2 s).
Proof. apply newFreeParticlePosition_spec. Qed.

Lemma X1_newFreeParticlePosition_witness :
  newFreeParticlePosition real_env (2, 0) real_linkedSim
  = Some ((spec_newFreeParticlePosition real_env real_linkedPath (2, 0)
             [(1 / 4)%R; (1 / 2)%R]).1,
          set_random (spec_newFreeParticlePosition real_env real_linkedPath (2, 0)
                        [(1 / 4)%R; (1 / 2)%R]).2 real_linkedSim).
Proof.
  apply (X1_newFreeParticlePosition_variance real_env (2, 0) real_linkedSim).
  - cbn. lra.
  - intros m sd r. cbn. f_equal. lra.
Defined.

(** X2.  In real arithmetic, for [lshift >= 0],
    [newBisectionPosition(bead, lshift)] returns the position
    [spec_newBisectionPosition] describes: the bead [lshift] links before
    plus half the separation [getSeparation] gives from it to the bead
    [lshift] links after, each coordinate kicked by a Gaussian deviate of
    mean 0 and variance [lambda tau lshift], the sum wrapped by
    [putInside]. *)
Theorem X2_newBisectionPosition_midpoint
    {Rng : Type} (E : Env R Rng) (b : beadLocator) (lshift : Z) (s : Sim R Rng) :
  (0 <= lambda E * tau E)%R -> 0 <= lshift ->
  (forall m sd r, randNorm E m sd r
                  = ((m + (randNorm E 0%R sd r).1)%R, (randNorm E 0%R sd r).2)) ->
  newBisectionPosition E b lshift s
  = Some ((spec_newBisectionPosition E (path s) b lshift (random s)).1,
          set_random (spec_newBisectionPosition E (path s) b lshift (random s)).2 s).
Proof. apply newBisectionPosition_spec. Qed.

Lemma X2_newBisectionPosition_witness :
  newBisectionPosition real_env (1, 0) 1 real_linkedSim
  = Some ((spec_newBisectionPosition real_env real_linkedPath (1, 0) 1
             [(1 / 4)%R; (1 / 2)%R]).1,
          set_random (spec_newBisectionPosition real_env real_linkedPath (1, 0) 1
                        [(1 / 4)%R; (1 / 2)%R]).2 real_linkedSim).
Proof.
  apply (X2_newBisectionPosition_midpoint real_env (1, 0) 1 real_linkedSim).
  - cbn. lra.
  - lia.
  - intros m sd r. cbn. f_equal. lra.
Defined.

(** X3.  In real arithmetic, for a positive [PNorm]: the single-slice test
    of the worm moves passes exactly when the uniform deviate is below
    [min(exp(-deltaAction)/PNorm, 1)]; it then stores
    [PNorm*P = min(exp(-deltaAction), PNorm)], so that [PNorm] is the
    running minimum of 1 and the [exp(-deltaAction)] met so far and stays
    positive; otherwise it calls [undoMove] and the move returns. *)
Theorem X3_sliceTest_running_minimum
    {Rng : Type} (E : Env R Rng) (deltaAction PNorm : R) (undoMove : M R Rng unit)
    (s : Sim R Rng) :
  (0 < PNorm)%R ->
  let u := (rand E (random s)).1 in
  let s1 := set_random (rand E (random s)).2 s in
  ((u < Rmin (exp (- deltaAction) / PNorm) 1)%R ->
   sliceTest E deltaAction PNorm undoMove s
   = Some (Some (Rmin (exp (- deltaAction)) PNorm), s1)) /\
  (~ (u < Rmin (exp (- deltaAction) / PNorm) 1)%R ->
   sliceTest E deltaAction PNorm undoMove s = (undoMove ;; ret None) s1) /\
  (0 < Rmin (exp (- deltaAction)) PNorm <= PNorm)%R.
Proof.
  intros Hpos u s1.
  assert (HP : sliceP deltaAction PNorm = Rmin (exp (- deltaAction) / PNorm) 1).
  { unfold sliceP, dmin, d1. cbn [of_int dltb dexp ddiv dopp Double_R].
    unfold Rltb, Rmin.
    destruct (Rlt_dec 1 (exp (- deltaAction) / PNorm));
      destruct (Rle_dec (exp (- deltaAction) / PNorm) 1); try reflexivity; lra. }
  split; [|split].
  - intros Hu. rewrite sliceTest_eq. fold u s1. rewrite slice_product by exact Hpos.
    unfold dgeb. cbn [dleb Double_R].
    destruct (Rleb (sliceP deltaAction PNorm) u) eqn:Hle; [|reflexivity].
    apply Rleb_true in Hle. rewrite HP in Hle. lra.
  - intros Hu. rewrite sliceTest_eq. fold u s1.
    unfold dgeb. cbn [dleb Double_R].
    destruct (Rleb (sliceP deltaAction PNorm) u) eqn:Hle; [reflexivity|].
    exfalso. apply Hu. rewrite <- HP.
    destruct (Rle_dec (sliceP deltaAction PNorm) u) as [Hd|Hd]; [|lra].
    apply Rleb_true in Hd. congruence.
  - pose proof (exp_pos (- deltaAction)) as He. unfold Rmin.
    destruct (Rle_dec (exp (- deltaAction)) PNorm); lra.
Qed.

(** A deviate of 1 fails the test whatever the action. *)
Lemma X3_sliceTest_witness :
  sliceTest real_env 0%R 1%R (ret tt) real_sim = Some (None, set_random [] real_sim).
Proof.
  destruct (X3_sliceTest_running_minimum real_env 0%R 1%R (ret tt) real_sim) as (_ & Hfail & _).
  - lra.
  - rewrite Hfail; [reflexivity|].
    cbn [rand real_env random real_sim fst hd].
    pose proof (Rmin_r (exp (- 0) / 1) 1). lra.
Defined.

(* ===================================================================== *)
(** * Further properties of the classical moves                           *)
(* ===================================================================== *)

Section ClassicalShapes.
  Context {D : Type} `{Double D} {R : Type} (E : Env D R).
  #[local] Open Scope mc_scope.

  (** [updateMove], run: the particle drawn, the position proposed, and
      what a rejection and an acceptance store. *)
Lemma updateMove_shape (s : CMC D R) :
    1 <= numParticles s <= Z.of_nat (length (config s)) ->
    let p := (randInt E (numParticles s - 1) (cmc_random s)).1 in
    0 <= p <= numParticles s - 1 ->
    exists x s',
      config s !! Z.to_nat p = Some x /\
      updateMove E s = (Some tt, s') /\
      numParticles s' = numParticles s /\
      numUpdateTotal s' = numUpdateTotal s + 1 /\
      ((config s' = config s /\ energy s' = energy s /\
        numUpdateAccept s' = numUpdateAccept s) \/
       (config s'
        = <[Z.to_nat p := (randUpdate E (randInt E (numParticles s - 1) (cmc_random s)).2 x).1]>
            (config s) /\
        numUpdateAccept s' = numUpdateAccept s + 1)).
  Proof.
    intros Hn p Hp. unfold updateMove.
    mc_run. mc_run. cbn [numParticles set_updateCounters].
    mc_run. cbn [cmc_random set_updateCounters randIntArgs]. fold p.
    set (s1 := set_cmc_random _ _ _).
    assert (Hin : 0 <= p < Z.of_nat (length (config s1))) by (cbn; lia).
    destruct (readConfig_inside p s1 Hin) as (x & Hx & Hread).
    exists x.
    mc_run.
    destruct (particleEnergy_defined E (Some p) x s1) as (oldE & HoldE); [cbn; lia|].
    mc_run. mc_run. mc_run.
    erewrite mc_bind_Some by (apply writeConfig_inside; exact Hin).
    set (s2 := set_config _ _).
    assert (Hin2 : 0 <= p < Z.of_nat (length (config s2))).
    { unfold s2. cbn [config set_config set_cmc_random]. rewrite length_insert. cbn. lia. }
    destruct (readConfig_inside p s2 Hin2) as (y & Hy & Hread2).
    mc_run.
    destruct (particleEnergy_defined E (Some p) y s2) as (newE & HnewE).
    { unfold s2. cbn [config numParticles set_config set_cmc_random].
      rewrite length_insert. cbn. lia. }
    mc_run. mc_run.
    match goal with |- context [dltb ?a ?b] => destruct (dltb a b) end.
    - mc_run. eexists. split; [exact Hx|]. split; [reflexivity|].
      split; [reflexivity|]. split; [reflexivity|].
      right. split; reflexivity.
    - rewrite writeConfig_inside by (cbn [config set_cmc_random]; exact Hin2).
      eexists. split; [exact Hx|]. split; [reflexivity|].
      split; [reflexivity|]. split; [reflexivity|].
      left. split; [|split; reflexivity].
      unfold s2, s1. cbn [config set_config set_cmc_random set_updateCounters].
      rewrite list_insert_insert_eq. apply list_insert_id. exact Hx.
  Qed.

  (** [insertMove], run. *)
Lemma insertMove_shape (s : CMC D R) :
    0 <= numParticles s <= Z.of_nat (length (config s)) ->
    exists s',
      insertMove E s = (Some tt, s') /\
      numInsertTotal s' = numInsertTotal s + 1 /\
      ((config s' = config s /\ numParticles s' = numParticles s /\
        energy s' = energy s /\ numInsertAccept s' = numInsertAccept s) \/
       (numParticles s' = numParticles s + 1 /\
        config s' !! Z.to_nat (numParticles s) = Some (randPosition E (cmc_random s)).1 /\
        take (Z.to_nat (numParticles s)) (config s')
        = take (Z.to_nat (numParticles s)) (config s) /\
        length (config s') = Nat.max (length (config s)) (Z.to_nat (numParticles s + 1)) /\
        numInsertAccept s' = numInsertAccept s + 1)).
  Proof.
    intros Hn. unfold insertMove.
    mc_run. mc_run. cbn [cmc_random set_insertCounters].
    set (x := (randPosition E (cmc_random s)).1).
    set (s1 := set_cmc_random _ _ _).
    destruct (particleEnergy_defined E None x s1) as (newE & HnewE); [cbn; lia|].
    mc_run. mc_run. mc_run.
    match goal with |- context [dltb ?a ?b] => destruct (dltb a b) end.
    - mc_run. mc_run.
      cbn [config numParticles set_energy set_cmc_random set_insertCounters].
      set (s2 := if bool_decide _ then _ else _).
      assert (Hs2 : numParticles s2 = numParticles s /\
                    numInsertAccept s2 = numInsertAccept s /\
                    numInsertTotal s2 = numInsertTotal s + 1 /\
                    length (config s2)
                    = Nat.max (length (config s)) (Z.to_nat (numParticles s + 1)) /\
                    take (Z.to_nat (numParticles s)) (config s2)
                    = take (Z.to_nat (numParticles s)) (config s)).
      { unfold s2, s1. cbn [config numParticles set_cmc_random set_insertCounters].
        destruct (bool_decide _) eqn:Hb.
        - apply bool_decide_eq_true_1 in Hb.
          change (config s1) with (config s) in Hb.
          change (numParticles s1) with (numParticles s) in Hb.
          cbn [config numParticles energy numInsertAccept numInsertTotal set_config set_energy
               set_cmc_random set_insertCounters].
          repeat split; try reflexivity.
          + unfold resizeAndPreserve. rewrite length_app, length_take, length_replicate. lia.
          + unfold resizeAndPreserve. rewrite take_app_le by (rewrite length_take; lia).
            rewrite take_take. f_equal. lia.
        - apply bool_decide_eq_false_1 in Hb.
          change (config s1) with (config s) in Hb.
          change (numParticles s1) with (numParticles s) in Hb.
          cbn [config numParticles energy numInsertAccept numInsertTotal set_config set_energy
               set_cmc_random set_insertCounters].
          repeat split; try reflexivity. lia. }
      destruct Hs2 as (HN & HA & HT & Hlen & Htake).
      mc_run. rewrite HN.
      erewrite mc_bind_Some by (apply writeConfig_inside; lia).
      mc_run. eexists. split; [reflexivity|].
      cbn [config numParticles numInsertAccept numInsertTotal set_config set_numParticles
           set_insertCounters].
      split; [exact HT|]. right.
      rewrite HN, HA, length_insert. repeat split; try reflexivity.
      + apply list_lookup_insert_eq. lia.
      + rewrite take_insert_ge by lia. exact Htake.
      + exact Hlen.
    - eexists. split; [reflexivity|]. split; [reflexivity|]. left. repeat split.
  Qed.

  (** [deleteMove], run. *)
Lemma deleteMove_shape (s : CMC D R) :
    1 <= numParticles s <= Z.of_nat (length (config s)) ->
    let p := (randInt E (numParticles s - 1) (cmc_random s)).1 in
    0 <= p <= numParticles s - 1 ->
    exists x l s',
      config s !! Z.to_nat p = Some x /\
      config s !! Z.to_nat (numParticles s - 1) = Some l /\
      deleteMove E s = (Some tt, s') /\
      numDeleteTotal s' = numDeleteTotal s + 1 /\
      ((config s' = config s /\ numParticles s' = numParticles s /\
        energy s' = energy s /\ numDeleteAccept s' = numDeleteAccept s) \/
       (numParticles s' = numParticles s - 1 /\
        config s' = <[Z.to_nat p := l]> (config s) /\
        numDeleteAccept s' = numDeleteAccept s + 1)).
  Proof.
    intros Hn p Hp. unfold deleteMove.
    mc_run. mc_run. cbn [numParticles set_deleteCounters].
    mc_run. cbn [cmc_random set_deleteCounters randIntArgs]. fold p.
    set (s1 := set_cmc_random _ _ _).
    assert (Hin : 0 <= p < Z.of_nat (length (config s1))) by (cbn; lia).
    destruct (readConfig_inside p s1 Hin) as (x & Hx & Hread).
    destruct (readConfig_inside (numParticles s - 1) s1) as (l & Hl & Hlread); [cbn; lia|].
    exists x, l.
    mc_run.
    destruct (particleEnergy_defined E (Some p) x s1) as (oldE & HoldE); [cbn; lia|].
    mc_run. mc_run. mc_run.
    match goal with |- context [dltb ?a ?b] => destruct (dltb a b) end.
    - mc_run.
      match goal with |- context [mc_bind (readConfig ?q) _ ?t] =>
        assert (Hlread' : readConfig q t = (Some l, t))
          by (unfold readConfig; rewrite bool_decide_eq_true_2 by lia;
              f_equal; exact Hl) end.
      mc_run.
      erewrite mc_bind_Some by (apply writeConfig_inside; exact Hin).
      mc_run. eexists. split; [exact Hx|]. split; [exact Hl|]. split; [reflexivity|].
      split; [reflexivity|]. right. repeat split.
    - eexists. split; [exact Hx|]. split; [exact Hl|]. split; [reflexivity|].
      split; [reflexivity|]. left. repeat split.
  Qed.
End ClassicalShapes.

(** X4.  With at least one particle, the particles inside the array and
    the index drawn among them, [updateMove] returns, counts one update,
    keeps the number of particles, and either is rejected and leaves the
    configuration and the energy exactly as they were (the position saved
    in [oldPos] is written back), or stores the position [randUpdate]
    proposed for the particle drawn and changes no other. *)
Theorem X4_update_restores_or_moves_one_particle
    {D : Type} `{Double D} {R : Type} (E : Env D R) (s : CMC D R) :
  1 <= numParticles s <= Z.of_nat (length (config s)) ->
  0 <= (randInt E (numParticles s - 1) (cmc_random s)).1 <= numParticles s - 1 ->
  let p := (randInt E (numParticles s - 1) (cmc_random s)).1 in
  exists x s',
    config s !! Z.to_nat p = Some x /\
    updateMove E s = (Some tt, s') /\
    numParticles s' = numParticles s /\
    numUpdateTotal s' = numUpdateTotal s + 1 /\
    ((config s' = config s /\ energy s' = energy s /\
      numUpdateAccept s' = numUpdateAccept s) \/
     (config s'
      = <[Z.to_nat p := (randUpdate E (randInt E (numParticles s - 1) (cmc_random s)).2 x).1]>
          (config s) /\
      numUpdateAccept s' = numUpdateAccept s + 1)).
Proof. intros Hn Hp. apply updateMove_shape; assumption. Qed.

Lemma X4_update_witness :
  exists s', updateMove (bench_env true) bench_cmc = (Some tt, s') /\ numParticles s' = 2.
Proof.
  destruct (X4_update_restores_or_moves_one_particle (bench_env true) bench_cmc)
    as (x & s' & _ & Hrun & HN & _).
  - cbn. lia.
  - vm_compute. split; intros Hc; discriminate Hc.
  - exists s'. split; [exact Hrun | exact HN].
Defined.

(** X5.  For a random source whose [randInt(n)] is in [[0,n]]: the three
    classical moves keep the particles inside the array.  From
    [0 <= numParticles <= extent], [insertMove] returns with the same
    particles or one more, the array grown by one element only when it was
    full; with at least one particle, [updateMove] and [deleteMove] return
    with the array as long as it was, the same number of particles, or one
    less after a deletion.  The array never shrinks. *)
Theorem X5_particles_stay_inside_the_array
    {D : Type} `{Double D} {R : Type} (E : Env D R) (s : CMC D R) :
  (forall n r, 0 <= n -> 0 <= (randInt E n r).1 <= n) ->
  0 <= numParticles s <= Z.of_nat (length (config s)) ->
  (exists s', insertMove E s = (Some tt, s') /\
     numParticles s <= numParticles s' <= numParticles s + 1 /\
     length (config s') = Nat.max (length (config s)) (Z.to_nat (numParticles s')) /\
     0 <= numParticles s' <= Z.of_nat (length (config s'))) /\
  (1 <= numParticles s ->
   (exists s', updateMove E s = (Some tt, s') /\
      numParticles s' = numParticles s /\ length (config s') = length (config s)) /\
   (exists s', deleteMove E s = (Some tt, s') /\
      numParticles s - 1 <= numParticles s' <= numParticles s /\
      length (config s') = length (config s))).
Proof.
  intros Hint Hn. split.
  - destruct (insertMove_shape E s Hn) as (s' & Hrun & _ & [Hrej|Hacc]).
    + destruct Hrej as (Hc & HN & _). exists s'. split; [exact Hrun|].
      rewrite Hc, HN. repeat split; lia.
    + destruct Hacc as (HN & _ & _ & Hlen & _). exists s'. split; [exact Hrun|].
      rewrite HN, Hlen. repeat split; lia.
  - intros Hone.
    pose proof (Hint (numParticles s - 1) (cmc_random s) ltac:(lia)) as Hp.
    split.
    + destruct (updateMove_shape E s ltac:(lia) Hp) as (x & s' & _ & Hrun & HN & _ & Hcfg).
      exists s'. split; [exact Hrun|]. split; [exact HN|].
      destruct Hcfg as [(Hc & _)|(Hc & _)]; rewrite Hc; [reflexivity | apply length_insert].
    + destruct (deleteMove_shape E s ltac:(lia) Hp) as (x & l & s' & _ & _ & Hrun & _ & Hcfg).
      exists s'. split; [exact Hrun|].
      destruct Hcfg as [(Hc & HN & _)|(HN & Hc & _)]; rewrite Hc, HN.
      * split; [lia | reflexivity].
      * split; [lia | apply length_insert].
Qed.

Lemma X5_particles_stay_inside_witness :
  exists s', insertMove (bench_env true) bench_cmc = (Some tt, s') /\
             0 <= numParticles s' <= Z.of_nat (length (config s')).
Proof.
  destruct (X5_particles_stay_inside_the_array (bench_env true) bench_cmc)
    as ((s' & Hrun & _ & _ & Hin) & _).
  - intros n r Hn. unfold bench_env, tape_randInt; cbn [randInt fst]. lia.
  - cbn. lia.
  - exists s'. split; [exact Hrun | exact Hin].
Defined.

(* ===================================================================== *)
(** * The energy the classical simulation keeps                           *)
(* ===================================================================== *)

Section EnergyTracking.
  Context {Rng : Type} (E : Env R Rng).
  #[local] Open Scope mc_scope.

Lemma sumR_app (l k : list R) : sumR (l ++ k) = (sumR l + sumR k)%R.
  Proof. unfold sumR. induction l as [|a l IH]; cbn; [lra | rewrite IH; lra]. Qed.

Lemma sumR_perm (l k : list R) : Permutation l k -> sumR l = sumR k.
  Proof.
    unfold sumR. induction 1 as [|a l k _ IH|a b l|l k m _ IH1 _ IH2]; cbn; lra.
  Qed.

  (** The elements of [config] from [lo] on, read by index. *)
Lemma map_cfg_at_seqZ (cfg : list (dVec R)) (n : nat) (lo : Z) :
    0 <= lo -> lo + Z.of_nat n <= Z.of_nat (length cfg) ->
    map (cfg_at cfg) (seqZ lo (Z.of_nat n)) = take n (drop (Z.to_nat lo) cfg).
  Proof.
    revert lo. induction n as [|n IH]; intros lo Hlo Hhi.
    - rewrite take_0. reflexivity.
    - rewrite seqZ_cons by lia. replace (Z.pred (Z.of_nat (S n))) with (Z.of_nat n) by lia.
      cbn [map]. rewrite IH by lia.
      destruct (lookup_lt_is_Some_2 cfg (Z.to_nat lo)) as [x Hx]; [lia|].
      rewrite (drop_S cfg x (Z.to_nat lo) Hx). cbn [take].
      replace (Z.to_nat (Z.succ lo)) with (S (Z.to_nat lo)) by lia.
      f_equal. unfold cfg_at. unfold dVec in *. rewrite Hx. reflexivity.
  Qed.

Lemma filter_none (l : list Z) `{!forall j : Z, Decision (@None Z <> Some j)} :
    filter (fun j => @None Z <> Some j) l = l.
  Proof.
    induction l as [|a l IH]; [reflexivity|].
    rewrite filter_cons_True by discriminate. f_equal. exact IH.
  Qed.

  (** The loop over the later particles, as a sum over a list. *)
Lemma interactionLoop_later (n : nat) (p2 : Z) x e (s : CMC R Rng) :
    0 <= p2 -> p2 + Z.of_nat n <= Z.of_nat (length (config s)) ->
    interactionLoop E n p2 None x e s
    = (Some (e + sumR (map (pairV E x) (take n (drop (Z.to_nat p2) (config s)))))%R, s).
  Proof.
    intros Hlo Hhi. rewrite interactionLoop_value by assumption.
    rewrite filter_none. rewrite <- map_cfg_at_seqZ by assumption.
    rewrite map_map. reflexivity.
  Qed.

Lemma totalEnergyLoop_value (n : nat) (part1 : Z) e (s : CMC R Rng) :
    0 <= part1 -> part1 + Z.of_nat n <= Z.of_nat (length (config s)) ->
    totalEnergyLoop E n part1 e s
    = (Some (e + spec_totalEnergy E (take n (drop (Z.to_nat part1) (config s))))%R, s).
  Proof.
    revert part1 e. induction n as [|n IH]; intros part1 e Hlo Hhi.
    - cbn [totalEnergyLoop]. rewrite take_0. cbn. unfold mc_ret. do 2 f_equal. lra.
    - cbn [totalEnergyLoop].
      destruct (readConfig_inside part1 s) as (x & Hx & Hread); [lia|].
      rewrite (mc_bind_Some _ _ _ _ _ Hread).
      rewrite (mc_bind_Some _ _ _ _ _ (interactionLoop_later n (part1 + 1) x _ s
                                         ltac:(lia) ltac:(lia))).
      rewrite IH by lia.
      rewrite (drop_S (config s) x (Z.to_nat part1) Hx). cbn [take spec_totalEnergy].
      replace (Z.to_nat (part1 + 1)) with (S (Z.to_nat part1)) by lia.
      do 2 f_equal. cbn [dadd Double_R]. rewrite !Rplus_assoc. reflexivity.
  Qed.

  (** [getTotalEnergy] computes the total energy of the particles and
      leaves the state as it is. *)
Lemma getTotalEnergy_value (s : CMC R Rng) :
    0 <= numParticles s <= Z.of_nat (length (config s)) ->
    getTotalEnergy E s = (Some (spec_totalEnergy E (particles s)), s).
  Proof.
    intros Hn. unfold getTotalEnergy, mc_bind, mc_gets.
    rewrite totalEnergyLoop_value by lia.
    unfold particles, d0. cbn [of_int Double_R]. rewrite Rplus_0_l. reflexivity.
  Qed.

  Section Symmetric.
    Hypothesis pair_symmetric : forall x y, pairV E x y = pairV E y x.

    (** The total energy does not depend on the order of the particles. *)
Lemma spec_totalEnergy_perm (l k : list (dVec R)) :
      Permutation l k -> spec_totalEnergy E l = spec_totalEnergy E k.
    Proof.
      induction 1 as [|a l k Hlk IH|a b l|l k m _ IH1 _ IH2].
      - reflexivity.
      - cbn [spec_totalEnergy]. rewrite IH.
        rewrite (sumR_perm (map (pairV E a) l) (map (pairV E a) k))
          by (apply Permutation_map; exact Hlk).
        reflexivity.
      - cbn [spec_totalEnergy map]. unfold sumR. cbn [fold_right]. fold (sumR (map (pairV E a) l)).
        fold (sumR (map (pairV E b) l)). rewrite (pair_symmetric b a). lra.
      - congruence.
    Qed.

Lemma spec_totalEnergy_snoc (l : list (dVec R)) (x : dVec R) :
      spec_totalEnergy E (l ++ [x])
      = (spec_totalEnergy E l + (externalV E x + sumR (map (pairV E x) l)))%R.
    Proof.
      rewrite (spec_totalEnergy_perm (l ++ [x]) (x :: l))
        by (symmetry; apply Permutation_cons_append).
      cbn [spec_totalEnergy]. lra.
    Qed.
  End Symmetric.

  (** The particles other than [p], in the order of their indices. *)
Lemma seq_without (p : Z) (l : list Z) `{!forall j : Z, Decision (Some p <> Some j)} :
    NoDup l -> p ∈ l -> Permutation l (p :: filter (fun j => Some p <> Some j) l).
  Proof.
    induction l as [|a l IH]; intros Hnd Hin; [inversion Hin|].
    apply NoDup_cons in Hnd as [Hna Hnd].
    destruct (decide (a = p)) as [->|Hne].
    - rewrite filter_cons_False by (intros Hc; apply Hc; reflexivity).
      apply Permutation_skip.
      assert (Hall : filter (fun j => Some p <> Some j) l = l).
      { clear IH Hnd Hin. induction l as [|b l IHl]; [reflexivity|].
        rewrite filter_cons_True.
        - f_equal. apply IHl. intros Hc. apply Hna. right. exact Hc.
        - intros Hc. apply Hna. injection Hc as ->. left. }
      rewrite Hall. reflexivity.
    - rewrite filter_cons_True by congruence.
      apply elem_of_cons in Hin as [Heq|Hin]; [congruence|].
      rewrite (IH Hnd Hin) at 1. apply Permutation_swap.
  Qed.

Lemma particles_without (cfg : list (dVec R)) (n p : Z) (x : dVec R)
      `{!forall j : Z, Decision (Some p <> Some j)} :
    0 <= p < n -> n <= Z.of_nat (length cfg) -> cfg !! Z.to_nat p = Some x ->
    Permutation (take (Z.to_nat n) cfg)
      (x :: map (cfg_at cfg) (filter (fun j => Some p <> Some j) (seqZ 0 n))).
  Proof.
    intros Hp Hn Hx.
    assert (Hmap : map (cfg_at cfg) (seqZ 0 n) = take (Z.to_nat n) cfg).
    { rewrite <- (Z2Nat.id n) at 1 by lia. rewrite map_cfg_at_seqZ by lia. reflexivity. }
    rewrite <- Hmap.
    rewrite (seq_without p (seqZ 0 n)) at 1.
    - cbn [map]. f_equal. unfold cfg_at. unfold dVec in *. rewrite Hx. reflexivity.
    - apply NoDup_seqZ.
    - apply elem_of_seqZ. lia.
  Qed.

  (** The energy of a particle, as a sum over the others. *)
Lemma spec_particleEnergy_sum (cfg : list (dVec R)) (n : Z) (skip : option Z) (x : dVec R) :
    spec_particleEnergy E cfg n skip x
    = (externalV E x
       + sumR (map (pairV E x) (map (cfg_at cfg) (filter (fun j => skip <> Some j) (seqZ 0 n)))))%R.
  Proof. unfold spec_particleEnergy, sumR. rewrite map_map. reflexivity. Qed.

Lemma cfg_at_insert_others (cfg : list (dVec R)) (n p : Z) (y : dVec R)
      `{!forall j : Z, Decision (Some p <> Some j)} :
    0 <= p ->
    map (cfg_at (<[Z.to_nat p := y]> cfg)) (filter (fun j => Some p <> Some j) (seqZ 0 n))
    = map (cfg_at cfg) (filter (fun j => Some p <> Some j) (seqZ 0 n)).
  Proof.
    intros Hp. apply map_ext_in. intros j Hj.
    apply list_elem_of_In, list_elem_of_filter in Hj as [Hne Hj].
    apply elem_of_seqZ in Hj.
    unfold cfg_at. rewrite list_lookup_insert_ne; [reflexivity|].
    intros Heq. apply Hne. f_equal. lia.
  Qed.

Lemma insert_perm (l : list (dVec R)) (i : nat) (x y : dVec R) :
    l !! i = Some x -> Permutation (x :: <[i := y]> l) (y :: l).
  Proof.
    revert i. induction l as [|a l IH]; intros [|i] Hx; try discriminate.
    - cbn in Hx. injection Hx as ->. cbn. apply Permutation_swap.
    - cbn in Hx. cbn [insert list_insert].
      change (list_insert i y l) with (<[i := y]> l).
      rewrite Permutation_swap. rewrite (IH i Hx). apply Permutation_swap.
  Qed.

Lemma cfg_at_Some (cfg : list (dVec R)) (p : Z) (x : dVec R) :
    cfg !! Z.to_nat p = Some x -> cfg_at cfg p = x.
  Proof. intros Hx. unfold cfg_at. unfold dVec in *. rewrite Hx. reflexivity. Qed.

  (** [updateMove] in real arithmetic: the two energies and the test. *)
Lemma updateMove_real (s : CMC R Rng) :
    1 <= numParticles s <= Z.of_nat (length (config s)) ->
    let d := randInt E (numParticles s - 1) (cmc_random s) in
    let p := d.1 in
    let x := cfg_at (config s) p in
    let y := (randUpdate E d.2 x).1 in
    let cfg' := <[Z.to_nat p := y]> (config s) in
    let oldE := spec_particleEnergy E (config s) (numParticles s) (Some p) x in
    let newE := spec_particleEnergy E cfg' (numParticles s) (Some p) y in
    let u := (rand E (randUpdate E d.2 x).2).1 in
    0 <= p <= numParticles s - 1 ->
    exists s', updateMove E s = (Some tt, s') /\
      numParticles s' = numParticles s /\
      ((u < exp (- (newE - oldE) / c_T E))%R ->
       config s' = cfg' /\ energy s' = (energy s + (newE - oldE))%R) /\
      (~ (u < exp (- (newE - oldE) / c_T E))%R ->
       config s' = config s /\ energy s' = energy s).
  Proof.
    intros Hn d p x y cfg' oldE newE u Hp. unfold updateMove.
    mc_run. mc_run. cbn [numParticles set_updateCounters].
    mc_run. cbn [cmc_random set_updateCounters randIntArgs]. fold d. fold p.
    set (s1 := set_cmc_random _ _ _).
    assert (Hin : 0 <= p < Z.of_nat (length (config s1))) by (cbn; lia).
    destruct (readConfig_inside p s1 Hin) as (x0 & Hx & Hread).
    assert (Hx0 : x0 = x) by (symmetry; apply cfg_at_Some; exact Hx). subst x0.
    mc_run.
    rewrite (mc_bind_Some _ _ _ _ _ (particleEnergy_value E (Some p) x s1 ltac:(cbn; lia))).
    change (spec_particleEnergy E (config s1) (numParticles s1) (Some p) x) with oldE.
    mc_run. mc_run. cbn [cmc_random set_cmc_random]. fold y.
    erewrite mc_bind_Some by (apply writeConfig_inside; exact Hin).
    set (s2 := set_config _ _).
    assert (Hc2 : config s2 = cfg') by reflexivity.
    assert (Hin2 : 0 <= p < Z.of_nat (length (config s2))).
    { rewrite Hc2. unfold cfg'. rewrite length_insert. lia. }
    assert (Hread2 : readConfig p s2 = (Some y, s2)).
    { unfold readConfig. rewrite bool_decide_eq_true_2 by lia. f_equal.
      rewrite Hc2. apply list_lookup_insert_eq. lia. }
    mc_run.
    rewrite (mc_bind_Some _ _ _ _ _ (particleEnergy_value E (Some p) y s2
               ltac:(rewrite Hc2; unfold cfg'; rewrite length_insert; cbn; lia))).
    change (spec_particleEnergy E (config s2) (numParticles s2) (Some p) y) with newE.
    mc_run. change (rand E (cmc_random s2)).1 with u.
    unfold updateThreshold. cbn [dltb dexp ddiv dopp dsub dadd Double_R].
    destruct (Rltb u _) eqn:Hu.
    - apply Rltb_true in Hu. mc_run. eexists. split; [reflexivity|]. split; [reflexivity|].
      split; [intros _; split; reflexivity | intros Hno; contradiction].
    - apply Rltb_false in Hu.
      rewrite writeConfig_inside by (cbn [config set_cmc_random]; exact Hin2).
      eexists. split; [reflexivity|]. split; [reflexivity|].
      split; [intros Hyes; contradiction|]. intros _. split; [|reflexivity].
      cbn [config set_config set_cmc_random]. rewrite Hc2. unfold cfg'.
      rewrite list_insert_insert_eq. apply list_insert_id. exact Hx.
  Qed.

  Section Tracked.
    Hypothesis pair_symmetric : forall x y, pairV E x y = pairV E y x.

Lemma insert_tracked (s s' : CMC R Rng) (x : dVec R) :
      0 <= numParticles s <= Z.of_nat (length (config s)) ->
      energyTracked E s ->
      inserted s x (spec_particleEnergy E (config s) (numParticles s) None x) s' ->
      energyTracked E s'.
    Proof.
      intros Hn Htr (HN & Hlast & Htake & He & _). unfold energyTracked, particles in *.
      rewrite HN. replace (Z.to_nat (numParticles s + 1)) with (S (Z.to_nat (numParticles s))) by lia.
      rewrite (take_S_r _ _ _ Hlast), Htake.
      rewrite spec_totalEnergy_snoc by exact pair_symmetric.
      rewrite He, Htr. f_equal.
      rewrite spec_particleEnergy_sum. rewrite filter_none.
      rewrite <- (Z2Nat.id (numParticles s)) at 1 by lia.
      rewrite map_cfg_at_seqZ by lia. reflexivity.
    Qed.

Lemma update_tracked (s : CMC R Rng) (p : Z) (x y : dVec R) :
      0 <= p < numParticles s -> numParticles s <= Z.of_nat (length (config s)) ->
      config s !! Z.to_nat p = Some x ->
      (spec_totalEnergy E (take (Z.to_nat (numParticles s)) (<[Z.to_nat p := y]> (config s)))
       = spec_totalEnergy E (particles s)
         + (spec_particleEnergy E (<[Z.to_nat p := y]> (config s)) (numParticles s) (Some p) y
            - spec_particleEnergy E (config s) (numParticles s) (Some p) x))%R.
    Proof.
      intros Hp Hn Hx. unfold particles.
      rewrite (spec_totalEnergy_perm pair_symmetric _ _
                 (particles_without (config s) (numParticles s) p x Hp Hn Hx)).
      assert (Hy : <[Z.to_nat p := y]> (config s) !! Z.to_nat p = Some y)
        by (apply list_lookup_insert_eq; lia).
      rewrite (spec_totalEnergy_perm pair_symmetric _ _
                 (particles_without (<[Z.to_nat p := y]> (config s)) (numParticles s) p y Hp
                    ltac:(rewrite length_insert; exact Hn) Hy)).
      rewrite cfg_at_insert_others by lia.
      cbn [spec_totalEnergy]. rewrite !spec_particleEnergy_sum.
      rewrite cfg_at_insert_others by lia. lra.
    Qed.

Lemma delete_tracked (s : CMC R Rng) (p : Z) (x l : dVec R) :
      0 <= p < numParticles s -> numParticles s <= Z.of_nat (length (config s)) ->
      config s !! Z.to_nat p = Some x ->
      config s !! Z.to_nat (numParticles s - 1) = Some l ->
      spec_totalEnergy E (take (Z.to_nat (numParticles s - 1)) (<[Z.to_nat p := l]> (config s)))
      = (spec_totalEnergy E (particles s)
         - spec_particleEnergy E (config s) (numParticles s) (Some p) x)%R.
    Proof.
      intros Hp Hn Hx Hl. unfold particles.
      set (L' := take (Z.to_nat (numParticles s - 1)) (<[Z.to_nat p := l]> (config s))).
      assert (Hperm : Permutation (take (Z.to_nat (numParticles s)) (config s)) (x :: L')).
      { replace (Z.to_nat (numParticles s)) with (S (Z.to_nat (numParticles s - 1))) by lia.
        rewrite (take_S_r _ _ _ Hl). unfold L'.
        destruct (decide (p = numParticles s - 1)) as [->|Hne].
        - rewrite take_insert_ge by lia. rewrite Hl in Hx. injection Hx as ->.
          symmetry. apply Permutation_cons_append.
        - rewrite take_insert_lt by lia.
          rewrite (insert_perm _ _ x l) by (rewrite lookup_take_lt by lia; exact Hx).
          symmetry. apply Permutation_cons_append. }
      pose proof (particles_without (config s) (numParticles s) p x Hp Hn Hx) as Hothers.
      rewrite Hperm in Hothers. apply Permutation.Permutation_cons_inv in Hothers.
      rewrite (spec_totalEnergy_perm pair_symmetric _ _ Hperm).
      cbn [spec_totalEnergy]. rewrite spec_particleEnergy_sum.
      rewrite (sumR_perm _ _ (Permutation_map (pairV E x) Hothers)). lra.
    Qed.
  End Tracked.
End EnergyTracking.

(** X6.  In real arithmetic, [getTotalEnergy] returns the external
    potential of every particle plus the pair potential of every pair, each
    pair once, and changes nothing; the constructor stores that value for
    the initial positions in [energy], with [numParticles] the extent of
    the array and the update counters at 0. *)
Theorem X6_getTotalEnergy_sums_every_pair_once
    {Rng : Type} (E : Env R Rng) (s : CMC R Rng) :
  0 <= numParticles s <= Z.of_nat (length (config s)) ->
  getTotalEnergy E s = (Some (spec_totalEnergy E (particles s)), s) /\
  (forall initialPos r s0,
     exists s1,
       ClassicalMonteCarlo_new E initialPos r s0 = (Some (spec_totalEnergy E initialPos), s1) /\
       config s1 = initialPos /\ numParticles s1 = Z.of_nat (length initialPos) /\
       energyTracked E s1 /\ numUpdateTotal s1 = 0 /\ numUpdateAccept s1 = 0).
Proof.
  intros Hn. split; [apply getTotalEnergy_value; exact Hn|].
  intros initialPos r s0. unfold ClassicalMonteCarlo_new.
  set (s1 := mkCMC _ _ _ _ _ _ _ _ _ _ _ _).
  assert (Hp : particles s1 = initialPos).
  { unfold particles, s1. cbn [numParticles config]. rewrite Nat2Z.id. apply firstn_all. }
  rewrite (mc_bind_Some _ _ _ _ _ (getTotalEnergy_value E s1 ltac:(cbn; lia))).
  rewrite Hp. eexists. split; [reflexivity|].
  split; [reflexivity|]. split; [reflexivity|]. split; [|split; reflexivity].
  unfold energyTracked.
  change (spec_totalEnergy E initialPos = spec_totalEnergy E (particles s1)).
  rewrite Hp. reflexivity.
Qed.

Lemma X6_getTotalEnergy_witness :
  getTotalEnergy real_env real_cmc_tracked = (Some 2%R, real_cmc_tracked).
Proof.
  destruct (X6_getTotalEnergy_sums_every_pair_once real_env real_cmc_tracked) as [Hval _].
  - cbn. lia.
  - rewrite Hval. f_equal. f_equal.
    change (particles real_cmc_tracked) with [[0%R]; [1%R]].
    cbn [spec_totalEnergy map]. unfold pairV, sumR. cbn. lra.
Defined.

(** X7.  In real arithmetic, for a pair potential that is the same for a
    separation and its opposite, a random source whose [randInt(n)] is in
    [[0,n]], and particles inside the array: when [energy] is the total
    energy of the particles before [insertMove], [updateMove] or
    [deleteMove], it is the total energy of the particles after it, whether
    the move is accepted or not.  So [energy] stays what [getTotalEnergy]
    would compute. *)
Theorem X7_moves_keep_energy_equal_to_total
    {Rng : Type} (E : Env R Rng) (s : CMC R Rng) :
  (forall x y, pairV E x y = pairV E y x) ->
  (forall n r, 0 <= n -> 0 <= (randInt E n r).1 <= n) ->
  0 <= numParticles s <= Z.of_nat (length (config s)) ->
  energyTracked E s ->
  (exists s', insertMove E s = (Some tt, s') /\ energyTracked E s') /\
  (1 <= numParticles s ->
   (exists s', updateMove E s = (Some tt, s') /\ energyTracked E s') /\
   (exists s', deleteMove E s = (Some tt, s') /\ energyTracked E s')).
Proof.
  intros Hsym Hint Hn Htr. split.
  - destruct (insertMove_spec E s Hn) as (s' & Hrun & Hacc & Hrej).
    exists s'. split; [exact Hrun|].
    match type of Hacc with (?c -> _) => destruct (Rlt_dec _ _ : {c} + {~ c}) as [Hu|Hu] end.
    + eapply insert_tracked; [exact Hsym | exact Hn | exact Htr | exact (Hacc Hu)].
    + destruct (Hrej Hu) as (HN & Hc & He & _).
      unfold energyTracked, particles in *. rewrite HN, Hc, He. exact Htr.
  - intros Hone.
    pose proof (Hint (numParticles s - 1) (cmc_random s) ltac:(lia)) as Hp.
    set (p := (randInt E (numParticles s - 1) (cmc_random s)).1) in *.
    destruct (lookup_lt_is_Some_2 (config s) (Z.to_nat p)) as [x Hx]; [lia|].
    destruct (lookup_lt_is_Some_2 (config s) (Z.to_nat (numParticles s - 1))) as [l Hl]; [lia|].
    split.
    + destruct (updateMove_real E s ltac:(lia) Hp) as (s' & Hrun & HN & Hacc & Hrej).
      fold p in Hacc, Hrej. rewrite (cfg_at_Some _ _ _ Hx) in Hacc, Hrej.
      exists s'. split; [exact Hrun|].
      match type of Hacc with (?c -> _) => destruct (Rlt_dec _ _ : {c} + {~ c}) as [Hu|Hu] end.
      * destruct (Hacc Hu) as [Hc He].
        unfold energyTracked, particles. rewrite HN, Hc, He.
        rewrite (update_tracked E Hsym s p x) by (try exact Hx; lia).
        rewrite Htr. reflexivity.
      * destruct (Hrej Hu) as [Hc He].
        unfold energyTracked, particles in *. rewrite HN, Hc, He. exact Htr.
    + destruct (deleteMove_spec E s ltac:(lia) Hp) as (s' & Hrun & _ & Hacc & Hrej).
      fold p in Hacc, Hrej.
      rewrite (cfg_at_Some _ _ _ Hx) in Hacc, Hrej.
      exists s'. split; [exact Hrun|].
      match type of Hacc with (?c -> _) => destruct (Rlt_dec _ _ : {c} + {~ c}) as [Hu|Hu] end.
      * destruct (Hacc Hu) as (HN & Hc & He & _).
        rewrite (cfg_at_Some _ _ _ Hl) in Hc.
        unfold energyTracked, particles. rewrite HN, Hc, He.
        rewrite (delete_tracked E Hsym s p x l) by (try assumption; lia).
        rewrite Htr. reflexivity.
      * destruct (Hrej Hu) as (HN & Hc & He & _).
        unfold energyTracked, particles in *. rewrite HN, Hc, He. exact Htr.
Qed.

Lemma X7_moves_keep_energy_witness :
  exists s', deleteMove real_env real_cmc_tracked = (Some tt, s') /\
             energyTracked real_env s'.
Proof.
  destruct (X7_moves_keep_energy_equal_to_total real_env real_cmc_tracked) as (_ & Hrest).
  - intros x y. unfold pairV. cbn [putInside interactionV real_env].
    destruct x as [|a x], y as [|b y]; cbn; ring.
  - intros n r Hn. cbn. lia.
  - cbn. lia.
  - unfold energyTracked.
    change (particles real_cmc_tracked) with [[0%R]; [1%R]].
    cbn [spec_totalEnergy map energy real_cmc_tracked]. unfold pairV, sumR. cbn. lra.
  - destruct Hrest as (_ & Hdel); [cbn; lia|]. exact Hdel.
Defined.

(* ===================================================================== *)
(** * The counters of attempted and accepted moves                        *)
(* ===================================================================== *)

Section Counters.
  Context {D : Type} `{Double D} {R : Type} (E : Env D R).

#[local] Instance attemptsKept_preorder : PreOrder (@attemptsKept D R).
  Proof.
    split.
    - intros s. split; reflexivity.
    - intros s1 s2 s3 (a1 & b1) (a2 & b2). split; congruence.
  Qed.

#[local] Instance notCounted_preorder : PreOrder (@notCounted D R).
  Proof.
    split.
    - intros s. repeat split.
    - intros s1 s2 s3 ((a1 & b1) & c1) ((a2 & b2) & c2). repeat split; congruence.
  Qed.

#[local] Instance acceptedCounted_preorder : PreOrder (@acceptedCounted D R).
  Proof.
    split.
    - intros s. split; reflexivity.
    - intros s1 s2 s3 (a1 & b1) (a2 & b2). split; congruence.
  Qed.

#[local] Instance acceptsKept_preorder : PreOrder (@acceptsKept D R).
  Proof.
    split.
    - intros s. repeat split.
    - intros s1 s2 s3 (a1 & b1 & c1) (a2 & b2 & c2). repeat split; congruence.
  Qed.

Lemma stable_attempted (s0 : Sim D R) a t : stable (attempted s0 a t) attemptsKept.
  Proof. intros s s' (Ha & Ht) (Ha' & Ht'). split; congruence. Qed.

Lemma stable_attempting (s0 : Sim D R) a t : stable (attempting s0 a t) notCounted.
  Proof.
    intros s s' ((Ha & Ht) & Hk) ((Ha' & Ht') & Hk'). repeat split; congruence.
  Qed.

Lemma stable_accepting (s0 : Sim D R) k a t : stable (accepting s0 k a t) acceptsKept.
  Proof.
    intros s s' (Hk & Ha & Ht) (Ha' & Ht' & Hk'). repeat split; congruence.
  Qed.

Ltac same_side := repeat split; reflexivity.

  (** ** The acceptance counters *)

Lemma enterKeep_accepting (s0 : Sim D R) k a t :
    hoare (accepting s0 k a t) enterKeep (fun _ => accepting s0 (k + 1) a t).
  Proof.
    apply hoare_modify. intros s (Hk & Ha & Ht). repeat split; cbn; [lia | exact Ha | exact Ht].
  Qed.

Lemma incNumAccepted_accepting (s0 : Sim D R) k a t :
    hoare (accepting s0 k a t) incNumAccepted (fun _ => accepting s0 k (a + 1) t).
  Proof.
    apply hoare_modify. intros s (Hk & Ha & Ht). repeat split; cbn; [exact Hk | lia | exact Ht].
  Qed.

Lemma incTotAccepted_accepting (s0 : Sim D R) k a t :
    hoare (accepting s0 k a t) incTotAccepted (fun _ => accepting s0 k a (t + 1)).
  Proof.
    apply hoare_modify. intros s (Hk & Ha & Ht). repeat split; cbn; [exact Hk | exact Ha | lia].
  Qed.

  (** The statements of a [keepMove], one after the other. *)
Ltac keep_walk :=
    lazymatch goal with
    | |- hoare _ (bind enterKeep _) _ =>
        eapply hoare_bind; [ apply enterKeep_accepting | intros ?; keep_walk ]
    | |- hoare _ (bind incNumAccepted _) _ =>
        eapply hoare_bind; [ apply incNumAccepted_accepting | intros ?; keep_walk ]
    | |- hoare _ (bind incTotAccepted _) _ =>
        eapply hoare_bind; [ apply incTotAccepted_accepting | intros ?; keep_walk ]
    | |- hoare _ (bind _ _) _ =>
        eapply hoare_bind;
        [ eapply hoare_stable; [ apply stable_accepting | respects_with same_side fail ]
        | intros ?; keep_walk ]
    | |- hoare _ _ _ =>
        eapply hoare_stable; [ apply stable_accepting | respects_with same_side fail ]
    end.

Lemma accepting_counted {A} (m : M D R A) :
    (forall s0, hoare (accepting s0 0 0 0) m (fun _ => accepting s0 1 1 1)) ->
    respects acceptedCounted m.
  Proof.
    intros Hm s a s' Heq.
    destruct (Hm s s a s') as (Hk & Ha & Ht); [repeat split; lia | exact Heq |].
    split; lia.
  Qed.

Ltac keep_counted := apply accepting_counted; intros s0; keep_walk.

Lemma MoveBase_keepMove_counted : respects acceptedCounted (@MoveBase_keepMove D R).
  Proof. unfold MoveBase_keepMove. keep_counted. Qed.

Lemma BisectionMove_keepMove_counted : respects acceptedCounted (@BisectionMove_keepMove D R).
  Proof. unfold BisectionMove_keepMove. keep_counted. Qed.

Lemma OpenMove_keepMove_counted fuel : respects acceptedCounted (OpenMove_keepMove E fuel).
  Proof. unfold OpenMove_keepMove. keep_counted. Qed.

Lemma CloseMove_keepMove_counted : respects acceptedCounted (@CloseMove_keepMove D R).
  Proof. unfold CloseMove_keepMove. keep_counted. Qed.

Lemma InsertMove_keepMove_counted : respects acceptedCounted (InsertMove_keepMove E).
  Proof. unfold InsertMove_keepMove. keep_counted. Qed.

Lemma RemoveMove_keepMove_counted fuel :
    respects acceptedCounted (@RemoveMove_keepMove D R fuel).
  Proof. unfold RemoveMove_keepMove. keep_counted. Qed.

Lemma AdvanceHeadMove_keepMove_counted : respects acceptedCounted (AdvanceHeadMove_keepMove E).
  Proof. unfold AdvanceHeadMove_keepMove. keep_counted. Qed.

Lemma AdvanceTailMove_keepMove_counted fuel :
    respects acceptedCounted (AdvanceTailMove_keepMove E fuel).
  Proof. unfold AdvanceTailMove_keepMove. keep_counted. Qed.

Lemma RecedeHeadMove_keepMove_counted fuel :
    respects acceptedCounted (RecedeHeadMove_keepMove E fuel).
  Proof. unfold RecedeHeadMove_keepMove. keep_counted. Qed.

Lemma RecedeTailMove_keepMove_counted : respects acceptedCounted (RecedeTailMove_keepMove E).
  Proof. unfold RecedeTailMove_keepMove. keep_counted. Qed.

Lemma SwapHeadMove_keepMove_counted : respects acceptedCounted (SwapHeadMove_keepMove E).
  Proof. unfold SwapHeadMove_keepMove. keep_counted. Qed.

Lemma SwapTailMove_keepMove_counted : respects acceptedCounted (SwapTailMove_keepMove E).
  Proof. unfold SwapTailMove_keepMove. keep_counted. Qed.

Ltac counted_keep :=
    idtac;
    lazymatch goal with
    | |- respects _ MoveBase_keepMove => apply MoveBase_keepMove_counted
    | |- respects _ BisectionMove_keepMove => apply BisectionMove_keepMove_counted
    | |- respects _ (OpenMove_keepMove _ _) => apply OpenMove_keepMove_counted
    | |- respects _ CloseMove_keepMove => apply CloseMove_keepMove_counted
    | |- respects _ (InsertMove_keepMove _) => apply InsertMove_keepMove_counted
    | |- respects _ (RemoveMove_keepMove _) => apply RemoveMove_keepMove_counted
    | |- respects _ (AdvanceHeadMove_keepMove _) => apply AdvanceHeadMove_keepMove_counted
    | |- respects _ (AdvanceTailMove_keepMove _ _) => apply AdvanceTailMove_keepMove_counted
    | |- respects _ (RecedeHeadMove_keepMove _ _) => apply RecedeHeadMove_keepMove_counted
    | |- respects _ (RecedeTailMove_keepMove _) => apply RecedeTailMove_keepMove_counted
    | |- respects _ (SwapHeadMove_keepMove _) => apply SwapHeadMove_keepMove_counted
    | |- respects _ (SwapTailMove_keepMove _) => apply SwapTailMove_keepMove_counted
    end.

Lemma acceptedCounted_bisectLevels fuel l oldDeltaAction :
    respects acceptedCounted (bisectLevels E fuel l oldDeltaAction).
  Proof.
    revert oldDeltaAction. induction l as [|l IH]; intros oldDeltaAction.
    - apply respects_ret, _.
    - rewrite bisectLevels_S. respects_with same_side ltac:(first [counted_keep | apply IH]).
  Qed.

Ltac counted_known :=
    idtac;
    lazymatch goal with
    | |- respects _ (bisectLevels _ _ _ _) => apply acceptedCounted_bisectLevels
    | |- _ => counted_keep
    end.

Lemma acceptedCounted_attemptMove (m : Move) fuel :
    respects acceptedCounted (attemptMove E m fuel).
  Proof. destruct m; unfold attemptMove; respects_with same_side counted_known. Qed.

  (** ** The attempt counters *)

Lemma incNumAttempted_attempting (s0 : Sim D R) t :
    hoare (attempting s0 0 t) incNumAttempted (fun _ => attempting s0 1 t).
  Proof.
    apply hoare_modify. intros s ((Ha & Ht) & Hk). repeat split; cbn; [lia | exact Ht | exact Hk].
  Qed.

Lemma incTotAttempted_attempting (s0 : Sim D R) a :
    hoare (attempting s0 a 0) incTotAttempted (fun _ => attempting s0 a 1).
  Proof.
    apply hoare_modify. intros s ((Ha & Ht) & Hk). repeat split; cbn; [exact Ha | lia | exact Hk].
  Qed.

Lemma attemptsKept_bisectLevels fuel l oldDeltaAction :
    respects attemptsKept (bisectLevels E fuel l oldDeltaAction).
  Proof.
    revert oldDeltaAction. induction l as [|l IH]; intros oldDeltaAction.
    - apply respects_ret, _.
    - rewrite bisectLevels_S. respects_with same_side ltac:(apply IH).
  Qed.

Ltac kept_known :=
    idtac;
    lazymatch goal with
    | |- respects _ (bisectLevels _ _ _ _) => apply attemptsKept_bisectLevels
    end.

  (** Once both counters have been incremented, nothing touches them. *)
Ltac att_rest :=
    eapply hoare_conseq;
    [ eapply hoare_stable; [ apply stable_attempted | respects_with same_side kept_known ]
    | intros ? Hpre; apply Hpre
    | intros ? ? Hpost; right; exact Hpost ].

  (** The statements of an [attemptMove] up to the second increment. *)
Ltac att_walk :=
    cbv beta iota;
    lazymatch goal with
    | |- hoare (attempting _ 1 1) _ _ => att_rest
    | |- hoare _ (bind incNumAttempted _) _ =>
        eapply hoare_bind; [ apply incNumAttempted_attempting | intros ?; att_walk ]
    | |- hoare _ (bind incTotAttempted _) _ =>
        eapply hoare_bind; [ apply incTotAttempted_attempting | intros ?; att_walk ]
    | |- hoare _ (bind _ _) _ =>
        eapply hoare_bind;
        [ eapply hoare_stable; [ apply stable_attempting | respects_with same_side fail ]
        | intros ?; att_walk ]
    | |- hoare _ (if ?c then _ else _) _ => destruct c; att_walk
    | |- hoare _ (match ?x with _ => _ end) _ => destruct x; att_walk
    | |- hoare (attempting _ 0 0) (ret _) _ =>
        apply hoare_ret; intros ? Hpre; left; exact Hpre
    | |- hoare (attempting _ 0 0) returnSuccess _ =>
        apply hoare_gets; intros ? Hpre; left; exact Hpre
    | |- hoare _ ?m _ =>
        tryif progress cbv beta zeta then att_walk
        else (let h := head_of m in unfold h; att_walk)
    end.

Lemma attemptMove_attempts (m : Move) fuel (s0 : Sim D R) :
    hoare (attempting s0 0 0) (attemptMove E m fuel) (fun _ => attemptOutcome s0).
  Proof. destruct m; unfold attemptMove; att_walk. Qed.
End Counters.

(** X8.  For every move, with the counters read as integers: an
    [attemptMove] that returns [true] has added exactly one to
    [numAccepted] and to [totAccepted], one that returns [false] has left
    both alone; [numAttempted] and [totAttempted] have grown together, by
    one or (on the exits that precede the attempt) not at all, and by one
    whenever the move was accepted.  So accepted moves never outnumber
    attempted ones. *)
Theorem X8_counters_follow_the_outcome
    {D : Type} `{Double D} {R : Type} (E : Env D R) (m : Move) (fuel : nat)
    (s s' : Sim D R) (r : bool) :
  attemptMove E m fuel s = Some (r, s') ->
  let one := if r then 1 else 0 in
  numAccepted (mv s') = numAccepted (mv s) + one /\
  totAccepted s' = totAccepted s + one /\
  (exists a, one <= a <= 1 /\
     numAttempted (mv s') = numAttempted (mv s) + a /\
     totAttempted s' = totAttempted s + a) /\
  (numAccepted (mv s) <= numAttempted (mv s) -> numAccepted (mv s') <= numAttempted (mv s')) /\
  (totAccepted s <= totAttempted s -> totAccepted s' <= totAttempted s').
Proof.
  intros Hrun one.
  pose proof (acceptedCounted_attemptMove E m fuel s r s' Hrun) as (Hn & Ht).
  pose proof (attemptMove_calls E m fuel s s r s' ltac:(split; reflexivity) Hrun) as Hcalls.
  pose proof (attemptMove_attempts E m fuel s s r s'
                ltac:(repeat split; lia) Hrun) as Hatt.
  assert (Hk : Z.of_nat (keepCalls s') = Z.of_nat (keepCalls s) + one).
  { destruct Hcalls as [(-> & Hk & _)|[(-> & Hk & _)|(-> & Hk & _)]]; subst one; cbn.
    - rewrite Hk. lia.
    - rewrite Hk. lia.
    - rewrite Hk. lia. }
  assert (Ha : exists a, one <= a <= 1 /\
     numAttempted (mv s') = numAttempted (mv s) + a /\
     totAttempted s' = totAttempted s + a).
  { destruct Hatt as [((Ha & Ht') & Hk')|(Ha & Ht')].
    - exists 0. rewrite Hk' in Hk. repeat split; lia.
    - exists 1. subst one. destruct r; repeat split; lia. }
  split; [lia|]. split; [lia|]. split; [exact Ha|].
  destruct Ha as (a & Hone & Ha & Ht'). split; lia.
Qed.

(** An accepted open move: one attempt and one acceptance are counted. *)
Lemma X8_counters_witness :
  exists s',
    bench_run Open true bench_path bench_tape_accept = Some (true, s') /\
    numAccepted (mv s') = 1 /\ totAccepted s' = 1.
Proof.
  assert (Hfacts : match bench_run Open true bench_path bench_tape_accept with
                   | Some (r, _) => r = true
                   | None => False
                   end) by (vm_compute; reflexivity).
  revert Hfacts.
  destruct (bench_run Open true bench_path bench_tape_accept) as [[r s']|] eqn:Hrun;
    intros Hfacts; [|destruct Hfacts].
  subst r. exists s'. split; [reflexivity|].
  destruct (X8_counters_follow_the_outcome (bench_env true) Open 20
              (bench_sim bench_path bench_tape_accept) s' true Hrun)
    as (Hn & Ht & _).
  split; [exact Hn | exact Ht].
Defined.

(* ===================================================================== *)
(** * Moves that only displace beads                                      *)
(* ===================================================================== *)

Section PositionMoves.
  Context {D : Type} `{Double D} {R : Type} (E : Env D R).

#[local] Instance onlyPositions_preorder : PreOrder (@onlyPositions D).
  Proof.
    split.
    - intros p. repeat split.
    - intros p1 p2 p3 (Hd & Hn & Hp & Hc & Hw) (Hd' & Hn' & Hp' & Hc' & Hw').
      repeat split; congruence.
  Qed.

#[local] Instance positionsMoved_preorder : PreOrder (@positionsMoved D R).
  Proof.
    split.
    - intros s. unfold positionsMoved. reflexivity.
    - intros s1 s2 s3 H12 H23. unfold positionsMoved in *. etransitivity; eassumption.
  Qed.

Lemma onlyPositions_updateBead (p : Path D) b x : onlyPositions p (updateBead p b x).
  Proof.
    unfold onlyPositions, updateBead. cbn.
    split; [apply dom_alter_L|]. repeat split.
  Qed.

Ltac moved_side :=
    unfold positionsMoved; cbn;
    first [ apply onlyPositions_updateBead | reflexivity ].

Lemma positionsMoved_bisectLevels fuel l oldDeltaAction :
    respects positionsMoved (bisectLevels E fuel l oldDeltaAction).
  Proof.
    revert oldDeltaAction. induction l as [|l IH]; intros oldDeltaAction.
    - apply respects_ret, _.
    - rewrite bisectLevels_S. respects_with moved_side ltac:(apply IH).
  Qed.

Ltac moved_known :=
    idtac;
    lazymatch goal with
    | |- respects _ (bisectLevels _ _ _ _) => apply positionsMoved_bisectLevels
    end.

Lemma positionsMoved_CenterOfMass fuel :
    respects positionsMoved (CenterOfMassMove_attemptMove E fuel).
  Proof. respects_with moved_side moved_known. Qed.

Lemma positionsMoved_Staging fuel :
    respects positionsMoved (StagingMove_attemptMove E fuel).
  Proof. respects_with moved_side moved_known. Qed.

Lemma positionsMoved_Bisection fuel :
    respects positionsMoved (BisectionMove_attemptMove E fuel).
  Proof. respects_with moved_side moved_known. Qed.
End PositionMoves.

(* ===================================================================== *)
(** * Rejections of the moves that shorten a worldline                    *)
(* ===================================================================== *)

Section ShrinkRejections.
  Context {D : Type} `{Double D} {R : Type} (E : Env D R).

#[local] Instance pathKept_preorder : PreOrder (@pathKept D R).
  Proof.
    split.
    - intros s. split; reflexivity.
    - intros s1 s2 s3 (Hp & Hk) (Hp' & Hk'). split; congruence.
  Qed.

Lemma stable_pathIs (s0 : Sim D R) p : stable (pathIs s0 p) pathKept.
  Proof. intros s s' (Hp & Hk) (Hp' & Hk'). split; congruence. Qed.

Ltac kept_side := split; reflexivity.

Lemma mod_worm_pathIs (s0 : Sim D R) p f :
    hoare (pathIs s0 p) (mod_worm f) (fun _ => pathIs s0 (set_worm f p)).
  Proof.
    apply hoare_modify. intros s [Hp Hk]. split; cbn; [rewrite Hp; reflexivity | exact Hk].
  Qed.

  (** The statements of an [undoMove] that only assigns worm fields. *)
Ltac undo_walk :=
    lazymatch goal with
    | |- hoare _ (bind (mod_worm _) _) _ =>
        eapply hoare_bind; [ apply mod_worm_pathIs | intros ?; undo_walk ]
    | |- hoare _ (bind _ _) _ =>
        eapply hoare_bind;
        [ eapply hoare_stable; [ apply stable_pathIs | respects_with kept_side fail ]
        | intros ?; undo_walk ]
    | |- hoare _ _ _ =>
        eapply hoare_stable; [ apply stable_pathIs | respects_with kept_side fail ]
    end.

Lemma OpenMove_undoMove_pathIs (s0 : Sim D R) p :
    hoare (pathIs s0 p) OpenMove_undoMove
      (fun _ => pathIs s0 (set_worm (set_isConfigDiagonal true) (set_worm worm_reset p))).
  Proof. unfold OpenMove_undoMove. undo_walk. Qed.

Lemma AdvanceTailMove_undoMove_pathIs (s0 : Sim D R) p :
    hoare (pathIs s0 p) AdvanceTailMove_undoMove
      (fun _ => pathIs s0 (set_worm (set_special1 XXX) (set_worm (set_isConfigDiagonal false) p))).
  Proof. unfold AdvanceTailMove_undoMove. undo_walk. Qed.

Lemma RecedeHeadMove_undoMove_pathIs (s0 : Sim D R) p :
    hoare (pathIs s0 p) RecedeHeadMove_undoMove
      (fun _ => pathIs s0 (set_worm (set_special1 XXX) (set_worm (set_isConfigDiagonal false) p))).
  Proof. unfold RecedeHeadMove_undoMove. undo_walk. Qed.

Lemma sliceTest_pathIs (s0 : Sim D R) p p' deltaAction PNorm (undoMove : M D R unit) :
    hoare (pathIs s0 p) undoMove (fun _ => pathIs s0 p') ->
    hoare (pathIs s0 p) (sliceTest E deltaAction PNorm undoMove)
      (fun t s => match t with Some _ => pathIs s0 p s | None => pathIs s0 p' s end).
  Proof.
    intros Hu. unfold sliceTest.
    eapply hoare_bind.
    { eapply hoare_stable; [apply stable_pathIs | respects_with kept_side fail]. }
    intros u. destruct (dgeb _ _).
    - eapply hoare_bind; [exact Hu|]. intros ?. apply hoare_ret. auto.
    - apply hoare_ret. auto.
  Qed.

Lemma removeSlices_pathIs (s0 : Sim D R) p p' fuel step startB stopB actionShift_
      (undoMove : M D R unit) :
    hoare (pathIs s0 p) undoMove (fun _ => pathIs s0 p') ->
    hoare (pathIs s0 p) (removeSlices E fuel step startB stopB actionShift_ undoMove)
      (fun t s => match t with Some _ => pathIs s0 p s | None => pathIs s0 p' s end).
  Proof.
    intros Hu. unfold removeSlices.
    apply hoare_doWhile with (I := fun _ => pathIs s0 p).
    intros [[[beadIndex deltaAction] PNorm] factor].
    eapply hoare_bind.
    { eapply hoare_stable; [apply stable_pathIs | respects_with kept_side fail]. }
    intros a. eapply hoare_bind.
    { apply sliceTest_pathIs. exact Hu. }
    intros [PNorm'|].
    - eapply hoare_bind.
      { eapply hoare_stable; [apply stable_pathIs | respects_with kept_side fail]. }
      intros q. destruct (beq _ _); apply hoare_ret; auto.
    - apply hoare_ret. auto.
  Qed.

Lemma finalTest_pathIs (s0 : Sim D R) p p' thr (keepMove undoMove : M D R unit) :
    hoare (pathIs s0 p) undoMove (fun _ => pathIs s0 p') ->
    (forall s1, hoare (callsPre s1) keepMove (fun _ => keptOnce s1)) ->
    hoare (pathIs s0 p) (finalTest E thr keepMove undoMove)
      (fun _ s => pathIs s0 p' s \/ keepCalls s <> keepCalls s0).
  Proof.
    intros Hu Hk. unfold finalTest.
    eapply hoare_bind.
    { eapply hoare_stable; [apply stable_pathIs | respects_with kept_side fail]. }
    intros u. eapply hoare_bind with
      (Q1 := fun _ s => pathIs s0 p' s \/ keepCalls s <> keepCalls s0).
    - destruct (_ <? _)%D.
      + eapply hoare_bind with (Q1 := fun _ s => keepCalls s <> keepCalls s0).
        * intros s a s' [_ Hs] Hrun.
          destruct (Hk s s a s' (conj eq_refl eq_refl) Hrun) as (Hkept & _). lia.
        * intros ?. apply hoare_ret. auto.
      + eapply hoare_bind; [exact Hu|]. intros ?. apply hoare_ret. auto.
    - intros ?. apply hoare_gets. auto.
  Qed.

Lemma rejectedPath_open (p0 : Path D) h t :
    set_worm (set_isConfigDiagonal true)
      (set_worm worm_reset (set_worm (set_special2 t) (set_worm (set_special1 h) p0)))
    = set_worm undoneOpen p0.
  Proof. destruct p0 as [? ? ? ? []]. reflexivity. Qed.

Lemma rejectedPath_shrink (p0 : Path D) b :
    set_worm (set_special1 XXX)
      (set_worm (set_isConfigDiagonal false) (set_worm (set_special1 b) p0))
    = set_worm undoneShrink p0.
  Proof. destruct p0 as [? ? ? ? []]. reflexivity. Qed.

Ltac rej_done :=
    first [ left; reflexivity
          | right; apply rejectedPath_open
          | right; apply rejectedPath_shrink ].

Ltac rej_leaf := intros ? [Hp _] _; rewrite Hp; rej_done.

  (** The statements of an [attemptMove] whose [undoMove] only assigns
      worm fields. *)
Ltac rej_walk undo_lem keep_lem :=
    cbv beta iota;
    lazymatch goal with
    | |- hoare _ (bind (mod_worm _) _) _ =>
        eapply hoare_bind; [ apply mod_worm_pathIs | intros ?; rej_walk undo_lem keep_lem ]
    | |- hoare _ (bind (removeSlices _ _ _ _ _ _ _) _) _ =>
        eapply hoare_bind;
        [ eapply removeSlices_pathIs; undo_lem
        | intros [[? ?]|]; rej_walk undo_lem keep_lem ]
    | |- hoare _ (finalTest _ _ _ _) _ =>
        eapply hoare_conseq;
        [ eapply finalTest_pathIs; [ undo_lem | intros ?; keep_lem ]
        | intros ? Hpre; exact Hpre
        | intros ? ? [[Hp _]|Hk] Hsame; [ rewrite Hp; rej_done | destruct (Hk Hsame) ] ]
    | |- hoare _ (bind _ _) _ =>
        eapply hoare_bind;
        [ eapply hoare_stable; [ apply stable_pathIs | respects_with kept_side fail ]
        | intros ?; rej_walk undo_lem keep_lem ]
    | |- hoare _ (if ?c then _ else _) _ => destruct c; rej_walk undo_lem keep_lem
    | |- hoare _ (match ?x with _ => _ end) _ => destruct x; rej_walk undo_lem keep_lem
    | |- hoare _ (ret _) _ => apply hoare_ret; rej_leaf
    | |- hoare _ returnSuccess _ => apply hoare_gets; rej_leaf
    | |- hoare _ ?m _ =>
        tryif progress cbv beta zeta then rej_walk undo_lem keep_lem
        else (let h := head_of m in unfold h; rej_walk undo_lem keep_lem)
    end.

Lemma OpenMove_attemptMove_rejected fuel (s0 : Sim D R) :
    hoare (pathIs s0 (path s0)) (OpenMove_attemptMove E fuel)
      (fun _ s => keepCalls s = keepCalls s0 -> rejectedPath undoneOpen (path s0) (path s)).
  Proof.
    rej_walk ltac:(apply OpenMove_undoMove_pathIs) ltac:(apply OpenMove_keepMove_calls).
  Qed.

Lemma AdvanceTailMove_attemptMove_rejected fuel (s0 : Sim D R) :
    hoare (pathIs s0 (path s0)) (AdvanceTailMove_attemptMove E fuel)
      (fun _ s => keepCalls s = keepCalls s0 -> rejectedPath undoneShrink (path s0) (path s)).
  Proof.
    rej_walk ltac:(apply AdvanceTailMove_undoMove_pathIs)
             ltac:(apply AdvanceTailMove_keepMove_calls).
  Qed.

Lemma RecedeHeadMove_attemptMove_rejected fuel (s0 : Sim D R) :
    hoare (pathIs s0 (path s0)) (RecedeHeadMove_attemptMove E fuel)
      (fun _ s => keepCalls s = keepCalls s0 -> rejectedPath undoneShrink (path s0) (path s)).
  Proof.
    rej_walk ltac:(apply RecedeHeadMove_undoMove_pathIs)
             ltac:(apply RecedeHeadMove_keepMove_calls).
  Qed.

Lemma rejected_keepCalls (m : Move) fuel (s s' : Sim D R) :
    attemptMove E m fuel s = Some (false, s') -> keepCalls s' = keepCalls s.
  Proof.
    intros Hrun.
    destruct (attemptMove_calls E m fuel s s false s' (conj eq_refl eq_refl) Hrun)
      as [[Hr _]|[[_ (Hk & _)]|[_ (Hk & _)]]]; [discriminate Hr | exact Hk | exact Hk].
  Qed.

Lemma rejectedPath_sameWorldlines undo (p p' : Path D) :
    rejectedPath undo p p' -> sameWorldlines p p'.
  Proof. intros [->| ->]; repeat split. Qed.

Lemma rejectedPath_same undo (p p' : Path D) :
    rejectedPath undo p p' -> undo (worm p) = worm p -> p' = p.
  Proof.
    intros [->| ->] Hw; [reflexivity|].
    destruct p as [? ? ? ? w]. unfold set_worm. cbn in *. rewrite Hw. reflexivity.
  Qed.
End ShrinkRejections.

(** X9.  The centre-of-mass, staging and bisection moves only displace
    beads: whenever their [attemptMove] returns, accepted or rejected, the
    live beads are the ones it started from, and so are the links in both
    directions, the number of beads of every slice and the worm. *)
Theorem X9_position_moves_keep_the_worldlines
    {D : Type} `{Double D} {R : Type} (E : Env D R) (m : Move) (fuel : nat)
    (s s' : Sim D R) (r : bool) :
  m = CenterOfMass \/ m = Staging \/ m = Bisection ->
  attemptMove E m fuel s = Some (r, s') ->
  onlyPositions (path s) (path s').
Proof.
  intros [->|[->| ->]] Hrun; unfold attemptMove in Hrun.
  - exact (positionsMoved_CenterOfMass E fuel s r s' Hrun).
  - exact (positionsMoved_Staging E fuel s r s' Hrun).
  - exact (positionsMoved_Bisection E fuel s r s' Hrun).
Qed.

(** An accepted staging move: the links are those of the start. *)
Lemma X9_position_moves_witness :
  exists s',
    bench_run Staging true bench_path bench_tape_accept = Some (true, s') /\
    nextLink (path s') = nextLink bench_path /\ prevLink (path s') = prevLink bench_path.
Proof.
  assert (Hfacts : match bench_run Staging true bench_path bench_tape_accept with
                   | Some (r, _) => r = true
                   | None => False
                   end) by (vm_compute; reflexivity).
  revert Hfacts.
  destruct (bench_run Staging true bench_path bench_tape_accept) as [[r s']|] eqn:Hrun;
    intros Hfacts; [|destruct Hfacts].
  subst r. exists s'. split; [reflexivity|].
  destruct (X9_position_moves_keep_the_worldlines (bench_env true) Staging 20
              (bench_sim bench_path bench_tape_accept) s' true
              ltac:(right; left; reflexivity) Hrun)
    as (_ & Hn & Hp & _).
  split; [exact Hn | exact Hp].
Defined.

(** X10.  The open, advance-tail and recede-head moves delete beads in
    [keepMove] only.  Whenever one of them returns [false], the beads, the
    links and the per-slice counts are the ones it started from, and the
    path is either untouched (the exits before the attempt) or differs
    only by the worm fields its [undoMove] assigns: the worm reset and the
    configuration diagonal for the open move, [special1] cleared and the
    configuration off-diagonal for the other two.  So advance-tail and
    recede-head, started off-diagonal with [special1] clear, leave the path
    exactly as it was on every rejection. *)
Theorem X10_rejected_shrinking_moves_restore_the_path
    {D : Type} `{Double D} {R : Type} (E : Env D R) (m : Move) (fuel : nat)
    (s s' : Sim D R) :
  attemptMove E m fuel s = Some (false, s') ->
  (m = Open -> rejectedPath undoneOpen (path s) (path s')) /\
  (m = AdvanceTail \/ m = RecedeHead ->
   rejectedPath undoneShrink (path s) (path s') /\
   (isConfigDiagonal (worm (path s)) = false -> special1 (worm (path s)) = XXX ->
    path s' = path s)) /\
  (m = Open \/ m = AdvanceTail \/ m = RecedeHead -> sameWorldlines (path s) (path s')).
Proof.
  intros Hrun.
  pose proof (rejected_keepCalls E m fuel s s' Hrun) as Hk.
  assert (Hopen : m = Open -> rejectedPath undoneOpen (path s) (path s')).
  { intros ->. unfold attemptMove in Hrun.
    exact (OpenMove_attemptMove_rejected E fuel s s false s' (conj eq_refl eq_refl) Hrun Hk). }
  assert (Hshrink : m = AdvanceTail \/ m = RecedeHead ->
                    rejectedPath undoneShrink (path s) (path s')).
  { intros [->| ->]; unfold attemptMove in Hrun.
    - exact (AdvanceTailMove_attemptMove_rejected E fuel s s false s'
               (conj eq_refl eq_refl) Hrun Hk).
    - exact (RecedeHeadMove_attemptMove_rejected E fuel s s false s'
               (conj eq_refl eq_refl) Hrun Hk). }
  split; [exact Hopen|]. split.
  - intros Hm. split; [exact (Hshrink Hm)|].
    intros Hoff Hclear. apply (rejectedPath_same undoneShrink); [exact (Hshrink Hm)|].
    destruct (worm (path s)); cbn in *. subst. reflexivity.
  - intros [Hm|Hm].
    + eapply rejectedPath_sameWorldlines, Hopen, Hm.
    + eapply rejectedPath_sameWorldlines, Hshrink, Hm.
Qed.

(** An advance-tail move on a worm of four links that is rejected at the
    first slice: [undoMove] is called and the path is as before. *)
Lemma X10_rejected_shrinking_witness :
  exists s',
    bench_run AdvanceTail true bench_longWormPath bench_tape_reject = Some (false, s')
    /\ undoCalls s' = 1%nat /\ path s' = bench_longWormPath.
Proof.
  assert (Hfacts : match bench_run AdvanceTail true bench_longWormPath bench_tape_reject with
                   | Some (r, s') => r = false /\ undoCalls s' = 1%nat
                   | None => False
                   end) by (vm_compute; repeat split).
  revert Hfacts.
  destruct (bench_run AdvanceTail true bench_longWormPath bench_tape_reject)
    as [[r s']|] eqn:Hrun; intros Hfacts; [|destruct Hfacts].
  destruct Hfacts as [-> Hu]. exists s'. split; [reflexivity|]. split; [exact Hu|].
  destruct (X10_rejected_shrinking_moves_restore_the_path (bench_env true) AdvanceTail 20
              (bench_sim bench_longWormPath bench_tape_reject) s' Hrun) as (_ & Hshrink & _).
  destruct (Hshrink ltac:(left; reflexivity)) as [_ Hsame].
  apply Hsame; reflexivity.
Defined.

(* ===================================================================== *)
(** * A rejected staging move restores the path                           *)
(* ===================================================================== *)

Section StagingRestores.
  Context {D : Type} `{Double D} {R : Type} (E : Env D R).

  #[local] Existing Instance onlyPositions_preorder.

  (** ** Walks along the forward links *)

Lemma next_links (p p' : Path D) b : nextLink p' = nextLink p -> next p' b = next p b.
  Proof. intros Hl. unfold next. rewrite Hl. reflexivity. Qed.

Lemma prev_links (p p' : Path D) b : prevLink p' = prevLink p -> prev p' b = prev p b.
  Proof. intros Hl. unfold prev. rewrite Hl. reflexivity. Qed.

Lemma iter_links (p p' : Path D) : nextLink p' = nextLink p ->
    forall i b, Nat.iter i (next p') b = Nat.iter i (next p) b.
  Proof.
    intros Hl i b. induction i as [|i IH]; [reflexivity|].
    change (next p' (Nat.iter i (next p') b) = next p (Nat.iter i (next p) b)).
    rewrite IH. apply next_links, Hl.
  Qed.

Lemma iter_shift (p : Path D) i b :
    Nat.iter i (next p) (next p b) = Nat.iter (S i) (next p) b.
  Proof.
    induction i as [|i IH]; [reflexivity|].
    change (next p (Nat.iter i (next p) (next p b)) = next p (Nat.iter (S i) (next p) b)).
    rewrite IH. reflexivity.
  Qed.

Lemma trail_cons (p : Path D) b n : trail p b (S n) = next p b :: trail p (next p b) n.
  Proof.
    unfold trail. cbn [seq map Nat.iter]. f_equal.
    rewrite <- seq_shift, map_map. apply map_ext. intros i. symmetry. apply iter_shift.
  Qed.

Lemma trail_links (p p' : Path D) b n : nextLink p' = nextLink p -> trail p' b n = trail p b n.
  Proof. intros Hl. unfold trail. apply map_ext. intros i. apply iter_links, Hl. Qed.

Lemma elem_of_trail (p : Path D) b n c :
    c ∈ trail p b n <-> exists i, (i < n)%nat /\ Nat.iter (S i) (next p) b = c.
  Proof.
    unfold trail. rewrite list_elem_of_fmap. split.
    - intros (i & -> & Hi). apply elem_of_seq in Hi.
      exists (Nat.pred i). split; [lia|]. replace (S (Nat.pred i)) with i by lia. reflexivity.
    - intros (i & Hi & <-). exists (S i). split; [reflexivity|]. apply elem_of_seq. lia.
  Qed.

Lemma firstReturn_links (p p' : Path D) b t n :
    nextLink p' = nextLink p -> firstReturn p b t n -> firstReturn p' b t n.
  Proof.
    intros Hl (Hpos & Hiter & Hfirst). split; [exact Hpos|]. split.
    - rewrite (iter_links p p' Hl). exact Hiter.
    - intros k Hk. rewrite (iter_links p p' Hl). apply Hfirst, Hk.
  Qed.

Lemma firstReturn_one (p : Path D) b t : next p b = t -> firstReturn p b t 1.
  Proof. intros Hb. split; [lia|]. split; [exact Hb|]. intros k Hk. lia. Qed.

Lemma firstReturn_later (p : Path D) b t n :
    next p b <> t -> firstReturn p (next p b) t n -> firstReturn p b t (S n).
  Proof.
    intros Hb (Hpos & Hiter & Hfirst). split; [lia|]. split.
    - rewrite <- iter_shift. exact Hiter.
    - intros k Hk. destruct k as [|k]; [lia|]. rewrite <- iter_shift.
      destruct k as [|k]; [exact Hb|]. apply Hfirst. lia.
  Qed.

Lemma firstReturn_unique (p : Path D) b t n n' :
    firstReturn p b t n -> firstReturn p b t n' -> n = n'.
  Proof.
    intros (Hpos & Hiter & Hfirst) (Hpos' & Hiter' & Hfirst').
    destruct (Nat.lt_trichotomy n n') as [Hlt|[Heq|Hlt]]; [|exact Heq|].
    - exfalso. apply (Hfirst' n); [lia | exact Hiter].
    - exfalso. apply (Hfirst n'); [lia | exact Hiter'].
  Qed.

  (** A walk that returns to its start never reaches a bead outside the
      cycle: the beads before the first arrival at [t] are not the start. *)
Lemma iter_period (f : beadLocator -> beadLocator) b j :
    Nat.iter j f b = b -> forall q a, Nat.iter (a + q * j) f b = Nat.iter a f b.
  Proof.
    intros Hj q. induction q as [|q IH]; intros a.
    - f_equal. lia.
    - replace (a + S q * j)%nat with ((a + q * j) + j)%nat by lia.
      rewrite Nat.iter_add, Hj. apply IH.
  Qed.

Lemma firstReturn_no_cycle (p : Path D) b t n :
    b <> t -> firstReturn p b t n -> b ∉ trail p b n.
  Proof.
    intros Hb (Hpos & Hiter & Hfirst) Hin.
    apply elem_of_trail in Hin as (i & Hi & Hcycle).
    pose proof (iter_period (next p) b (S i) Hcycle (n / S i) (n mod S i)) as Hper.
    replace (n mod S i + n / S i * S i)%nat with n in Hper
      by (rewrite (Nat.div_mod_eq n (S i)) at 1; lia).
    pose proof (Nat.mod_upper_bound n (S i) ltac:(lia)) as Hlt.
    destruct (n mod S i)%nat as [|r] eqn:Hr.
    - apply Hb. rewrite <- Hiter, Hper. reflexivity.
    - apply (Hfirst (S r)); [lia|]. rewrite <- Hper. exact Hiter.
  Qed.

  (** ** The two loops *)

Ltac run_bind H a s H1 := apply bind_Some in H as (a & s & H1 & H).
Ltac run_pure H a s :=
    let H1 := fresh "Hpure" in
    apply bind_Some in H as (a & s & H1 & H); inversion H1; subst a s; clear H1.

Lemma newStagingPosition_frame a b L k (s s' : Sim D R) x :
    newStagingPosition E a b L k s = Some (x, s') -> path s' = path s /\ mv s' = mv s.
  Proof.
    assert (Hpre : PreOrder (fun s s' : Sim D R => path s' = path s /\ mv s' = mv s)).
    { split.
      - intros s1. split; reflexivity.
      - intros s1 s2 s3 [Hp Hm] [Hp' Hm']. split; congruence. }
    revert s x s'.
    change (respects (fun s s' : Sim D R => path s' = path s /\ mv s' = mv s)
              (newStagingPosition E a b L k)).
    unfold newStagingPosition.
    apply respects_bind; [apply _ | apply respects_gets, _ |]. intros p.
    apply respects_bind; [apply _ | | intros ?; apply respects_ret, _].
    apply respects_randNormVec; [exact Hpre|]. intros s r. split; reflexivity.
  Qed.

  (** The loop of [attemptMove] over the beads of the stage: it ends at
      the first arrival at [prev(endBead)], has saved the position that
      each bead visited had at the start, and has changed those beads
      only. *)
Lemma staging_forward (endB : beadLocator) (fuel : nat) :
    let body : beadLocator * Z -> M D R (beadLocator * Z + unit) :=
      fun '(beadIndex, k) =>
        let* p := get_path in
        let beadIndex := next p beadIndex in
        mod_mv (fun m => set_originalPos (fupd (originalPos m) k (pathPos p beadIndex)) m) ;;
        let* x := newStagingPosition E (prev p beadIndex) endB (Mbar E) k in
        mod_path (fun p => updateBead p beadIndex x) ;;
        let k := k + 1 in
        let* p := get_path in
        if beq beadIndex (prev p endB) then ret (inr tt)
        else ret (inl (beadIndex, k)) in
    forall (b : beadLocator) (k : Z) (s s1 : Sim D R) (u : unit),
      doWhile fuel body (b, k) s = Some (u, s1) ->
      exists n,
        firstReturn (path s) b (prev (path s) endB) n /\
        onlyPositions (path s) (path s1) /\
        (forall c, c ∉ trail (path s) b n -> beads (path s1) !! c = beads (path s) !! c) /\
        (forall i, (i < n)%nat ->
           originalPos (mv s1) (k + Z.of_nat i)
           = pathPos (path s) (Nat.iter (S i) (next (path s)) b)) /\
        (forall j, j < k -> originalPos (mv s1) j = originalPos (mv s) j) /\
        startBead (mv s1) = startBead (mv s) /\ endBead (mv s1) = endBead (mv s).
  Proof.
    intros body. induction fuel as [|fuel IH]; intros b k s s1 u Hrun; [discriminate Hrun|].
    cbn [doWhile] in Hrun. run_bind Hrun r s2 Hstep.
    unfold body at 1 in Hstep.
    run_pure Hstep p0 st1. run_pure Hstep u1 st2.
    run_bind Hstep x s0 Hnew.
    apply newStagingPosition_frame in Hnew as [Hp0 Hm0]. cbn in Hp0, Hm0.
    run_pure Hstep u2 st3. run_pure Hstep p2 st4.
    cbn [path set_path] in Hstep. rewrite Hp0 in Hstep.
    set (b1 := next (path s) b) in *.
    set (s3 := set_path (updateBead (path s) b1 x) s0) in *.
    assert (Hpath3 : path s3 = updateBead (path s) b1 x) by reflexivity.
    assert (Hmv3 : mv s3 = set_originalPos (fupd (originalPos (mv s)) k (pathPos (path s) b1)) (mv s)).
    { unfold s3. cbn. exact Hm0. }
    assert (Hnl : nextLink (path s3) = nextLink (path s)) by (rewrite Hpath3; reflexivity).
    assert (Hpl : prevLink (path s3) = prevLink (path s)) by (rewrite Hpath3; reflexivity).
    assert (Honly : onlyPositions (path s) (path s3)).
    { rewrite Hpath3. apply onlyPositions_updateBead. }
    assert (Hprev : prev (updateBead (path s) b1 x) endB = prev (path s) endB) by reflexivity.
    rewrite Hprev in Hstep.
    destruct (beq b1 (prev (path s) endB)) eqn:Hb.
    - (* the loop ends here *)
      inversion Hstep; subst r s2; clear Hstep.
      inversion Hrun; subst u s1; clear Hrun.
      apply bool_decide_eq_true_1 in Hb.
      exists 1%nat. split; [apply firstReturn_one; exact Hb|].
      split; [exact Honly|]. split; [|split; [|split; [|split]]].
      + intros c Hc. rewrite Hpath3. unfold updateBead. cbn.
        apply lookup_alter_ne. intros Hbc. apply Hc. rewrite trail_cons, <- Hbc. apply list_elem_of_here.
      + intros i Hi. replace i with 0%nat by lia. rewrite Z.add_0_r, Hmv3. cbn.
        unfold fupd. rewrite Z.eqb_refl. reflexivity.
      + intros j Hj. rewrite Hmv3. cbn. unfold fupd.
        destruct (j =? k) eqn:Hjk; [apply Z.eqb_eq in Hjk; lia | reflexivity].
      + rewrite Hmv3. reflexivity.
      + rewrite Hmv3. reflexivity.
    - (* another round *)
      inversion Hstep; subst r s2; clear Hstep.
      apply bool_decide_eq_false_1 in Hb.
      destruct (IH b1 (k + 1) s3 s1 u Hrun)
        as (n & Hfirst & Honly' & Hframe & Horig & Hold & Hsb & Heb).
      rewrite (prev_links _ _ endB Hpl) in Hfirst.
      apply (firstReturn_links (path s3) (path s)) in Hfirst; [|symmetry; exact Hnl].
      rewrite (trail_links _ _ b1 n Hnl) in Hframe.
      exists (S n). split; [apply firstReturn_later; [exact Hb | exact Hfirst]|].
      split; [etransitivity; [exact Honly | exact Honly']|].
      split; [|split; [|split; [|split]]].
      + intros c Hc. rewrite trail_cons in Hc.
        rewrite Hframe by (intros Hin; apply Hc; apply list_elem_of_further; exact Hin).
        rewrite Hpath3. unfold updateBead. cbn.
        apply lookup_alter_ne. intros Hbc. apply Hc. rewrite <- Hbc. apply list_elem_of_here.
      + intros i Hi. destruct i as [|i].
        * rewrite Z.add_0_r, Hold by lia. rewrite Hmv3. cbn.
          unfold fupd. rewrite Z.eqb_refl. reflexivity.
        * replace (k + Z.of_nat (S i)) with (k + 1 + Z.of_nat i) by lia.
          rewrite Horig by lia. rewrite (iter_links _ _ Hnl).
          rewrite <- (iter_shift (path s) (S i) b). fold b1.
          rewrite Hpath3. unfold pathPos, updateBead. cbn.
          rewrite lookup_alter_ne; [reflexivity|].
          intros Heq.
          apply (firstReturn_no_cycle (path s) b1 (prev (path s) endB) n Hb Hfirst).
          apply elem_of_trail. exists i. split; [lia|]. symmetry. exact Heq.
      + intros j Hj. rewrite Hold by lia. rewrite Hmv3. cbn. unfold fupd.
        destruct (j =? k) eqn:Hjk; [apply Z.eqb_eq in Hjk; lia | reflexivity].
      + rewrite Hsb, Hmv3. reflexivity.
      + rewrite Heb, Hmv3. reflexivity.
  Qed.

  (** The loop of [undoMove]: it walks the same beads and writes the saved
      position to each. *)
Lemma staging_backward (m : MoveObj D) (fuel : nat) :
    let body : beadLocator * Z -> M D R (beadLocator * Z + unit) :=
      fun '(beadIndex, k) =>
        let* p := get_path in
        let beadIndex := next p beadIndex in
        mod_path (fun p => updateBead p beadIndex (originalPos m k)) ;;
        let k := k + 1 in
        let* p := get_path in
        if beq beadIndex (prev p (endBead m)) then ret (inr tt)
        else ret (inl (beadIndex, k)) in
    forall (b : beadLocator) (k : Z) (t t' : Sim D R) (u : unit),
      doWhile fuel body (b, k) t = Some (u, t') ->
      exists n,
        firstReturn (path t) b (prev (path t) (endBead m)) n /\
        onlyPositions (path t) (path t') /\
        (forall c, c ∉ trail (path t) b n -> beads (path t') !! c = beads (path t) !! c) /\
        (forall c v, c ∈ trail (path t) b n ->
           (forall i, (i < n)%nat -> Nat.iter (S i) (next (path t)) b = c ->
                      originalPos m (k + Z.of_nat i) = v) ->
           beads (path t') !! c = (fun _ => v) <$> beads (path t) !! c).
  Proof.
    intros body. induction fuel as [|fuel IH]; intros b k t t' u Hrun; [discriminate Hrun|].
    cbn [doWhile] in Hrun. run_bind Hrun r t2 Hstep.
    unfold body at 1 in Hstep.
    run_pure Hstep p0 st1. run_pure Hstep u1 st2. run_pure Hstep p2 st3.
    cbn [path set_path] in Hstep.
    set (b1 := next (path t) b) in *.
    set (x := originalPos m k) in *.
    set (t3 := set_path (updateBead (path t) b1 x) t) in *.
    assert (Hpath3 : path t3 = updateBead (path t) b1 x) by reflexivity.
    assert (Hnl : nextLink (path t3) = nextLink (path t)) by reflexivity.
    assert (Hpl : prevLink (path t3) = prevLink (path t)) by reflexivity.
    assert (Honly : onlyPositions (path t) (path t3)).
    { rewrite Hpath3. apply onlyPositions_updateBead. }
    assert (Hprev : prev (updateBead (path t) b1 x) (endBead m) = prev (path t) (endBead m))
      by reflexivity.
    rewrite Hprev in Hstep.
    assert (Hat : forall c, beads (path t3) !! c
                  = if decide (c = b1) then (fun _ => x) <$> beads (path t) !! c
                    else beads (path t) !! c).
    { intros c. rewrite Hpath3. unfold updateBead. cbn. destruct (decide (c = b1)) as [->|Hne].
      - apply lookup_alter_eq.
      - apply lookup_alter_ne. congruence. }
    destruct (beq b1 (prev (path t) (endBead m))) eqn:Hb.
    - inversion Hstep; subst r t2; clear Hstep.
      inversion Hrun; subst u t'; clear Hrun.
      apply bool_decide_eq_true_1 in Hb.
      exists 1%nat. split; [apply firstReturn_one; exact Hb|].
      split; [exact Honly|]. split.
      + intros c Hc. rewrite Hat. destruct (decide (c = b1)) as [->|Hne]; [|reflexivity].
        exfalso. apply Hc. rewrite trail_cons. apply list_elem_of_here.
      + intros c v Hc Hv. rewrite trail_cons in Hc. apply elem_of_cons in Hc as [->|Hc].
        * rewrite Hat. fold b1. rewrite decide_True by reflexivity.
          rewrite <- (Hv 0%nat ltac:(lia) eq_refl), Z.add_0_r. reflexivity.
        * apply elem_of_nil in Hc. destruct Hc.
    - inversion Hstep; subst r t2; clear Hstep.
      apply bool_decide_eq_false_1 in Hb.
      destruct (IH b1 (k + 1) t3 t' u Hrun) as (n & Hfirst & Honly' & Hframe & Hback).
      rewrite (prev_links _ _ (endBead m) Hpl) in Hfirst.
      apply (firstReturn_links (path t3) (path t)) in Hfirst; [|symmetry; exact Hnl].
      rewrite (trail_links _ _ b1 n Hnl) in Hframe, Hback.
      exists (S n). split; [apply firstReturn_later; [exact Hb | exact Hfirst]|].
      split; [etransitivity; [exact Honly | exact Honly']|]. split.
      + intros c Hc. rewrite trail_cons in Hc.
        rewrite Hframe by (intros Hin; apply Hc; apply list_elem_of_further; exact Hin).
        rewrite Hat. destruct (decide (c = b1)) as [->|Hne]; [|reflexivity].
        exfalso. apply Hc. apply list_elem_of_here.
      + intros c v Hc Hv. rewrite trail_cons in Hc.
        destruct (decide (c ∈ trail (path t) b1 n)) as [Hin|Hout].
        * rewrite (Hback c v Hin).
          -- rewrite Hat. destruct (decide (c = b1)); [|reflexivity].
             destruct (beads (path t) !! c); reflexivity.
          -- intros i Hi Hc'. rewrite (iter_links _ _ Hnl) in Hc'.
             replace (k + 1 + Z.of_nat i) with (k + Z.of_nat (S i)) by lia.
             apply Hv; [lia|]. rewrite <- iter_shift. exact Hc'.
        * apply elem_of_cons in Hc as [->|Hc]; [|contradiction].
          rewrite (Hframe _ Hout), Hat. fold b1. rewrite decide_True by reflexivity.
          rewrite <- (Hv 0%nat ltac:(lia) eq_refl), Z.add_0_r. reflexivity.
  Qed.

Lemma onlyPositions_lookup (p p' : Path D) c :
    onlyPositions p p' -> beads p' !! c = None <-> beads p !! c = None.
  Proof.
    intros (Hd & _). rewrite <- !not_elem_of_dom. rewrite Hd. reflexivity.
  Qed.

Lemma path_eq (p p' : Path D) :
    onlyPositions p p' -> beads p' = beads p -> p' = p.
  Proof.
    intros (_ & Hn & Hp & Hc & Hw) Hb. destruct p, p'. cbn in *. congruence.
  Qed.

  (** The two loops one after the other: every bead is back where it
      was. *)
Lemma staging_round_trip (p0 p1 p2 : Path D) (m : MoveObj D) b t n n' :
    onlyPositions p0 p1 -> onlyPositions p1 p2 ->
    firstReturn p0 b t n -> firstReturn p1 b t n' ->
    (forall c, c ∉ trail p0 b n -> beads p1 !! c = beads p0 !! c) ->
    (forall i, (i < n)%nat ->
       originalPos m (0 + Z.of_nat i) = pathPos p0 (Nat.iter (S i) (next p0) b)) ->
    (forall c, c ∉ trail p1 b n' -> beads p2 !! c = beads p1 !! c) ->
    (forall c v, c ∈ trail p1 b n' ->
       (forall i, (i < n')%nat -> Nat.iter (S i) (next p1) b = c ->
                  originalPos m (0 + Z.of_nat i) = v) ->
       beads p2 !! c = (fun _ => v) <$> beads p1 !! c) ->
    p2 = p0.
  Proof.
    intros H01 H12 Hfirst Hfirst' Hframe Horig Hframe' Hback.
    assert (Hnl : nextLink p1 = nextLink p0) by apply H01.
    apply (firstReturn_links p1 p0) in Hfirst'; [|symmetry; exact Hnl].
    pose proof (firstReturn_unique _ _ _ _ _ Hfirst Hfirst') as <-.
    rewrite (trail_links _ _ b n Hnl) in Hframe', Hback.
    apply path_eq; [etransitivity; eassumption|].
    apply map_eq. intros c.
    destruct (decide (c ∈ trail p0 b n)) as [Hin|Hout].
    - rewrite (Hback c (pathPos p0 c) Hin).
      + pose proof (onlyPositions_lookup p0 p1 c H01) as Hlive. unfold pathPos.
        destruct (beads p0 !! c) as [x|] eqn:H0; destruct (beads p1 !! c) as [y|] eqn:H1;
          cbn; try reflexivity.
        * destruct Hlive as [Hl _]. specialize (Hl eq_refl). discriminate Hl.
        * destruct Hlive as [_ Hl]. specialize (Hl eq_refl). discriminate Hl.
      + intros i Hi Hc. rewrite (iter_links _ _ Hnl) in Hc. rewrite Horig by exact Hi.
        rewrite Hc. reflexivity.
    - rewrite (Hframe' c Hout). apply Hframe, Hout.
  Qed.

Lemma MoveBase_keepMove_success (s s' : Sim D R) u :
    MoveBase_keepMove s = Some (u, s') -> success (mv s') = true.
  Proof. intros Hrun. inversion Hrun; subst. reflexivity. Qed.

  (** Whenever the staging move returns [false], the path is the one it
      started from. *)
Lemma StagingMove_attemptMove_restores fuel (s s' : Sim D R) :
    StagingMove_attemptMove E fuel s = Some (false, s') -> path s' = path s.
  Proof.
    intros Hrun. unfold StagingMove_attemptMove in Hrun.
    run_pure Hrun u0 st0. run_pure Hrun u1 st1. run_pure Hrun p st2.
    cbn [path set_mv] in Hrun.
    destruct (bool_decide (getTrueNumParticles E (path s) = 0));
      [inversion Hrun; subst; reflexivity|].
    run_bind Hrun r0 sta Hr0. unfold do_randInt in Hr0.
    destruct (randInt E _ _) as [r0' ra] in Hr0. inversion Hr0; subst r0' sta; clear Hr0.
    run_pure Hrun u2 st3.
    destruct (bool_decide (numBeads (path s) r0 = 0));
      [inversion Hrun; subst; reflexivity|].
    run_bind Hrun r1 stb Hr1. unfold do_randInt in Hr1.
    destruct (randInt E _ _) as [r1' rb] in Hr1. inversion Hr1; subst r1' stb; clear Hr1.
    run_pure Hrun u3 st4.
    destruct (activeTrajectory _ _ _) as [endB|]; [|inversion Hrun; subst; reflexivity].
    run_pure Hrun u4 st5. run_pure Hrun u5 st6. run_pure Hrun u6 st7. run_pure Hrun oldA st8.
    run_bind Hrun u7 s1 Hfwd. run_pure Hrun p1 st9. run_pure Hrun newA st10.
    apply staging_forward in Hfwd
      as (n & Hfirst & Honly & Hframe & Horig & _ & Hsb & Heb).
    cbn in Hfirst, Honly, Hframe, Horig, Hsb, Heb.
    unfold finalTest in Hrun.
    run_bind Hrun u stc Hu. unfold do_rand in Hu.
    destruct (rand E _) as [u' rc] in Hu. inversion Hu; subst u' stc; clear Hu.
    run_bind Hrun u8 s2 Hbranch.
    inversion Hrun; subst s'. clear Hrun. rename H1 into Hfalse.
    destruct (_ <? _)%D.
    - (* accepted: the result would be [true] *)
      run_bind Hbranch u9 s3 Hkeep. inversion Hbranch; subst s3.
      apply MoveBase_keepMove_success in Hkeep. congruence.
    - (* rejected *)
      run_bind Hbranch u9 s3 Hundo. inversion Hbranch; subst s3. clear Hbranch.
      unfold StagingMove_undoMove in Hundo.
      run_pure Hundo u10 st11. run_pure Hundo m st12.
      run_bind Hundo u11 s4 Hbwd. inversion Hundo; subst s2. clear Hundo.
      cbn [path set_mv].
      apply staging_backward in Hbwd as (n' & Hfirst' & Honly' & Hframe' & Hback).
      cbn in Hfirst', Honly', Hframe', Hback.
      rewrite Hsb, Heb in *. cbn in Hfirst', Hframe', Hback.
      rewrite (prev_links (path s) (path s1) endB ltac:(apply Honly)) in Hfirst'.
      eapply staging_round_trip; eassumption.
  Qed.
End StagingRestores.

(** X11.  Whenever the staging move returns [false], the path is exactly
    the one it started from: on the exits that precede the update nothing
    has been written, and after a failed Metropolis test [undoMove] walks
    the beads that [attemptMove] moved and writes back to each the position
    saved in [originalPos].  The walk visits no bead twice, since it ends at
    its first arrival at [prev(endBead)]. *)
Theorem X11_rejected_staging_restores_the_path
    {D : Type} `{Double D} {R : Type} (E : Env D R) (fuel : nat) (s s' : Sim D R) :
  attemptMove E Staging fuel s = Some (false, s') -> path s' = path s.
Proof. apply StagingMove_attemptMove_restores. Qed.

(** A staging move that is rejected by the Metropolis test, in floating
    point: [undoMove] is called and the path is bit for bit the one of the
    start. *)
Lemma X11_rejected_staging_witness :
  exists s',
    bench_run Staging true bench_path bench_tape_reject = Some (false, s')
    /\ undoCalls s' = 1%nat /\ path s' = bench_path.
Proof.
  assert (Hfacts : match bench_run Staging true bench_path bench_tape_reject with
                   | Some (r, s') => r = false /\ undoCalls s' = 1%nat
                   | None => False
                   end) by (vm_compute; repeat split).
  revert Hfacts.
  destruct (bench_run Staging true bench_path bench_tape_reject)
    as [[r s']|] eqn:Hrun; intros Hfacts; [|destruct Hfacts].
  destruct Hfacts as [-> Hu]. exists s'. split; [reflexivity|]. split; [exact Hu|].
  exact (X11_rejected_staging_restores_the_path (bench_env true) 20
           (bench_sim bench_path bench_tape_reject) s' Hrun).
Defined.

(* ===================================================================== *)
(** * The pivot of a swap move                                            *)
(* ===================================================================== *)

Section PivotSelection.
  Context {Rng : Type} (E : Env R Rng).
  #[local] Open Scope R_scope.

Lemma runningSums_prefix (acc : R) (l : list R) :
    runningSums acc l = map (fun i => acc + sumR (take (S i) l)) (seq 0 (length l)).
  Proof.
    revert acc. induction l as [|x l IH]; intros acc; [reflexivity|].
    cbn [runningSums length seq map]. f_equal.
    - change ((acc + x)%R = (acc + (x + 0))%R). lra.
    - rewrite IH, <- seq_shift, map_map. apply map_ext. intros i.
      change ((acc + x + sumR (take (S i) l))%R = (acc + (x + sumR (take (S i) l)))%R). lra.
  Qed.

Lemma sums_prefix (r0 : R) (rs : list R) :
    r0 :: runningSums r0 rs
    = map (fun i => sumR (take (S i) (r0 :: rs))) (seq 0 (length (r0 :: rs))).
  Proof.
    cbn [length seq map]. f_equal.
    - change (r0 = (r0 + 0)%R). lra.
    - rewrite runningSums_prefix, <- seq_shift, map_map. apply map_ext. intros i.
      reflexivity.
  Qed.

Lemma last_prefix (ws : list R) (d : R) :
    ws <> [] -> List.last (map (fun i => sumR (take (S i) ws)) (seq 0 (length ws))) d = sumR ws.
  Proof.
    intros Hne. destruct (length ws) as [|n] eqn:Hlen.
    - destruct ws; [contradiction | discriminate].
    - rewrite seq_S, map_app. cbn [map]. rewrite last_last. cbn [Nat.add].
      rewrite <- Hlen, firstn_all. reflexivity.
  Qed.

  (** [getNorm] returns the sum of the weights and stores their cumulative
      distribution. *)
Lemma getNorm_cdf (b : beadLocator) (swapLength : Z) (s : Sim R Rng) :
    let ws := map (fun c => rho0 E (path s) b c swapLength) (fullBeadList s) in
    fullBeadList s <> [] ->
    getNorm E b swapLength s
    = Some (sumR ws, set_mv (set_cumulant (map (cdf ws) (seq 0 (length ws))) (mv s)) s).
  Proof.
    intros ws Hne. unfold getNorm. unfold bind at 1. unfold get at 1.
    fold ws.
    assert (Hws : ws <> []).
    { unfold ws. destruct (fullBeadList s); [contradiction | discriminate]. }
    destruct ws as [|r0 rs] eqn:Hw; [contradiction|].
    rewrite sums_prefix, (last_prefix (r0 :: rs) r0 Hws), map_map.
    reflexivity.
  Qed.

  (** The scan of [lower_bound]: the entries before the index found are
      below [u], the one at the index is not. *)
Lemma lower_bound_spec (cs : list R) (u : R) :
    let i := Z.to_nat (lower_bound cs u) in
    (0 <= lower_bound cs u <= Z.of_nat (length cs))%Z /\
    (forall j c, (j < i)%nat -> cs !! j = Some c -> c < u) /\
    (forall c, cs !! i = Some c -> u <= c).
  Proof.
    induction cs as [|c0 cs IH]; cbn [lower_bound length].
    - split; [lia|]. split; [intros j c Hj; lia | intros c Hc; discriminate Hc].
    - destruct IH as (Hrange & Hbelow & Hat).
      change (c0 <? u)%D with (Rltb c0 u).
      destruct (Rltb c0 u) eqn:Hlt.
      + apply Rltb_true in Hlt.
        replace (Z.to_nat (1 + lower_bound cs u)) with (S (Z.to_nat (lower_bound cs u))) by lia.
        split; [lia|]. split.
        * intros j c Hj Hc. destruct j as [|j].
          -- inversion Hc; subst. exact Hlt.
          -- apply (Hbelow j c); [lia | exact Hc].
        * intros c Hc. apply Hat. exact Hc.
      + apply Rltb_false in Hlt. split; [lia|]. split.
        * intros j c Hj. cbn in Hj. lia.
        * intros c Hc. inversion Hc; subst. lra.
  Qed.

Lemma sumR_nonneg (l : list R) : (forall w, w ∈ l -> 0 <= w) -> 0 <= sumR l.
  Proof.
    induction l as [|x l IH]; intros Hl; cbn; [lra|].
    pose proof (Hl x (list_elem_of_here _ _)).
    pose proof (IH (fun w Hw => Hl w (list_elem_of_further _ _ _ Hw))).
    fold (sumR l). lra.
  Qed.

Lemma cdf_last (ws : list R) : 0 < sumR ws -> cdf ws (Nat.pred (length ws)) = 1.
  Proof.
    intros Hpos. unfold cdf. rewrite firstn_all2 by lia. field. lra.
  Qed.

Lemma cdf_step (ws : list R) (i : nat) :
    (forall w, w ∈ ws -> 0 <= w) -> 0 < sumR ws -> cdf ws i <= cdf ws (S i).
  Proof.
    intros Hnn Hpos. unfold cdf.
    assert (Hle : sumR (take (S i) ws) <= sumR (take (S (S i)) ws)).
    { destruct (ws !! S i) as [w|] eqn:Hw.
      - rewrite (take_S_r ws (S i) w Hw), sumR_app. cbn.
        pose proof (Hnn w (list_elem_of_lookup_2 _ _ _ Hw)). lra.
      - apply lookup_ge_None in Hw. rewrite !firstn_all2 by lia. lra. }
    apply Rmult_le_compat_r; [|exact Hle].
    apply Rlt_le, Rinv_0_lt_compat, Hpos.
  Qed.

Lemma lookup_cdf (ws : list R) (i : nat) :
    (i < length ws)%nat -> map (cdf ws) (seq 0 (length ws)) !! i = Some (cdf ws i).
  Proof.
    intros Hi. rewrite list_lookup_fmap, lookup_seq_lt by exact Hi. reflexivity.
  Qed.

  (** With the cumulative distribution stored, [selectPivotBead] returns
      the first bead of the list whose cumulative weight reaches [u]. *)
Lemma selectPivotBead_cdf (ws : list R) (s1 : Sim R Rng) (u : R) (r : Rng) :
    cumulant (mv s1) = map (cdf ws) (seq 0 (length ws)) ->
    length (fullBeadList s1) = length ws ->
    0 < sumR ws -> rand E (random s1) = (u, r) -> u <= 1 ->
    exists i pivot,
      selectPivotBead E s1 = Some (pivot, set_random r s1) /\
      fullBeadList s1 !! i = Some pivot /\
      u <= cdf ws i /\ (forall j, (j < i)%nat -> cdf ws j < u).
  Proof.
    intros Hc Hlen Hpos Hrand Hu.
    unfold selectPivotBead. unfold bind at 1. unfold do_rand. rewrite Hrand.
    unfold bind at 1. unfold get at 1. unfold ret.
    cbn [mv set_random fullBeadList]. rewrite Hc.
    set (cs := map (cdf ws) (seq 0 (length ws))).
    destruct (lower_bound_spec cs u) as (Hrange & Hbelow & Hat).
    set (i := Z.to_nat (lower_bound cs u)) in *.
    assert (Hcs : length cs = length ws).
    { unfold cs. rewrite length_map, length_seq. reflexivity. }
    assert (Hi : (i < length ws)%nat).
    { destruct (Nat.lt_ge_cases i (length ws)) as [Hlt|Hge]; [exact Hlt|]. exfalso.
      assert (Hpos' : (0 < length ws)%nat).
      { destruct ws; [cbn in Hpos; lra | cbn; lia]. }
      assert (Hin : (Nat.pred (length ws) < length ws)%nat) by lia.
      assert (Hbefore : (Nat.pred (length ws) < i)%nat) by lia.
      pose proof (Hbelow _ _ Hbefore (lookup_cdf ws _ Hin)) as Hlast.
      rewrite (cdf_last ws Hpos) in Hlast. lra. }
    destruct (lookup_lt_is_Some_2 (fullBeadList s1) i ltac:(lia)) as [pivot Hp].
    exists i, pivot. rewrite Hp. cbn [default].
    split; [reflexivity|]. split; [reflexivity|]. split.
    - apply Hat. apply lookup_cdf. exact Hi.
    - intros j Hj. apply (Hbelow j); [exact Hj|]. apply lookup_cdf. lia.
  Qed.
End PivotSelection.

(** X12.  In real arithmetic, for a non-empty bead list whose weights
    [rho0] are non-negative with a positive sum: [getNorm] returns the sum
    [Sigma] of the weights and stores in [cumulant] their cumulative
    distribution, which is non-decreasing and ends at 1; and
    [selectPivotBead], for a uniform deviate [u <= 1], returns the bead of
    the list at the first index [i] whose cumulative weight reaches [u].
    The index is inside the list, and bead [i] is chosen exactly for the
    [u] between the cumulative weights of [i-1] and [i], an interval of
    length [rho0_i/Sigma]. *)
Theorem X12_pivot_drawn_from_the_cumulative_distribution
    {Rng : Type} (E : Env R Rng) (b : beadLocator) (swapLength : Z) (s : Sim R Rng) :
  let ws := map (fun c => rho0 E (path s) b c swapLength) (fullBeadList s) in
  let s1 := set_mv (set_cumulant (map (cdf ws) (seq 0 (length ws))) (mv s)) s in
  fullBeadList s <> [] -> (forall w, w ∈ ws -> 0 <= w)%R -> (0 < sumR ws)%R ->
  getNorm E b swapLength s = Some (sumR ws, s1) /\
  cdf ws (Nat.pred (length ws)) = 1%R /\
  (forall i, cdf ws i <= cdf ws (S i))%R /\
  (forall u r, rand E (random s) = (u, r) -> (u <= 1)%R ->
     exists i pivot,
       selectPivotBead E s1 = Some (pivot, set_random r s1) /\
       fullBeadList s !! i = Some pivot /\
       (u <= cdf ws i)%R /\ (forall j, (j < i)%nat -> (cdf ws j < u)%R)).
Proof.
  intros ws s1 Hne Hnn Hpos.
  split; [apply getNorm_cdf; exact Hne|].
  split; [apply cdf_last; exact Hpos|].
  split; [intros i; apply cdf_step; assumption|].
  intros u r Hrand Hu.
  apply (selectPivotBead_cdf E ws s1 u r); try assumption.
  - reflexivity.
  - unfold ws, s1. cbn. rewrite length_map. reflexivity.
Qed.

(** Two candidates of weight 1 and [u = 3/4]: the sum is 2, the cumulative
    distribution 1/2, 1, and the second bead is chosen. *)
Lemma X12_pivot_witness :
  exists s1,
    getNorm real_env (0, 0) 2 real_swapSim = Some (2%R, s1) /\
    selectPivotBead real_env s1 = Some ((2, 0), set_random [] s1).
Proof.
  destruct (X12_pivot_drawn_from_the_cumulative_distribution real_env (0, 0) 2 real_swapSim)
    as (Hnorm & _ & _ & Hpivot).
  - discriminate.
  - intros w Hw. cbn in Hw. apply elem_of_cons in Hw as [->|Hw]; [lra|].
    apply elem_of_cons in Hw as [->|Hw]; [lra|]. apply elem_of_nil in Hw. destruct Hw.
  - cbn. lra.
  - eexists. split.
    + rewrite Hnorm. f_equal. f_equal. cbn. lra.
    + destruct (Hpivot (3 / 4)%R [] eq_refl ltac:(lra)) as (i & pivot & Hsel & Hat & Hle & Hlt).
      rewrite Hsel. do 2 f_equal.
      destruct i as [|[|i]]; cbn in Hat.
      * exfalso. unfold cdf in Hle. cbn in Hle. lra.
      * inversion Hat. reflexivity.
      * discriminate Hat.
Defined.

(* ===================================================================== *)
(** * What the centre-of-mass move does to a worldline                    *)
(* ===================================================================== *)

Section CenterOfMassShift.
  Context {D : Type} `{Double D} {R : Type} (E : Env D R).

  #[local] Existing Instance onlyPositions_preorder.
  #[local] Existing Instance pathKept_preorder.

Ltac run_bind H a s H1 := apply bind_Some in H as (a & s & H1 & H).
Ltac run_pure H a s :=
    let H1 := fresh "Hpure" in
    apply bind_Some in H as (a & s & H1 & H); inversion H1; subst a s; clear H1.
Ltac kept_side := split; reflexivity.

  (** A walk that first arrives at [t] after [n+1] steps has not come back
      to its start before. *)
Lemma firstReturn_no_return (p : Path D) b t n :
    firstReturn p b t (S n) -> b ∉ trail p b n.
  Proof.
    intros (Hpos & Hiter & Hfirst) Hin.
    apply elem_of_trail in Hin as (i & Hi & Hcycle).
    pose proof (iter_period (next p) b (S i) Hcycle (S n / S i) (S n mod S i)) as Hper.
    replace (S n mod S i + S n / S i * S i)%nat with (S n) in Hper
      by (rewrite (Nat.div_mod_eq (S n) (S i)) at 1; lia).
    pose proof (Nat.mod_upper_bound (S n) (S i) ltac:(lia)) as Hlt.
    destruct (S n mod S i)%nat as [|r] eqn:Hr.
    - apply (Hfirst (S i)); [lia|]. rewrite Hcycle, <- Hiter, Hper. reflexivity.
    - apply (Hfirst (S r)); [lia|]. rewrite <- Hper. exact Hiter.
  Qed.

Lemma displaced_here (f : dVec D -> dVec D) (p : Path D) b :
    displaced f [b] p (updateBead p b (f (pathPos p b))).
  Proof.
    split; [apply onlyPositions_updateBead|].
    intros c. unfold updateBead, pathPos. cbn.
    destruct (decide (c ∈ [b])) as [Hin|Hout].
    - apply list_elem_of_singleton in Hin as ->. rewrite lookup_alter_eq.
      destruct (beads p !! b); reflexivity.
    - apply lookup_alter_ne. intros ->. apply Hout, list_elem_of_here.
  Qed.

Lemma displaced_cons (f : dVec D -> dVec D) (p p1 p2 : Path D) b T :
    b ∉ T -> displaced f [b] p p1 -> displaced f T p1 p2 -> displaced f (b :: T) p p2.
  Proof.
    intros Hb [Ho1 H1] [Ho2 H2]. split; [etransitivity; eassumption|].
    intros c. rewrite H2, H1.
    destruct (decide (c ∈ T)) as [HT|HT]; destruct (decide (c ∈ [b])) as [Hc|Hc];
      destruct (decide (c ∈ b :: T)) as [Hin|Hout]; try reflexivity.
    - apply list_elem_of_singleton in Hc as ->. contradiction.
    - exfalso. apply Hout, list_elem_of_further, HT.
    - exfalso. apply Hout, list_elem_of_further, HT.
    - exfalso. apply Hout. apply list_elem_of_singleton in Hc as ->. apply list_elem_of_here.
    - exfalso. apply elem_of_cons in Hin as [->|Hin]; [|contradiction].
      apply Hc, list_elem_of_here.
  Qed.

Lemma displaced_compose (f g : dVec D -> dVec D) (p p1 p2 : Path D) T :
    displaced f T p p1 -> displaced g T p1 p2 -> displaced (fun x => g (f x)) T p p2.
  Proof.
    intros [Ho1 H1] [Ho2 H2]. split; [etransitivity; eassumption|].
    intros c. rewrite H2, H1. destruct (decide (c ∈ T)); [|reflexivity].
    destruct (beads p !! c); reflexivity.
  Qed.

Lemma displaced_links (f : dVec D -> dVec D) (p p' : Path D) T :
    displaced f T p p' -> nextLink p' = nextLink p.
  Proof. intros [Ho _]. apply Ho. Qed.

  (** The walk of [attemptMove] and of [undoMove] over the worldline: it
      ends at its first arrival at [next(endBead)] and has applied [op] and
      [putInBC] once to each bead on the way. *)
Lemma shiftWorldline_displaces (op : dVec D -> dVec D -> dVec D) (endB : beadLocator)
      (shiftVec : dVec D) (fuel : nat) :
    forall (b : beadLocator) (s s1 : Sim D R) (u : unit),
      shiftWorldline E fuel op b endB shiftVec s = Some (u, s1) ->
      exists n,
        firstReturn (path s) b (next (path s) endB) (S n) /\
        displaced (fun x => putInBC E (op x shiftVec)) (b :: trail (path s) b n)
                  (path s) (path s1) /\
        mv s1 = mv s.
  Proof.
    induction fuel as [|fuel IH]; intros b s s1 u Hrun; [discriminate Hrun|].
    unfold shiftWorldline in Hrun. cbn [doWhile] in Hrun. run_bind Hrun r s2 Hstep.
    run_pure Hstep p0 st1. run_pure Hstep u1 st2. run_pure Hstep p2 st3.
    cbn [path set_path] in Hstep.
    set (f := fun x => putInBC E (op x shiftVec)) in *.
    set (p1 := updateBead (path s) b (putInBC E (op (pathPos (path s) b) shiftVec))) in *.
    assert (Hhere : displaced f [b] (path s) p1) by apply (displaced_here f).
    assert (Hnl : nextLink p1 = nextLink (path s)) by reflexivity.
    rewrite !(next_links (path s) p1 _ Hnl) in Hstep.
    destruct (beq (next (path s) b) (next (path s) endB)) eqn:Hb.
    - inversion Hstep; subst r s2; clear Hstep.
      inversion Hrun; subst u s1; clear Hrun.
      apply bool_decide_eq_true_1 in Hb.
      exists 0%nat. split; [apply firstReturn_one; exact Hb|].
      split; [exact Hhere | reflexivity].
    - inversion Hstep; subst r s2; clear Hstep.
      apply bool_decide_eq_false_1 in Hb.
      apply IH in Hrun as (n & Hfirst & Hdisp & Hmv).
      cbn [path set_path mv] in Hfirst, Hdisp, Hmv.
      rewrite (next_links (path s) p1 _ Hnl) in Hfirst.
      apply (firstReturn_links p1 (path s)) in Hfirst; [|symmetry; exact Hnl].
      rewrite (trail_links _ _ _ n Hnl) in Hdisp.
      assert (Hlater : firstReturn (path s) b (next (path s) endB) (S (S n)))
        by (apply firstReturn_later; assumption).
      exists (S n). split; [exact Hlater|]. split; [|exact Hmv].
      rewrite trail_cons.
      apply (displaced_cons f (path s) p1); [|exact Hhere | exact Hdisp].
      rewrite <- trail_cons. apply (firstReturn_no_return _ _ _ _ Hlater).
  Qed.

Lemma displaced_same (f : dVec D -> dVec D) (p p' : Path D) T :
    displaced f T p p' ->
    (forall c x, c ∈ T -> beads p !! c = Some x -> f x = x) -> p' = p.
  Proof.
    intros [Ho Hb] Hf. apply path_eq; [exact Ho|]. apply map_eq. intros c.
    rewrite Hb. destruct (decide (c ∈ T)) as [Hin|Hout]; [|reflexivity].
    destruct (beads p !! c) as [x|] eqn:Hx; [|reflexivity].
    cbn. rewrite (Hf c x Hin Hx). reflexivity.
  Qed.

  (** The centre-of-mass move either returns [false] with the path
      untouched, or has walked the worldline of [startBead] once (accepted)
      or twice (rejected). *)
Lemma CenterOfMassMove_attemptMove_displaces fuel (s s' : Sim D R) (r : bool) :
    CenterOfMassMove_attemptMove E fuel s = Some (r, s') ->
    (r = false /\ path s' = path s) \/
    exists n,
      let b0 := startBead (mv s') in
      let shiftVec := originalPos (mv s') 0 in
      firstReturn (path s) b0 (next (path s) (endBead (mv s'))) (S n) /\
      displaced (if r then fun x => putInBC E (vadd x shiftVec)
                 else fun x => putInBC E (vsub (putInBC E (vadd x shiftVec)) shiftVec))
                (b0 :: trail (path s) b0 n) (path s) (path s').
  Proof.
    intros Hrun. unfold CenterOfMassMove_attemptMove in Hrun.
    run_pure Hrun u0 st0. run_pure Hrun p st1. cbn [path set_mv] in Hrun.
    destruct (bool_decide (numBeads (path s) 0 = 0));
      [inversion Hrun; subst; left; split; reflexivity|].
    run_bind Hrun r0 sta Hr0. unfold do_randInt in Hr0.
    destruct (randInt E _ _) as [r0' ra] in Hr0. inversion Hr0; subst r0' sta; clear Hr0.
    run_pure Hrun u1 st2. run_pure Hrun u2 st3. run_pure Hrun m0 st4.
    run_bind Hrun early se Hearly.
    assert (Hpe : path se = path s).
    { match type of Hearly with
      | ?m ?s0 = _ =>
          assert (Hk : respects pathKept m) by (respects_with kept_side fail);
          apply Hk in Hearly as [Hp _]
      end.
      exact Hp. }
    destruct early; [inversion Hrun; subst; left; split; [reflexivity | exact Hpe]|].
    run_pure Hrun u3 st5. run_pure Hrun u4 st6.
    run_bind Hrun shiftVec ss Hshift.
    assert (Hps : path ss = path s).
    { match type of Hshift with
      | ?m ?s0 = _ =>
          assert (Hk : respects pathKept m) by (respects_with kept_side fail);
          apply Hk in Hshift as [Hp _]
      end.
      cbn in Hp. congruence. }
    run_pure Hrun u5 st7. run_pure Hrun m st8.
    run_bind Hrun out so Hout.
    set (sm := set_mv (set_originalPos (fupd (originalPos (mv ss)) 0 shiftVec) (mv ss)) ss) in *.
    assert (Hpo : path so = path s /\ mv so = mv sm).
    { assert (Hpre : PreOrder (fun s1 s2 : Sim D R => path s2 = path s1 /\ mv s2 = mv s1)).
      { split.
        - intros s1. split; reflexivity.
        - intros s1 s2 s3 [Hp Hm] [Hp' Hm']. split; congruence. }
      match type of Hout with
      | ?m ?s0 = _ =>
          assert (Hk : respects (fun s1 s2 : Sim D R => path s2 = path s1 /\ mv s2 = mv s1) m)
            by (respects_with kept_side fail);
          apply Hk in Hout as [Hp Hm]
      end.
      split; [rewrite Hp; exact Hps | exact Hm]. }
    destruct Hpo as [Hpo Hmo].
    destruct out; [inversion Hrun; subst; left; split; [reflexivity | exact Hpo]|].
    run_pure Hrun oldA st9.
    run_bind Hrun u6 s1 Hfwd. run_pure Hrun newA st10.
    apply shiftWorldline_displaces in Hfwd as (n & Hfirst & Hdisp & Hmv1).
    rewrite Hpo in Hfirst, Hdisp.
    unfold finalTest in Hrun.
    run_bind Hrun u stc Hu. unfold do_rand in Hu.
    destruct (rand E _) as [u' rc] in Hu. inversion Hu; subst u' stc; clear Hu.
    run_bind Hrun u7 s2 Hbranch.
    inversion Hrun; subst s' r; clear Hrun.
    right. exists n.
    destruct (_ <? _)%D.
    - (* accepted *)
      run_bind Hbranch u8 s3 Hkeep. inversion Hbranch; subst s3 u7; clear Hbranch.
      inversion Hkeep; subst s2; clear Hkeep.
      cbn [mv set_mv set_success set_numAccepted set_totAccepted set_actionShift set_keepCalls
           set_random success startBead endBead originalPos path set_path].
      rewrite Hmv1, Hmo. split; [exact Hfirst | exact Hdisp].
    - (* rejected *)
      run_bind Hbranch u8 s3 Hundo. inversion Hbranch; subst s3 u7; clear Hbranch.
      unfold CenterOfMassMove_undoMove in Hundo.
      run_pure Hundo u9 st11. run_pure Hundo m' st12.
      run_bind Hundo u10 s4 Hbwd. inversion Hundo; subst s2; clear Hundo.
      apply shiftWorldline_displaces in Hbwd as (n' & Hfirst' & Hdisp' & Hmv4).
      cbn [mv set_mv set_success set_undoCalls set_random success startBead endBead
           originalPos path set_path] in *.
      rewrite Hmv1, Hmo in *.
      pose proof (displaced_links _ _ _ _ Hdisp) as Hnl.
      rewrite (next_links _ _ _ Hnl) in Hfirst'.
      apply (firstReturn_links (path s1) (path s)) in Hfirst'; [|symmetry; exact Hnl].
      pose proof (firstReturn_unique _ _ _ _ _ Hfirst Hfirst') as Hn.
      injection Hn as <-.
      rewrite (trail_links _ _ _ n Hnl) in Hdisp'.
      rewrite Hmv4. split; [exact Hfirst|].
      exact (displaced_compose _ _ _ _ _ _ Hdisp Hdisp').
  Qed.
End CenterOfMassShift.

(** X13.  What the centre-of-mass move leaves, in any arithmetic.  Either it
    returns [false] with the path untouched (the exits before the update),
    or it has walked the worldline from [startBead] to [endBead], which
    meets no bead twice, and every live bead [x] of that worldline holds
    [putInBC(x + shift)] when the move was accepted and
    [putInBC(putInBC(x + shift) - shift)] when it was rejected, [shift]
    being [originalPos(0)]; no other bead, no link, no count and not the
    worm have changed.  So [undoMove] restores the path exactly where
    subtracting the shift undoes adding it on the beads of the worldline,
    and only there. *)
Theorem X13_center_of_mass_shifts_one_worldline
    {D : Type} `{Double D} {R : Type} (E : Env D R) (fuel : nat) (s s' : Sim D R) (r : bool) :
  attemptMove E CenterOfMass fuel s = Some (r, s') ->
  (r = false /\ path s' = path s) \/
  exists n,
    let b0 := startBead (mv s') in
    let shiftVec := originalPos (mv s') 0 in
    let T := b0 :: trail (path s) b0 n in
    let back := fun x => putInBC E (vsub (putInBC E (vadd x shiftVec)) shiftVec) in
    firstReturn (path s) b0 (next (path s) (endBead (mv s'))) (S n) /\
    displaced (if r then fun x => putInBC E (vadd x shiftVec) else back) T (path s) (path s') /\
    (r = false ->
     (path s' = path s <->
      forall c x, c ∈ T -> beads (path s) !! c = Some x -> back x = x)).
Proof.
  intros Hrun. unfold attemptMove in Hrun.
  destruct (CenterOfMassMove_attemptMove_displaces E fuel s s' r Hrun)
    as [Hearly|(n & Hfirst & Hdisp)]; [left; exact Hearly|].
  right. exists n. cbv zeta in *. split; [exact Hfirst|]. split; [exact Hdisp|].
  intros ->. split.
  - intros Hsame c x Hc Hx. destruct Hdisp as [_ Hb].
    specialize (Hb c). rewrite Hsame, Hx, decide_True in Hb by exact Hc.
    cbn in Hb. congruence.
  - intros Hback. exact (displaced_same _ _ _ _ Hdisp Hback).
Qed.

(** An accepted centre-of-mass move, in floating point: the worldline of
    the start bead has been walked, and the links are those of the start. *)
Lemma X13_center_of_mass_witness :
  exists s',
    bench_run CenterOfMass true bench_path bench_tape_accept = Some (true, s') /\
    nextLink (path s') = nextLink bench_path.
Proof.
  assert (Hfacts : match bench_run CenterOfMass true bench_path bench_tape_accept with
                   | Some (r, _) => r = true
                   | None => False
                   end) by (vm_compute; reflexivity).
  revert Hfacts.
  destruct (bench_run CenterOfMass true bench_path bench_tape_accept)
    as [[r s']|] eqn:Hrun; intros Hfacts; [|destruct Hfacts].
  subst r. exists s'. split; [reflexivity|].
  destruct (X13_center_of_mass_shifts_one_worldline (bench_env true) 20
              (bench_sim bench_path bench_tape_accept) s' true Hrun)
    as [[Hr _]|(n & _ & Hdisp & _)]; [discriminate Hr|].
  apply Hdisp.
Defined.

(** X14.  The Metropolis rule of [updateMove], in real arithmetic.  With a
    particle [p] drawn among the particles, [oldE] and [newE] the external
    potential plus the pair potentials with all other particles at the old
    position and at the position [randUpdate] proposes, a uniform deviate
    [u < 1] and a positive temperature: the proposal is kept exactly when
    [u < min(1, exp(-(newE-oldE)/T))], and [energy] then grows by
    [newE-oldE]; otherwise the configuration and the energy are as before.
    A proposal that does not raise the energy is always kept. *)
Theorem X14_update_follows_metropolis {Rng : Type} (E : Env R Rng) (s : CMC R Rng) :
  1 <= numParticles s <= Z.of_nat (length (config s)) ->
  let d := randInt E (numParticles s - 1) (cmc_random s) in
  let p := d.1 in
  let x := cfg_at (config s) p in
  let y := (randUpdate E d.2 x).1 in
  let cfg' := <[Z.to_nat p := y]> (config s) in
  let oldE := spec_particleEnergy E (config s) (numParticles s) (Some p) x in
  let newE := spec_particleEnergy E cfg' (numParticles s) (Some p) y in
  let u := (rand E (randUpdate E d.2 x).2).1 in
  0 <= p <= numParticles s - 1 -> (u < 1)%R -> (0 < c_T E)%R ->
  exists s', updateMove E s = (Some tt, s') /\
    ((u < Rmin 1 (exp (- (newE - oldE) / c_T E)))%R ->
     config s' = cfg' /\ energy s' = (energy s + (newE - oldE))%R) /\
    (~ (u < Rmin 1 (exp (- (newE - oldE) / c_T E)))%R ->
     config s' = config s /\ energy s' = energy s) /\
    ((newE <= oldE)%R -> config s' = cfg' /\ energy s' = (energy s + (newE - oldE))%R).
Proof.
  intros Hn d p x y cfg' oldE newE u Hp Hu HT.
  destruct (updateMove_real E s Hn Hp) as (s' & Hrun & _ & Hacc & Hrej).
  fold d p x y cfg' oldE newE u in Hacc, Hrej.
  assert (Hmin : (u < Rmin 1 (exp (- (newE - oldE) / c_T E)))%R
                 <-> (u < exp (- (newE - oldE) / c_T E))%R).
  { unfold Rmin. destruct (Rle_dec 1 (exp (- (newE - oldE) / c_T E))); split; lra. }
  exists s'. split; [exact Hrun|]. split; [|split].
  - intros Hlt. apply Hacc, Hmin, Hlt.
  - intros Hge. apply Hrej. intros Hlt. apply Hge, Hmin, Hlt.
  - intros Hdown. apply Hacc.
    assert (Hexp : (1 <= exp (- (newE - oldE) / c_T E))%R).
    { rewrite <- exp_0. destruct (Req_dec (- (newE - oldE) / c_T E) 0) as [->|Hne].
      - lra.
      - apply Rlt_le, exp_increasing.
        assert (0 <= - (newE - oldE) / c_T E)%R.
        { apply Rmult_le_pos; [lra|]. apply Rlt_le, Rinv_0_lt_compat, HT. }
        lra. }
    lra.
Qed.

(** Two particles and a proposal that leaves the first where it is: the
    energy does not change and the proposal is kept. *)
Lemma X14_update_witness :
  exists s', updateMove real_env real_cmc_tracked = (Some tt, s') /\ energy s' = 2%R.
Proof.
  destruct (X14_update_follows_metropolis real_env real_cmc_tracked)
    as (s' & Hrun & _ & _ & Hdown).
  - cbn. lia.
  - cbn. lia.
  - cbn. lra.
  - cbn. lra.
  - exists s'. split; [exact Hrun|].
    destruct Hdown as [_ He].
    + vm_compute. lra.
    + rewrite He. vm_compute. lra.
Defined.

(* ===================================================================== *)
(** * A rejected bisection restores the path                              *)
(* ===================================================================== *)

Section BisectionRestores.
  Context {D : Type} `{Double D} {R : Type} (E : Env D R).

  #[local] Existing Instance onlyPositions_preorder.

Ltac run_bind H a s H1 := apply bind_Some in H as (a & s & H1 & H).
Ltac run_pure H a s :=
    let H1 := fresh "Hpure" in
    apply bind_Some in H as (a & s & H1 & H); inversion H1; subst a s; clear H1.

Lemma activeTrajectory_iter (n : nat) (p : Path D) (b e : beadLocator) :
    activeTrajectory n p b = Some e -> e = Nat.iter n (next p) b.
  Proof.
    revert b. induction n as [|n IH]; intros b Hrun; cbn [activeTrajectory] in Hrun.
    - inversion Hrun. reflexivity.
    - destruct (negb (beadOn p b) || beq b (worm_head (worm p))); [discriminate|].
      rewrite (IH _ Hrun). apply iter_shift.
  Qed.

Lemma newBisectionPosition_frame b shift (s s' : Sim D R) x :
    newBisectionPosition E b shift s = Some (x, s') -> path s' = path s /\ mv s' = mv s.
  Proof.
    assert (Hpre : PreOrder (fun s s' : Sim D R => path s' = path s /\ mv s' = mv s)).
    { split.
      - intros s1. split; reflexivity.
      - intros s1 s2 s3 [Hp Hm] [Hp' Hm']. split; congruence. }
    revert s x s'.
    change (respects (fun s s' : Sim D R => path s' = path s /\ mv s' = mv s)
              (newBisectionPosition E b shift)).
    unfold newBisectionPosition. cbv zeta.
    apply respects_bind; [apply _ | apply respects_gets, _ |]. intros p.
    apply respects_bind; [apply _ | | intros ?; apply respects_ret, _].
    apply respects_randNormVec; [exact Hpre|]. intros s r. split; reflexivity.
  Qed.

Lemma iter_nextN (p p0 : Path D) b0 (j : nat) (shift : Z) :
    nextLink p = nextLink p0 -> 0 <= shift ->
    nextN p (Nat.iter j (next p0) b0) shift = Nat.iter (Z.to_nat (Z.of_nat j + shift)) (next p0) b0.
  Proof.
    intros Hnl Hs. unfold nextN. rewrite (iter_links p0 p Hnl).
    rewrite <- Nat.iter_add. f_equal. lia.
  Qed.

  (** A bead of the stage is given a new position: the stage stays under
      way when its original position is on record. *)
Lemma bisecting_update (p0 : Path D) b0 N (s s' : Sim D R) (j : nat) x :
    (forall i i', (1 <= i < N)%nat -> (1 <= i' < N)%nat ->
                  Nat.iter i (next p0) b0 = Nat.iter i' (next p0) b0 -> i = i') ->
    bisecting p0 b0 N s -> (1 <= j < N)%nat ->
    path s' = updateBead (path s) (Nat.iter j (next p0) b0) x ->
    startBead (mv s') = startBead (mv s) -> endBead (mv s') = endBead (mv s) ->
    (forall n, n <> Z.of_nat j - 1 ->
       include (mv s') n = include (mv s) n /\ originalPos (mv s') n = originalPos (mv s) n) ->
    include (mv s') (Z.of_nat j - 1) = false ->
    originalPos (mv s') (Z.of_nat j - 1) = pathPos p0 (Nat.iter j (next p0) b0) ->
    bisecting p0 b0 N s'.
  Proof.
    intros Hdist (Honly & Hbeads & Hframe & Hsb & Heb) Hj Hpath Hsb' Heb' Hother Hinc Horig.
    split; [|split; [|split; [|split]]].
    - rewrite Hpath. etransitivity; [exact Honly | apply onlyPositions_updateBead].
    - intros i Hi. destruct (decide (i = j)) as [->|Hne].
      + rewrite Hinc. exact Horig.
      + destruct (Hother (Z.of_nat i - 1) ltac:(lia)) as [-> ->].
        specialize (Hbeads i Hi). destruct (include (mv s) (Z.of_nat i - 1)); [|exact Hbeads].
        rewrite Hpath. unfold updateBead. cbn. rewrite lookup_alter_ne; [exact Hbeads|].
        intros Heq. apply Hne. symmetry. apply (Hdist _ _ Hj Hi). exact Heq.
    - intros c Hc. rewrite Hpath. unfold updateBead. cbn.
      rewrite lookup_alter_ne; [apply Hframe, Hc|]. apply Hc, Hj.
    - congruence.
    - congruence.
  Qed.

  (** The loop of one level keeps the stage under way. *)
Lemma bisectLevel_loop (p0 : Path D) b0 (N : nat) (level shift : Z) (endB : beadLocator)
      (fuel : nat) :
    (forall i i', (1 <= i < N)%nat -> (1 <= i' < N)%nat ->
                  Nat.iter i (next p0) b0 = Nat.iter i' (next p0) b0 -> i = i') ->
    0 < shift -> (exists q, Z.of_nat N = q * shift) -> endB = Nat.iter N (next p0) b0 ->
    let body : beadLocator * Z * D * D -> M D R (beadLocator * Z * D * D + D * D) :=
      fun '(beadIndex, k, oldAction, newAction) =>
        let n := k * shift - 1 in
        let* m := get_mv in
        let* (oldAction, newAction) :=
          (if include m n then
             let* p := get_path in
             mod_mv (fun m => set_originalPos (fupd (originalPos m) n (pathPos p beadIndex)) m) ;;
             let* a := action1 (potentialAction1 E) beadIndex in
             let oldAction := (oldAction + a)%D in
             let* x := newBisectionPosition E beadIndex shift in
             mod_mv (fun m => set_newPos (fupd (newPos m) n x) m) ;;
             mod_path (fun p => updateBead p beadIndex x) ;;
             let* a := action1 (potentialAction1 E) beadIndex in
             let newAction := (newAction + a)%D in
             mod_mv (fun m => set_include (fupd (include m) n false) m) ;;
             ret (oldAction, newAction)
           else if bool_decide (level = 1) then
             let* a := action1 (potentialAction1 E) beadIndex in
             let newAction := (newAction + a)%D in
             mod_path (fun p => updateBead p beadIndex (originalPos m n)) ;;
             let* a := action1 (potentialAction1 E) beadIndex in
             let oldAction := (oldAction + a)%D in
             mod_path (fun p => updateBead p beadIndex (newPos m n)) ;;
             ret (oldAction, newAction)
           else ret (oldAction, newAction)) in
        let k := k + 1 in
        let* p := get_path in
        let beadIndex := nextN p beadIndex shift in
        if beq beadIndex endB then ret (inr (oldAction, newAction))
        else ret (inl (beadIndex, k, oldAction, newAction)) in
    forall (k : Z) (beadIndex : beadLocator) (oldA newA : D) (s s' : Sim D R) res,
      1 <= k -> k * shift < Z.of_nat N ->
      beadIndex = Nat.iter (Z.to_nat (k * shift)) (next p0) b0 ->
      bisecting p0 b0 N s ->
      doWhile fuel body (beadIndex, k, oldA, newA) s = Some (res, s') ->
      bisecting p0 b0 N s'.
  Proof.
    intros Hdist Hshift [q Hq] HendB body.
    induction fuel as [|fuel IH]; intros k beadIndex oldA newA s s' res Hk Hks Hbead HJ Hrun;
      [discriminate Hrun|].
    cbn [doWhile] in Hrun. run_bind Hrun r s2 Hstep.
    unfold body at 1 in Hstep. cbv zeta in Hstep.
    run_pure Hstep m st0.
    run_bind Hstep acts s3 Hblock. destruct acts as [oldA' newA'].
    run_pure Hstep p st1.
    set (j := Z.to_nat (k * shift)) in *.
    assert (Hj : (1 <= j < N)%nat) by (unfold j; nia).
    assert (Hn : k * shift - 1 = Z.of_nat j - 1) by (unfold j; lia).
    rewrite Hn in Hblock.
    assert (HJ3 : bisecting p0 b0 N s3).
    { destruct (include (mv s) (Z.of_nat j - 1)) eqn:Hinc.
      - (* the bead is moved at this level *)
        run_pure Hblock p1 st2. run_pure Hblock u1 st3. run_pure Hblock a1 st4.
        run_bind Hblock x sx Hnew.
        apply newBisectionPosition_frame in Hnew as [Hpx Hmx]. cbn in Hpx, Hmx.
        run_pure Hblock u2 st5. run_pure Hblock u3 st6. run_pure Hblock a2 st7.
        run_pure Hblock u4 st8. inversion Hblock; subst s3; clear Hblock.
        apply (bisecting_update p0 b0 N s _ j x Hdist HJ Hj).
        + cbn. rewrite Hpx, Hbead. reflexivity.
        + cbn. rewrite Hmx. reflexivity.
        + cbn. rewrite Hmx. reflexivity.
        + intros n Hne. cbn. rewrite Hmx. cbn. unfold fupd.
          destruct (n =? Z.of_nat j - 1) eqn:Hnj; [apply Z.eqb_eq in Hnj; contradiction|].
          split; reflexivity.
        + cbn. unfold fupd. rewrite Z.eqb_refl. reflexivity.
        + cbn. rewrite Hmx. cbn. unfold fupd. rewrite Z.eqb_refl.
          destruct HJ as (_ & Hbeads & _). specialize (Hbeads j Hj). rewrite Hinc in Hbeads.
          unfold pathPos. rewrite Hbead. f_equal. exact Hbeads.
      - destruct (bool_decide (level = 1)).
        + (* level 1: the old and the new position are put back in turn *)
          run_pure Hblock a1 st2. run_pure Hblock u1 st3. run_pure Hblock a2 st4.
          run_pure Hblock u2 st5. inversion Hblock; subst s3; clear Hblock.
          pose proof HJ as (_ & Hbeads & _). specialize (Hbeads j Hj). rewrite Hinc in Hbeads.
          set (s1 := set_path (updateBead (path s) beadIndex
                                 (originalPos (mv s) (Z.of_nat j - 1))) s).
          assert (HJ1 : bisecting p0 b0 N s1).
          { apply (bisecting_update p0 b0 N s s1 j (originalPos (mv s) (Z.of_nat j - 1)) Hdist HJ Hj).
            - cbn. rewrite Hbead. reflexivity.
            - reflexivity.
            - reflexivity.
            - intros n _. split; reflexivity.
            - exact Hinc.
            - exact Hbeads. }
          apply (bisecting_update p0 b0 N s1 _ j (newPos (mv s) (Z.of_nat j - 1)) Hdist HJ1 Hj).
          * cbn. rewrite Hbead. reflexivity.
          * reflexivity.
          * reflexivity.
          * intros n _. split; reflexivity.
          * exact Hinc.
          * exact Hbeads.
        + inversion Hblock; subst s3. exact HJ. }
    clear Hblock.
    assert (Hnl : nextLink (path s3) = nextLink p0) by apply HJ3.
    rewrite Hbead in Hstep.
    rewrite (iter_nextN (path s3) p0 b0 j shift Hnl ltac:(lia)) in Hstep.
    replace (Z.of_nat j + shift) with ((k + 1) * shift) in Hstep by (unfold j; lia).
    destruct (beq _ endB) eqn:Hend.
    - inversion Hstep; subst r s2; clear Hstep.
      inversion Hrun; subst. exact HJ3.
    - inversion Hstep; subst r s2; clear Hstep.
      apply bool_decide_eq_false_1 in Hend.
      apply (IH (k + 1) (Nat.iter (Z.to_nat ((k + 1) * shift)) (next p0) b0) oldA' newA' s3 s' res);
        [lia | | reflexivity | exact HJ3 | exact Hrun].
      assert (Hkq : k < q) by nia.
      assert (Hle : (k + 1) * shift <= Z.of_nat N) by nia.
      destruct (Z.eq_dec ((k + 1) * shift) (Z.of_nat N)) as [Heq|Hneq]; [|lia].
      exfalso. apply Hend. rewrite HendB, Heq, Nat2Z.id. reflexivity.
  Qed.

Lemma bisecting_frame (p0 : Path D) b0 N (s s' : Sim D R) :
    bisecting p0 b0 N s -> path s' = path s ->
    include (mv s') = include (mv s) -> originalPos (mv s') = originalPos (mv s) ->
    startBead (mv s') = startBead (mv s) -> endBead (mv s') = endBead (mv s) ->
    bisecting p0 b0 N s'.
  Proof.
    intros (Honly & Hbeads & Hframe & Hsb & Heb) Hp Hi Ho Hsb' Heb'.
    unfold bisecting. rewrite Hp, Hi, Ho, Hsb', Heb'.
    split; [exact Honly|]. split; [exact Hbeads|]. split; [exact Hframe|]. split; assumption.
  Qed.

Lemma bisectLevel_bisecting (p0 : Path D) b0 (N : nat) (level shift : Z) (fuel : nat)
      (s s' : Sim D R) res :
    (forall i i', (1 <= i < N)%nat -> (1 <= i' < N)%nat ->
                  Nat.iter i (next p0) b0 = Nat.iter i' (next p0) b0 -> i = i') ->
    0 < shift -> (exists q, Z.of_nat N = q * shift) -> shift < Z.of_nat N ->
    bisecting p0 b0 N s ->
    bisectLevel E fuel level shift b0 (Nat.iter N (next p0) b0) s = Some (res, s') ->
    bisecting p0 b0 N s'.
  Proof.
    intros Hdist Hshift Hdiv Hlt HJ Hrun. unfold bisectLevel in Hrun.
    run_pure Hrun p st0.
    eapply (bisectLevel_loop p0 b0 N level shift _ fuel Hdist Hshift Hdiv eq_refl
              1 _ d0 d0 s s' res); [lia | lia | | exact HJ | exact Hrun].
    assert (Hnl : nextLink (path s) = nextLink p0) by apply HJ.
    pose proof (iter_nextN (path s) p0 b0 0 shift Hnl ltac:(lia)) as Hx.
    change (Nat.iter 0 (next p0) b0) with b0 in Hx. rewrite Hx. f_equal. lia.
  Qed.

  (** The walk of [undoMove]: it puts every bead of the stage that has
      been moved back where it was. *)
Lemma bisection_undo_loop (p0 : Path D) b0 (N : nat) (m : MoveObj D) (fuel : nat) :
    (forall i i', (1 <= i < N)%nat -> (1 <= i' < N)%nat ->
                  Nat.iter i (next p0) b0 = Nat.iter i' (next p0) b0 -> i = i') ->
    prev p0 (endBead m) = Nat.iter (N - 1) (next p0) b0 ->
    (forall i, (1 <= i < N)%nat -> include m (Z.of_nat i - 1) = false ->
               originalPos m (Z.of_nat i - 1) = pathPos p0 (Nat.iter i (next p0) b0)) ->
    let body : beadLocator * Z -> M D R (beadLocator * Z + unit) :=
      fun '(beadIndex, k) =>
        let* p := get_path in
        let beadIndex := next p beadIndex in
        (if negb (include m k)
         then mod_path (fun p => updateBead p beadIndex (originalPos m k))
         else ret tt) ;;
        let k := k + 1 in
        let* p := get_path in
        if beq beadIndex (prev p (endBead m)) then ret (inr tt)
        else ret (inl (beadIndex, k)) in
    forall (j : nat) (t t' : Sim D R) (u : unit),
      (j + 1 < N)%nat ->
      onlyPositions p0 (path t) ->
      (forall i, (1 <= i <= j)%nat ->
         beads (path t) !! Nat.iter i (next p0) b0 = beads p0 !! Nat.iter i (next p0) b0) ->
      (forall i, (j < i < N)%nat -> include m (Z.of_nat i - 1) = true ->
         beads (path t) !! Nat.iter i (next p0) b0 = beads p0 !! Nat.iter i (next p0) b0) ->
      (forall c, (forall i, (1 <= i < N)%nat -> Nat.iter i (next p0) b0 <> c) ->
                 beads (path t) !! c = beads p0 !! c) ->
      doWhile fuel body (Nat.iter j (next p0) b0, Z.of_nat j) t = Some (u, t') ->
      path t' = p0 /\ mv t' = mv t.
  Proof.
    intros Hdist Hprev Horig body.
    induction fuel as [|fuel IH]; intros j t t' u Hj Honly Hdone Htodo Hframe Hrun;
      [discriminate Hrun|].
    cbn [doWhile] in Hrun. run_bind Hrun r t2 Hstep.
    unfold body at 1 in Hstep. cbv zeta in Hstep.
    run_pure Hstep p st0. run_bind Hstep u1 t3 Hupd. run_pure Hstep p1 st1.
    assert (Hnl : nextLink (path t) = nextLink p0) by apply Honly.
    rewrite (next_links p0 (path t) _ Hnl) in Hupd, Hstep.
    change (next p0 (Nat.iter j (next p0) b0)) with (Nat.iter (S j) (next p0) b0) in Hupd, Hstep.
    set (b := Nat.iter (S j) (next p0) b0) in *.
    assert (Hj1 : (1 <= S j < N)%nat) by lia.
    assert (Horig' : include m (Z.of_nat j) = false -> originalPos m (Z.of_nat j) = pathPos p0 b).
    { replace (Z.of_nat j) with (Z.of_nat (S j) - 1) by lia. apply Horig. exact Hj1. }
    (* the state after the conditional update *)
    assert (Hmv3 : mv t3 = mv t).
    { destruct (negb (include m (Z.of_nat j))); inversion Hupd; subst t3; reflexivity. }
    assert (H3 : onlyPositions p0 (path t3) /\
                 (forall i, (1 <= i <= S j)%nat ->
                    beads (path t3) !! Nat.iter i (next p0) b0
                    = beads p0 !! Nat.iter i (next p0) b0) /\
                 (forall i, (S j < i < N)%nat -> include m (Z.of_nat i - 1) = true ->
                    beads (path t3) !! Nat.iter i (next p0) b0
                    = beads p0 !! Nat.iter i (next p0) b0) /\
                 (forall c, (forall i, (1 <= i < N)%nat -> Nat.iter i (next p0) b0 <> c) ->
                            beads (path t3) !! c = beads p0 !! c)).
    { destruct (include m (Z.of_nat j)) eqn:Hinc; cbn [negb] in Hupd.
      - inversion Hupd; subst t3. split; [exact Honly|]. split; [|split; [|exact Hframe]].
        + intros i Hi. destruct (decide (i = S j)) as [->|Hne]; [|apply Hdone; lia].
          apply Htodo; [lia|]. replace (Z.of_nat (S j) - 1) with (Z.of_nat j) by lia. exact Hinc.
        + intros i Hi. apply Htodo. lia.
      - inversion Hupd; subst t3. cbn [path set_path].
        assert (Hother : forall c, c <> b ->
                  beads (updateBead (path t) b (originalPos m (Z.of_nat j))) !! c
                  = beads (path t) !! c).
        { intros c Hc. unfold updateBead. cbn. apply lookup_alter_ne.
          intros Heq. apply Hc. symmetry. exact Heq. }
        split; [etransitivity; [exact Honly | apply onlyPositions_updateBead]|].
        split; [|split].
        + intros i Hi. destruct (decide (i = S j)) as [->|Hne].
          * change (beads (updateBead (path t) b (originalPos m (Z.of_nat j))) !! b
                    = beads p0 !! b).
            unfold updateBead. cbn [beads set_beads]. rewrite lookup_alter_eq.
            rewrite (Horig' eq_refl).
            pose proof (onlyPositions_lookup p0 (path t) b Honly) as Hlive.
            unfold pathPos.
            destruct (beads p0 !! b) as [x|] eqn:Hb0;
              destruct (beads (path t) !! b) as [y|] eqn:Hb1; cbn; try reflexivity;
              destruct Hlive as [Hl1 Hl2];
              first [ discriminate (Hl1 eq_refl) | discriminate (Hl2 eq_refl) ].
          * rewrite Hother; [apply Hdone; lia|].
            intros Heq. apply Hne. apply (Hdist i (S j)); [lia | lia | exact Heq].
        + intros i Hi Hinc'. rewrite Hother; [apply Htodo; [lia | exact Hinc']|].
          intros Heq. assert (i = S j) by (apply (Hdist i (S j)); [lia | lia | exact Heq]). lia.
        + intros c Hc. rewrite Hother; [apply Hframe, Hc|].
          intros ->. apply (Hc (S j) Hj1). reflexivity. }
    clear Hupd. destruct H3 as (Honly3 & Hdone3 & Htodo3 & Hframe3).
    assert (Hpl : prevLink (path t3) = prevLink p0) by apply Honly3.
    rewrite (prev_links p0 (path t3) _ Hpl), Hprev in Hstep.
    destruct (beq b (Nat.iter (N - 1) (next p0) b0)) eqn:Hb.
    - inversion Hstep; subst r t2; clear Hstep. inversion Hrun; subst u t'; clear Hrun.
      apply bool_decide_eq_true_1 in Hb.
      assert (Hlast : S j = (N - 1)%nat) by (apply (Hdist (S j) (N - 1)%nat); [lia | lia | exact Hb]).
      split; [|exact Hmv3].
      symmetry. apply path_eq; [|symmetry; apply map_eq; intros c].
      + destruct Honly3 as (Hd & Hn & Hp & Hc & Hw). repeat split; congruence.
      + destruct (decide (c ∈ trail p0 b0 (N - 1))) as [Hin|Hout].
        * apply elem_of_trail in Hin as (i & Hi & <-). apply Hdone3. lia.
        * apply Hframe3. intros i Hi Heq. apply Hout, elem_of_trail.
          exists (Nat.pred i). split; [lia|]. replace (S (Nat.pred i)) with i by lia. exact Heq.
    - inversion Hstep; subst r t2; clear Hstep.
      apply bool_decide_eq_false_1 in Hb.
      assert (Hmore : (S j + 1 < N)%nat).
      { destruct (decide (S j = (N - 1)%nat)) as [Heq|Hne]; [|lia].
        exfalso. apply Hb. unfold b. rewrite Heq. reflexivity. }
      replace (Z.of_nat j + 1) with (Z.of_nat (S j)) in Hrun by lia.
      destruct (IH (S j) t3 t' u Hmore Honly3 Hdone3 Htodo3 Hframe3 Hrun) as [Hp Hm].
      split; [exact Hp | congruence].
  Qed.

Lemma BisectionMove_undoMove_restores (p0 : Path D) b0 (N : nat) (fuel : nat)
      (s s' : Sim D R) (u : unit) :
    (forall i i', (1 <= i < N)%nat -> (1 <= i' < N)%nat ->
                  Nat.iter i (next p0) b0 = Nat.iter i' (next p0) b0 -> i = i') ->
    (2 <= N)%nat ->
    prev p0 (Nat.iter N (next p0) b0) = Nat.iter (N - 1) (next p0) b0 ->
    bisecting p0 b0 N s ->
    BisectionMove_undoMove fuel s = Some (u, s') ->
    path s' = p0 /\ startBead (mv s') = b0.
  Proof.
    intros Hdist HN Hprev (Honly & Hbeads & Hframe & Hsb & Heb) Hrun.
    unfold BisectionMove_undoMove in Hrun.
    run_pure Hrun u0 st0. run_pure Hrun m st1. run_bind Hrun u1 s1 Hloop.
    run_pure Hrun u2 st2. inversion Hrun; subst s'; clear Hrun.
    cbn [mv set_undoCalls] in Hloop. cbn [path mv set_mv set_actionShift set_success startBead].
    rewrite Hsb in *.
    destruct (bisection_undo_loop p0 b0 N (mv s) fuel Hdist) with (j := 0%nat)
      (t := set_undoCalls (S (undoCalls s)) s) (t' := s1) (u := u1) as [Hp Hm];
      [ | | | | | | | | split; [exact Hp | rewrite Hm; exact Hsb] ].
    - rewrite Heb. exact Hprev.
    - intros i Hi Hinc. specialize (Hbeads i Hi). rewrite Hinc in Hbeads. exact Hbeads.
    - lia.
    - exact Honly.
    - intros i Hi. lia.
    - intros i Hi Hinc. specialize (Hbeads i ltac:(lia)). rewrite Hinc in Hbeads. exact Hbeads.
    - exact Hframe.
    - exact Hloop.
  Qed.

  (** The levels from [l] down: the move ends accepted, or with the path
      of the start. *)
Lemma bisectLevels_restores (p0 : Path D) b0 (L N : nat) (fuel : nat) :
    Z.of_nat N = 2 ^ Z.of_nat L ->
    (forall i i', (1 <= i < N)%nat -> (1 <= i' < N)%nat ->
                  Nat.iter i (next p0) b0 = Nat.iter i' (next p0) b0 -> i = i') ->
    prev p0 (Nat.iter N (next p0) b0) = Nat.iter (N - 1) (next p0) b0 ->
    forall (l : nat) (oldDeltaAction : D) (s s' : Sim D R) (u : unit),
      (l <= L)%nat -> bisecting p0 b0 N s ->
      (l = 0%nat -> success (mv s) = true \/ path s = p0) ->
      bisectLevels E fuel l oldDeltaAction s = Some (u, s') ->
      (success (mv s') = true \/ path s' = p0) /\ startBead (mv s') = b0.
  Proof.
    intros HN Hdist Hprev.
    induction l as [|l IH]; intros oda s s' u Hl HJ Hzero Hrun.
    - inversion Hrun; subst s'. split; [apply Hzero; reflexivity | apply HJ].
    - rewrite bisectLevels_S in Hrun. cbv zeta in Hrun.
      run_pure Hrun u0 st0. run_pure Hrun m st1.
      run_bind Hrun res s2 Hlevel. destruct res as [oldA newA].
      cbn [mv set_actionShift] in Hlevel.
      pose proof HJ as (_ & _ & _ & Hsb & Heb). rewrite Hsb, Heb in Hlevel.
      assert (Hpow : ipow 2 (Z.of_nat (S l) - 1) = 2 ^ Z.of_nat l).
      { unfold ipow. f_equal. lia. }
      rewrite Hpow in *.
      assert (Hshift : 0 < 2 ^ Z.of_nat l) by (apply Z.pow_pos_nonneg; lia).
      assert (HNl : Z.of_nat N = 2 ^ (Z.of_nat L - Z.of_nat l) * 2 ^ Z.of_nat l).
      { rewrite <- Z.pow_add_r by lia. rewrite HN. f_equal. lia. }
      assert (Hlt : 2 ^ Z.of_nat l < Z.of_nat N).
      { rewrite HN. apply Z.pow_lt_mono_r; lia. }
      assert (HN2 : (2 <= N)%nat).
      { assert (1 <= 2 ^ Z.of_nat l) by lia. lia. }
      apply (bisectLevel_bisecting p0 b0 N) in Hlevel;
        [ | exact Hdist | exact Hshift | eexists; exact HNl | exact Hlt
          | apply (bisecting_frame p0 b0 N s); [exact HJ | reflexivity ..] ].
      run_bind Hrun x s3 Hx. unfold do_rand in Hx.
      destruct (rand E _) as [x' rx] in Hx. inversion Hx; subst x' s3; clear Hx.
      assert (HJ3 : bisecting p0 b0 N (set_random rx s2))
        by (apply (bisecting_frame p0 b0 N s2); [exact Hlevel | reflexivity ..]).
      destruct (_ <? _)%D.
      + run_bind Hrun u1 s4 Hkeep.
        destruct (bool_decide (Z.of_nat (S l) = 1)) eqn:Hone.
        * apply bool_decide_eq_true_1 in Hone.
          run_bind Hkeep u2 s5 Hk. inversion Hkeep; subst s5 u1; clear Hkeep.
          inversion Hk; subst s4; clear Hk.
          apply (IH _ _ _ _ ltac:(lia)) in Hrun; [exact Hrun | | intros _; left; reflexivity].
          apply (bisecting_frame p0 b0 N (set_random rx s2)); [exact HJ3 | reflexivity ..].
        * apply bool_decide_eq_false_1 in Hone.
          inversion Hkeep; subst s4 u1; clear Hkeep.
          apply (IH _ _ _ _ ltac:(lia)) in Hrun; [exact Hrun | exact HJ3 | intros ->; lia].
      + run_bind Hrun u1 s4 Hundo. inversion Hrun; subst s4; clear Hrun.
        destruct (BisectionMove_undoMove_restores p0 b0 N fuel _ _ _ Hdist HN2 Hprev HJ3 Hundo)
          as [Hp Hs].
        split; [right; exact Hp | exact Hs].
  Qed.

Lemma startBead_bisectLevels fuel l oldDeltaAction (s s' : Sim D R) (u : unit) :
    bisectLevels E fuel l oldDeltaAction s = Some (u, s') ->
    startBead (mv s') = startBead (mv s).
  Proof.
    assert (Hpre : PreOrder (fun s s' : Sim D R => startBead (mv s') = startBead (mv s))).
    { split.
      - intros s1. reflexivity.
      - intros s1 s2 s3 H12 H23. congruence. }
    revert s u s'.
    change (respects (fun s s' : Sim D R => startBead (mv s') = startBead (mv s))
              (bisectLevels E fuel l oldDeltaAction)).
    revert oldDeltaAction. induction l as [|l IH]; intros oldDeltaAction.
    - apply respects_ret, _.
    - rewrite bisectLevels_S. respects_with ltac:(cbv beta; reflexivity) ltac:(apply IH).
  Qed.

  (** Whenever the bisection returns [false], from a number of active
      beads that is [2^numLevels - 1], with the beads of the stage distinct
      and [prev] the inverse of [next] at its end, the path is the one it
      started from. *)
Lemma BisectionMove_attemptMove_restores fuel (s s' : Sim D R) :
    BisectionMove_attemptMove E fuel s = Some (false, s') ->
    let b0 := startBead (mv s') in
    let N := Z.to_nat (numActiveBeads (mv s) + 1) in
    0 <= numLevels (mv s) ->
    numActiveBeads (mv s) + 1 = 2 ^ numLevels (mv s) ->
    (forall i i', (1 <= i < N)%nat -> (1 <= i' < N)%nat ->
       Nat.iter i (next (path s)) b0 = Nat.iter i' (next (path s)) b0 -> i = i') ->
    prev (path s) (Nat.iter N (next (path s)) b0) = Nat.iter (N - 1) (next (path s)) b0 ->
    path s' = path s.
  Proof.
    intros Hrun b0 N HL HN Hdist Hprev. unfold BisectionMove_attemptMove in Hrun.
    run_pure Hrun u0 st0.
    destruct (negb (local E)); [inversion Hrun; subst; reflexivity|].
    run_pure Hrun p st1. cbn [path set_mv] in Hrun.
    run_bind Hrun r0 sta Hr0. unfold do_randInt in Hr0.
    destruct (randInt E _ _) as [r0' ra] in Hr0. inversion Hr0; subst r0' sta; clear Hr0.
    run_pure Hrun u1 st2.
    destruct (bool_decide (numBeads (path s) r0 = 0));
      [inversion Hrun; subst; reflexivity|].
    run_bind Hrun r1 stb Hr1. unfold do_randInt in Hr1.
    destruct (randInt E _ _) as [r1' rb] in Hr1. inversion Hr1; subst r1' stb; clear Hr1.
    run_pure Hrun u2 st3. run_pure Hrun m st4.
    cbn [mv set_mv set_random numActiveBeads set_startBead set_success numLevels] in Hrun.
    destruct (activeTrajectory _ _ _) as [endB|] eqn:Hact;
      [|inversion Hrun; subst; reflexivity].
    apply activeTrajectory_iter in Hact. fold N in Hact.
    run_pure Hrun u3 st5. run_pure Hrun u4 st6. run_pure Hrun u5 st7. run_pure Hrun u6 st8.
    run_pure Hrun u7 st9. run_pure Hrun u8 st10.
    run_bind Hrun u9 s1 Hlevels. inversion Hrun as [[Hfalse Hs]]; subst s1; clear Hrun.
    pose proof (startBead_bisectLevels _ _ _ _ _ _ Hlevels) as Hstart.
    cbn in Hstart. unfold b0 in Hdist, Hprev. rewrite Hstart in Hdist, Hprev.
    eapply (bisectLevels_restores (path s) (r0, r1) (Z.to_nat (numLevels (mv s))) N fuel)
      in Hlevels as [[Htrue|Hpath] _].
    - congruence.
    - exact Hpath.
    - unfold N. rewrite !Z2Nat.id by lia. exact HN.
    - exact Hdist.
    - exact Hprev.
    - lia.
    - split; [reflexivity|]. split; [intros i Hi; reflexivity|].
      split; [intros c Hc; reflexivity|]. split; [reflexivity | exact Hact].
    - intros _. right. reflexivity.
  Qed.
End BisectionRestores.

(** X15.  A rejected bisection restores the path exactly, in any
    arithmetic.  Let the move object be as its constructor leaves it,
    [numActiveBeads = 2^numLevels - 1], and let the [numActiveBeads] beads
    that follow the start bead drawn be distinct, with [prev] leading back
    from [endBead] to the last of them.  Whenever [attemptMove] then
    returns [false], at whatever level the Metropolis test failed, the
    path is the one it started from: each level saves the position of a
    bead in [originalPos] before it moves it and clears its [include]
    flag, and [undoMove] writes the saved position back to every bead
    whose flag is cleared. *)
Theorem X15_rejected_bisection_restores_the_path
    {D : Type} `{Double D} {R : Type} (E : Env D R) (fuel : nat) (s s' : Sim D R) :
  attemptMove E Bisection fuel s = Some (false, s') ->
  let b0 := startBead (mv s') in
  let N := Z.to_nat (numActiveBeads (mv s) + 1) in
  0 <= numLevels (mv s) ->
  numActiveBeads (mv s) + 1 = 2 ^ numLevels (mv s) ->
  (forall i i', (1 <= i < N)%nat -> (1 <= i' < N)%nat ->
     Nat.iter i (next (path s)) b0 = Nat.iter i' (next (path s)) b0 -> i = i') ->
  prev (path s) (Nat.iter N (next (path s)) b0) = Nat.iter (N - 1) (next (path s)) b0 ->
  path s' = path s.
Proof. apply BisectionMove_attemptMove_restores. Qed.

(** A bisection of one level that is rejected, in floating point: the
    start bead drawn is (1,1), [undoMove] is called, and the path is bit
    for bit the one of the start. *)
Lemma X15_rejected_bisection_witness :
  exists s',
    bench_run Bisection true bench_path bench_tape_reject = Some (false, s')
    /\ undoCalls s' = 1%nat /\ path s' = bench_path.
Proof.
  assert (Hfacts : match bench_run Bisection true bench_path bench_tape_reject with
                   | Some (r, s') =>
                       r = false /\ undoCalls s' = 1%nat /\ startBead (mv s') = (1, 1)
                   | None => False
                   end) by (vm_compute; repeat split).
  revert Hfacts.
  destruct (bench_run Bisection true bench_path bench_tape_reject)
    as [[r s']|] eqn:Hrun; intros Hfacts; [|destruct Hfacts].
  destruct Hfacts as (-> & Hu & Hstart). exists s'. split; [reflexivity|]. split; [exact Hu|].
  apply (X15_rejected_bisection_restores_the_path (bench_env true) 20
           (bench_sim bench_path bench_tape_reject) s' Hrun).
  - cbn. lia.
  - reflexivity.
  - intros i i' Hi Hi' _. cbn in Hi, Hi'. lia.
  - rewrite Hstart. vm_compute. reflexivity.
Defined.

(* ===================================================================== *)
(** * The swap moves conserve the beads                                   *)
(* ===================================================================== *)

Section SwapConserves.
  Context {D : Type} `{Double D} {R : Type} (E : Env D R).

#[local] Instance beadsConserved_preorder : PreOrder (@beadsConserved D R).
  Proof.
    split.
    - intros s. split; reflexivity.
    - intros s1 s2 s3 (Hd & Hc) (Hd' & Hc'). split; congruence.
  Qed.

Ltac conserved_side :=
    split; cbn; [ first [ reflexivity | apply dom_alter_L ] | reflexivity ].

Lemma beadsConserved_SwapHead fuel :
    respects beadsConserved (SwapHeadMove_attemptMove E fuel).
  Proof. respects_with conserved_side fail. Qed.

Lemma beadsConserved_SwapTail fuel :
    respects beadsConserved (SwapTailMove_attemptMove E fuel).
  Proof. respects_with conserved_side fail. Qed.
End SwapConserves.

(** X16.  The swap moves create and delete no bead: whenever
    [SwapHeadMove::attemptMove] or [SwapTailMove::attemptMove] returns,
    accepted or rejected, the live beads and the number of beads of every
    slice are the ones it started from.  They relink worldlines and
    displace beads, nothing more. *)
Theorem X16_swap_moves_conserve_the_beads
    {D : Type} `{Double D} {R : Type} (E : Env D R) (m : Move) (fuel : nat)
    (s s' : Sim D R) (r : bool) :
  m = SwapHead \/ m = SwapTail ->
  attemptMove E m fuel s = Some (r, s') ->
  beadsConserved s s'.
Proof.
  intros [->| ->] Hrun; unfold attemptMove in Hrun.
  - exact (beadsConserved_SwapHead E fuel s r s' Hrun).
  - exact (beadsConserved_SwapTail E fuel s r s' Hrun).
Qed.

(** An accepted swap of the tail: the number of beads of every slice is as
    before. *)
Lemma X16_swap_moves_witness :
  exists s',
    bench_run SwapTail true bench_wormPath bench_tape_accept = Some (true, s') /\
    numBeadsAtSlice (path s') = numBeadsAtSlice bench_wormPath.
Proof.
  assert (Hfacts : match bench_run SwapTail true bench_wormPath bench_tape_accept with
                   | Some (r, _) => r = true
                   | None => False
                   end) by (vm_compute; reflexivity).
  revert Hfacts.
  destruct (bench_run SwapTail true bench_wormPath bench_tape_accept)
    as [[r s']|] eqn:Hrun; intros Hfacts; [|destruct Hfacts].
  subst r. exists s'. split; [reflexivity|].
  destruct (X16_swap_moves_conserve_the_beads (bench_env true) SwapTail 20
              (bench_sim bench_wormPath bench_tape_accept) s' true
              ltac:(right; reflexivity) Hrun) as [_ Hc].
  exact Hc.
Defined.
